(** * A shallow embedding of myshell.c

    The development follows the layout of the C source: the token vector and
    the process-wide globals, the lexer's rule actions, the two parsers
    ([parse_single_command], [parse_multiple_commands]) with
    [slice_argv_from_vec], the builtin dispatcher, and the process launcher
    ([launch_process], [launch_process_chain]) driven from [shell_eval].

    Conventions.
    - C [int] and [size_t] values are [Z]; the two places where unsigned
      wrap-around matters ([idx - 1] with [idx = 0] handed to
      [slice_argv_from_vec] as a [size_t], and [strlen(yytext) - 2] in the
      quoted-string action) are written out with [size_wrap].
    - A [vec_t] of [char *] is a [list string]: [npos] is its length and
      [data[i]] for [i < npos] is its [i]-th element.  A read at an index
      outside [0 .. npos-1] is an out-of-bounds access: [Oob].
    - Heap allocation is taken to succeed ([malloc], [strdup], [vec_push]).
    - A process is described by the calls it makes (its trace) and by how it
      stops; what the trace leaves out is said where [event] is declared. *)

From Stdlib Require Import ZArith List String Ascii Bool Lia.
Import ListNotations.
Open Scope string_scope.
Open Scope list_scope.
Open Scope Z_scope.

(** [length] is the length of a list throughout; a C string's is [String.length]. *)
Abbreviation length := List.length (only parsing).

(* ================================================================== *)
(** * Results of partial computations *)

(** [Ok a]: the C code ran to a result; [Oob]: it read or wrote outside an
    array (undefined behaviour in C); [OutOfFuel]: the model's loop bound was
    too small (never the case for the entry points, see the [*_fuel] lemmas). *)
Inductive res (A : Type) : Type :=
| Ok (a : A)
| Oob
| OutOfFuel.
Arguments Ok {A} a.
Arguments Oob {A}.
Arguments OutOfFuel {A}.

Definition res_bind {A B} (r : res A) (k : A -> res B) : res B :=
  match r with
  | Ok a => k a
  | Oob => Oob
  | OutOfFuel => OutOfFuel
  end.

Notation "'let*' x ':=' r 'in' k" := (res_bind r (fun x => k))
  (at level 10, x pattern, r at level 100, k at level 200).

(* ================================================================== *)
(** * Constants, globals and the data model *)

Definition READ_BUFFER_SIZE : Z := 512.
Definition VEC_GROWTH_RATE : Z := 2.
Definition NUM_BUILTINS : Z := 2.

(** [sizeof(char * )] and the width of [size_t] on the LP64 targets the shell
    is built for. *)
Definition cp_size : Z := 8.
Definition size_wrap (z : Z) : Z := z mod 2 ^ 64.

Record command_t : Type := mk_command {
  argv : option (list (option string)); (* [char **]: [None] is the NULL pointer,
                                           a slot [None] is a NULL entry *)
  dest : option string;
  src : option string;
  is_bkg_proc : bool
}.

(** [memset(&command, 0, sizeof(command_t))] *)
Definition command_zero : command_t := mk_command None None None false.

Definition set_argv (c : command_t) (a : list (option string)) : command_t :=
  mk_command (Some a) (dest c) (src c) (is_bkg_proc c).
Definition set_dest (c : command_t) (d : string) : command_t :=
  mk_command (argv c) (Some d) (src c) (is_bkg_proc c).
Definition set_src (c : command_t) (s : string) : command_t :=
  mk_command (argv c) (dest c) (Some s) (is_bkg_proc c).

Record globals : Type := mk_globals {
  global_num_pipes : Z;
  global_num_commands : Z;
  global_print_shell_context : bool;
  global_bkg_proc : bool;
  global_builtin_idxs : list Z;        (* [int global_builtin_idxs[NUM_BUILTINS]] *)
  global_num_builtins : Z
}.

(** The values the globals have when [main] starts. *)
Definition globals_init : globals := mk_globals 0 1 true false [0; 0] 0.

Definition set_num_pipes (n : Z) (g : globals) : globals :=
  mk_globals n (global_num_commands g) (global_print_shell_context g)
             (global_bkg_proc g) (global_builtin_idxs g) (global_num_builtins g).
Definition set_num_commands (n : Z) (g : globals) : globals :=
  mk_globals (global_num_pipes g) n (global_print_shell_context g)
             (global_bkg_proc g) (global_builtin_idxs g) (global_num_builtins g).
Definition set_bkg_proc (b : bool) (g : globals) : globals :=
  mk_globals (global_num_pipes g) (global_num_commands g) (global_print_shell_context g)
             b (global_builtin_idxs g) (global_num_builtins g).
Definition set_builtin_idxs (l : list Z) (g : globals) : globals :=
  mk_globals (global_num_pipes g) (global_num_commands g) (global_print_shell_context g)
             (global_bkg_proc g) l (global_num_builtins g).
Definition set_num_builtins (n : Z) (g : globals) : globals :=
  mk_globals (global_num_pipes g) (global_num_commands g) (global_print_shell_context g)
             (global_bkg_proc g) (global_builtin_idxs g) n.

Inductive _parse : Type := PARSE_SUCCESS | PARSE_ERROR.

Definition PIPE_NONE : Z := 0.
Definition PIPE_OUT : Z := 1.
Definition PIPE_IN : Z := 2.

Definition CMD_EXIT : Z := 0.
Definition CMD_CD : Z := 1.

(* ================================================================== *)
(** * The token vector *)

Definition npos {A} (p_vec : list A) : Z := Z.of_nat (List.length p_vec).

(** [data[idx]], defined inside [0 .. npos-1] only. *)
Definition vec_get {A} (p_vec : list A) (idx : Z) : res A :=
  if idx <? 0 then Oob
  else match nth_error p_vec (Z.to_nat idx) with
       | Some a => Ok a
       | None => Oob
       end.

(** [s[0]] of a C string: the terminating NUL when the string is empty. *)
Definition first_char (s : string) : ascii :=
  match s with
  | EmptyString => zero
  | String c _ => c
  end.

(** [vec_contents[idx][0]] *)
Definition tok_char (p_vec : list string) (idx : Z) : res ascii :=
  let* s := vec_get p_vec idx in Ok (first_char s).

(** [vec_push]: the element is stored at [npos] and [npos] grows by one. *)
Definition vec_push {A} (p_vec : list A) (p_element : A) : list A :=
  p_vec ++ [p_element].

(* ================================================================== *)
(** * slice_argv_from_vec *)

(** [len = (end_pos + 2 - start_pos) * cp_size] bytes are allocated,
    [len - cp_size] bytes are copied from [data + start_pos * cp_size], and the
    last slot, [argv[len / cp_size - 1]], is set to NULL.  All arithmetic is
    [size_t]; the copy must stay inside the [npos] used slots of the vector. *)
Definition slice_argv_from_vec (p_vec : list string) (start_pos end_pos : Z)
  : res (list (option string)) :=
  let start_pos := size_wrap start_pos in
  let end_pos := size_wrap end_pos in
  let len := size_wrap (size_wrap (size_wrap (end_pos + 2) - start_pos) * cp_size) in
  let copied := size_wrap (len - cp_size) in
  if (start_pos * cp_size + copied <=? npos p_vec * cp_size) && (cp_size <=? len) then
    Ok (map Some (firstn (Z.to_nat (copied / cp_size))
                         (skipn (Z.to_nat start_pos) p_vec))
        ++ [None])
  else Oob.

(* ================================================================== *)
(** * parse_single_command *)

(** [if (!p_command->argv) p_command->argv = slice_argv_from_vec(p_vec, 0, end_pos);] *)
Definition ensure_argv (p_vec : list string) (p_command : command_t) (end_pos : Z)
  : res command_t :=
  match argv p_command with
  | Some _ => Ok p_command
  | None => let* a := slice_argv_from_vec p_vec 0 end_pos in Ok (set_argv p_command a)
  end.

(** [next == '>' || next == '<' || next == '|'] *)
Definition single_bad_next (next : ascii) : bool :=
  (next =? ">")%char || (next =? "<")%char || (next =? "|")%char.

(** The [for] loop of [parse_single_command]; one unfolding is one iteration,
    entered with the loop variable [idx].  The result carries what the caller
    sees afterwards: the return code, [*p_command] and the globals. *)
Fixpoint parse_single_loop (fuel : nat) (p_vec : list string) (idx : Z)
    (p_command : command_t) (seen_command : bool) (g : globals)
  : res (_parse * command_t * globals) :=
  if negb (idx <? npos p_vec) then Ok (PARSE_SUCCESS, p_command, g) else
  match fuel with
  | O => OutOfFuel
  | S fuel' =>
    let* c := tok_char p_vec idx in
    if (c =? "<")%char then
      if idx + 1 =? npos p_vec then Ok (PARSE_ERROR, p_command, g) else
      let* next := tok_char p_vec (idx + 1) in
      if single_bad_next next then Ok (PARSE_ERROR, p_command, g) else
      let* p_command := ensure_argv p_vec p_command (idx - 1) in
      if idx + 1 =? npos p_vec then Ok (PARSE_ERROR, p_command, g) else
      let* file := vec_get p_vec (idx + 1) in
      let p_command := set_src p_command file in
      parse_single_loop fuel' p_vec (idx + 1 + 1) p_command seen_command g
    else if (c =? ">")%char then
      if idx + 1 =? npos p_vec then Ok (PARSE_ERROR, p_command, g) else
      let* next := tok_char p_vec (idx + 1) in
      if single_bad_next next then Ok (PARSE_ERROR, p_command, g) else
      let* p_command := ensure_argv p_vec p_command (idx - 1) in
      if idx + 1 =? npos p_vec then Ok (PARSE_ERROR, p_command, g) else
      let* file := vec_get p_vec (idx + 1) in
      let p_command := set_dest p_command file in
      parse_single_loop fuel' p_vec (idx + 1 + 1) p_command seen_command g
    else if (c =? "&")%char then
      if negb (idx + 1 =? npos p_vec) then Ok (PARSE_ERROR, p_command, g) else
      let* p_command := ensure_argv p_vec p_command (idx - 1) in
      let g := set_bkg_proc true g in
      parse_single_loop fuel' p_vec (idx + 1) p_command seen_command g
    else
      if (idx + 1 =? npos p_vec) && negb seen_command then
        let* p_command := ensure_argv p_vec p_command idx in
        parse_single_loop fuel' p_vec (idx + 1) p_command true g
      else
        parse_single_loop fuel' p_vec (idx + 1) p_command seen_command g
  end.

Definition parse_single_command (p_vec : list string) (p_command : command_t)
    (g : globals) : res (_parse * command_t * globals) :=
  let g := set_num_pipes 0 g in
  if npos p_vec =? 0 then Ok (PARSE_ERROR, p_command, g) else
  parse_single_loop (List.length p_vec) p_vec 0 p_command false g.

(* ================================================================== *)
(** * parse_multiple_commands *)

(** The [while] loop that seeks the end of the first command.  It is entered
    with [current_first_character = token_vec_contents[idx][0]] and yields
    [None] when it returns [PARSE_ERROR], otherwise the [idx] and character it
    stopped at. *)
Fixpoint seek_first_command_end (fuel : nat) (p_vec : list string) (idx : Z)
    (current_first_character : ascii) : res (option (Z * ascii)) :=
  if negb ((current_first_character =? "|")%char)
     && negb ((current_first_character =? "<")%char)
     && negb ((current_first_character =? "&")%char)
  then
    match fuel with
    | O => OutOfFuel
    | S fuel' =>
      if (current_first_character =? ">")%char then Ok None else
      let idx := idx + 1 in
      let* c := tok_char p_vec idx in
      seek_first_command_end fuel' p_vec idx c
    end
  else Ok (Some (idx, current_first_character)).

(** [next == '<' || next == '>' || next == '&'] *)
Definition multi_bad_next (next : ascii) : bool :=
  (next =? "<")%char || (next =? ">")%char || (next =? "&")%char.

(** The inner [for] of the ['>'] case: is there a token starting with ['|']
    at an index [inner_idx] with [idx <= inner_idx < npos - 1]? *)
Definition pipe_before_last (p_vec : list string) (idx : Z) : bool :=
  existsb (fun tok => (first_char tok =? "|")%char)
          (firstn (Z.to_nat (npos p_vec - 1 - idx)) (skipn (Z.to_nat idx) p_vec)).

(** The main [for] loop of [parse_multiple_commands]. *)
Fixpoint parse_multiple_loop (fuel : nat) (p_vec : list string) (idx : Z)
    (command_start_idx : Z) (current_command : command_t) (seen_command : bool)
    (p_command_vec : list command_t) (g : globals)
  : res (_parse * list command_t * globals) :=
  if negb (idx <? npos p_vec) then
    (* after the loop *)
    if seen_command then
      let* a := slice_argv_from_vec p_vec command_start_idx (idx - 1) in
      Ok (PARSE_SUCCESS, vec_push p_command_vec (set_argv current_command a), g)
    else Ok (PARSE_SUCCESS, p_command_vec, g)
  else
  match fuel with
  | O => OutOfFuel
  | S fuel' =>
    let* c := tok_char p_vec idx in
    if (c =? "|")%char then
      if negb seen_command then Ok (PARSE_ERROR, p_command_vec, g) else
      if idx + 1 =? npos p_vec then Ok (PARSE_ERROR, p_command_vec, g) else
      let* next := tok_char p_vec (idx + 1) in
      if multi_bad_next next then Ok (PARSE_ERROR, p_command_vec, g) else
      let* a := slice_argv_from_vec p_vec command_start_idx (idx - 1) in
      let current_command := set_argv current_command a in
      let command_start_idx := idx + 1 in
      let p_command_vec := vec_push p_command_vec current_command in
      parse_multiple_loop fuel' p_vec (idx + 1) command_start_idx command_zero false
                          p_command_vec g
    else if (c =? "<")%char then
      Ok (PARSE_ERROR, p_command_vec, g)
    else if (c =? ">")%char then
      if negb seen_command then Ok (PARSE_ERROR, p_command_vec, g) else
      if idx + 1 =? npos p_vec then Ok (PARSE_ERROR, p_command_vec, g) else
      if pipe_before_last p_vec idx then Ok (PARSE_ERROR, p_command_vec, g) else
      let* next := tok_char p_vec (idx + 1) in
      if multi_bad_next next then Ok (PARSE_ERROR, p_command_vec, g) else
      let* a := slice_argv_from_vec p_vec command_start_idx (idx - 1) in
      let current_command := set_argv current_command a in
      let* file := vec_get p_vec (idx + 1) in
      let current_command := set_dest current_command file in
      let p_command_vec := vec_push p_command_vec current_command in
      parse_multiple_loop fuel' p_vec (idx + 1 + 1) command_start_idx command_zero false
                          p_command_vec g
    else if (c =? "&")%char then
      if negb (idx + 1 =? npos p_vec) then Ok (PARSE_ERROR, p_command_vec, g) else
      if seen_command then
        let* a := slice_argv_from_vec p_vec command_start_idx (idx - 1) in
        let current_command := set_argv current_command a in
        let p_command_vec := vec_push p_command_vec current_command in
        parse_multiple_loop fuel' p_vec (idx + 1) command_start_idx current_command false
                            p_command_vec (set_bkg_proc true g)
      else
        parse_multiple_loop fuel' p_vec (idx + 1) command_start_idx current_command
                            seen_command p_command_vec (set_bkg_proc true g)
    else
      if negb seen_command then
        parse_multiple_loop fuel' p_vec (idx + 1) idx current_command true p_command_vec g
      else
        parse_multiple_loop fuel' p_vec (idx + 1) command_start_idx current_command
                            seen_command p_command_vec g
  end.

Definition parse_multiple_commands (p_vec : list string) (p_command_vec : list command_t)
    (g : globals) : res (_parse * list command_t * globals) :=
  let current_command := command_zero in
  let* current_first_character := tok_char p_vec 0 in
  let command_start_idx := 0 in
  let* sought := seek_first_command_end (List.length p_vec) p_vec 0 current_first_character in
  match sought with
  | None => Ok (PARSE_ERROR, p_command_vec, g)
  | Some (idx, current_first_character) =>
    let* a := slice_argv_from_vec p_vec command_start_idx (idx - 1) in
    let current_command := set_argv current_command a in
    let* (current_command, idx) :=
      (if (current_first_character =? "<")%char && (idx + 3 <? npos p_vec) then
         let* file := vec_get p_vec (idx + 1) in
         (* skip the file name, as well as the anticipated pipe *)
         Ok (set_src current_command file, idx + 2)
       else Ok (current_command, idx)) in
    let idx := idx + 1 in
    let command_start_idx := idx in
    let p_command_vec := vec_push p_command_vec current_command in
    parse_multiple_loop (List.length p_vec) p_vec idx command_start_idx command_zero false
                        p_command_vec g
  end.

(* ================================================================== *)
(** * The scanner's rule actions *)

(** The flex rules of the scanner, in the order of the specification; the
    whitespace rule and the default (echo) rule push nothing and change no
    global, so a scanned line is the sequence of the other matches. *)
Inductive lex_rule : Type :=
| RULE_CD          (* "cd" *)
| RULE_EXIT        (* "exit" *)
| RULE_PIPE        (* "|" *)
| RULE_OPERATOR    (* "<" | ">" | "&" *)
| RULE_QUOTED      (* a quoted string, [yytext] includes both quotes *)
| RULE_WORD.       (* [a-zA-Z0-9~@:_/.-]+ *)

Definition lexeme : Type := (lex_rule * string)%type.

(** [vec[i] = v]; an index outside the array is an out-of-bounds write. *)
Fixpoint list_set {A} (l : list A) (i : nat) (v : A) : res (list A) :=
  match l, i with
  | [], _ => Oob
  | _ :: tl, O => Ok (v :: tl)
  | hd :: tl, S i' => let* tl' := list_set tl i' v in Ok (hd :: tl')
  end.

Definition vec_set {A} (l : list A) (idx : Z) (v : A) : res (list A) :=
  if idx <? 0 then Oob else list_set l (Z.to_nat idx) v.

(** [strlen(s)] for the bytes of [s] followed by a NUL: the number of bytes
    before the first NUL.  The scanner stores a NUL at [yytext[yyleng]], and
    a match of the quoted-string rule may hold NUL bytes of its own. *)
Fixpoint strlen (s : string) : nat :=
  match s with
  | EmptyString => 0
  | String c s' => if (c =? Ascii.zero)%char then 0 else S (strlen s')
  end.

(** One rule action, on the lexer's target vector and the globals.  The
    texts of the other rules hold no NUL, so that [strdup(yytext)] is
    [yytext].  The quoted-string action measures [yytext] with [strlen] and
    copies [len] bytes from [yytext + 1]: they are bytes of the string when
    [len <= strlen(yytext)]; otherwise [len] has wrapped around to
    [2 ^ 64 - 1] or [2 ^ 64 - 2] and the copy leaves every object. *)
Definition yylex_action (lx : lexeme) (st : list string * globals)
  : res (list string * globals) :=
  let '(rule, yytext) := lx in
  let '(target, g) := st in
  match rule with
  | RULE_CD =>
      let target := vec_push target yytext in
      let* idxs := vec_set (global_builtin_idxs g) CMD_CD (global_num_commands g - 1) in
      let g := set_builtin_idxs idxs g in
      Ok (target, set_num_builtins (global_num_builtins g + 1) g)
  | RULE_EXIT =>
      let target := vec_push target yytext in
      let* idxs := vec_set (global_builtin_idxs g) CMD_EXIT (global_num_commands g - 1) in
      let g := set_builtin_idxs idxs g in
      Ok (target, set_num_builtins (global_num_builtins g + 1) g)
  | RULE_PIPE =>
      let target := vec_push target yytext in
      Ok (target, set_num_commands (global_num_commands g + 1) g)
  | RULE_OPERATOR => Ok (vec_push target yytext, g)
  | RULE_QUOTED =>
      let len := size_wrap (Z.of_nat (strlen yytext) - 2) in
      if 0 <? len then
        (* [tok = malloc(len + 1); memcpy(tok, yytext + 1, len); tok[len] = 0] *)
        if len <=? Z.of_nat (strlen yytext)
        then Ok (vec_push target (substring 1 (Z.to_nat len) yytext), g)
        else Oob
      else Ok (target, g)
  | RULE_WORD => Ok (vec_push target yytext, g)
  end.

(** [yylex] over the matches of one buffer. *)
Fixpoint lexer_parse_buffer (buffer : list lexeme) (st : list string * globals)
  : res (list string * globals) :=
  match buffer with
  | [] => Ok st
  | lx :: rest => let* st := yylex_action lx st in lexer_parse_buffer rest st
  end.

(** The text a rule can match. *)
Definition is_operator_text (s : string) : bool :=
  String.eqb s "<" || String.eqb s ">" || String.eqb s "&".

Definition word_char (c : ascii) : bool :=
  let n := Z.of_nat (nat_of_ascii c) in
  ((97 <=? n) && (n <=? 122)) || ((65 <=? n) && (n <=? 90)) || ((48 <=? n) && (n <=? 57))
  || (c =? "~")%char || (c =? "@")%char || (c =? ":")%char || (c =? "_")%char
  || (c =? "/")%char || (c =? ".")%char || (c =? "-")%char.

Fixpoint all_chars (p : ascii -> bool) (s : string) : bool :=
  match s with
  | EmptyString => true
  | String c s' => p c && all_chars p s'
  end.

Definition double_quote : ascii := ascii_of_nat 34.

(** Flex takes the longest match and, among equal lengths, the first rule:
    a word-shaped text that is exactly [cd] or [exit] is matched by the builtin
    rule, never by the word rule. *)
Definition lexeme_matches (lx : lexeme) : bool :=
  let '(rule, yytext) := lx in
  match rule with
  | RULE_CD => String.eqb yytext "cd"
  | RULE_EXIT => String.eqb yytext "exit"
  | RULE_PIPE => String.eqb yytext "|"
  | RULE_OPERATOR => is_operator_text yytext
  | RULE_QUOTED =>
      (2 <=? Z.of_nat (String.length yytext))
      && match String.get 0 yytext, String.get (String.length yytext - 1) yytext with
         | Some opening, Some closing =>
             (opening =? double_quote)%char && (closing =? double_quote)%char
         | _, _ => false
         end
  | RULE_WORD => negb (String.eqb yytext "") && all_chars word_char yytext
                 && negb (String.eqb yytext "cd") && negb (String.eqb yytext "exit")
  end.

(* ================================================================== *)
(** * Processes and the operating system *)

(** File descriptors stored in [fd[]]: [pipe(&fd[2*k])] stores the read end of
    the new pipe in [fd[2*k]] and its write end in [fd[2*k+1]].  [pipe] is
    taken to succeed, as the code takes it: it does not look at the result. *)
Inductive descriptor : Type :=
| PipeRead (k : Z)
| PipeWrite (k : Z).

Definition descriptor_eqb (a b : descriptor) : bool :=
  match a, b with
  | PipeRead j, PipeRead k => j =? k
  | PipeWrite j, PipeWrite k => j =? k
  | _, _ => false
  end.

Definition STDIN_FILENO : Z := 0.
Definition STDOUT_FILENO : Z := 1.
Definition EXIT_SUCCESS : Z := 0.
Definition EXIT_FAILURE : Z := 1.

(** The library and system calls a process makes, in program order: those
    that create processes and wait for them, change the working directory,
    work on descriptors and report errors.  Three things the code does are
    not calls of the trace.  The read of a line ([fgets]) is the [line] that
    [shell_read] is given.  The scanner's own stream [yyout] -- the file
    [.flex_errors], which the first call of [yylex] opens, to which the
    default rule writes the bytes no rule matches, and which is closed before
    [exit(EXIT_SUCCESS)] -- is left out.  So is the heap ([malloc], [free],
    [vec_free]); the vector is treated on its own below. *)
Inductive event : Type :=
| EvPuts (s : string)
| EvPerror (s : string)
| EvChdir (path : string) (result : Z)
| EvPipe (read_end write_end : descriptor)
| EvFork (result : Z)
| EvFopen (path : string) (mode : string) (opened : bool)
| EvFcloseStd (fileno : Z)                 (* [fclose(stdin)], [fclose(stdout)] *)
| EvDupFileno (path : string)              (* [dup(fileno(p))] *)
| EvFclose (path : string)
| EvDup2 (oldfd : descriptor) (newfd : Z)
| EvClose (fd : descriptor)
| EvExecvp (file : option string) (args : list (option string))
| EvWaitpid (pid : Z)
| EvSignal (sig handler : string).         (* [signal(sig, handler)] *)

(** How a process stops running the shell's code. *)
Inductive halt : Type :=
| Exited (status : Z)     (* [exit(status)] *)
| Execd                   (* [execvp] replaced the process image *)
| Crashed.                (* undefined behaviour: NULL or out-of-bounds access *)

Inductive outcome (A : Type) : Type :=
| Returned (a : A)
| Halted (h : halt).
Arguments Returned {A} a.
Arguments Halted {A} h.

(** A child process: what [fork] returned for it in the parent, the stage
    index [launch_process] was called with, the calls it makes and how its
    run of the shell's code ends. *)
Record child_proc : Type := mk_child {
  child_pid : Z;
  child_stage : Z;
  child_trace : list event;
  child_end : outcome Z
}.

Record proc_state : Type := mk_state {
  st_globals : globals;
  st_cwd : string;
  st_trace : list event;          (* oldest event first *)
  st_forks : nat;                 (* [fork] calls made so far *)
  st_children : list child_proc   (* children forked so far, oldest first;
                                     reaping is not modelled *)
}.

(** What the environment decides. *)
Record os_env : Type := mk_os {
  os_getenv_HOME : option string;              (* [getenv("HOME")] *)
  os_pw_dir : option string;                   (* [getpwuid(getuid())->pw_dir];
                                                  [None]: [getpwuid] gave NULL *)
  os_chdir : string -> string -> option string; (* from a directory, [chdir(path)]:
                                                  the new directory, or failure *)
  os_fork : nat -> option positive;            (* the n-th [fork]: a pid, or -1 *)
  os_fopen : string -> bool;                   (* does [fopen(path, _)] succeed *)
  os_execvp : option string -> bool            (* does [execvp(file, _)] succeed *)
}.

Definition M (A : Type) : Type := proc_state -> outcome A * proc_state.

Definition ret {A} (a : A) : M A := fun s => (Returned a, s).

Definition bind {A B} (m : M A) (k : A -> M B) : M B :=
  fun s => match m s with
           | (Returned a, s') => k a s'
           | (Halted h, s') => (Halted h, s')
           end.

Notation "x <- m ;; k" := (bind m (fun x => k))
  (at level 61, m at next level, right associativity).
Notation "m ;; k" := (bind m (fun _ => k))
  (at level 61, right associativity).

Definition halt_with {A} (h : halt) : M A := fun s => (Halted h, s).

Definition get_globals : M globals := fun s => (Returned (st_globals s), s).

Definition modify_globals (f : globals -> globals) : M unit :=
  fun s => (Returned tt,
            mk_state (f (st_globals s)) (st_cwd s) (st_trace s) (st_forks s) (st_children s)).

(** The state after further calls [l]. *)
Definition append_trace (s : proc_state) (l : list event) : proc_state :=
  mk_state (st_globals s) (st_cwd s) (st_trace s ++ l) (st_forks s) (st_children s).

Definition emit (e : event) : M unit :=
  fun s => (Returned tt, append_trace s [e]).

(** An out-of-bounds access ends the process; the loop bound of a parser is
    never exhausted (see [parse_single_command_fuel] and
    [parse_multiple_commands_fuel]). *)
Definition lift {A} (r : res A) : M A :=
  match r with
  | Ok a => ret a
  | Oob => halt_with Crashed
  | OutOfFuel => halt_with Crashed
  end.

(** [for (idx = lo; idx < hi; idx += 1) acc = body(idx, acc);] for a body that
    leaves [idx] and [hi] alone. *)
Fixpoint for_count {T} (n : nat) (idx : Z) (body : Z -> T -> M T) (acc : T) : M T :=
  match n with
  | O => ret acc
  | S n' => acc' <- body idx acc ;; for_count n' (idx + 1) body acc'
  end.

Definition for_range {T} (lo hi : Z) (body : Z -> T -> M T) (acc : T) : M T :=
  for_count (Z.to_nat (hi - lo)) lo body acc.

Definition puts (s : string) : M unit := emit (EvPuts s).
Definition perror (s : string) : M unit := emit (EvPerror s).
Definition exit_ {A} (status : Z) : M A := halt_with (Exited status).
(** [waitpid(pid, &status, WUNTRACED | WCONTINUED)], whose result the code
    does not look at.  The call is recorded and the run goes on: what is
    described are the runs in which each wait comes back, as it does when the
    child ends, stops or continues, or has been reaped by [sigchld_handler]
    already.  How long a wait lasts, and whether it ends, is the child's
    matter. *)
Definition waitpid (pid : Z) : M unit := emit (EvWaitpid pid).
Definition signal (sig handler : string) : M unit := emit (EvSignal sig handler).
Definition close (fd : descriptor) : M unit := emit (EvClose fd).
Definition dup2 (oldfd : descriptor) (newfd : Z) : M unit := emit (EvDup2 oldfd newfd).

(** The children a [waitpid(pid, ...)] call waits for: any child when [pid]
    is -1, the child with that process id when [pid] is positive. *)
Definition waitpid_selects (pid : Z) (c : child_proc) : bool :=
  (pid =? -1) || ((0 <? pid) && (pid =? child_pid c)).

Section Shell.

(** The environment the shell runs in. *)
Variable os : os_env.

(** [chdir(path)]: 0 and a new working directory, or -1 and no change. *)
Definition chdir (path : string) : M Z :=
  fun s =>
    match os_chdir os (st_cwd s) path with
    | Some dir =>
        (Returned 0,
         mk_state (st_globals s) dir (st_trace s ++ [EvChdir path 0]) (st_forks s)
                  (st_children s))
    | None => (Returned (-1), append_trace s [EvChdir path (-1)])
    end.

(** [pid = fork(); k(pid)]: in the parent [k] continues with the child's pid
    or with -1; a created child continues with 0 from a copy of the parent's
    state and is entered in the parent's table of children. *)
Definition fork (stage : Z) (k : Z -> M Z) : M Z :=
  fun s =>
    match os_fork os (st_forks s) with
    | None =>
        k (-1) (mk_state (st_globals s) (st_cwd s) (st_trace s ++ [EvFork (-1)])
                         (S (st_forks s)) (st_children s))
    | Some p =>
        let '(child_result, child_state) :=
          k 0 (mk_state (st_globals s) (st_cwd s) [] 0 []) in
        let c := mk_child (Z.pos p) stage (st_trace child_state) child_result in
        k (Z.pos p) (mk_state (st_globals s) (st_cwd s) (st_trace s ++ [EvFork (Z.pos p)])
                              (S (st_forks s)) (st_children s ++ [c]))
    end.

(* ------------------------------------------------------------------ *)
(** ** The builtin dispatcher *)

Definition parse_builtin_cmds (p_vec : list string) (g : globals) : _parse :=
  if 1 <? global_num_builtins g then PARSE_ERROR
  else if (global_num_builtins g =? 1) && (1 <? global_num_commands g) then PARSE_ERROR
  else if existsb (fun i => 1 <? i) (firstn (Z.to_nat NUM_BUILTINS) (global_builtin_idxs g))
       then PARSE_ERROR
  else PARSE_SUCCESS.

(** [int res = chdir(dir); if (res == -1) perror("ERROR: cd");] *)
Definition cd_to (dir : string) : M unit :=
  res <- chdir dir ;;
  if res =? -1 then perror "ERROR: cd" else ret tt.

(** The body of the [for] loop of [eval_builtin_cmds].  Before
    [exit(EXIT_SUCCESS)] the code frees the token vector and closes [yyout]
    if it is open ([vec_free], [fclose]): heap and scanner stream, which the
    trace leaves out. *)
Definition eval_builtin (p_vec : list string) (i : Z) : M unit :=
  g <- get_globals ;;
  tagged_at <- lift (vec_get (global_builtin_idxs g) i) ;;
  if negb (tagged_at =? -1) then
    if i =? CMD_EXIT then exit_ EXIT_SUCCESS
    else if i =? CMD_CD then
      if npos p_vec =? 1 then
        home_dir <- match os_getenv_HOME os with
                    | Some dir => ret dir
                    | None => match os_pw_dir os with
                              | Some dir => ret dir
                              | None => halt_with Crashed
                              end
                    end ;;
        cd_to home_dir
      else if npos p_vec =? 2 then
        dir <- lift (vec_get p_vec 1) ;;
        cd_to dir
      else puts "ERROR: usage: cd <dir>"
    else ret tt
  else ret tt.

Definition eval_builtin_cmds (p_vec : list string) : M unit :=
  for_range 0 NUM_BUILTINS (fun i _ => eval_builtin p_vec i) tt.

(* ------------------------------------------------------------------ *)
(** ** launch_process *)

(** [FILE * p = fopen(path, mode); fclose(stream); dup(fileno(p));
     if (p) fclose(p);] -- [fileno(NULL)] when the file cannot be opened. *)
Definition redirect_std (path mode : string) (fileno : Z) : M unit :=
  let opened := os_fopen os path in
  emit (EvFopen path mode opened) ;;
  emit (EvFcloseStd fileno) ;;
  if opened then emit (EvDupFileno path) ;; emit (EvFclose path)
  else halt_with Crashed.

(** [close(fd[i])] *)
Definition close_fd (fd : list descriptor) (i : Z) : M unit :=
  d <- lift (vec_get fd i) ;; close d.

(** [case child:] of the [switch (pid)].  [p_command] is a pointer into the
    command vector; it is [Oob] when it points past the vector's last
    element.  [execvp] with a name that is not NULL either replaces the image
    or fails and returns, as the environment decides. *)
Definition launch_process_child (p_command : res command_t) (options : Z)
    (fd : list descriptor) (idx : Z) : M Z :=
  command <- lift p_command ;;
  match dest command with
  | Some path => redirect_std path "w" STDOUT_FILENO
  | None => ret tt
  end ;;
  (if negb (Z.land options PIPE_OUT =? 0)
   then oldfd <- lift (vec_get fd (idx * 2 + 1)) ;; dup2 oldfd STDOUT_FILENO
   else ret tt) ;;
  match src command with
  | Some path => redirect_std path "r" STDIN_FILENO
  | None => ret tt
  end ;;
  (if negb (Z.land options PIPE_IN =? 0)
   then
     (* negative index because the input comes from the previous command *)
     oldfd <- lift (vec_get fd (idx * 2 - 2)) ;; dup2 oldfd STDIN_FILENO
   else ret tt) ;;
  (* close all file descriptors *)
  g <- get_globals ;;
  for_range 0 (global_num_pipes g * 2) (fun i _ => close_fd fd i) tt ;;
  args <- match argv command with
          | Some args => ret args
          | None => halt_with Crashed
          end ;;
  file <- lift (vec_get args 0) ;;
  emit (EvExecvp file args) ;;
  match file with
  | None =>
      (* [execvp(NULL, argv)]: the library reads the name through the NULL
         pointer *)
      halt_with Crashed
  | Some _ =>
      if os_execvp os file then halt_with Execd
      else perror "ERROR: exec" ;; exit_ EXIT_FAILURE
  end.

Definition launch_process (p_command : res command_t) (options : Z)
    (fd : list descriptor) (idx : Z) : M Z :=
  fork idx (fun pid =>
    if pid =? 0 then launch_process_child p_command options fd idx
    else if pid =? -1 then perror "ERROR: fork" ;; ret (-1)
    else ret pid).

(* ------------------------------------------------------------------ *)
(** ** launch_process_chain *)

(** [for (idx = 0; idx < num_commands; idx += 1) pipe(&fd[2 * idx]);] fills
    [fd] from the front, two slots per call. *)
Definition open_pipes (num_commands : Z) : M (list descriptor) :=
  for_range 0 num_commands
            (fun idx fd =>
               emit (EvPipe (PipeRead idx) (PipeWrite idx)) ;;
               ret (fd ++ [PipeRead idx; PipeWrite idx]))
            [].

Definition launch_process_chain (p_vec : list command_t) : M unit :=
  let commands := p_vec in
  let num_commands := npos p_vec in
  modify_globals (set_num_pipes num_commands) ;;
  fd <- open_pipes num_commands ;;
  let pids := repeat 0 (Z.to_nat num_commands) in
  (* launch the first process, it cannot have input piped in *)
  pid <- launch_process (vec_get commands 0) PIPE_OUT fd 0 ;;
  pids <- lift (vec_set pids 0 pid) ;;
  pids <- for_range 1 (num_commands - 1)
            (fun idx pids =>
               pid <- launch_process (vec_get commands idx) (Z.lor PIPE_OUT PIPE_IN) fd idx ;;
               lift (vec_set pids idx pid))
            pids ;;
  let idx := Z.max 1 (num_commands - 1) in
  pid <- launch_process (vec_get commands idx) PIPE_IN fd idx ;;
  pids <- lift (vec_set pids idx pid) ;;
  for_range 0 (num_commands * 2) (fun idx _ => close_fd fd idx) tt ;;
  g <- get_globals ;;
  if negb (global_bkg_proc g) then
    (* if not a bkg proc chain, wait for all of the commands to finish *)
    for_range 0 num_commands
              (fun idx _ =>
                 pid <- lift (vec_get pids idx) ;;
                 if negb (pid =? 0) then waitpid pid else ret tt)
              tt
  else modify_globals (set_bkg_proc false).

(* ------------------------------------------------------------------ *)
(** ** shell_read and shell_eval *)

(** [shell_read]: the per-line reset of the lexer's globals, then the scan of
    the line into the (cleared) token vector.  [line] is what [fgets] found:
    [None] at the end of the input, where the code frees the token vector,
    closes [yyout] if it is open and exits; otherwise the matches of the
    scanner's rules in the buffer, for a line of at most 510 bytes, its
    newline counted.  The buffer holds [READ_BUFFER_SIZE = 512] bytes, the
    scanner wants the last two of them to be NUL, and [fgets] stores up to
    511 bytes of a line: when the line has more than 510, [yy_scan_buffer]
    refuses the buffer and [yylex] reads the standard input itself.  Such
    lines are not described. *)
Definition shell_read (line : option (list lexeme)) (p_vec : list string)
  : M (list string) :=
  modify_globals (set_num_commands 1) ;;
  modify_globals (set_num_builtins 0) ;;
  modify_globals (set_builtin_idxs [-1; -1]) ;;
  match line with
  | Some buffer =>
      g <- get_globals ;;
      st <- lift (lexer_parse_buffer buffer (p_vec, g)) ;;
      modify_globals (fun _ => snd st) ;;
      ret (fst st)
  | None => exit_ EXIT_SUCCESS
  end.

Definition PARSE_ERROR_MSG : string := "ERROR: invalid input".

Definition is_parse_error (r : _parse) : bool :=
  match r with PARSE_ERROR => true | PARSE_SUCCESS => false end.

Definition shell_eval (p_vec : list string) : M unit :=
  (* special case, no parse error when the input contains nothing *)
  if npos p_vec =? 0 then ret tt else
  g <- get_globals ;;
  let prs_res := parse_builtin_cmds p_vec g in
  if negb (is_parse_error prs_res) && negb (global_num_builtins g =? 0) then
    eval_builtin_cmds p_vec
  else if is_parse_error prs_res then puts PARSE_ERROR_MSG
  else if global_num_commands g =? 1 then
    parsed <- lift (parse_single_command p_vec command_zero g) ;;
    let '(res, command, g) := parsed in
    modify_globals (fun _ => g) ;;
    if is_parse_error res then puts PARSE_ERROR_MSG else
    pid <- launch_process (Ok command) PIPE_NONE [] 0 ;;
    g <- get_globals ;;
    if negb (global_bkg_proc g) then
      if negb (pid =? 0) then waitpid pid else ret tt
    else modify_globals (set_bkg_proc false)
  else
    parsed <- lift (parse_multiple_commands p_vec [] g) ;;
    let '(res, command_vec, g) := parsed in
    modify_globals (fun _ => g) ;;
    if is_parse_error res then puts PARSE_ERROR_MSG else
    launch_process_chain command_vec.

(** One turn of the loop of [main]: the token vector is empty at its start
    ([vec_init], or [vec_clear] at the end of the previous turn). *)
Definition shell_turn (line : option (list lexeme)) : M unit :=
  p_vec <- shell_read line [] ;;
  shell_eval p_vec.

End Shell.

(* ================================================================== *)
(** * Definitions for the statements *)

(** What the theorems below speak of, beyond the code itself: the classes of
    tokens, one line from the scanner to the parsers, the environments and
    states of the examples, the pipes and the stages of a chain, the
    children's calls and what their standard streams end up bound to. *)

(** A token that none of the parsers' operator cases selects. *)
Definition is_word_token (tok : string) : bool :=
  let c := first_char tok in
  negb ((c =? "|")%char) && negb ((c =? "<")%char)
  && negb ((c =? ">")%char) && negb ((c =? "&")%char).

(** A token the ['&'] case selects. *)
Definition is_background_token (tok : string) : bool :=
  (first_char tok =? "&")%char.

(** [shell_read] on a line: the globals it resets, then the rule actions on
    the empty token vector. *)
Definition scan_line (buffer : list lexeme) (g : globals)
  : res (list string * globals) :=
  lexer_parse_buffer buffer
    ([], set_builtin_idxs [-1; -1] (set_num_builtins 0 (set_num_commands 1 g))).

(** What [shell_eval] makes of a token vector before anything is executed. *)
Inductive parsed_line : Type :=
| LineEmpty                                    (* no token: nothing to do *)
| LineBuiltin                                  (* goes to [eval_builtin_cmds] *)
| LineInvalid                                  (* [PARSE_ERROR_MSG] is printed *)
| LineCommand (command : command_t)            (* goes to [launch_process] *)
| LinePipeline (command_vec : list command_t). (* goes to [launch_process_chain] *)

(** The parsing half of [shell_eval]: the same tests in the same order, with
    the launch left out (see [shell_eval_line_parse]). *)
Definition line_parse (p_vec : list string) (g : globals) : res (parsed_line * globals) :=
  if npos p_vec =? 0 then Ok (LineEmpty, g) else
  let prs_res := parse_builtin_cmds p_vec g in
  if negb (is_parse_error prs_res) && negb (global_num_builtins g =? 0) then
    Ok (LineBuiltin, g)
  else if is_parse_error prs_res then Ok (LineInvalid, g)
  else if global_num_commands g =? 1 then
    let* parsed := parse_single_command p_vec command_zero g in
    let '(res, command, g) := parsed in
    if is_parse_error res then Ok (LineInvalid, g) else Ok (LineCommand command, g)
  else
    let* parsed := parse_multiple_commands p_vec [] g in
    let '(res, command_vec, g) := parsed in
    if is_parse_error res then Ok (LineInvalid, g) else Ok (LinePipeline command_vec, g).

(** Scanning and parsing one line. *)
Definition parse_turn (buffer : list lexeme) (g : globals) : res (parsed_line * globals) :=
  let* st := scan_line buffer g in
  line_parse (fst st) (snd st).

(** The result of a computation that ran to its end, without the globals. *)
Definition fst_ok {A} (r : res (A * globals)) : option A :=
  match r with
  | Ok (a, _) => Some a
  | _ => None
  end.

(** The executing half of [shell_eval]. *)
Definition shell_dispatch (os : os_env) (p_vec : list string) (parsed : parsed_line)
  : M unit :=
  match parsed with
  | LineEmpty => ret tt
  | LineBuiltin => eval_builtin_cmds os p_vec
  | LineInvalid => puts PARSE_ERROR_MSG
  | LineCommand command =>
      pid <- launch_process os (Ok command) PIPE_NONE [] 0 ;;
      g <- get_globals ;;
      if negb (global_bkg_proc g) then
        if negb (pid =? 0) then waitpid pid else ret tt
      else modify_globals (set_bkg_proc false)
  | LinePipeline command_vec => launch_process_chain os command_vec
  end.

(** The state with other globals. *)
Definition with_globals (g : globals) (s : proc_state) : proc_state :=
  mk_state g (st_cwd s) (st_trace s) (st_forks s) (st_children s).

(** A command with this argv (the NULL slot is added) and no redirect. *)
Definition plain_command (words : list string) : command_t :=
  mk_command (Some (map Some words ++ [None])) None None false.

(** Agreement on the globals the scanner sets. *)
Definition same_lex (g h : globals) : Prop :=
  global_num_commands g = global_num_commands h
  /\ global_builtin_idxs g = global_builtin_idxs h
  /\ global_num_builtins g = global_num_builtins h.

(** Agreement on the other globals. *)
Definition same_rest (g h : globals) : Prop :=
  global_num_pipes g = global_num_pipes h
  /\ global_print_shell_context g = global_print_shell_context h
  /\ global_bkg_proc g = global_bkg_proc h.

(** All a parser does to the globals: [global_num_pipes] may be overwritten
    and [global_bkg_proc] may be raised. *)
Definition touch (np : option Z) (raised : bool) (g : globals) : globals :=
  mk_globals (match np with Some n => n | None => global_num_pipes g end)
             (global_num_commands g) (global_print_shell_context g)
             (global_bkg_proc g || raised)
             (global_builtin_idxs g) (global_num_builtins g).

(** Two runs of a parser, from the globals [g] and [h], end alike: with the
    same result and the same change to the globals. *)
Definition parse_rel {A} (g h : globals) (r1 r2 : res (A * globals)) : Prop :=
  match r1, r2 with
  | Ok (a, g'), Ok (b, h') =>
      a = b /\ exists np raised, g' = touch np raised g /\ h' = touch np raised h
  | Oob, Oob => True
  | OutOfFuel, OutOfFuel => True
  | _, _ => False
  end.

(** Two scans of the same matches, from globals that agree on what the
    scanner reads, give the same tokens and leave the other globals alone. *)
Definition scan_rel (g h : globals) (r1 r2 : res (list string * globals)) : Prop :=
  match r1, r2 with
  | Ok (v1, g'), Ok (v2, h') =>
      v1 = v2 /\ same_lex g' h' /\ same_rest g' g /\ same_rest h' h
  | Oob, Oob => True
  | OutOfFuel, OutOfFuel => True
  | _, _ => False
  end.

(** An environment for the examples: [HOME] is set, [/nope] is no directory,
    every [fork] gives a new process id, every file opens and every program
    is found. *)
Definition os_example : os_env :=
  mk_os (Some "/home/user") None
        (fun _ path => if String.eqb path "/nope" then None else Some path)
        (fun n => Some (Pos.of_nat (100 + n)))
        (fun _ => true)
        (fun _ => true).

(** The environment of a shell that cannot create processes any more. *)
Definition os_no_fork : os_env :=
  mk_os (Some "/home/user") None (fun _ path => Some path) (fun _ => None)
        (fun _ => true) (fun _ => true).

(** The shell when [main] enters its loop, in the directory [/]. *)
Definition state_init : proc_state := mk_state globals_init "/" [] 0 [].

(** The state a child starts from: a copy of the parent's globals and working
    directory, with no calls made and no children of its own. *)
Definition child_start (g : globals) (cwd : string) : proc_state :=
  mk_state g cwd [] 0 [].

(** The child [launch_process] creates, as the parent's table records it. *)
Definition launched_child (os : os_env) (pid : Z) (p_command : res command_t)
    (options : Z) (fd : list descriptor) (idx : Z) (g : globals) (cwd : string)
  : child_proc :=
  let run := launch_process_child os p_command options fd idx (child_start g cwd) in
  mk_child pid idx (st_trace (snd run)) (fst run).

(** [fd] after [n] calls of [pipe], the first of them for the pipe [k]. *)
Fixpoint pipe_fds_from (n : nat) (k : Z) : list descriptor :=
  match n with
  | O => []
  | S n' => PipeRead k :: PipeWrite k :: pipe_fds_from n' (k + 1)
  end.

(** [fd] for a chain of [num_commands] commands. *)
Definition pipe_fds (num_commands : Z) : list descriptor :=
  pipe_fds_from (Z.to_nat num_commands) 0.

(** The [n] calls of [pipe] that fill it. *)
Fixpoint pipe_calls_from (n : nat) (k : Z) : list event :=
  match n with
  | O => []
  | S n' => EvPipe (PipeRead k) (PipeWrite k) :: pipe_calls_from n' (k + 1)
  end.

(** The calls of [pipe] for a chain of [num_commands] commands. *)
Definition pipe_calls (num_commands : Z) : list event :=
  pipe_calls_from (Z.to_nat num_commands) 0.

(** What a standard stream of a process is bound to. *)
Inductive binding : Type :=
| Inherited                  (* what the shell itself has *)
| Closed
| ToFile (path : string)
| ToFd (d : descriptor).

(** Descriptors 0 and 1 of a process, and the pipe descriptors it has
    closed. *)
Record stdio : Type := mk_stdio {
  io_stdin : binding;
  io_stdout : binding;
  io_closed : list descriptor
}.

(** The effect of one call on the descriptors.  [dup] returns the lowest
    descriptor that is free.  [close(fd[i])] closes a pipe descriptor; the
    descriptors of the pipes are neither 0 nor 1, so that leaves 0 and 1
    alone, also when one of them is a duplicate of the closed descriptor.
    [dup2] of a descriptor the process has closed fails and leaves its
    target as it was (the code does not look at the result); otherwise the
    target becomes a duplicate of the pipe end. *)
Definition stdio_step (io : stdio) (e : event) : stdio :=
  match e with
  | EvFcloseStd fileno =>
      if fileno =? STDIN_FILENO then mk_stdio Closed (io_stdout io) (io_closed io)
      else if fileno =? STDOUT_FILENO then mk_stdio (io_stdin io) Closed (io_closed io)
      else io
  | EvDupFileno path =>
      match io_stdin io, io_stdout io with
      | Closed, _ => mk_stdio (ToFile path) (io_stdout io) (io_closed io)
      | _, Closed => mk_stdio (io_stdin io) (ToFile path) (io_closed io)
      | _, _ => io
      end
  | EvDup2 oldfd newfd =>
      if existsb (descriptor_eqb oldfd) (io_closed io) then io
      else if newfd =? STDIN_FILENO then mk_stdio (ToFd oldfd) (io_stdout io) (io_closed io)
      else if newfd =? STDOUT_FILENO then mk_stdio (io_stdin io) (ToFd oldfd) (io_closed io)
      else io
  | EvClose d => mk_stdio (io_stdin io) (io_stdout io) (d :: io_closed io)
  | _ => io
  end.

(** Descriptors 0 and 1 after a sequence of calls. *)
Definition stdio_after (io : stdio) (calls : list event) : stdio :=
  fold_left stdio_step calls io.

(** Descriptors 0 and 1 of a child after its first calls: it starts with what
    the shell has. *)
Definition stdio_of (calls : list event) : stdio :=
  stdio_after (mk_stdio Inherited Inherited []) calls.

(** The calls a process makes before its (first) [execvp], if it makes one. *)
Fixpoint before_exec (calls : list event) : option (list event) :=
  match calls with
  | [] => None
  | EvExecvp _ _ :: _ => Some []
  | e :: rest => option_map (cons e) (before_exec rest)
  end.

(** Is the call an [execvp]? *)
Definition is_exec (e : event) : bool :=
  match e with EvExecvp _ _ => true | _ => false end.

(** The calls that rebind a standard stream to a file that opens. *)
Definition redirect_calls (path mode : string) (fileno : Z) : list event :=
  [EvFopen path mode true; EvFcloseStd fileno; EvDupFileno path; EvFclose path].

(** The calls of a child before it closes the pipes, when its redirect files
    open: [wr] and [rd] are [fd[idx * 2 + 1]] and [fd[idx * 2 - 2]]. *)
Definition child_head (command : command_t) (options : Z) (wr rd : descriptor)
  : list event :=
  match dest command with
  | Some path => redirect_calls path "w" STDOUT_FILENO
  | None => []
  end
  ++ (if negb (Z.land options PIPE_OUT =? 0) then [EvDup2 wr STDOUT_FILENO] else [])
  ++ match src command with
     | Some path => redirect_calls path "r" STDIN_FILENO
     | None => []
     end
  ++ (if negb (Z.land options PIPE_IN =? 0) then [EvDup2 rd STDIN_FILENO] else []).

(** [runs m s o calls]: from the state [s], [m] ends with [o] after making the
    calls [calls], and changes nothing else. *)
Definition runs {A} (m : M A) (s : proc_state) (o : outcome A) (calls : list event)
  : Prop :=
  m s = (o, append_trace s calls).

(** Why a child stops before [execvp]: a redirect file does not open, or the
    command has no [argv[0]] slot. *)
Definition child_cannot_exec (os : os_env) (command : command_t) : Prop :=
  (exists path, dest command = Some path /\ os_fopen os path = false)
  \/ (exists path, src command = Some path /\ os_fopen os path = false)
  \/ argv command = None \/ argv command = Some [].

(** The options [launch_process_chain] passes for the stage [idx]. *)
Definition stage_options (num_commands idx : Z) : Z :=
  if idx =? 0 then PIPE_OUT
  else if idx <? num_commands - 1 then Z.lor PIPE_OUT PIPE_IN
  else PIPE_IN.

(** The stages [lo], [lo + 1], ..., [n] of them. *)
Fixpoint stages (lo : Z) (n : nat) : list Z :=
  match n with
  | O => []
  | S n' => lo :: stages (lo + 1) n'
  end.

(** The stage [idx] is created by the [forks0 + idx]-th [fork] of the shell,
    [forks0] being the calls of [fork] made before the chain. *)
Definition stage_fork (os : os_env) (forks0 : nat) (idx : Z) : option positive :=
  os_fork os (forks0 + Z.to_nat idx)%nat.

(** What [launch_process] returns for the stage. *)
Definition stage_pid (os : os_env) (forks0 : nat) (idx : Z) : Z :=
  match stage_fork os forks0 idx with
  | Some p => Z.pos p
  | None => -1
  end.

(** The calls of the parent in [launch_process] for the stage. *)
Definition stage_calls (os : os_env) (forks0 : nat) (idx : Z) : list event :=
  match stage_fork os forks0 idx with
  | Some p => [EvFork (Z.pos p)]
  | None => [EvFork (-1); EvPerror "ERROR: fork"]
  end.

(** The child of the stage, if its [fork] succeeds: [g] and [cwd] are the
    globals and the working directory at the forks. *)
Definition stage_kids (os : os_env) (commands : list command_t) (fd : list descriptor)
    (g : globals) (cwd : string) (forks0 : nat) (options : Z -> Z) (idx : Z)
  : list child_proc :=
  match stage_fork os forks0 idx with
  | Some p => [launched_child os (Z.pos p) (vec_get commands idx) (options idx) fd idx
                              g cwd]
  | None => []
  end.

(** The globals after a chain: the background flag is consumed. *)
Definition chain_globals (g : globals) : globals :=
  if global_bkg_proc g then set_bkg_proc false g else g.

(** The waits after a chain: none for a background chain, otherwise one per
    stage, also for a stage whose [fork] failed. *)
Definition chain_waits (g : globals) (pids : list Z) : list event :=
  if global_bkg_proc g then [] else map EvWaitpid pids.

(** The children a run has added to the shell's table. *)
Definition new_children (before after : proc_state) : list child_proc :=
  skipn (length (st_children before)) (st_children after).

(** The chain of [sort < in | uniq | wc > out]. *)
Definition commands_example : list command_t :=
  [set_src (plain_command ["sort"]) "in";
   plain_command ["uniq"];
   set_dest (plain_command ["wc"]) "out"].

(** Is the call a [fork]? *)
Definition is_fork (e : event) : bool :=
  match e with EvFork _ => true | _ => false end.

(* ================================================================== *)
(** * The vector, as the C code keeps it

    [vec_t] holds a heap block [data] of [len] bytes, the number [npos] of
    elements in use and the size [elem_size] of an element.  The block is
    modelled slot by slot, a slot being [elem_size] bytes; the code addresses
    it at the offsets [npos * elem_size] only.  [elem_size] is positive: the
    shell uses [sizeof(char * )] and [sizeof(command_t)]. *)
Module Vec.

Inductive slot (A : Type) : Type :=
| Zeroed               (* bytes that [calloc] has cleared *)
| Indeterminate        (* bytes of a fresh [malloc] block *)
| Stored (a : A).      (* an element that [memcpy] has stored *)
Arguments Zeroed {A}.
Arguments Indeterminate {A}.
Arguments Stored {A} a.

Record vec_t (A : Type) : Type := mk_vec {
  data : list (slot A);
  len : Z;
  npos : Z;
  elem_size : Z
}.
Arguments mk_vec {A} data len npos elem_size.
Arguments data {A} v.
Arguments len {A} v.
Arguments npos {A} v.
Arguments elem_size {A} v.

(** A block of [bytes] bytes from [malloc]. *)
Definition malloc {A} (bytes elem_size : Z) : list (slot A) :=
  repeat Indeterminate (Z.to_nat (bytes / elem_size)).

(** [memcpy(dst, src, bytes)] between two blocks. *)
Definition memcpy_block {A} (dst src : list (slot A)) (bytes elem_size : Z)
  : res (list (slot A)) :=
  let n := Z.to_nat (bytes / elem_size) in
  if (bytes <=? Z.of_nat (length src) * elem_size)
     && (bytes <=? Z.of_nat (length dst) * elem_size)
  then Ok (firstn n src ++ skipn n dst)
  else Oob.

(** [memcpy(data + offset, p_element, elem_size)] *)
Definition store {A} (block : list (slot A)) (offset elem_size : Z) (p_element : A)
  : res (list (slot A)) :=
  if (0 <=? offset) && (offset + elem_size <=? Z.of_nat (length block) * elem_size)
  then list_set block (Z.to_nat (offset / elem_size)) (Stored p_element)
  else Oob.

(** [vec_init]: [None] when it returns 0 ([calloc] gave NULL), otherwise the
    vector it has set up. *)
Definition vec_init {A} (calloc_ok : bool) (elem_size : Z) : option (vec_t A) :=
  if negb calloc_ok then None
  else Some (mk_vec [Zeroed] elem_size 0 elem_size).

(** [vec_push]: the value it returns and the vector afterwards. *)
Definition vec_push {A} (malloc_ok : bool) (p_vec : vec_t A) (p_element : A)
  : res (Z * vec_t A) :=
  let elem_size := elem_size p_vec in
  if size_wrap ((npos p_vec + 1) * elem_size) <=? len p_vec then
    let* d := store (data p_vec) (size_wrap (npos p_vec * elem_size)) elem_size p_element in
    Ok (1, mk_vec d (len p_vec) (npos p_vec + 1) elem_size)
  else
    let new_len := size_wrap (len p_vec * VEC_GROWTH_RATE) in
    if negb malloc_ok then Ok (0, p_vec) else
    let new_data := malloc new_len elem_size in
    let* new_data := memcpy_block new_data (data p_vec) (len p_vec) elem_size in
    let* d := store new_data (size_wrap (npos p_vec * elem_size)) elem_size p_element in
    Ok (1, mk_vec d new_len (npos p_vec + 1) elem_size).

(** [vec_contents[i]] read as a pointer: a cleared slot is the NULL pointer,
    a slot that was never written has no value. *)
Definition slot_pointer {P} (s : slot (option P)) : res (option P) :=
  match s with
  | Stored p => Ok p
  | Zeroed => Ok None
  | Indeterminate => Oob
  end.

(** The loop of [token_vec_clear_policy] from [i] on: the pointers it frees,
    in order, and the block afterwards. *)
Fixpoint clear_tokens (n : nat) (i : Z) (block : list (slot (option string)))
  : res (list string * list (slot (option string))) :=
  match n with
  | O => Ok ([], block)
  | S n' =>
      let* s := vec_get block i in
      let* p := slot_pointer s in
      let* block := vec_set block i (Stored None) in
      let* rest := clear_tokens n' (i + 1) block in
      Ok (match p with Some tok => tok :: fst rest | None => fst rest end, snd rest)
  end.

(** [token_vec_clear_policy]: the loop over the [npos] slots in use. *)
Definition token_vec_clear_policy (p_vec : vec_t (option string))
  : res (list string * vec_t (option string)) :=
  let* r := clear_tokens (Z.to_nat (npos p_vec)) 0 (data p_vec) in
  Ok (fst r, mk_vec (snd r) (len p_vec) (npos p_vec) (elem_size p_vec)).

(** [vec_clear(&token_vec, token_vec_clear_policy)] *)
Definition vec_clear_tokens (p_vec : vec_t (option string))
  : res (list string * vec_t (option string)) :=
  let* r := token_vec_clear_policy p_vec in
  Ok (fst r, mk_vec (data (snd r)) (len (snd r)) 0 (elem_size (snd r))).

(** The block is [len] bytes of whole slots, at least one, and the elements
    in use fit into it. *)
Definition well_formed {A} (v : vec_t A) : Prop :=
  0 < elem_size v
  /\ len v = Z.of_nat (length (data v)) * elem_size v
  /\ elem_size v <= len v
  /\ 0 <= npos v /\ npos v * elem_size v <= len v.

(** The elements in use are [l], in this order. *)
Definition represents {A} (v : vec_t A) (l : list A) : Prop :=
  npos v = Z.of_nat (length l) /\ firstn (length l) (data v) = map Stored l.

(** Pushing the elements of a list one after the other, every allocation
    succeeding. *)
Fixpoint push_all {A} (v : vec_t A) (l : list A) : res (vec_t A) :=
  match l with
  | [] => Ok v
  | a :: l' => let* r := vec_push true v a in push_all (snd r) l'
  end.

End Vec.

(* ================================================================== *)
(** * main *)

(** What [main] prints when [vec_init] fails. *)
Definition VEC_INIT_ERROR_MSG : string := "ERROR: failed to initialize vector".

(** [global_print_shell_context = b] *)
Definition set_print_shell_context (b : bool) (g : globals) : globals :=
  mk_globals (global_num_pipes g) (global_num_commands g) b
             (global_bkg_proc g) (global_builtin_idxs g) (global_num_builtins g).

(** [if (argc >= 2) if (strcmp("-n", argv[1]) == 0)
        global_print_shell_context = false;] *)
Definition main_options (argv : list string) : M unit :=
  if 2 <=? npos argv then
    arg <- lift (vec_get argv 1) ;;
    if String.eqb "-n" arg then modify_globals (set_print_shell_context false)
    else ret tt
  else ret tt.

Section Main.

Variable os : os_env.

(** [print_intro_msg] and [disp_prompt] write the login name and the time to
    the terminal with [printf]; what they print is the system's. *)
Variable print_intro_msg : M unit.
Variable disp_prompt : M unit.

(** The line [fgets] reads next, and what is left of the input after it:
    at the end of the input [fgets] returns NULL, again and again. *)
Definition next_line (input : list (list lexeme))
  : option (list lexeme) * list (list lexeme) :=
  match input with
  | [] => (None, [])
  | line :: rest => (Some line, rest)
  end.

(** The [while (true)] loop of [main], unrolled [fuel] times; the token
    vector is empty at each turn ([vec_clear]). *)
Fixpoint main_loop (fuel : nat) (input : list (list lexeme)) : M (res Z) :=
  match fuel with
  | O => ret OutOfFuel
  | S fuel' =>
      g <- get_globals ;;
      (if global_print_shell_context g then disp_prompt else ret tt) ;;
      shell_turn os (fst (next_line input)) ;;
      main_loop fuel' (snd (next_line input))
  end.

(** [main]: [argv] is the argument vector, [calloc_ok] tells whether the
    allocation of [vec_init] succeeds.  [sigchld_handler], which [main]
    installs first, runs when a child ends and reaps the children that have
    ended with [waitpid(-1, NULL, WNOHANG)]; the runs of the handler come
    from outside and are not part of the trace. *)
Definition main (argv : list string) (calloc_ok : bool) (fuel : nat)
    (input : list (list lexeme)) : M (res Z) :=
  signal "SIGCHLD" "sigchld_handler" ;;
  main_options argv ;;
  match @Vec.vec_init (option string) calloc_ok cp_size with
  | None => puts VEC_INIT_ERROR_MSG ;; ret (Ok EXIT_FAILURE)
  | Some _ =>
      g <- get_globals ;;
      (if global_print_shell_context g then print_intro_msg else ret tt) ;;
      main_loop fuel input
  end.

End Main.

(* ================================================================== *)
(** * Definitions for the statements about parsing, children and the vector *)

(** A token that begins with one of the characters the seek loop stops at. *)
Definition stops_seek (tok : string) : bool :=
  let c := first_char tok in
  (c =? "|")%char || (c =? "<")%char || (c =? "&")%char || (c =? ">")%char.

(** An argv cut out of the token vector: the [n] tokens from [start] on,
    followed by the NULL slot. *)
Definition argv_of_tokens (p_vec : list string) (start n : nat)
  : list (option string) :=
  map Some (firstn n (skipn start p_vec)) ++ [None].

(** The command's argv is such a cut. *)
Definition argv_cut_from (p_vec : list string) (c : command_t) : Prop :=
  exists start n, argv c = Some (argv_of_tokens p_vec start n).

(** The command's argv is a cut that begins at the first token. *)
Definition argv_is_prefix (p_vec : list string) (c : command_t) : Prop :=
  exists n, argv c = Some (argv_of_tokens p_vec 0 n).

(** The quoted-string action stays inside its match: [strlen(yytext)] is 2
    or more.  It is 1 when a NUL follows the opening quote at once. *)
Definition quoted_fits (lx : lexeme) : bool :=
  match fst lx with
  | RULE_QUOTED => 2 <=? Z.of_nat (strlen (snd lx))
  | _ => true
  end.

(** The text holds no NUL. *)
Definition no_nul (s : string) : bool :=
  all_chars (fun c => negb (c =? Ascii.zero)%char) s.

(** The tokens a match leaves in the vector, when its action stays inside
    the match. *)
Definition lexeme_tokens (lx : lexeme) : list string :=
  match fst lx with
  | RULE_QUOTED =>
      let len := size_wrap (Z.of_nat (strlen (snd lx)) - 2) in
      if 0 <? len then [substring 1 (Z.to_nat len) (snd lx)] else []
  | _ => [snd lx]
  end.

(** A match of the ['|'] rule. *)
Definition is_pipe_lexeme (lx : lexeme) : bool :=
  match fst lx with RULE_PIPE => true | _ => false end.

(** A match of the [cd] or of the [exit] rule. *)
Definition is_builtin_lexeme (lx : lexeme) : bool :=
  match fst lx with RULE_CD | RULE_EXIT => true | _ => false end.

(** How many elements of the list satisfy the test. *)
Definition count {A} (p : A -> bool) (l : list A) : Z :=
  Z.of_nat (length (filter p l)).

(** What may follow the words of a simple command: a redirect operator with
    its file, or a further word. *)
Inductive tail_item : Type :=
| Redirect (op file : string)
| Trailing (word : string).

(** The tokens of an item. *)
Definition item_tokens (it : tail_item) : list string :=
  match it with
  | Redirect op file => [op; file]
  | Trailing word => [word]
  end.

(** A token the ['<'] or the ['>'] case selects. *)
Definition is_redirect_token (tok : string) : bool :=
  (first_char tok =? "<")%char || (first_char tok =? ">")%char.

(** The operator is a redirect operator and its file passes the check of the
    token after it; a further word is a word. *)
Definition item_ok (it : tail_item) : bool :=
  match it with
  | Redirect op file => is_redirect_token op && negb (single_bad_next (first_char file))
  | Trailing word => is_word_token word
  end.

(** What the item does to the command. *)
Definition item_effect (c : command_t) (it : tail_item) : command_t :=
  match it with
  | Redirect op file =>
      if (first_char op =? "<")%char then set_src c file else set_dest c file
  | Trailing _ => c
  end.

(** The tokens of an optional final ['&']. *)
Definition amp_tokens (amp : option string) : list string :=
  match amp with Some a => [a] | None => [] end.

(** What it does to the globals. *)
Definition amp_effect (amp : option string) (g : globals) : globals :=
  match amp with Some _ => set_bkg_proc true g | None => g end.

(** The shapes of a line the single-command parser rejects. *)
Inductive single_syntax_error : list string -> Prop :=
| no_token : single_syntax_error []
| redirect_at_end (front : list string) (op : string) :
    is_redirect_token op = true ->
    single_syntax_error (front ++ [op])
| redirect_without_file (words : list string) (op next : string) (rest : list string) :
    forallb is_word_token words = true ->
    is_redirect_token op = true ->
    single_bad_next (first_char next) = true ->
    single_syntax_error (words ++ op :: next :: rest)
| background_not_last (words : list string) (amp next : string) (rest : list string) :
    forallb is_word_token words = true ->
    is_background_token amp = true ->
    single_syntax_error (words ++ amp :: next :: rest).

(** The tokens of a pipeline: the words of the first stage, its input
    redirect if it has one, then after each ['|'] the words of a further
    stage, the output redirect of the last stage if it has one, and ['&'] if
    the pipeline is to run in the background. *)
Definition pipeline_tokens (first : list string) (input : option string)
    (middle : list (list string)) (last : list string) (output : option string)
    (background : bool) : list string :=
  first ++ match input with Some file => ["<"; file] | None => [] end
  ++ "|" :: flat_map (fun stage => stage ++ ["|"]) middle
  ++ last ++ match output with Some file => [">"; file] | None => [] end
  ++ (if background then ["&"] else []).

(** The commands such a line stands for. *)
Definition pipeline_commands (first : list string) (input : option string)
    (middle : list (list string)) (last : list string) (output : option string)
  : list command_t :=
  match input with
  | Some file => set_src (plain_command first) file
  | None => plain_command first
  end
  :: map plain_command middle
  ++ [match output with
      | Some file => set_dest (plain_command last) file
      | None => plain_command last
      end].

(** A stage: one word or more. *)
Definition is_stage (stage : list string) : bool :=
  negb (Nat.eqb (length stage) 0) && forallb is_word_token stage.

(** A token the ['|'] case selects. *)
Definition is_pipe_token (tok : string) : bool := (first_char tok =? "|")%char.

(** A token the ['>'] case selects. *)
Definition is_output_token (tok : string) : bool := (first_char tok =? ">")%char.

(** A token the ['<'] case selects. *)
Definition is_input_token (tok : string) : bool := (first_char tok =? "<")%char.

(** What the pipeline parser rejects in the tokens after the first ['|'] of a
    line. *)
Inductive pipeline_syntax_error : list string -> Prop :=
| no_word_after_first_pipe (op : string) (back : list string) :
    is_pipe_token op || is_input_token op || is_output_token op = true ->
    pipeline_syntax_error (op :: back)
| input_redirect_later (front : list string) (op : string) (back : list string) :
    is_input_token op = true ->
    pipeline_syntax_error (front ++ op :: back)
| pipe_then_operator (front : list string) (bar next : string) (back : list string) :
    is_pipe_token bar = true -> is_word_token next = false ->
    pipeline_syntax_error (front ++ bar :: next :: back)
| pipe_at_end (front : list string) (prev bar : string) :
    is_output_token prev = false -> is_pipe_token bar = true ->
    pipeline_syntax_error (front ++ [prev; bar])
| output_redirect_then_pipe (front : list string) (op : string) (between : list string)
    (bar last : string) (back : list string) :
    is_output_token op = true -> is_pipe_token bar = true ->
    pipeline_syntax_error (front ++ op :: between ++ bar :: last :: back)
| output_redirect_at_end (front : list string) (op : string) :
    is_output_token op = true ->
    pipeline_syntax_error (front ++ [op])
| output_redirect_without_file (front : list string) (op next : string)
    (back : list string) :
    is_output_token op = true -> multi_bad_next (first_char next) = true ->
    pipeline_syntax_error (front ++ op :: next :: back)
| background_not_at_end (front : list string) (amp next : string) (back : list string) :
    is_background_token amp = true ->
    pipeline_syntax_error (front ++ amp :: next :: back).

(** A token the main loop cannot step over: a redirect operator, a ['&'],
    or a ['|'] that is not the last token or does not follow a ['>']. *)
Definition stops_loop (p_vec : list string) (j : Z) (tok : string) : Prop :=
  is_input_token tok = true \/ is_output_token tok = true
  \/ is_background_token tok = true
  \/ (is_pipe_token tok = true
      /\ (j < npos p_vec - 1
          \/ exists prev, vec_get p_vec (j - 1) = Ok prev /\ is_output_token prev = false)).

(** The text between double quotes. *)
Definition quoted (text : string) : string :=
  String double_quote (String.append text (String double_quote EmptyString)).

(** A match of the operator, quoted-string or word rule: its action leaves
    the globals alone. *)
Definition is_plain_lexeme (lx : lexeme) : bool :=
  negb (is_pipe_lexeme lx) && negb (is_builtin_lexeme lx).

(** The calls a run has added to the trace. *)
Definition new_calls (before after : proc_state) : list event :=
  skipn (length (st_trace before)) (st_trace after).

(** Is the call a [waitpid]? *)
Definition is_waitpid (e : event) : bool :=
  match e with EvWaitpid _ => true | _ => false end.

(** Is the call a [chdir]? *)
Definition is_chdir (e : event) : bool :=
  match e with EvChdir _ _ => true | _ => false end.

(** The directory [cd] asks for: with no argument the value of [HOME], or
    the home directory of the password entry when [HOME] is not set; with one
    more token on the line, the second token of the line. *)
Definition cd_target (os : os_env) (p_vec : list string) : option string :=
  if npos p_vec =? 1 then
    match os_getenv_HOME os with
    | Some dir => Some dir
    | None => os_pw_dir os
    end
  else if npos p_vec =? 2 then nth_error p_vec 1
  else None.

(** The ways a child's run of the shell's code ends: its image is replaced,
    it exits with [EXIT_FAILURE], or it crashes. *)
Definition child_halt (h : halt) : Prop :=
  h = Execd \/ h = Exited EXIT_FAILURE \/ h = Crashed.

(** The child does not come back from [launch_process]. *)
Definition child_is_gone (c : child_proc) : Prop :=
  exists h, child_end c = Halted h /\ child_halt h.

(** A computation that, if it stops the process, stops it in one of the ways
    [ok]. *)
Definition stops_only {A} (ok : halt -> Prop) (m : M A) : Prop :=
  forall s h, fst (m s) = Halted h -> ok h.

(** A computation that does stop the process, in one of the ways [ok]. *)
Definition stops {A} (ok : halt -> Prop) (m : M A) : Prop :=
  forall s, exists h, fst (m s) = Halted h /\ ok h.

(** A computation that only adds children that are gone to the table. *)
Definition adds_gone_children {A} (m : M A) : Prop :=
  forall s, exists kids,
    st_children (snd (m s)) = st_children s ++ kids /\ Forall child_is_gone kids.

(** The redirect files of the command open. *)
Definition redirects_open (os : os_env) (command : command_t) : Prop :=
  (forall path, dest command = Some path -> os_fopen os path = true)
  /\ (forall path, src command = Some path -> os_fopen os path = true).

(** The calls that end a child: [execvp], and [perror] when it fails; with a
    NULL name the child does not come back from [execvp]. *)
Definition exec_calls (os : os_env) (file : option string) (args : list (option string))
  : list event :=
  EvExecvp file args
  :: match file with
     | None => []
     | Some _ => if os_execvp os file then [] else [EvPerror "ERROR: exec"]
     end.

(** How the child ends then. *)
Definition exec_end (os : os_env) (file : option string) : halt :=
  match file with
  | None => Crashed
  | Some _ => if os_execvp os file then Execd else Exited EXIT_FAILURE
  end.

(** What a redirect binds a standard stream to. *)
Definition redirect_binding (target : option string) : binding :=
  match target with
  | Some path => ToFile path
  | None => Inherited
  end.

(** The calls that set up the redirects of a single command. *)
Definition single_redirect_calls (command : command_t) : list event :=
  match dest command with
  | Some path => redirect_calls path "w" STDOUT_FILENO
  | None => []
  end
  ++ match src command with
     | Some path => redirect_calls path "r" STDIN_FILENO
     | None => []
     end.

(** The size of the block after [n >= 1] pushes onto a fresh vector: enough
    for the elements, and less than twice what they need. *)
Definition block_fits {A} (v : Vec.vec_t A) (n : nat) : Prop :=
  (n = 0%nat /\ Vec.len v = Vec.elem_size v)
  \/ ((1 <= n)%nat
      /\ Z.of_nat n * Vec.elem_size v <= Vec.len v < 2 * Z.of_nat n * Vec.elem_size v).

(** The pointers that are not NULL. *)
Definition pointers (l : list (option string)) : list string :=
  flat_map (fun p => match p with Some tok => [tok] | None => [] end) l.

(** The ways the shell itself ends: [exit(EXIT_SUCCESS)], or a crash. *)
Definition shell_halt (h : halt) : Prop :=
  h = Exited EXIT_SUCCESS \/ h = Crashed.

(** A computation that returns, whatever the state. *)
Definition returns {A} (m : M A) : Prop :=
  forall s, exists a, fst (m s) = Returned a.

(** A computation that leaves [global_print_shell_context] at [b]. *)
Definition keeps_context {A} (b : bool) (m : M A) : Prop :=
  forall s, global_print_shell_context (st_globals s) = b ->
            global_print_shell_context (st_globals (snd (m s))) = b.

(* ================================================================== *)
(** * Facts about the token vector and slice_argv_from_vec *)

Lemma npos_nonneg {A} (l : list A) : 0 <= npos l.
Proof. unfold npos. lia. Qed.

Lemma npos_app {A} (l1 l2 : list A) : npos (l1 ++ l2) = npos l1 + npos l2.
Proof. unfold npos. rewrite length_app. lia. Qed.

Lemma vec_get_nth {A} (l : list A) (idx : Z) (a : A) :
  0 <= idx -> nth_error l (Z.to_nat idx) = Some a -> vec_get l idx = Ok a.
Proof.
  intros Hidx Hnth. unfold vec_get.
  destruct (Z.ltb_spec idx 0); [lia|]. now rewrite Hnth.
Qed.

Lemma vec_get_app_l {A} (l1 l2 : list A) (idx : Z) :
  0 <= idx < npos l1 -> vec_get (l1 ++ l2) idx = vec_get l1 idx.
Proof.
  intros [H0 H1]. unfold vec_get, npos in *.
  destruct (Z.ltb_spec idx 0); [lia|].
  rewrite nth_error_app1 by lia. reflexivity.
Qed.

Lemma vec_get_app_r {A} (l1 l2 : list A) (idx : Z) :
  npos l1 <= idx -> vec_get (l1 ++ l2) idx = vec_get l2 (idx - npos l1).
Proof.
  intros H. pose proof (npos_nonneg l1) as Hn. unfold vec_get, npos in *.
  destruct (Z.ltb_spec idx 0); [lia|].
  destruct (Z.ltb_spec (idx - Z.of_nat (length l1)) 0); [lia|].
  rewrite nth_error_app2 by lia.
  replace (Z.to_nat (idx - Z.of_nat (length l1)))
    with (Z.to_nat idx - length l1)%nat by lia.
  reflexivity.
Qed.

Lemma vec_get_in_range {A} (l : list A) (idx : Z) :
  0 <= idx < npos l -> exists a, vec_get l idx = Ok a /\ In a l.
Proof.
  intros [H0 H1]. unfold npos in H1.
  destruct (nth_error l (Z.to_nat idx)) as [a|] eqn:E.
  - exists a. split; [now apply vec_get_nth | eapply nth_error_In; eauto].
  - apply nth_error_None in E. lia.
Qed.

Lemma vec_get_out_of_range {A} (l : list A) (idx : Z) :
  npos l <= idx -> vec_get l idx = Oob.
Proof.
  intros H. pose proof (npos_nonneg l). unfold vec_get, npos in *.
  destruct (Z.ltb_spec idx 0); [reflexivity|].
  destruct (nth_error l (Z.to_nat idx)) eqn:E; [|reflexivity].
  assert (nth_error l (Z.to_nat idx) <> None) as Hne by congruence.
  apply nth_error_Some in Hne. lia.
Qed.

(** Inside the vector and for the ranges the parsers ask for, the slice is
    the tokens [start_pos .. end_pos] followed by the NULL slot; [end_pos] may
    be [start_pos - 1] (also when that wraps around as a [size_t]), and the
    slice is then the NULL slot alone. *)
Lemma slice_argv_in_range (p_vec : list string) (start_pos end_pos : Z) :
  npos p_vec <= READ_BUFFER_SIZE ->
  0 <= start_pos -> start_pos <= end_pos + 1 -> end_pos < npos p_vec ->
  slice_argv_from_vec p_vec start_pos end_pos
  = Ok (map Some (firstn (Z.to_nat (end_pos + 1 - start_pos))
                         (skipn (Z.to_nat start_pos) p_vec))
        ++ [None]).
Proof.
  unfold READ_BUFFER_SIZE. intros Hbuf H0 H1 H2.
  unfold slice_argv_from_vec, size_wrap, cp_size.
  assert (Hs : start_pos mod 2 ^ 64 = start_pos) by (apply Z.mod_small; lia).
  rewrite Hs.
  assert (He : ((end_pos mod 2 ^ 64 + 2) mod 2 ^ 64 - start_pos) mod 2 ^ 64
               = end_pos + 2 - start_pos).
  { destruct (Z.eq_dec end_pos (-1)) as [->|Hne].
    - assert (start_pos = 0) by lia. subst. reflexivity.
    - rewrite (Z.mod_small end_pos) by lia.
      rewrite (Z.mod_small (end_pos + 2)) by lia.
      apply Z.mod_small. lia. }
  rewrite He.
  rewrite (Z.mod_small ((end_pos + 2 - start_pos) * 8)) by lia.
  rewrite (Z.mod_small ((end_pos + 2 - start_pos) * 8 - 8)) by lia.
  replace (((end_pos + 2 - start_pos) * 8 - 8) / 8) with (end_pos + 1 - start_pos)
    by (replace ((end_pos + 2 - start_pos) * 8 - 8) with ((end_pos + 1 - start_pos) * 8)
          by lia; now rewrite Z.div_mul).
  destruct (Z.leb_spec (start_pos * 8 + ((end_pos + 2 - start_pos) * 8 - 8))
                       (npos p_vec * 8)); [|lia].
  destruct (Z.leb_spec 8 ((end_pos + 2 - start_pos) * 8)); [|lia].
  reflexivity.
Qed.

(** The whole vector as an argv. *)
Lemma slice_argv_whole (p_vec : list string) :
  npos p_vec <= READ_BUFFER_SIZE ->
  slice_argv_from_vec p_vec 0 (npos p_vec - 1) = Ok (map Some p_vec ++ [None]).
Proof.
  intros Hbuf. pose proof (npos_nonneg p_vec).
  rewrite slice_argv_in_range by lia.
  replace (npos p_vec - 1 + 1 - 0) with (npos p_vec) by lia.
  unfold npos. rewrite Nat2Z.id. simpl skipn. now rewrite firstn_all.
Qed.

(** All tokens but the last as an argv. *)
Lemma slice_argv_front (words : list string) (last : string) :
  npos (words ++ [last]) <= READ_BUFFER_SIZE ->
  slice_argv_from_vec (words ++ [last]) 0 (npos words - 1)
  = Ok (map Some words ++ [None]).
Proof.
  intros Hbuf. pose proof (npos_nonneg words).
  assert (npos (words ++ [last]) = npos words + 1) as Hn by apply npos_app.
  rewrite slice_argv_in_range by lia.
  replace (npos words - 1 + 1 - 0) with (npos words) by lia.
  unfold npos. rewrite Nat2Z.id. simpl skipn.
  rewrite firstn_app, firstn_all, Nat.sub_diag. simpl. now rewrite app_nil_r.
Qed.

(* ================================================================== *)
(** * The parsers never exhaust their loop bound *)

Lemma vec_get_fuel {A} (l : list A) (idx : Z) : vec_get l idx <> OutOfFuel.
Proof.
  unfold vec_get. destruct (idx <? 0); [discriminate|].
  destruct (nth_error l (Z.to_nat idx)); discriminate.
Qed.

Lemma tok_char_fuel (p_vec : list string) (idx : Z) : tok_char p_vec idx <> OutOfFuel.
Proof.
  unfold tok_char. pose proof (vec_get_fuel p_vec idx).
  destruct (vec_get p_vec idx); simpl; congruence.
Qed.

Lemma slice_argv_fuel (p_vec : list string) (start_pos end_pos : Z) :
  slice_argv_from_vec p_vec start_pos end_pos <> OutOfFuel.
Proof.
  unfold slice_argv_from_vec.
  match goal with |- (if ?b then _ else _) <> _ => destruct b end; discriminate.
Qed.

Lemma ensure_argv_fuel (p_vec : list string) (c : command_t) (end_pos : Z) :
  ensure_argv p_vec c end_pos <> OutOfFuel.
Proof.
  unfold ensure_argv. destruct (argv c); [discriminate|].
  pose proof (slice_argv_fuel p_vec 0 end_pos).
  destruct (slice_argv_from_vec p_vec 0 end_pos); simpl; congruence.
Qed.

Lemma res_bind_fuel {A B} (r : res A) (k : A -> res B) :
  r <> OutOfFuel -> (forall a, k a <> OutOfFuel) -> res_bind r k <> OutOfFuel.
Proof. destruct r; simpl; auto; discriminate. Qed.

Create HintDb fuel.
#[local] Hint Resolve vec_get_fuel tok_char_fuel slice_argv_fuel ensure_argv_fuel : fuel.

(** Splits the goal along the tests and sequenced steps of a loop body. *)
Ltac fuel_cases :=
  repeat match goal with
         | |- Ok _ <> OutOfFuel => discriminate
         | |- Oob <> OutOfFuel => discriminate
         | |- res_bind _ _ <> OutOfFuel => apply res_bind_fuel; [auto with fuel | intros]
         | |- (if ?b then _ else _) <> OutOfFuel => destruct b eqn:?
         | |- (let '(_, _) := ?p in _) <> OutOfFuel => destruct p
         end.

Lemma parse_single_loop_fuel (fuel : nat) :
  forall p_vec idx p_command seen_command g,
    npos p_vec - idx <= Z.of_nat fuel ->
    parse_single_loop fuel p_vec idx p_command seen_command g <> OutOfFuel.
Proof.
  induction fuel as [|fuel IH]; intros p_vec idx p_command seen_command g Hfuel.
  - simpl. destruct (Z.ltb_spec idx (npos p_vec)); simpl; [lia | discriminate].
  - cbn [parse_single_loop].
    destruct (Z.ltb_spec idx (npos p_vec)); simpl negb; cbv iota; [|discriminate].
    fuel_cases; apply IH; lia.
Qed.

Lemma parse_single_command_fuel (p_vec : list string) (p_command : command_t)
    (g : globals) :
  parse_single_command p_vec p_command g <> OutOfFuel.
Proof.
  unfold parse_single_command.
  destruct (npos p_vec =? 0); [discriminate|].
  apply parse_single_loop_fuel. unfold npos. lia.
Qed.

Lemma seek_first_command_end_fuel (fuel : nat) :
  forall p_vec idx c,
    npos p_vec - idx <= Z.of_nat fuel -> vec_get p_vec idx <> Oob ->
    seek_first_command_end fuel p_vec idx c <> OutOfFuel.
Proof.
  induction fuel as [|fuel IH]; intros p_vec idx c Hfuel Hin.
  - exfalso. apply Hin. apply vec_get_out_of_range. lia.
  - cbn [seek_first_command_end].
    match goal with |- (if ?b then _ else _) <> _ => destruct b end; [|discriminate].
    destruct (c =? ">")%char; [discriminate|].
    unfold tok_char.
    pose proof (vec_get_fuel p_vec (idx + 1)) as Hget.
    destruct (vec_get p_vec (idx + 1)) eqn:E; simpl; try congruence.
    apply IH; [lia | congruence].
Qed.

Lemma parse_multiple_loop_fuel (fuel : nat) :
  forall p_vec idx command_start_idx current_command seen_command p_command_vec g,
    npos p_vec - idx <= Z.of_nat fuel ->
    parse_multiple_loop fuel p_vec idx command_start_idx current_command seen_command
                        p_command_vec g <> OutOfFuel.
Proof.
  induction fuel as [|fuel IH]; intros p_vec idx st cur seen cv g Hfuel.
  - simpl. destruct (Z.ltb_spec idx (npos p_vec)); simpl; [lia|]. fuel_cases.
  - cbn [parse_multiple_loop].
    destruct (Z.ltb_spec idx (npos p_vec)); simpl negb; cbv iota; [|fuel_cases].
    fuel_cases; apply IH; lia.
Qed.

Lemma seek_first_command_end_idx (fuel : nat) :
  forall p_vec idx c i c',
    seek_first_command_end fuel p_vec idx c = Ok (Some (i, c')) -> idx <= i.
Proof.
  induction fuel as [|fuel IH]; intros p_vec idx c i c'; cbn [seek_first_command_end];
    match goal with |- (if ?b then _ else _) = _ -> _ => destruct b end;
    try discriminate; try (intros [= <- <-]; lia).
  destruct (c =? ">")%char; [discriminate|].
  destruct (tok_char p_vec (idx + 1)) eqn:E; simpl; try discriminate.
  intros H. apply IH in H. lia.
Qed.

Lemma parse_multiple_commands_fuel (p_vec : list string) (p_command_vec : list command_t)
    (g : globals) :
  parse_multiple_commands p_vec p_command_vec g <> OutOfFuel.
Proof.
  unfold parse_multiple_commands.
  assert (Hget : tok_char p_vec 0 <> Oob -> vec_get p_vec 0 <> Oob).
  { unfold tok_char. destruct (vec_get p_vec 0); simpl; congruence. }
  pose proof (tok_char_fuel p_vec 0) as Hc.
  destruct (tok_char p_vec 0) as [c| |] eqn:Ec; simpl; try congruence.
  pose proof (seek_first_command_end_fuel (length p_vec) p_vec 0 c) as Hseek.
  destruct (seek_first_command_end (length p_vec) p_vec 0 c) as [[[i c']|]| |] eqn:Es;
    simpl; try discriminate.
  - apply seek_first_command_end_idx in Es.
    apply res_bind_fuel; [auto with fuel | intros a].
    destruct ((c' =? "<")%char && (i + 3 <? npos p_vec)).
    + pose proof (vec_get_fuel p_vec (i + 1)).
      destruct (vec_get p_vec (i + 1)); simpl; try congruence.
      apply parse_multiple_loop_fuel; unfold npos; lia.
    + simpl. apply parse_multiple_loop_fuel; unfold npos; lia.
  - exfalso. apply Hseek; [unfold npos; lia | apply Hget; discriminate | reflexivity].
Qed.

(* ================================================================== *)
(** * parse_single_command on lines of words *)

Lemma tok_char_get (p_vec : list string) (idx : Z) (tok : string) :
  vec_get p_vec idx = Ok tok -> tok_char p_vec idx = Ok (first_char tok).
Proof. unfold tok_char. now intros ->. Qed.

Lemma is_word_token_chars (tok : string) :
  is_word_token tok = true ->
  (first_char tok =? "|")%char = false /\ (first_char tok =? "<")%char = false
  /\ (first_char tok =? ">")%char = false /\ (first_char tok =? "&")%char = false.
Proof.
  unfold is_word_token.
  destruct (first_char tok =? "|")%char, (first_char tok =? "<")%char,
    (first_char tok =? ">")%char, (first_char tok =? "&")%char; simpl;
    intros; try discriminate; auto.
Qed.

Lemma is_background_token_chars (tok : string) :
  is_background_token tok = true ->
  (first_char tok =? "<")%char = false /\ (first_char tok =? ">")%char = false
  /\ (first_char tok =? "&")%char = true.
Proof.
  unfold is_background_token. intros H.
  apply Ascii.eqb_eq in H. rewrite H. auto.
Qed.

(** A word that is not the last token is stepped over. *)
Lemma parse_single_loop_word (fuel : nat) (p_vec : list string) (idx : Z) (tok : string)
    (p_command : command_t) (seen_command : bool) (g : globals) :
  vec_get p_vec idx = Ok tok -> is_word_token tok = true -> idx + 1 < npos p_vec ->
  parse_single_loop (S fuel) p_vec idx p_command seen_command g
  = parse_single_loop fuel p_vec (idx + 1) p_command seen_command g.
Proof.
  intros Hget Hword Hlt.
  apply is_word_token_chars in Hword. destruct Hword as (_ & Hlt' & Hgt & Hamp).
  cbn [parse_single_loop].
  destruct (Z.ltb_spec idx (npos p_vec)); [|lia]. simpl negb. cbv iota.
  rewrite (tok_char_get _ _ _ Hget). simpl res_bind.
  rewrite Hlt', Hgt, Hamp.
  destruct (Z.eqb_spec (idx + 1) (npos p_vec)); [lia|]. reflexivity.
Qed.

(** So is a run of [n] of them. *)
Lemma parse_single_loop_words (n : nat) :
  forall fuel p_vec idx p_command seen_command g,
    0 <= idx -> idx + Z.of_nat n < npos p_vec ->
    (forall j tok, idx <= j < idx + Z.of_nat n -> vec_get p_vec j = Ok tok ->
                   is_word_token tok = true) ->
    parse_single_loop (n + fuel) p_vec idx p_command seen_command g
    = parse_single_loop fuel p_vec (idx + Z.of_nat n) p_command seen_command g.
Proof.
  induction n as [|n IH]; intros fuel p_vec idx p_command seen_command g H0 Hlt Hwords.
  - simpl. now rewrite Z.add_0_r.
  - destruct (vec_get_in_range p_vec idx) as (tok & Hget & _); [lia|].
    replace (S n + fuel)%nat with (S (n + fuel)) by lia.
    rewrite (parse_single_loop_word _ _ _ tok); try lia; auto.
    + rewrite IH; try lia.
      * f_equal. lia.
      * intros j tok' Hj. apply Hwords. lia.
    + apply (Hwords idx); [lia | exact Hget].
Qed.

Lemma forallb_vec_get {A} (p : A -> bool) (l : list A) (idx : Z) (a : A) :
  forallb p l = true -> vec_get l idx = Ok a -> p a = true.
Proof.
  intros Hall Hget. rewrite forallb_forall in Hall. apply Hall.
  unfold vec_get in Hget. destruct (idx <? 0); [discriminate|].
  destruct (nth_error l (Z.to_nat idx)) eqn:E; [|discriminate].
  injection Hget as <-. eapply nth_error_In; eauto.
Qed.

Lemma parse_single_loop_end (fuel : nat) (p_vec : list string) (idx : Z)
    (p_command : command_t) (seen_command : bool) (g : globals) :
  npos p_vec <= idx ->
  parse_single_loop fuel p_vec idx p_command seen_command g
  = Ok (PARSE_SUCCESS, p_command, g).
Proof.
  intros H. destruct fuel; cbn [parse_single_loop];
    destruct (Z.ltb_spec idx (npos p_vec)); try lia; reflexivity.
Qed.

(** A line of words only: the last word closes the command. *)
Lemma parse_single_command_plain (front : list string) (last : string) (g : globals) :
  npos (front ++ [last]) <= READ_BUFFER_SIZE ->
  forallb is_word_token (front ++ [last]) = true ->
  parse_single_command (front ++ [last]) command_zero g
  = Ok (PARSE_SUCCESS,
        mk_command (Some (map Some (front ++ [last]) ++ [None])) None None false,
        set_num_pipes 0 g).
Proof.
  intros Hbuf Hwords.
  pose proof (npos_nonneg front) as Hfront.
  assert (Hn : npos (front ++ [last]) = npos front + 1) by apply npos_app.
  assert (Hlast : vec_get (front ++ [last]) (npos front) = Ok last).
  { rewrite vec_get_app_r by lia. now rewrite Z.sub_diag. }
  unfold parse_single_command.
  destruct (Z.eqb_spec (npos (front ++ [last])) 0); [lia|].
  rewrite length_app. simpl length.
  rewrite parse_single_loop_words; try (unfold npos in *; lia).
  - change (0 + Z.of_nat (length front)) with (npos front). cbn [parse_single_loop].
    destruct (Z.ltb_spec (npos front) (npos (front ++ [last]))); [|lia].
    simpl negb. cbv iota.
    rewrite (tok_char_get _ _ _ Hlast). simpl res_bind.
    assert (Hword : is_word_token last = true) by (eapply forallb_vec_get; eauto).
    destruct (is_word_token_chars last Hword) as (_ & -> & -> & ->).
    destruct (Z.eqb_spec (npos front + 1) (npos (front ++ [last]))); [|lia].
    simpl andb. cbv iota.
    unfold ensure_argv. simpl argv. cbv iota.
    replace (npos front) with (npos (front ++ [last]) - 1) at 1 by lia.
    rewrite slice_argv_whole by assumption. simpl res_bind.
    destruct (Z.ltb_spec (npos front + 1) (npos (front ++ [last]))); [lia|].
    reflexivity.
  - intros j tok _ Hget. eapply forallb_vec_get; eauto.
Qed.

(** A line of words closed by ['&']: the words are the command, and the
    background flag is raised. *)
Lemma parse_single_command_background (words : list string) (amp : string) (g : globals) :
  npos (words ++ [amp]) <= READ_BUFFER_SIZE ->
  forallb is_word_token words = true -> is_background_token amp = true ->
  parse_single_command (words ++ [amp]) command_zero g
  = Ok (PARSE_SUCCESS,
        mk_command (Some (map Some words ++ [None])) None None false,
        set_bkg_proc true (set_num_pipes 0 g)).
Proof.
  intros Hbuf Hwords Hamp.
  pose proof (npos_nonneg words) as Hfront.
  assert (Hn : npos (words ++ [amp]) = npos words + 1) by apply npos_app.
  assert (Hlast : vec_get (words ++ [amp]) (npos words) = Ok amp).
  { rewrite vec_get_app_r by lia. now rewrite Z.sub_diag. }
  unfold parse_single_command.
  destruct (Z.eqb_spec (npos (words ++ [amp])) 0); [lia|].
  rewrite length_app. simpl length.
  rewrite parse_single_loop_words; try (unfold npos in *; lia).
  - change (0 + Z.of_nat (length words)) with (npos words). cbn [parse_single_loop].
    destruct (Z.ltb_spec (npos words) (npos (words ++ [amp]))); [|lia].
    simpl negb. cbv iota.
    rewrite (tok_char_get _ _ _ Hlast). simpl res_bind.
    destruct (is_background_token_chars amp Hamp) as (-> & -> & ->).
    destruct (Z.eqb_spec (npos words + 1) (npos (words ++ [amp]))); [|lia].
    simpl negb. cbv iota.
    unfold ensure_argv. simpl argv. cbv iota.
    rewrite slice_argv_front by assumption. simpl res_bind.
    destruct (Z.ltb_spec (npos words + 1) (npos (words ++ [amp]))); [lia|].
    reflexivity.
  - intros j tok Hj Hget. rewrite vec_get_app_l in Hget by (unfold npos; lia).
    eapply forallb_vec_get; eauto.
Qed.

(** C8 (amended).  For every non-empty token sequence (of a line that fits the
    read buffer) without pipe and redirect operators in which ['&'] occurs at
    most as the final token, the single-command parser succeeds with one
    command whose argv is the word tokens in their order followed by the NULL
    slot and which has no input and no output redirect; the background flag is
    raised exactly when the final token is ['&'], and is otherwise left as it
    was (false, between lines). *)
Theorem parse_single_command_words (words : list string) (amp : option string)
    (g : globals) :
  let p_vec := words ++ match amp with Some a => [a] | None => [] end in
  p_vec <> [] ->
  npos p_vec <= READ_BUFFER_SIZE ->
  forallb is_word_token words = true ->
  match amp with Some a => is_background_token a = true | None => True end ->
  parse_single_command p_vec command_zero g
  = Ok (PARSE_SUCCESS,
        mk_command (Some (map Some words ++ [None])) None None false,
        match amp with
        | Some _ => set_bkg_proc true (set_num_pipes 0 g)
        | None => set_num_pipes 0 g
        end).
Proof.
  destruct amp as [a|]; cbv zeta; intros Hne Hbuf Hwords Hamp.
  - now apply parse_single_command_background.
  - rewrite app_nil_r in *.
    destruct (exists_last Hne) as (front & last & ->).
    now apply parse_single_command_plain.
Qed.

Lemma parse_single_command_words_witness :
  parse_single_command ["ls"; "-l"; "/tmp"] command_zero globals_init
  = Ok (PARSE_SUCCESS,
        mk_command (Some [Some "ls"; Some "-l"; Some "/tmp"; None]) None None false,
        set_num_pipes 0 globals_init).
Proof.
  apply (parse_single_command_words ["ls"; "-l"; "/tmp"] None globals_init).
  - discriminate.
  - vm_compute. discriminate.
  - reflexivity.
  - exact I.
Defined.

(** C8 as stated fails: [ls &] has no pipe and no redirect operator, and the
    parse raises the background flag. *)
Lemma parse_single_command_background_counterexample :
  forallb (fun tok => negb ((first_char tok =? "|")%char)
                      && negb ((first_char tok =? "<")%char)
                      && negb ((first_char tok =? ">")%char)) ["ls"; "&"] = true
  /\ ~ (exists command g',
          parse_single_command ["ls"; "&"] command_zero globals_init
          = Ok (PARSE_SUCCESS, command, g')
          /\ global_bkg_proc g' = false).
Proof.
  split; [reflexivity|].
  intros (command & g' & Hparse & Hflag).
  vm_compute in Hparse. injection Hparse as <- <-. discriminate.
Qed.

(* ================================================================== *)
(** * One line, from the scanner to the parsers *)

Lemma state_eta (s : proc_state) :
  mk_state (st_globals s) (st_cwd s) (st_trace s) (st_forks s) (st_children s) = s.
Proof. now destruct s. Qed.

(** [shell_eval] is [line_parse] followed by [shell_dispatch]. *)
Lemma shell_eval_line_parse (os : os_env) (p_vec : list string) (s : proc_state) :
  shell_eval os p_vec s
  = (parsed <- lift (line_parse p_vec (st_globals s)) ;;
     modify_globals (fun _ => snd parsed) ;;
     shell_dispatch os p_vec (fst parsed)) s.
Proof.
  unfold shell_eval, line_parse.
  destruct (npos p_vec =? 0).
  { unfold bind, lift, ret, modify_globals. simpl. now rewrite state_eta. }
  unfold bind at 1. unfold get_globals at 1. cbv beta iota.
  destruct (negb (is_parse_error (parse_builtin_cmds p_vec (st_globals s)))
            && negb (global_num_builtins (st_globals s) =? 0)).
  { unfold bind, lift, ret, modify_globals. simpl. now rewrite state_eta. }
  destruct (is_parse_error (parse_builtin_cmds p_vec (st_globals s))).
  { unfold bind, lift, ret, modify_globals. simpl. now rewrite state_eta. }
  destruct (global_num_commands (st_globals s) =? 1).
  - destruct (parse_single_command p_vec command_zero (st_globals s))
      as [[[res command] g]| |]; try reflexivity.
    destruct res; reflexivity.
  - destruct (parse_multiple_commands p_vec [] (st_globals s))
      as [[[res command_vec] g]| |]; try reflexivity.
    destruct res; reflexivity.
Qed.

(** [shell_read] on a line is [scan_line]. *)
Lemma shell_read_scan_line (os_buffer : list lexeme) (s : proc_state)
    (p_vec : list string) (g : globals) :
  scan_line os_buffer (st_globals s) = Ok (p_vec, g) ->
  shell_read (Some os_buffer) [] s = (Returned p_vec, with_globals g s).
Proof.
  unfold shell_read, scan_line, bind, modify_globals, get_globals. simpl.
  now intros ->.
Qed.

Lemma strlen_le (s : string) : (strlen s <= String.length s)%nat.
Proof.
  induction s as [|c s IH]; simpl; [lia|].
  destruct (c =? Ascii.zero)%char; lia.
Qed.

(** Without a wrap-around the quoted-string action copies from inside the
    string. *)
Lemma quoted_copy_fits (yytext : string) :
  2 <= Z.of_nat (strlen yytext) ->
  (size_wrap (Z.of_nat (strlen yytext) - 2) <=? Z.of_nat (strlen yytext)) = true.
Proof.
  intros Hlen. apply Z.leb_le. unfold size_wrap.
  assert (Hmod : (Z.of_nat (strlen yytext) - 2) mod 2 ^ 64 <= Z.of_nat (strlen yytext) - 2)
    by (apply Z.mod_le; lia).
  lia.
Qed.

(** With a NUL right after the opening quote [len] wraps around, and the
    copy overruns. *)
Lemma quoted_copy_overruns (yytext : string) (target : list string) (g : globals) :
  Z.of_nat (strlen yytext) < 2 ->
  yylex_action (RULE_QUOTED, yytext) (target, g) = Oob.
Proof.
  intros Hlen. cbn [yylex_action].
  assert (Hwrap : size_wrap (Z.of_nat (strlen yytext) - 2)
                  = 2 ^ 64 + Z.of_nat (strlen yytext) - 2).
  { unfold size_wrap.
    replace (Z.of_nat (strlen yytext) - 2)
      with ((2 ^ 64 + Z.of_nat (strlen yytext) - 2) + -1 * 2 ^ 64) by lia.
    rewrite Z.mod_add by lia. apply Z.mod_small. lia. }
  rewrite Hwrap.
  destruct (Z.ltb_spec 0 (2 ^ 64 + Z.of_nat (strlen yytext) - 2)); [|lia].
  destruct (Z.leb_spec (2 ^ 64 + Z.of_nat (strlen yytext) - 2) (Z.of_nat (strlen yytext)));
    [lia | reflexivity].
Qed.

(** The rule actions write inside [global_builtin_idxs]: the scan of a line
    fails only in the copy of a quoted string. *)
Lemma yylex_action_total (lx : lexeme) (target : list string) (g : globals) :
  quoted_fits lx = true ->
  length (global_builtin_idxs g) = 2%nat ->
  exists target' g', yylex_action lx (target, g) = Ok (target', g')
                     /\ length (global_builtin_idxs g') = 2%nat.
Proof.
  intros Hfits Hlen. destruct lx as [rule yytext].
  destruct (global_builtin_idxs g) as [|i0 [|i1 [|]]] eqn:E; try discriminate.
  destruct rule; simpl; rewrite ?E; simpl;
    try (unfold quoted_fits in Hfits; cbn [fst snd] in Hfits;
         apply Z.leb_le in Hfits; rewrite (quoted_copy_fits yytext Hfits);
         match goal with |- context [0 <? ?len] => destruct (0 <? len) end);
    (do 2 eexists; split; [reflexivity | simpl; rewrite ?E; reflexivity]).
Qed.

Lemma lexer_parse_buffer_total (buffer : list lexeme) :
  forall target g,
    forallb quoted_fits buffer = true ->
    length (global_builtin_idxs g) = 2%nat ->
    exists target' g', lexer_parse_buffer buffer (target, g) = Ok (target', g').
Proof.
  induction buffer as [|lx rest IH]; intros target g Hfits Hlen; simpl; eauto.
  simpl in Hfits. apply andb_true_iff in Hfits. destruct Hfits as [Hlx Hrest].
  destruct (yylex_action_total lx target g Hlx Hlen) as (t' & g' & -> & Hlen').
  simpl. now apply IH.
Qed.

Lemma scan_line_total (buffer : list lexeme) (g : globals) :
  forallb quoted_fits buffer = true ->
  exists p_vec g', scan_line buffer g = Ok (p_vec, g').
Proof. intros Hfits. now apply lexer_parse_buffer_total. Qed.

(* ================================================================== *)
(** * Lines the pipeline parser accepts *)

(** C3 (defect in the code).  The checks of the ['|'] case -- a command seen
    before the pipe, a token after it, and that token no operator -- are not
    made for the first pipe of a line, which the seek loop consumes: the lines
    [a |] and [a | &] are accepted as a one-command pipeline, and [| a] is
    accepted with an empty first stage. *)
Theorem first_pipe_unchecked (g : globals) :
  let no_next := [(RULE_WORD, "a"); (RULE_PIPE, "|")] in
  let background_next := [(RULE_WORD, "a"); (RULE_PIPE, "|"); (RULE_OPERATOR, "&")] in
  let no_previous := [(RULE_PIPE, "|"); (RULE_WORD, "a")] in
  forallb lexeme_matches (no_next ++ background_next ++ no_previous) = true
  /\ (exists g', parse_turn no_next g = Ok (LinePipeline [plain_command ["a"]], g'))
  /\ (exists g', parse_turn background_next g
                 = Ok (LinePipeline [plain_command ["a"]], g')
                 /\ global_bkg_proc g' = true)
  /\ (exists g', parse_turn no_previous g
                 = Ok (LinePipeline [plain_command []; plain_command ["a"]], g')).
Proof.
  cbv zeta. split; [reflexivity|].
  split; [|split]; eexists; try split; reflexivity.
Qed.

(** C4 (defect in the code).  [a | b > out] is parsed into two commands, the
    second with [dest = "out"]; but the scan for a pipe after a ['>'] stops
    before the last token, and the test of the token after ['>'] leaves ['|']
    out: [a | b > |] is accepted, with the pipe as the output file. *)
Theorem output_redirect_before_pipe_accepted (g : globals) :
  let good := [(RULE_WORD, "a"); (RULE_PIPE, "|"); (RULE_WORD, "b");
               (RULE_OPERATOR, ">"); (RULE_WORD, "out")] in
  let bad := [(RULE_WORD, "a"); (RULE_PIPE, "|"); (RULE_WORD, "b");
              (RULE_OPERATOR, ">"); (RULE_PIPE, "|")] in
  forallb lexeme_matches (good ++ bad) = true
  /\ (exists g', parse_turn good g
                 = Ok (LinePipeline [plain_command ["a"];
                                     set_dest (plain_command ["b"]) "out"], g'))
  /\ (exists g', parse_turn bad g
                 = Ok (LinePipeline [plain_command ["a"];
                                     set_dest (plain_command ["b"]) "|"], g')).
Proof.
  cbv zeta. split; [reflexivity|].
  split; eexists; reflexivity.
Qed.

(** C5 (defect in the code).  After the first stage's ['<'] the parser skips
    two tokens unseen, "the file name, as well as the anticipated pipe": in
    [a < | < b] the second ['<'] stands in the second stage and the line is
    accepted, with the pipe as the input file. *)
Theorem input_redirect_in_later_stage_accepted (g : globals) :
  let buffer := [(RULE_WORD, "a"); (RULE_OPERATOR, "<"); (RULE_PIPE, "|");
                 (RULE_OPERATOR, "<"); (RULE_WORD, "b")] in
  forallb lexeme_matches buffer = true
  /\ exists g', parse_turn buffer g
                = Ok (LinePipeline [set_src (plain_command ["a"]) "|";
                                    plain_command ["b"]], g').
Proof.
  cbv zeta. split; [reflexivity|]. eexists; reflexivity.
Qed.

(** C6 (defect in the code).  A command has one [src] and one [dest] field,
    but its argv can be empty: neither parser checks that a word precedes the
    first operator of the line.  The line [&] is parsed by the single-command
    parser into a command whose argv is the NULL slot alone, and [| a] by the
    pipeline parser into two commands, the first with such an argv. *)
Theorem empty_argv_accepted (g : globals) :
  let single := [(RULE_OPERATOR, "&")] in
  let multiple := [(RULE_PIPE, "|"); (RULE_WORD, "a")] in
  forallb lexeme_matches (single ++ multiple) = true
  /\ (exists g', parse_turn single g = Ok (LineCommand (plain_command []), g'))
  /\ (exists g', parse_turn multiple g
                 = Ok (LinePipeline [plain_command []; plain_command ["a"]], g'))
  /\ argv (plain_command []) = Some [None].
Proof.
  cbv zeta. split; [reflexivity|].
  split; [|split]; [eexists; reflexivity | eexists; reflexivity | reflexivity].
Qed.

(* ================================================================== *)
(** * Sample lines *)

(** [a < in > out] and [a > out < in] are the same command. *)
Example parse_turn_both_redirects :
  let expected := LineCommand (set_src (set_dest (plain_command ["a"]) "out") "in") in
  fst_ok (parse_turn [(RULE_WORD, "a"); (RULE_OPERATOR, "<"); (RULE_WORD, "in");
                      (RULE_OPERATOR, ">"); (RULE_WORD, "out")] globals_init)
  = Some expected
  /\ fst_ok (parse_turn [(RULE_WORD, "a"); (RULE_OPERATOR, ">"); (RULE_WORD, "out");
                         (RULE_OPERATOR, "<"); (RULE_WORD, "in")] globals_init)
     = Some expected.
Proof. split; reflexivity. Qed.

(** [a | b | c] is three commands without redirects; [a > out | b] is
    rejected. *)
Example parse_turn_pipeline :
  fst_ok (parse_turn [(RULE_WORD, "a"); (RULE_PIPE, "|"); (RULE_WORD, "b");
                      (RULE_PIPE, "|"); (RULE_WORD, "c")] globals_init)
  = Some (LinePipeline [plain_command ["a"]; plain_command ["b"]; plain_command ["c"]])
  /\ fst_ok (parse_turn [(RULE_WORD, "a"); (RULE_OPERATOR, ">"); (RULE_WORD, "out");
                         (RULE_PIPE, "|"); (RULE_WORD, "b")] globals_init)
     = Some LineInvalid.
Proof. split; reflexivity. Qed.

(** [ls &] is launched and not waited for, and the background flag is
    consumed. *)
Example shell_turn_background :
  shell_turn os_example (Some [(RULE_WORD, "ls"); (RULE_OPERATOR, "&")]) state_init
  = (Returned tt,
     mk_state (mk_globals 0 1 true false [-1; -1] 0) "/" [EvFork 100] 1
              [mk_child 100 0 [EvExecvp (Some "ls") [Some "ls"; None]] (Halted Execd)]).
Proof. vm_compute. reflexivity. Qed.

(* ================================================================== *)
(** * What a parse reads and writes of the globals *)

Lemma globals_eq (g h : globals) : same_lex g h -> same_rest g h -> g = h.
Proof.
  destruct g, h. unfold same_lex, same_rest. simpl.
  intros (-> & -> & ->) (-> & -> & ->). reflexivity.
Qed.

Lemma touch_nothing (g : globals) : touch None false g = g.
Proof. destruct g. unfold touch. simpl. now rewrite orb_false_r. Qed.

Lemma touch_raised (np : option Z) (raised : bool) (g : globals) :
  touch np raised (set_bkg_proc true g) = touch np true g.
Proof. destruct g. unfold touch. simpl. now rewrite orb_true_r. Qed.

Lemma touch_pipes (n : Z) (np : option Z) (raised : bool) (g : globals) :
  touch np raised (set_num_pipes n g)
  = touch (Some match np with Some m => m | None => n end) raised g.
Proof. destruct np; reflexivity. Qed.

Lemma parse_rel_ok {A} (a : A) (g h : globals) : parse_rel g h (Ok (a, g)) (Ok (a, h)).
Proof.
  simpl. split; [reflexivity|]. exists None, false. now rewrite !touch_nothing.
Qed.

Lemma parse_rel_raised {A} (g h : globals) (r1 r2 : res (A * globals)) :
  parse_rel (set_bkg_proc true g) (set_bkg_proc true h) r1 r2 -> parse_rel g h r1 r2.
Proof.
  destruct r1 as [[a g']| |], r2 as [[b h']| |]; simpl; auto.
  intros (-> & np & raised & -> & ->). split; [reflexivity|].
  exists np, true. now rewrite !touch_raised.
Qed.

Lemma parse_rel_pipes {A} (n : Z) (g h : globals) (r1 r2 : res (A * globals)) :
  parse_rel (set_num_pipes n g) (set_num_pipes n h) r1 r2 -> parse_rel g h r1 r2.
Proof.
  destruct r1 as [[a g']| |], r2 as [[b h']| |]; simpl; auto.
  intros (-> & np & raised & -> & ->). split; [reflexivity|].
  eexists _, raised. now rewrite !touch_pipes.
Qed.

(** Walks through the tests and steps two runs share. *)
Ltac rel_cases :=
  repeat match goal with
         | |- parse_rel _ _ (Ok (_, ?g)) (Ok (_, ?h)) => apply parse_rel_ok
         | |- parse_rel _ _ Oob Oob => exact I
         | |- parse_rel _ _ OutOfFuel OutOfFuel => exact I
         | |- parse_rel _ _ (if ?b then _ else _) (if ?b then _ else _) => destruct b
         | |- parse_rel _ _ (res_bind ?e _) (res_bind ?e _) =>
             destruct e; simpl res_bind
         | |- parse_rel _ _ (match ?e with Some _ => _ | None => _ end)
                        (match ?e with Some _ => _ | None => _ end) => destruct e
         | |- parse_rel _ _ (let '(_, _) := ?p in _) (let '(_, _) := ?p in _) =>
             destruct p
         end.

Lemma parse_single_loop_rel (fuel : nat) :
  forall p_vec idx p_command seen_command g h,
    parse_rel g h (parse_single_loop fuel p_vec idx p_command seen_command g)
                  (parse_single_loop fuel p_vec idx p_command seen_command h).
Proof.
  induction fuel as [|fuel IH]; intros; cbn [parse_single_loop]; rel_cases;
    try apply IH; apply parse_rel_raised, IH.
Qed.

Lemma parse_single_command_rel (p_vec : list string) (p_command : command_t)
    (g h : globals) :
  parse_rel g h (parse_single_command p_vec p_command g)
                (parse_single_command p_vec p_command h).
Proof.
  unfold parse_single_command. apply (parse_rel_pipes 0).
  rel_cases. apply parse_single_loop_rel.
Qed.

Lemma parse_multiple_loop_rel (fuel : nat) :
  forall p_vec idx command_start_idx current_command seen_command p_command_vec g h,
    parse_rel g h
      (parse_multiple_loop fuel p_vec idx command_start_idx current_command
                           seen_command p_command_vec g)
      (parse_multiple_loop fuel p_vec idx command_start_idx current_command
                           seen_command p_command_vec h).
Proof.
  induction fuel as [|fuel IH]; intros; cbn [parse_multiple_loop]; rel_cases;
    try apply IH; apply parse_rel_raised, IH.
Qed.

Lemma parse_multiple_commands_rel (p_vec : list string) (p_command_vec : list command_t)
    (g h : globals) :
  parse_rel g h (parse_multiple_commands p_vec p_command_vec g)
                (parse_multiple_commands p_vec p_command_vec h).
Proof.
  unfold parse_multiple_commands. rel_cases; apply parse_multiple_loop_rel.
Qed.

Lemma parse_builtin_cmds_same_lex (p_vec : list string) (g h : globals) :
  same_lex g h -> parse_builtin_cmds p_vec g = parse_builtin_cmds p_vec h.
Proof.
  intros (Hnc & Hidx & Hnb). unfold parse_builtin_cmds. now rewrite Hnc, Hidx, Hnb.
Qed.

Lemma line_parse_rel (p_vec : list string) (g h : globals) :
  same_lex g h -> parse_rel g h (line_parse p_vec g) (line_parse p_vec h).
Proof.
  intros Hlex. unfold line_parse.
  rewrite (parse_builtin_cmds_same_lex p_vec g h Hlex).
  destruct Hlex as (Hnc & Hidx & Hnb). rewrite Hnc, Hnb.
  rel_cases.
  - pose proof (parse_single_command_rel p_vec command_zero g h) as Hrel.
    destruct (parse_single_command p_vec command_zero g) as [[[r1 c1] g']| |],
             (parse_single_command p_vec command_zero h) as [[[r2 c2] h']| |];
      simpl in *; try contradiction; auto.
    destruct Hrel as (Heq & Htouch). injection Heq as <- <-.
    destruct r1; simpl; split; auto.
  - pose proof (parse_multiple_commands_rel p_vec [] g h) as Hrel.
    destruct (parse_multiple_commands p_vec [] g) as [[[r1 c1] g']| |],
             (parse_multiple_commands p_vec [] h) as [[[r2 c2] h']| |];
      simpl in *; try contradiction; auto.
    destruct Hrel as (Heq & Htouch). injection Heq as <- <-.
    destruct r1; simpl; split; auto.
Qed.

Lemma yylex_action_rel (lx : lexeme) (target : list string) (g h : globals) :
  same_lex g h ->
  scan_rel g h (yylex_action lx (target, g)) (yylex_action lx (target, h)).
Proof.
  intros (Hnc & Hidx & Hnb). destruct lx as [rule yytext].
  destruct rule; simpl; rewrite ?Hnc, ?Hidx, ?Hnb;
    try match goal with
      | |- context [vec_set ?l ?i ?v] => destruct (vec_set l i v); simpl; auto
      | |- context [0 <? ?len] =>
          destruct (0 <? len); simpl;
          try match goal with
            | |- context [?a <=? ?b] => destruct (a <=? b); simpl
            end
      end;
    unfold same_lex, same_rest; simpl; auto 10.
Qed.

Lemma lexer_parse_buffer_rel (buffer : list lexeme) :
  forall target g h,
    same_lex g h ->
    scan_rel g h (lexer_parse_buffer buffer (target, g))
                 (lexer_parse_buffer buffer (target, h)).
Proof.
  induction buffer as [|lx rest IH]; intros target g h Hlex.
  - simpl. unfold same_rest. auto 10.
  - cbn [lexer_parse_buffer].
    pose proof (yylex_action_rel lx target g h Hlex) as Hstep.
    destruct (yylex_action lx (target, g)) as [[v1 g1]| |],
             (yylex_action lx (target, h)) as [[v2 h1]| |];
      simpl in *; try contradiction; auto.
    destruct Hstep as (<- & Hlex1 & Hg1 & Hh1).
    specialize (IH v1 g1 h1 Hlex1).
    destruct (lexer_parse_buffer rest (v1, g1)) as [[v1' g1']| |],
             (lexer_parse_buffer rest (v1, h1)) as [[v2' h1']| |];
      simpl in *; try contradiction; auto.
    destruct IH as (-> & Hlex' & Hg' & Hh').
    unfold same_rest in *. intuition congruence.
Qed.

(** Two turns on the same line end alike, whatever the globals were. *)
Lemma parse_turn_rel (buffer : list lexeme) (g h : globals) :
  match parse_turn buffer g, parse_turn buffer h with
  | Ok (a, g'), Ok (b, h') =>
      a = b /\ same_lex g' h'
      /\ exists np raised, same_rest g' (touch np raised g)
                           /\ same_rest h' (touch np raised h)
  | Oob, Oob => True
  | OutOfFuel, OutOfFuel => True
  | _, _ => False
  end.
Proof.
  unfold parse_turn, scan_line.
  match goal with
  | |- context [lexer_parse_buffer buffer ([], ?g0)] =>
      match goal with
      | |- context [lexer_parse_buffer buffer ([], ?h0)] =>
          lazymatch h0 with
          | context [h] =>
              assert (Hscan : scan_rel g0 h0 (lexer_parse_buffer buffer ([], g0))
                                             (lexer_parse_buffer buffer ([], h0)))
                by (apply lexer_parse_buffer_rel; repeat split)
          end
      end
  end.
  destruct (lexer_parse_buffer buffer ([], _)) as [[v1 g1]| |],
           (lexer_parse_buffer buffer ([], _)) as [[v2 h1]| |];
    simpl in *; try contradiction; auto.
  destruct Hscan as (<- & Hlex & Hg1 & Hh1).
  pose proof (line_parse_rel v1 g1 h1 Hlex) as Hparse.
  destruct (line_parse v1 g1) as [[a g']| |], (line_parse v1 h1) as [[b h']| |];
    simpl in *; try contradiction; auto.
  destruct Hparse as (<- & np & raised & -> & ->).
  split; [reflexivity|]. split.
  - destruct Hlex as (? & ? & ?). repeat split; assumption.
  - exists np, raised.
    destruct Hg1 as (Hg1a & Hg1b & Hg1c), Hh1 as (Hh1a & Hh1b & Hh1c).
    simpl in *. unfold same_rest, touch. simpl.
    rewrite Hg1a, Hg1b, Hg1c, Hh1a, Hh1b, Hh1c. auto.
Qed.

(** C9.  Parsing a line twice in succession, with the per-line reset of
    [shell_read] before each parse, gives the same result both times: the same
    commands and redirects, the same background flag, the same globals
    altogether.  The same holds when the launcher has consumed the background
    flag in between, as it does after every launch. *)
Theorem parse_turn_twice (buffer : list lexeme) (g g1 : globals) (parsed : parsed_line) :
  parse_turn buffer g = Ok (parsed, g1) ->
  parse_turn buffer g1 = Ok (parsed, g1)
  /\ (global_bkg_proc g = false ->
      parse_turn buffer (set_bkg_proc false g1) = Ok (parsed, g1)).
Proof.
  intros Hfirst. split; [|intros Hbkg].
  - pose proof (parse_turn_rel buffer g g1) as Hrel. rewrite Hfirst in Hrel.
    destruct (parse_turn buffer g1) as [[b h']| |]; try contradiction.
    destruct Hrel as (<- & Hlex & np & raised & Hg & Hh).
    f_equal. f_equal. symmetry. apply globals_eq; [assumption|].
    destruct Hg as (Hg1 & Hg2 & Hg3), Hh as (Hh1 & Hh2 & Hh3).
    simpl in *. unfold same_rest.
    set (b := global_bkg_proc g) in *. clearbody b.
    destruct np, b, raised; simpl in *; rewrite Hg3 in Hh3; simpl in Hh3;
      repeat split; congruence.
  - pose proof (parse_turn_rel buffer g (set_bkg_proc false g1)) as Hrel.
    rewrite Hfirst in Hrel.
    destruct (parse_turn buffer (set_bkg_proc false g1)) as [[b h']| |];
      try contradiction.
    destruct Hrel as (<- & Hlex & np & raised & Hg & Hh).
    f_equal. f_equal. symmetry. apply globals_eq; [assumption|].
    destruct Hg as (Hg1 & Hg2 & Hg3), Hh as (Hh1 & Hh2 & Hh3).
    simpl in *. unfold same_rest. rewrite Hbkg in *.
    destruct np, raised; simpl in *; repeat split; congruence.
Qed.

Lemma parse_turn_twice_witness :
  let buffer := [(RULE_WORD, "sort"); (RULE_OPERATOR, "<"); (RULE_WORD, "in");
                 (RULE_PIPE, "|"); (RULE_WORD, "uniq"); (RULE_OPERATOR, "&")] in
  let parsed := LinePipeline [set_src (plain_command ["sort"]) "in";
                              plain_command ["uniq"]] in
  let g1 := mk_globals 0 2 true true [-1; -1] 0 in
  parse_turn buffer globals_init = Ok (parsed, g1)
  /\ parse_turn buffer g1 = Ok (parsed, g1)
  /\ parse_turn buffer (set_bkg_proc false g1) = Ok (parsed, g1).
Proof.
  cbv zeta.
  assert (Hfirst :
    parse_turn [(RULE_WORD, "sort"); (RULE_OPERATOR, "<"); (RULE_WORD, "in");
                (RULE_PIPE, "|"); (RULE_WORD, "uniq"); (RULE_OPERATOR, "&")]
               globals_init
    = Ok (LinePipeline [set_src (plain_command ["sort"]) "in"; plain_command ["uniq"]],
          mk_globals 0 2 true true [-1; -1] 0)) by reflexivity.
  destruct (parse_turn_twice _ _ _ _ Hfirst) as [Hsecond Hconsumed].
  split; [exact Hfirst|]. split; [exact Hsecond | exact (Hconsumed eq_refl)].
Defined.

(* ================================================================== *)
(** * The cd builtin *)

Lemma cd_to_run (os : os_env) (dir : string) (s : proc_state) :
  cd_to os dir s
  = match os_chdir os (st_cwd s) dir with
    | Some new_dir =>
        (Returned tt,
         mk_state (st_globals s) new_dir (st_trace s ++ [EvChdir dir 0]) (st_forks s)
                  (st_children s))
    | None => (Returned tt, append_trace s [EvChdir dir (-1); EvPerror "ERROR: cd"])
    end.
Proof.
  unfold cd_to, bind, chdir.
  destruct (os_chdir os (st_cwd s) dir); simpl; [reflexivity|].
  unfold perror, emit, append_trace. simpl. now rewrite <- app_assoc.
Qed.

(** The dispatcher when [cd] is the builtin the scanner tagged. *)
Lemma eval_builtin_cmds_cd (os : os_env) (p_vec : list string) (s : proc_state)
    (tagged_at : Z) :
  global_builtin_idxs (st_globals s) = [-1; tagged_at] -> tagged_at <> -1 ->
  eval_builtin_cmds os p_vec s
  = if npos p_vec =? 1 then
      match os_getenv_HOME os, os_pw_dir os with
      | Some dir, _ => cd_to os dir s
      | None, Some dir => cd_to os dir s
      | None, None => (Halted Crashed, s)
      end
    else if npos p_vec =? 2 then
      match vec_get p_vec 1 with
      | Ok dir => cd_to os dir s
      | _ => (Halted Crashed, s)
      end
    else (Returned tt, append_trace s [EvPuts "ERROR: usage: cd <dir>"]).
Proof.
  intros Hidx Htag.
  unfold eval_builtin_cmds, for_range. simpl for_count.
  unfold eval_builtin, bind, get_globals, lift, ret, halt_with.
  rewrite Hidx. simpl. rewrite Hidx. simpl.
  destruct (Z.eqb_spec tagged_at (-1)); [contradiction|]. simpl.
  destruct (npos p_vec =? 1).
  - destruct (os_getenv_HOME os) as [dir|]; [|destruct (os_pw_dir os) as [dir|]];
      try reflexivity;
      match goal with
      | |- context [cd_to os ?d s] => destruct (cd_to os d s) as [[[]|] ?]
      end; reflexivity.
  - destruct (npos p_vec =? 2).
    + destruct (vec_get p_vec 1) as [dir| |]; try reflexivity.
      destruct (cd_to os dir s) as [[[]|] ?]; reflexivity.
    + reflexivity.
Qed.

(** C7.  When [cd] is the tagged builtin: with three or more tokens on the
    line (the command word and two or more arguments) the usage error is
    printed and nothing else happens, so the working directory is unchanged;
    and whenever the [chdir] call of an invocation fails, the error is reported
    with [perror], the working directory is unchanged and the dispatcher
    returns to the shell's loop (it neither exits nor crashes). *)
Theorem cd_errors_are_reported (os : os_env) (p_vec : list string) (s : proc_state)
    (tagged_at : Z) :
  global_builtin_idxs (st_globals s) = [-1; tagged_at] -> tagged_at <> -1 ->
  (3 <= npos p_vec ->
   eval_builtin_cmds os p_vec s
   = (Returned tt, append_trace s [EvPuts "ERROR: usage: cd <dir>"])
   /\ st_cwd (snd (eval_builtin_cmds os p_vec s)) = st_cwd s)
  /\ (forall out s' calls dir,
        eval_builtin_cmds os p_vec s = (out, s') ->
        st_trace s' = st_trace s ++ calls ->
        In (EvChdir dir (-1)) calls ->
        out = Returned tt
        /\ calls = [EvChdir dir (-1); EvPerror "ERROR: cd"]
        /\ st_cwd s' = st_cwd s).
Proof.
  intros Hidx Htag.
  rewrite (eval_builtin_cmds_cd os p_vec s tagged_at Hidx Htag).
  split.
  - intros Hargs.
    destruct (Z.eqb_spec (npos p_vec) 1); [lia|].
    destruct (Z.eqb_spec (npos p_vec) 2); [lia|]. split; reflexivity.
  - assert (Hcd : forall target out s' calls dir,
               cd_to os target s = (out, s') ->
               st_trace s' = st_trace s ++ calls ->
               In (EvChdir dir (-1)) calls ->
               out = Returned tt
               /\ calls = [EvChdir dir (-1); EvPerror "ERROR: cd"]
               /\ st_cwd s' = st_cwd s).
    { intros target out s' calls dir Hrun Htrace Hin.
      rewrite cd_to_run in Hrun.
      destruct (os_chdir os (st_cwd s) target); injection Hrun as <- <-;
        simpl in Htrace; apply app_inv_head in Htrace; subst calls.
      - destruct Hin as [Hin|[]]. discriminate.
      - destruct Hin as [Hin|[Hin|[]]]; [|discriminate].
        injection Hin as ->. auto. }
    intros out s' calls dir Hrun Htrace Hin.
    destruct (npos p_vec =? 1).
    { destruct (os_getenv_HOME os) as [target|];
        [|destruct (os_pw_dir os) as [target|]]; try (eapply Hcd; eassumption).
      injection Hrun as <- <-.
      rewrite <- (app_nil_r (st_trace s)) in Htrace at 1.
      apply app_inv_head in Htrace. subst calls. destruct Hin. }
    destruct (npos p_vec =? 2).
    { destruct (vec_get p_vec 1) as [target| |]; try (eapply Hcd; eassumption);
        injection Hrun as <- <-;
        rewrite <- (app_nil_r (st_trace s)) in Htrace at 1;
        apply app_inv_head in Htrace; subst calls; destruct Hin. }
    injection Hrun as <- <-. simpl in Htrace.
    apply app_inv_head in Htrace. subst calls.
    destruct Hin as [Hin|[]]. discriminate.
Qed.

Lemma cd_errors_are_reported_witness :
  let s := mk_state (mk_globals 0 1 true false [-1; 0] 1) "/" [] 0 [] in
  (eval_builtin_cmds os_example ["cd"; "one"; "two"] s
   = (Returned tt, append_trace s [EvPuts "ERROR: usage: cd <dir>"])
   /\ st_cwd (snd (eval_builtin_cmds os_example ["cd"; "one"; "two"] s)) = "/")
  /\ (eval_builtin_cmds os_example ["cd"; "/nope"] s
      = (Returned tt, append_trace s [EvChdir "/nope" (-1); EvPerror "ERROR: cd"])
      /\ @Returned unit tt = Returned tt
      /\ [EvChdir "/nope" (-1); EvPerror "ERROR: cd"]
         = [EvChdir "/nope" (-1); EvPerror "ERROR: cd"]
      /\ "/" = "/").
Proof.
  cbv zeta.
  assert (Htag : 0 <> -1) by discriminate.
  split.
  - apply (proj1 (cd_errors_are_reported os_example ["cd"; "one"; "two"]
                    (mk_state (mk_globals 0 1 true false [-1; 0] 1) "/" [] 0 [])
                    0 eq_refl Htag)).
    vm_compute. discriminate.
  - split; [reflexivity|].
    apply (proj2 (cd_errors_are_reported os_example ["cd"; "/nope"]
                    (mk_state (mk_globals 0 1 true false [-1; 0] 1) "/" [] 0 [])
                    0 eq_refl Htag)
                 (Returned tt)
                 (append_trace (mk_state (mk_globals 0 1 true false [-1; 0] 1) "/" [] 0 [])
                               [EvChdir "/nope" (-1); EvPerror "ERROR: cd"])
                 [EvChdir "/nope" (-1); EvPerror "ERROR: cd"] "/nope").
    + reflexivity.
    + reflexivity.
    + left. reflexivity.
Defined.

(** The line [cd one two], from the scanner on. *)
Example shell_turn_cd_usage :
  shell_turn os_example
             (Some [(RULE_CD, "cd"); (RULE_WORD, "one"); (RULE_WORD, "two")]) state_init
  = (Returned tt,
     mk_state (mk_globals 0 1 true false [-1; 0] 1) "/"
              [EvPuts "ERROR: usage: cd <dir>"] 0 []).
Proof. reflexivity. Qed.

(* ================================================================== *)
(** * launch_process in the parent *)

Lemma launch_process_fork_failed (os : os_env) (p_command : res command_t)
    (options : Z) (fd : list descriptor) (idx : Z) (s : proc_state) :
  os_fork os (st_forks s) = None ->
  launch_process os p_command options fd idx s
  = (Returned (-1),
     mk_state (st_globals s) (st_cwd s)
              (st_trace s ++ [EvFork (-1); EvPerror "ERROR: fork"])
              (S (st_forks s)) (st_children s)).
Proof.
  intros Hfork. unfold launch_process, fork. rewrite Hfork. simpl.
  unfold bind, perror, emit, ret, append_trace. simpl. now rewrite <- app_assoc.
Qed.

Lemma launch_process_forked (os : os_env) (p_command : res command_t)
    (options : Z) (fd : list descriptor) (idx : Z) (s : proc_state) (p : positive) :
  os_fork os (st_forks s) = Some p ->
  launch_process os p_command options fd idx s
  = (Returned (Z.pos p),
     mk_state (st_globals s) (st_cwd s) (st_trace s ++ [EvFork (Z.pos p)])
              (S (st_forks s))
              (st_children s
               ++ [launched_child os (Z.pos p) p_command options fd idx
                                  (st_globals s) (st_cwd s)])).
Proof.
  intros Hfork. unfold launch_process, fork, launched_child, child_start.
  rewrite Hfork. simpl.
  destruct (launch_process_child os p_command options fd idx _) as [out cs].
  reflexivity.
Qed.

(** The foreground single-command case: the parent waits for whatever
    [launch_process] returned, the child's process id or -1. *)
Lemma shell_eval_foreground (os : os_env) (p_vec : list string) (s : proc_state)
    (command : command_t) (g' : globals) :
  line_parse p_vec (st_globals s) = Ok (LineCommand command, g') ->
  global_bkg_proc g' = false ->
  shell_eval os p_vec s
  = (pid <- launch_process os (Ok command) PIPE_NONE [] 0 ;; waitpid pid)
      (with_globals g' s).
Proof.
  intros Hparse Hbkg.
  rewrite shell_eval_line_parse. unfold bind at 1. rewrite Hparse. simpl lift.
  unfold ret at 1. cbv iota. unfold bind at 1. unfold modify_globals at 1. simpl snd.
  cbv iota. simpl fst. unfold shell_dispatch. fold (with_globals g' s).
  unfold bind.
  destruct (os_fork os (st_forks (with_globals g' s))) as [p|] eqn:Hfork.
  - rewrite (launch_process_forked _ _ _ _ _ _ _ Hfork).
    unfold get_globals. simpl. rewrite Hbkg. reflexivity.
  - rewrite (launch_process_fork_failed _ _ _ _ _ _ Hfork).
    unfold get_globals. simpl. rewrite Hbkg. reflexivity.
Qed.

(** C10.  In the foreground single-command case the parent waits whenever
    [launch_process] returns a value other than zero: for the child it has
    created, and also when [fork] has failed -- [launch_process] then returns
    -1 and the parent calls [waitpid(-1, ...)].  No child was created, and the
    call waits for whichever child the shell has, such as an earlier
    background job. *)
Theorem failed_fork_is_waited_for (os : os_env) (p_vec : list string) (s : proc_state)
    (command : command_t) (g' : globals) :
  line_parse p_vec (st_globals s) = Ok (LineCommand command, g') ->
  global_bkg_proc g' = false ->
  (forall p,
     os_fork os (st_forks s) = Some p ->
     fst (shell_eval os p_vec s) = Returned tt
     /\ st_trace (snd (shell_eval os p_vec s))
        = st_trace s ++ [EvFork (Z.pos p); EvWaitpid (Z.pos p)])
  /\ (os_fork os (st_forks s) = None ->
      shell_eval os p_vec s
      = (Returned tt,
         mk_state g' (st_cwd s)
                  (st_trace s ++ [EvFork (-1); EvPerror "ERROR: fork"; EvWaitpid (-1)])
                  (S (st_forks s)) (st_children s))
      /\ forall c, In c (st_children s) -> waitpid_selects (-1) c = true).
Proof.
  intros Hparse Hbkg.
  rewrite (shell_eval_foreground os p_vec s command g' Hparse Hbkg).
  split.
  - intros p Hfork. unfold bind.
    rewrite (launch_process_forked os _ _ _ _ (with_globals g' s) p Hfork).
    unfold waitpid, emit, append_trace. simpl. rewrite <- app_assoc. split; reflexivity.
  - intros Hfork. split; [|reflexivity]. unfold bind.
    rewrite (launch_process_fork_failed os _ _ _ _ (with_globals g' s) Hfork).
    unfold waitpid, emit, append_trace. simpl. now rewrite <- app_assoc.
Qed.

Lemma failed_fork_is_waited_for_witness :
  let job := mk_child 100 0 [EvExecvp (Some "sleep") [Some "sleep"; Some "60"; None]]
                      (Halted Execd) in
  let s := mk_state (mk_globals 0 1 true false [-1; -1] 0) "/" [] 1 [job] in
  shell_eval os_no_fork ["ls"] s
  = (Returned tt,
     mk_state (mk_globals 0 1 true false [-1; -1] 0) "/"
              [EvFork (-1); EvPerror "ERROR: fork"; EvWaitpid (-1)] 2 [job])
  /\ waitpid_selects (-1) job = true.
Proof.
  cbv zeta.
  destruct (failed_fork_is_waited_for os_no_fork ["ls"]
              (mk_state (mk_globals 0 1 true false [-1; -1] 0) "/" [] 1
                 [mk_child 100 0 [EvExecvp (Some "sleep") [Some "sleep"; Some "60"; None]]
                           (Halted Execd)])
              (plain_command ["ls"]) (mk_globals 0 1 true false [-1; -1] 0)
              eq_refl eq_refl) as [_ Hfailed].
  destruct (Hfailed eq_refl) as [Hrun Hwait].
  split; [exact Hrun|]. apply Hwait. left. reflexivity.
Defined.

(* ================================================================== *)
(** * The pipes of a chain *)

Lemma append_trace_nil (s : proc_state) : append_trace s [] = s.
Proof. unfold append_trace. rewrite app_nil_r. apply state_eta. Qed.

Lemma append_trace_app (s : proc_state) (l1 l2 : list event) :
  append_trace (append_trace s l1) l2 = append_trace s (l1 ++ l2).
Proof. unfold append_trace. simpl. now rewrite app_assoc. Qed.

Lemma open_pipes_count (n : nat) :
  forall k fd s,
    for_count n k
      (fun idx fd => emit (EvPipe (PipeRead idx) (PipeWrite idx)) ;;
                     ret (fd ++ [PipeRead idx; PipeWrite idx]))
      fd s
    = (Returned (fd ++ pipe_fds_from n k), append_trace s (pipe_calls_from n k)).
Proof.
  induction n as [|n IH]; intros k fd s; simpl.
  - unfold ret. now rewrite app_nil_r, append_trace_nil.
  - unfold bind at 1. unfold bind at 1. unfold emit at 1. unfold ret at 1.
    rewrite IH. rewrite append_trace_app. rewrite <- app_assoc. reflexivity.
Qed.

Lemma open_pipes_run (num_commands : Z) (s : proc_state) :
  open_pipes num_commands s
  = (Returned (pipe_fds num_commands), append_trace s (pipe_calls num_commands)).
Proof.
  unfold open_pipes, for_range, pipe_fds, pipe_calls.
  rewrite Z.sub_0_r. now rewrite open_pipes_count.
Qed.

Lemma pipe_fds_from_length (n : nat) (k : Z) :
  npos (pipe_fds_from n k) = 2 * Z.of_nat n.
Proof.
  revert k. induction n as [|n IH]; intros k; [reflexivity|].
  specialize (IH (k + 1)). unfold npos in *. simpl length. lia.
Qed.

(** The array holds two descriptors per command. *)
Lemma pipe_fds_length (num_commands : Z) :
  0 <= num_commands -> npos (pipe_fds num_commands) = num_commands * 2.
Proof. intros H. unfold pipe_fds. rewrite pipe_fds_from_length. lia. Qed.

Lemma pipe_fds_from_get (n : nat) :
  forall k j,
    0 <= j < Z.of_nat n ->
    vec_get (pipe_fds_from n k) (j * 2) = Ok (PipeRead (k + j))
    /\ vec_get (pipe_fds_from n k) (j * 2 + 1) = Ok (PipeWrite (k + j)).
Proof.
  induction n as [|n IH]; intros k j Hj; [lia|].
  destruct (Z.eq_dec j 0) as [->|Hne].
  - rewrite Z.add_0_r. split; reflexivity.
  - destruct (IH (k + 1) (j - 1)) as [Hrd Hwr]; [lia|].
    replace (k + 1 + (j - 1)) with (k + j) in * by lia.
    change (pipe_fds_from (S n) k)
      with ([PipeRead k; PipeWrite k] ++ pipe_fds_from n (k + 1)).
    rewrite !vec_get_app_r by (unfold npos; simpl; lia).
    unfold npos. simpl length.
    replace (j * 2 - Z.of_nat 2) with ((j - 1) * 2) by lia.
    replace (j * 2 + 1 - Z.of_nat 2) with ((j - 1) * 2 + 1) by lia.
    now split.
Qed.

(** [fd[2k]] is the read end and [fd[2k+1]] the write end of the pipe [k]. *)
Lemma pipe_fds_get (num_commands k : Z) :
  0 <= k < num_commands ->
  vec_get (pipe_fds num_commands) (k * 2) = Ok (PipeRead k)
  /\ vec_get (pipe_fds num_commands) (k * 2 + 1) = Ok (PipeWrite k).
Proof.
  intros Hk. unfold pipe_fds.
  destruct (pipe_fds_from_get (Z.to_nat num_commands) 0 k) as [Hrd Hwr]; [lia|].
  now split.
Qed.

(** The loop that closes all of [fd]. *)
Lemma close_fds_count (rest : list descriptor) :
  forall done s,
    for_count (length rest) (npos done) (fun i _ => close_fd (done ++ rest) i) tt s
    = (Returned tt, append_trace s (map EvClose rest)).
Proof.
  induction rest as [|d rest IH]; intros done s; simpl.
  - unfold ret. now rewrite append_trace_nil.
  - unfold bind at 1. unfold close_fd at 1. unfold bind at 1.
    rewrite vec_get_app_r by lia. rewrite Z.sub_diag. simpl lift.
    unfold ret at 1. unfold close, emit. cbv iota.
    replace (done ++ d :: rest) with ((done ++ [d]) ++ rest)
      by (rewrite <- app_assoc; reflexivity).
    replace (npos done + 1) with (npos (done ++ [d])) by apply npos_app.
    rewrite IH. now rewrite append_trace_app.
Qed.

Lemma close_fds_run (fd : list descriptor) (bound : Z) (s : proc_state) :
  bound = npos fd ->
  for_range 0 bound (fun i _ => close_fd fd i) tt s
  = (Returned tt, append_trace s (map EvClose fd)).
Proof.
  intros ->. unfold for_range. rewrite Z.sub_0_r. unfold npos at 1. rewrite Nat2Z.id.
  apply (close_fds_count fd []).
Qed.

(* ================================================================== *)
(** * What a child's standard streams are bound to *)

Lemma before_exec_app (l rest : list event) (file : option string)
    (args : list (option string)) :
  forallb (fun e => negb (is_exec e)) l = true ->
  before_exec (l ++ EvExecvp file args :: rest) = Some l.
Proof.
  induction l as [|e l IH]; simpl; [reflexivity|].
  intros H. apply andb_prop in H. destruct H as [He Hl].
  rewrite (IH Hl). destruct e; simpl in *; try reflexivity. discriminate.
Qed.

Lemma before_exec_none (l : list event) :
  forallb (fun e => negb (is_exec e)) l = true -> before_exec l = None.
Proof.
  induction l as [|e l IH]; simpl; [reflexivity|].
  intros H. apply andb_prop in H. destruct H as [He Hl].
  rewrite (IH Hl). destruct e; simpl in *; try reflexivity. discriminate.
Qed.

Lemma closes_not_exec (fd : list descriptor) :
  forallb (fun e => negb (is_exec e)) (map EvClose fd) = true.
Proof. induction fd; simpl; auto. Qed.




(* ================================================================== *)
(** * The run of a child *)

Lemma runs_bind {A B} (m : M A) (k : A -> M B) (s : proc_state) (a : A)
    (c1 c2 : list event) (o : outcome B) :
  runs m s (Returned a) c1 -> runs (k a) (append_trace s c1) o c2 ->
  runs (bind m k) s o (c1 ++ c2).
Proof.
  unfold runs, bind. intros -> ->. now rewrite append_trace_app.
Qed.

Lemma runs_bind_halted {A B} (m : M A) (k : A -> M B) (s : proc_state) (h : halt)
    (c : list event) :
  runs m s (Halted h) c -> runs (bind m k) s (Halted h) c.
Proof. unfold runs, bind. now intros ->. Qed.

Lemma runs_ret {A} (a : A) (s : proc_state) : runs (ret a) s (Returned a) [].
Proof. unfold runs, ret. now rewrite append_trace_nil. Qed.

Lemma runs_halt_with {A} (h : halt) (s : proc_state) :
  runs (@halt_with A h) s (Halted h) [].
Proof. unfold runs, halt_with. now rewrite append_trace_nil. Qed.

Lemma runs_emit (e : event) (s : proc_state) : runs (emit e) s (Returned tt) [e].
Proof. reflexivity. Qed.

Lemma runs_get_globals (s : proc_state) :
  runs get_globals s (Returned (st_globals s)) [].
Proof. unfold runs, get_globals. now rewrite append_trace_nil. Qed.

Lemma runs_redirect_std (os : os_env) (path mode : string) (fileno : Z)
    (s : proc_state) :
  if os_fopen os path
  then runs (redirect_std os path mode fileno) s (Returned tt)
            (redirect_calls path mode fileno)
  else runs (redirect_std os path mode fileno) s (Halted Crashed)
            [EvFopen path mode false; EvFcloseStd fileno].
Proof.
  unfold redirect_std, redirect_calls. cbv zeta.
  destruct (os_fopen os path).
  - apply (runs_bind _ _ _ tt [_] [_; _; _]); [apply runs_emit|].
    apply (runs_bind _ _ _ tt [_] [_; _]); [apply runs_emit|].
    apply (runs_bind _ _ _ tt [_] [_]); apply runs_emit.
  - apply (runs_bind _ _ _ tt [_] [_]); [apply runs_emit|].
    apply (runs_bind _ _ _ tt [_] []); [apply runs_emit|].
    apply runs_halt_with.
Qed.

(** The redirect of one stream, when the command has one. *)
Lemma runs_optional_redirect (os : os_env) (target : option string) (mode : string)
    (fileno : Z) (s : proc_state) :
  let m := match target with
           | Some path => redirect_std os path mode fileno
           | None => ret tt
           end in
  runs m s (Returned tt)
       match target with Some path => redirect_calls path mode fileno | None => [] end
  \/ exists c, runs m s (Halted Crashed) c
               /\ forallb (fun e => negb (is_exec e)) c = true
               /\ exists path, target = Some path /\ os_fopen os path = false.
Proof.
  cbv zeta. destruct target as [path|].
  - pose proof (runs_redirect_std os path mode fileno s) as Hrun.
    destruct (os_fopen os path) eqn:Hopen; [now left|].
    right. eexists. split; [exact Hrun|]. split; [reflexivity|]. eauto.
  - left. apply runs_ret.
Qed.

(** The [dup2] of one pipe end, when the options ask for it. *)
Lemma runs_optional_dup2 (bit : bool) (fd : list descriptor) (at_idx : Z)
    (d : descriptor) (newfd : Z) (s : proc_state) :
  (bit = true -> vec_get fd at_idx = Ok d) ->
  runs (if bit then oldfd <- lift (vec_get fd at_idx) ;; dup2 oldfd newfd else ret tt)
       s (Returned tt) (if bit then [EvDup2 d newfd] else []).
Proof.
  intros Hget. destruct bit; [|apply runs_ret].
  rewrite (Hget eq_refl). apply (runs_bind _ _ _ d [] [_]); [apply runs_ret|].
  apply runs_emit.
Qed.

(** The end of a child: [argv[0]] is fetched and [execvp] called. *)
Lemma runs_exec (os : os_env) (command : command_t) (s : proc_state) :
  let m : M Z :=
           args <- match argv command with
                   | Some args => ret args
                   | None => halt_with Crashed
                   end ;;
           file <- lift (vec_get args 0) ;;
           emit (EvExecvp file args) ;;
           match file with
           | None => halt_with Crashed
           | Some _ =>
               if os_execvp os file then halt_with Execd
               else perror "ERROR: exec" ;; exit_ EXIT_FAILURE
           end in
  (runs m s (Halted Crashed) [] /\ (argv command = None \/ argv command = Some []))
  \/ exists file args rest h, runs m s (Halted h) (EvExecvp file args :: rest).
Proof.
  cbv zeta. destruct (argv command) as [[|file args]|].
  - left. split; [|now right]. apply (runs_bind _ _ _ [] [] []); [apply runs_ret|].
    apply runs_bind_halted. apply runs_halt_with.
  - right. exists file, (file :: args).
    destruct file as [name|].
    + destruct (os_execvp os (Some name)) eqn:Hexec.
      * exists [], Execd.
        apply (runs_bind _ _ _ (Some name :: args) [] [_]); [apply runs_ret|].
        apply (runs_bind _ _ _ (Some name) [] [_]); [apply runs_ret|].
        apply (runs_bind _ _ _ tt [_] []); [apply runs_emit|].
        rewrite Hexec. apply runs_halt_with.
      * exists [EvPerror "ERROR: exec"], (Exited EXIT_FAILURE).
        apply (runs_bind _ _ _ (Some name :: args) [] [_; _]); [apply runs_ret|].
        apply (runs_bind _ _ _ (Some name) [] [_; _]); [apply runs_ret|].
        apply (runs_bind _ _ _ tt [_] [_]); [apply runs_emit|].
        rewrite Hexec. apply (runs_bind _ _ _ tt [_] []); [apply runs_emit|].
        apply runs_halt_with.
    + exists [], Crashed.
      apply (runs_bind _ _ _ (None :: args) [] [_]); [apply runs_ret|].
      apply (runs_bind _ _ _ None [] [_]); [apply runs_ret|].
      apply (runs_bind _ _ _ tt [_] []); [apply runs_emit|].
      apply runs_halt_with.
  - left. split; [|now left]. apply runs_bind_halted. apply runs_halt_with.
Qed.

Lemma runs_close_fds (fd : list descriptor) (bound : Z) (s : proc_state) :
  bound = npos fd ->
  runs (for_range 0 bound (fun i _ => close_fd fd i) tt) s (Returned tt)
       (map EvClose fd).
Proof. intros H. unfold runs. now apply close_fds_run. Qed.

Lemma forallb_not_exec_app (l1 l2 : list event) :
  forallb (fun e => negb (is_exec e)) l1 = true ->
  forallb (fun e => negb (is_exec e)) l2 = true ->
  forallb (fun e => negb (is_exec e)) (l1 ++ l2) = true.
Proof. intros H1 H2. now rewrite forallb_app, H1, H2. Qed.

Lemma redirect_calls_not_exec (target : option string) (mode : string) (fileno : Z) :
  forallb (fun e => negb (is_exec e))
          match target with Some path => redirect_calls path mode fileno | None => [] end
  = true.
Proof. destruct target; reflexivity. Qed.

Lemma dup2_calls_not_exec (bit : bool) (d : descriptor) (newfd : Z) :
  forallb (fun e => negb (is_exec e)) (if bit then [EvDup2 d newfd] else []) = true.
Proof. destruct bit; reflexivity. Qed.

(** A child either stops before [execvp], or makes the calls of [child_head],
    closes every descriptor of [fd] and then calls [execvp]. *)
Lemma launch_process_child_run (os : os_env) (command : command_t) (options : Z)
    (fd : list descriptor) (idx : Z) (g : globals) (cwd : string) (wr rd : descriptor) :
  global_num_pipes g * 2 = npos fd ->
  (negb (Z.land options PIPE_OUT =? 0) = true -> vec_get fd (idx * 2 + 1) = Ok wr) ->
  (negb (Z.land options PIPE_IN =? 0) = true -> vec_get fd (idx * 2 - 2) = Ok rd) ->
  let calls :=
    st_trace (snd (launch_process_child os (Ok command) options fd idx
                                        (child_start g cwd))) in
  (forallb (fun e => negb (is_exec e)) calls = true /\ child_cannot_exec os command)
  \/ exists file args rest,
       calls = child_head command options wr rd ++ map EvClose fd
               ++ EvExecvp file args :: rest.
Proof.
  intros Hnp Hwr Hrd. cbv zeta.
  set (s0 := child_start g cwd).
  assert (Hruns : exists h calls,
             runs (launch_process_child os (Ok command) options fd idx) s0 (Halted h) calls
             /\ ((forallb (fun e => negb (is_exec e)) calls = true
                  /\ child_cannot_exec os command)
                 \/ exists file args rest,
                      calls = child_head command options wr rd ++ map EvClose fd
                              ++ EvExecvp file args :: rest)).
  { unfold launch_process_child, child_head.
    set (dcalls := match dest command with
                   | Some path => redirect_calls path "w" STDOUT_FILENO
                   | None => []
                   end).
    set (ocalls := if negb (Z.land options PIPE_OUT =? 0)
                   then [EvDup2 wr STDOUT_FILENO] else []).
    set (scalls := match src command with
                   | Some path => redirect_calls path "r" STDIN_FILENO
                   | None => []
                   end).
    set (icalls := if negb (Z.land options PIPE_IN =? 0)
                   then [EvDup2 rd STDIN_FILENO] else []).
    assert (Hd : forallb (fun e => negb (is_exec e)) dcalls = true)
      by apply redirect_calls_not_exec.
    assert (Ho : forallb (fun e => negb (is_exec e)) ocalls = true)
      by apply dup2_calls_not_exec.
    assert (Hs : forallb (fun e => negb (is_exec e)) scalls = true)
      by apply redirect_calls_not_exec.
    assert (Hi : forallb (fun e => negb (is_exec e)) icalls = true)
      by apply dup2_calls_not_exec.
    (* the output redirect *)
    destruct (runs_optional_redirect os (dest command) "w" STDOUT_FILENO s0)
      as [Hdest | (c & Hdest & Hc & Hcause)].
    2:{ exists Crashed, ([] ++ c). split; [|left; split; [exact Hc | now left]].
        eapply runs_bind; [apply runs_ret|]. rewrite append_trace_nil.
        apply runs_bind_halted. exact Hdest. }
    fold dcalls in Hdest.
    pose proof (runs_optional_dup2 (negb (Z.land options PIPE_OUT =? 0)) fd
                  (idx * 2 + 1) wr STDOUT_FILENO (append_trace s0 dcalls) Hwr) as Hout.
    fold ocalls in Hout.
    (* the input redirect *)
    destruct (runs_optional_redirect os (src command) "r" STDIN_FILENO
                (append_trace (append_trace s0 dcalls) ocalls))
      as [Hsrc | (c & Hsrc & Hc & Hcause)].
    2:{ exists Crashed, ([] ++ dcalls ++ ocalls ++ c). split.
        - eapply runs_bind; [apply runs_ret|]. rewrite append_trace_nil.
          eapply runs_bind; [exact Hdest|].
          eapply runs_bind; [exact Hout|].
          apply runs_bind_halted. exact Hsrc.
        - left. split; [|right; now left].
          simpl. repeat apply forallb_not_exec_app; assumption. }
    fold scalls in Hsrc.
    pose proof (runs_optional_dup2 (negb (Z.land options PIPE_IN =? 0)) fd
                  (idx * 2 - 2) rd STDIN_FILENO
                  (append_trace (append_trace (append_trace s0 dcalls) ocalls) scalls)
                  Hrd) as Hinp.
    fold icalls in Hinp.
    set (s4 := append_trace
                 (append_trace (append_trace (append_trace s0 dcalls) ocalls) scalls)
                 icalls) in *.
    assert (Hclose : runs (for_range 0 (global_num_pipes (st_globals s4) * 2)
                                     (fun i _ => close_fd fd i) tt)
                          (append_trace s4 []) (Returned tt) (map EvClose fd)).
    { apply runs_close_fds. exact Hnp. }
    assert (Hprefix : forall o rest,
               runs (A := Z)
                    (args <- match argv command with
                             | Some args => ret args
                             | None => halt_with Crashed
                             end ;;
                     file <- lift (vec_get args 0) ;;
                     emit (EvExecvp file args) ;;
                     match file with
                     | None => halt_with Crashed
                     | Some _ =>
                         if os_execvp os file then halt_with Execd
                         else perror "ERROR: exec" ;; exit_ EXIT_FAILURE
                     end)
                    (append_trace (append_trace s4 []) (map EvClose fd)) o rest ->
               runs (launch_process_child os (Ok command) options fd idx) s0 o
                    ([] ++ dcalls ++ ocalls ++ scalls ++ icalls ++ []
                     ++ map EvClose fd ++ rest)).
    { intros o rest Hrest. unfold launch_process_child.
      eapply runs_bind; [apply runs_ret|]. rewrite append_trace_nil.
      eapply runs_bind; [exact Hdest|].
      eapply runs_bind; [exact Hout|].
      eapply runs_bind; [exact Hsrc|].
      eapply runs_bind; [exact Hinp|].
      eapply runs_bind; [apply runs_get_globals|].
      eapply runs_bind; [exact Hclose|].
      exact Hrest. }
    destruct (runs_exec os command (append_trace (append_trace s4 []) (map EvClose fd)))
      as [[Hend Hcause] | (file & args & rest & h & Hend)].
    - eexists _, _. split; [exact (Hprefix _ _ Hend)|].
      left. split; [|right; right; exact Hcause]. simpl. rewrite app_nil_r.
      repeat apply forallb_not_exec_app; try assumption. apply closes_not_exec.
    - eexists _, _. split; [exact (Hprefix _ _ Hend)|].
      right. exists file, args, rest. simpl. now rewrite <- !app_assoc. }
  destruct Hruns as (h & calls & Hrun & Hcalls).
  unfold runs in Hrun. rewrite Hrun. exact Hcalls.
Qed.

Lemma child_head_not_exec (command : command_t) (options : Z) (wr rd : descriptor) :
  forallb (fun e => negb (is_exec e)) (child_head command options wr rd) = true.
Proof.
  unfold child_head.
  destruct (dest command), (src command), (negb (Z.land options PIPE_OUT =? 0)),
    (negb (Z.land options PIPE_IN =? 0)); reflexivity.
Qed.

Lemma runs_redirect_opens (os : os_env) (target : option string) (mode : string)
    (fileno : Z) (s : proc_state) :
  (forall path, target = Some path -> os_fopen os path = true) ->
  runs match target with
       | Some path => redirect_std os path mode fileno
       | None => ret tt
       end s (Returned tt)
       match target with Some path => redirect_calls path mode fileno | None => [] end.
Proof.
  intros Hopen. destruct target as [path|]; [|apply runs_ret].
  pose proof (runs_redirect_std os path mode fileno s) as Hrun.
  now rewrite (Hopen path eq_refl) in Hrun.
Qed.

(** The whole run of a child whose redirect files open and whose command has
    an [argv[0]] slot. *)
Lemma launch_process_child_runs (os : os_env) (command : command_t) (options : Z)
    (fd : list descriptor) (idx : Z) (g : globals) (cwd : string) (wr rd : descriptor)
    (file : option string) (args : list (option string)) :
  global_num_pipes g * 2 = npos fd ->
  (negb (Z.land options PIPE_OUT =? 0) = true -> vec_get fd (idx * 2 + 1) = Ok wr) ->
  (negb (Z.land options PIPE_IN =? 0) = true -> vec_get fd (idx * 2 - 2) = Ok rd) ->
  redirects_open os command ->
  argv command = Some (file :: args) ->
  runs (launch_process_child os (Ok command) options fd idx) (child_start g cwd)
       (Halted (exec_end os file))
       (child_head command options wr rd ++ map EvClose fd
        ++ exec_calls os file (file :: args)).
Proof.
  intros Hnp Hwr Hrd [Hdest Hsrc] Hargv.
  set (s0 := child_start g cwd).
  set (dcalls := match dest command with
                 | Some path => redirect_calls path "w" STDOUT_FILENO
                 | None => []
                 end).
  set (ocalls := if negb (Z.land options PIPE_OUT =? 0)
                 then [EvDup2 wr STDOUT_FILENO] else []).
  set (scalls := match src command with
                 | Some path => redirect_calls path "r" STDIN_FILENO
                 | None => []
                 end).
  set (icalls := if negb (Z.land options PIPE_IN =? 0)
                 then [EvDup2 rd STDIN_FILENO] else []).
  assert (Hshape : child_head command options wr rd ++ map EvClose fd
                   ++ exec_calls os file (file :: args)
                   = [] ++ dcalls ++ ocalls ++ scalls ++ icalls ++ []
                     ++ map EvClose fd ++ [] ++ []
                     ++ [EvExecvp file (file :: args)]
                     ++ match file with
                        | None => []
                        | Some _ => if os_execvp os file then []
                                    else [EvPerror "ERROR: exec"] ++ []
                        end).
  { unfold child_head, exec_calls. fold dcalls ocalls scalls icalls.
    destruct file as [name|]; [destruct (os_execvp os (Some name))|];
      simpl app; rewrite <- !app_assoc; reflexivity. }
  rewrite Hshape. clear Hshape.
  unfold launch_process_child.
  eapply runs_bind; [apply runs_ret|]. rewrite append_trace_nil.
  eapply runs_bind; [apply runs_redirect_opens; exact Hdest|]. fold dcalls.
  eapply runs_bind; [apply runs_optional_dup2; exact Hwr|]. fold ocalls.
  eapply runs_bind; [apply runs_redirect_opens; exact Hsrc|]. fold scalls.
  eapply runs_bind; [apply runs_optional_dup2; exact Hrd|]. fold icalls.
  eapply runs_bind; [apply runs_get_globals|].
  eapply runs_bind; [apply runs_close_fds; exact Hnp|].
  rewrite Hargv.
  eapply runs_bind; [apply runs_ret|].
  eapply runs_bind; [apply runs_ret|].
  eapply runs_bind; [apply runs_emit|].
  unfold exec_end. destruct file as [name|]; [|apply runs_halt_with].
  destruct (os_execvp os (Some name)).
  - apply runs_halt_with.
  - eapply runs_bind; [apply runs_emit | apply runs_halt_with].
Qed.


(** The end of a child makes no call but [execvp] and [perror]. *)
Lemma runs_exec_tail (os : os_env) (command : command_t) (s : proc_state) :
  let m : M Z :=
           args <- match argv command with
                   | Some args => ret args
                   | None => halt_with Crashed
                   end ;;
           file <- lift (vec_get args 0) ;;
           emit (EvExecvp file args) ;;
           match file with
           | None => halt_with Crashed
           | Some _ =>
               if os_execvp os file then halt_with Execd
               else perror "ERROR: exec" ;; exit_ EXIT_FAILURE
           end in
  exists h rest,
    runs m s (Halted h) rest
    /\ forallb (fun e => match e with EvExecvp _ _ | EvPerror _ => true | _ => false end)
               rest = true.
Proof.
  cbv zeta. destruct (argv command) as [[|file args]|].
  - exists Crashed, []. split; [|reflexivity].
    apply (runs_bind _ _ _ [] [] []); [apply runs_ret|].
    apply runs_bind_halted. apply runs_halt_with.
  - destruct file as [name|].
    + destruct (os_execvp os (Some name)) eqn:Hexec.
      * exists Execd, [EvExecvp (Some name) (Some name :: args)]. split; [|reflexivity].
        apply (runs_bind _ _ _ (Some name :: args) [] [_]); [apply runs_ret|].
        apply (runs_bind _ _ _ (Some name) [] [_]); [apply runs_ret|].
        apply (runs_bind _ _ _ tt [_] []); [apply runs_emit|].
        rewrite Hexec. apply runs_halt_with.
      * exists (Exited EXIT_FAILURE),
          [EvExecvp (Some name) (Some name :: args); EvPerror "ERROR: exec"].
        split; [|reflexivity].
        apply (runs_bind _ _ _ (Some name :: args) [] [_; _]); [apply runs_ret|].
        apply (runs_bind _ _ _ (Some name) [] [_; _]); [apply runs_ret|].
        apply (runs_bind _ _ _ tt [_] [_]); [apply runs_emit|].
        rewrite Hexec. apply (runs_bind _ _ _ tt [_] []); [apply runs_emit|].
        apply runs_halt_with.
    + exists Crashed, [EvExecvp None (None :: args)]. split; [|reflexivity].
      apply (runs_bind _ _ _ (None :: args) [] [_]); [apply runs_ret|].
      apply (runs_bind _ _ _ None [] [_]); [apply runs_ret|].
      apply (runs_bind _ _ _ tt [_] []); [apply runs_emit|].
      apply runs_halt_with.
  - exists Crashed, []. split; [|reflexivity].
    apply runs_bind_halted. apply runs_halt_with.
Qed.

(** A child whose redirect files open makes the calls of [child_head] and
    closes every descriptor of [fd], whatever its command is; what follows is
    the call of [execvp], if the command has an [argv[0]] slot. *)
Lemma launch_process_child_opens (os : os_env) (command : command_t) (options : Z)
    (fd : list descriptor) (idx : Z) (g : globals) (cwd : string) (wr rd : descriptor) :
  global_num_pipes g * 2 = npos fd ->
  (negb (Z.land options PIPE_OUT =? 0) = true -> vec_get fd (idx * 2 + 1) = Ok wr) ->
  (negb (Z.land options PIPE_IN =? 0) = true -> vec_get fd (idx * 2 - 2) = Ok rd) ->
  redirects_open os command ->
  exists h rest,
    runs (launch_process_child os (Ok command) options fd idx) (child_start g cwd)
         (Halted h)
         (child_head command options wr rd ++ map EvClose fd ++ rest)
    /\ forallb (fun e => match e with EvExecvp _ _ | EvPerror _ => true | _ => false end)
               rest = true.
Proof.
  intros Hnp Hwr Hrd [Hdest Hsrc].
  set (s0 := child_start g cwd).
  set (dcalls := match dest command with
                 | Some path => redirect_calls path "w" STDOUT_FILENO
                 | None => []
                 end).
  set (ocalls := if negb (Z.land options PIPE_OUT =? 0)
                 then [EvDup2 wr STDOUT_FILENO] else []).
  set (scalls := match src command with
                 | Some path => redirect_calls path "r" STDIN_FILENO
                 | None => []
                 end).
  set (icalls := if negb (Z.land options PIPE_IN =? 0)
                 then [EvDup2 rd STDIN_FILENO] else []).
  set (s5 := append_trace
               (append_trace
                  (append_trace
                     (append_trace
                        (append_trace
                           (append_trace (append_trace s0 []) dcalls) ocalls) scalls)
                        icalls) []) (map EvClose fd)).
  destruct (runs_exec_tail os command s5) as (h & rest & Hend & Hrest).
  exists h, rest. split; [|exact Hrest].
  assert (Hshape : child_head command options wr rd ++ map EvClose fd ++ rest
                   = [] ++ dcalls ++ ocalls ++ scalls ++ icalls ++ []
                     ++ map EvClose fd ++ rest).
  { unfold child_head. fold dcalls ocalls scalls icalls.
    simpl app. rewrite <- !app_assoc. reflexivity. }
  rewrite Hshape. clear Hshape.
  unfold launch_process_child.
  eapply runs_bind; [apply runs_ret|].
  eapply runs_bind; [apply runs_redirect_opens; exact Hdest|]. fold dcalls.
  eapply runs_bind; [apply runs_optional_dup2; exact Hwr|]. fold ocalls.
  eapply runs_bind; [apply runs_redirect_opens; exact Hsrc|]. fold scalls.
  eapply runs_bind; [apply runs_optional_dup2; exact Hrd|]. fold icalls.
  eapply runs_bind; [apply runs_get_globals|].
  eapply runs_bind; [apply runs_close_fds; exact Hnp|].
  exact Hend.
Qed.


(** The calls of a child that reaches [execvp], up to that call. *)
Lemma launch_process_child_before_exec (os : os_env) (command : command_t)
    (options : Z) (fd : list descriptor) (idx : Z) (g : globals) (cwd : string)
    (wr rd : descriptor) (pre : list event) :
  global_num_pipes g * 2 = npos fd ->
  (negb (Z.land options PIPE_OUT =? 0) = true -> vec_get fd (idx * 2 + 1) = Ok wr) ->
  (negb (Z.land options PIPE_IN =? 0) = true -> vec_get fd (idx * 2 - 2) = Ok rd) ->
  before_exec (st_trace (snd (launch_process_child os (Ok command) options fd idx
                                                   (child_start g cwd))))
  = Some pre ->
  pre = child_head command options wr rd ++ map EvClose fd.
Proof.
  intros Hnp Hwr Hrd Hpre.
  destruct (launch_process_child_run os command options fd idx g cwd wr rd Hnp Hwr Hrd)
    as [[Hnone _] | (file & args & rest & Hcalls)].
  - rewrite (before_exec_none _ Hnone) in Hpre. discriminate.
  - rewrite Hcalls, app_assoc in Hpre.
    rewrite before_exec_app in Hpre.
    + now injection Hpre as <-.
    + rewrite forallb_app, child_head_not_exec, closes_not_exec. reflexivity.
Qed.

(** A child whose redirect files open and whose command has an [argv[0]] slot
    reaches [execvp]. *)
Lemma launch_process_child_reaches_exec (os : os_env) (command : command_t)
    (options : Z) (fd : list descriptor) (idx : Z) (g : globals) (cwd : string)
    (wr rd : descriptor) :
  global_num_pipes g * 2 = npos fd ->
  (negb (Z.land options PIPE_OUT =? 0) = true -> vec_get fd (idx * 2 + 1) = Ok wr) ->
  (negb (Z.land options PIPE_IN =? 0) = true -> vec_get fd (idx * 2 - 2) = Ok rd) ->
  ~ child_cannot_exec os command ->
  before_exec (st_trace (snd (launch_process_child os (Ok command) options fd idx
                                                   (child_start g cwd))))
  = Some (child_head command options wr rd ++ map EvClose fd).
Proof.
  intros Hnp Hwr Hrd Hcan.
  destruct (launch_process_child_run os command options fd idx g cwd wr rd Hnp Hwr Hrd)
    as [[_ Hcause] | (file & args & rest & Hcalls)]; [contradiction|].
  rewrite Hcalls, app_assoc. apply before_exec_app.
  rewrite forallb_app, child_head_not_exec, closes_not_exec. reflexivity.
Qed.


(* ================================================================== *)
(** * The run of launch_process_chain *)

(** One stage: [pids[idx] = launch_process(&commands[idx], options, fd, idx)]. *)
Lemma launch_stage_run (os : os_env) (commands : list command_t)
    (fd : list descriptor) (g : globals) (cwd : string) (forks0 : nat)
    (options : Z) (idx : Z) (done rest : list Z) (old : Z) (s : proc_state) :
  0 <= idx -> npos done = idx ->
  st_globals s = g -> st_cwd s = cwd -> st_forks s = (forks0 + Z.to_nat idx)%nat ->
  (pid <- launch_process os (vec_get commands idx) options fd idx ;;
   lift (vec_set (done ++ old :: rest) idx pid)) s
  = (Returned (done ++ stage_pid os forks0 idx :: rest),
     mk_state g cwd (st_trace s ++ stage_calls os forks0 idx) (S (st_forks s))
              (st_children s
               ++ stage_kids os commands fd g cwd forks0 (fun _ => options) idx)).
Proof.
  intros Hidx Hdone Hg Hcwd Hforks.
  assert (Hset : forall pid, vec_set (done ++ old :: rest) idx pid
                             = Ok (done ++ pid :: rest)).
  { intros pid. unfold vec_set. destruct (Z.ltb_spec idx 0); [lia|].
    replace (Z.to_nat idx) with (length done) by (unfold npos in Hdone; lia).
    clear. induction done as [|d done IH]; simpl; [reflexivity|]. now rewrite IH. }
  unfold bind, stage_pid, stage_calls, stage_kids, stage_fork. rewrite <- Hforks.
  destruct (os_fork os (st_forks s)) as [p|] eqn:Hfork.
  - rewrite (launch_process_forked _ _ _ _ _ _ _ Hfork). rewrite Hset, Hg, Hcwd.
    reflexivity.
  - rewrite (launch_process_fork_failed _ _ _ _ _ _ Hfork). rewrite Hset, Hg, Hcwd.
    simpl. now rewrite app_nil_r.
Qed.

(** The loop over the middle stages. *)
Lemma launch_stages_run (os : os_env) (commands : list command_t)
    (fd : list descriptor) (g : globals) (cwd : string) (forks0 : nat)
    (options : Z) (n : nat) :
  forall idx done rest s,
    0 <= idx -> npos done = idx ->
    st_globals s = g -> st_cwd s = cwd -> st_forks s = (forks0 + Z.to_nat idx)%nat ->
    for_count n idx
      (fun idx pids =>
         pid <- launch_process os (vec_get commands idx) options fd idx ;;
         lift (vec_set pids idx pid))
      (done ++ repeat 0 n ++ rest) s
    = (Returned (done ++ map (stage_pid os forks0) (stages idx n) ++ rest),
       mk_state g cwd (st_trace s ++ flat_map (stage_calls os forks0) (stages idx n))
                (st_forks s + n)
                (st_children s
                 ++ flat_map (stage_kids os commands fd g cwd forks0 (fun _ => options))
                             (stages idx n))).
Proof.
  induction n as [|n IH]; intros idx done rest s Hidx Hdone Hg Hcwd Hforks.
  - simpl. unfold ret. rewrite !app_nil_r, Nat.add_0_r, <- Hg, <- Hcwd.
    now rewrite state_eta.
  - cbn [for_count repeat stages map flat_map]. unfold bind at 1.
    change ((0 :: repeat 0 n) ++ rest) with (0 :: repeat 0 n ++ rest).
    rewrite (launch_stage_run os commands fd g cwd forks0 options idx done
                              (repeat 0 n ++ rest) 0 s)
      by assumption.
    replace (done ++ stage_pid os forks0 idx :: repeat 0 n ++ rest)
      with ((done ++ [stage_pid os forks0 idx]) ++ repeat 0 n ++ rest)
      by (rewrite <- app_assoc; reflexivity).
    assert (Hnext : npos (done ++ [stage_pid os forks0 idx]) = idx + 1).
    { rewrite npos_app, Hdone. reflexivity. }
    rewrite (IH (idx + 1) (done ++ [stage_pid os forks0 idx]) rest);
      [ | lia | exact Hnext | reflexivity | reflexivity | simpl; rewrite Hforks; lia ].
    simpl. rewrite <- !app_assoc. simpl.
    do 2 f_equal. f_equal. lia.
Qed.

Lemma stages_snoc (n : nat) :
  forall lo, stages lo (S n) = stages lo n ++ [lo + Z.of_nat n].
Proof.
  induction n as [|n IH]; intros lo.
  - simpl. now rewrite Z.add_0_r.
  - change (stages lo (S (S n))) with (lo :: stages (lo + 1) (S n)).
    rewrite IH. simpl. do 3 f_equal. lia.
Qed.

Lemma stages_in (n : nat) :
  forall lo idx, In idx (stages lo n) <-> lo <= idx < lo + Z.of_nat n.
Proof.
  induction n as [|n IH]; intros lo idx; simpl; [lia|].
  rewrite IH. lia.
Qed.

Lemma stage_kids_options (os : os_env) (commands : list command_t)
    (fd : list descriptor) (g : globals) (cwd : string) (forks0 : nat)
    (options options' : Z -> Z) (l : list Z) :
  (forall idx, In idx l -> options idx = options' idx) ->
  flat_map (stage_kids os commands fd g cwd forks0 options) l
  = flat_map (stage_kids os commands fd g cwd forks0 options') l.
Proof.
  induction l as [|idx l IH]; intros Hopt; simpl; [reflexivity|].
  rewrite IH by (intros; apply Hopt; now right).
  unfold stage_kids. rewrite (Hopt idx) by now left. reflexivity.
Qed.

(** The loop that waits for the stages. *)
Lemma wait_pids_count (rest : list Z) :
  forall done s,
    for_count (length rest) (npos done)
      (fun idx _ => pid <- lift (vec_get (done ++ rest) idx) ;;
                    if negb (pid =? 0) then waitpid pid else ret tt)
      tt s
    = (Returned tt,
       append_trace s (map EvWaitpid (filter (fun pid => negb (pid =? 0)) rest))).
Proof.
  induction rest as [|pid rest IH]; intros done s; simpl.
  - unfold ret. now rewrite append_trace_nil.
  - unfold bind at 1. unfold bind at 1.
    rewrite vec_get_app_r by lia. rewrite Z.sub_diag. simpl lift.
    unfold ret at 1. cbv iota.
    replace (done ++ pid :: rest) with ((done ++ [pid]) ++ rest)
      by (rewrite <- app_assoc; reflexivity).
    replace (npos done + 1) with (npos (done ++ [pid])) by apply npos_app.
    destruct (negb (pid =? 0)); simpl.
    + unfold waitpid, emit. rewrite IH. now rewrite append_trace_app.
    + unfold ret. apply IH.
Qed.

Lemma wait_pids_run (pids : list Z) (bound : Z) (s : proc_state) :
  bound = npos pids ->
  for_range 0 bound
    (fun idx _ => pid <- lift (vec_get pids idx) ;;
                  if negb (pid =? 0) then waitpid pid else ret tt)
    tt s
  = (Returned tt,
     append_trace s (map EvWaitpid (filter (fun pid => negb (pid =? 0)) pids))).
Proof.
  intros ->. unfold for_range. rewrite Z.sub_0_r. unfold npos at 1. rewrite Nat2Z.id.
  apply (wait_pids_count pids []).
Qed.

Lemma stage_pid_nonzero (os : os_env) (forks0 : nat) (l : list Z) :
  filter (fun pid => negb (pid =? 0)) (map (stage_pid os forks0) l)
  = map (stage_pid os forks0) l.
Proof.
  induction l as [|idx l IH]; simpl; [reflexivity|].
  rewrite IH. unfold stage_pid at 1. destruct (stage_fork os forks0 idx); reflexivity.
Qed.

Lemma stages_length (n : nat) : forall lo, length (stages lo n) = n.
Proof. induction n; intros lo; simpl; auto. Qed.

Lemma bind_bind {A B C} (m : M A) (f : A -> M B) (k : B -> M C) (s : proc_state) :
  bind m (fun a => bind (f a) k) s = bind (bind m f) k s.
Proof. unfold bind. destruct (m s) as [[a|h] s']; reflexivity. Qed.

Lemma stage_options_middle (num_commands idx : Z) :
  1 <= idx < num_commands - 1 -> stage_options num_commands idx = Z.lor PIPE_OUT PIPE_IN.
Proof.
  intros H. unfold stage_options.
  destruct (Z.eqb_spec idx 0); [lia|]. destruct (Z.ltb_spec idx (num_commands - 1)); [|lia].
  reflexivity.
Qed.

Lemma stage_options_last (num_commands : Z) :
  2 <= num_commands -> stage_options num_commands (num_commands - 1) = PIPE_IN.
Proof.
  intros H. unfold stage_options.
  destruct (Z.eqb_spec (num_commands - 1) 0); [lia|].
  destruct (Z.ltb_spec (num_commands - 1) (num_commands - 1)); [lia|]. reflexivity.
Qed.

(** [launch_process_chain] on two or more commands, in closed form: the pipes
    are opened, the stages forked in order, the pipes closed and the stages
    waited for. *)
Lemma launch_process_chain_run (os : os_env) (commands : list command_t)
    (s : proc_state) :
  2 <= npos commands ->
  let num_commands := npos commands in
  let g := set_num_pipes num_commands (st_globals s) in
  let fd := pipe_fds num_commands in
  let all := stages 0 (Z.to_nat num_commands) in
  launch_process_chain os commands s
  = (Returned tt,
     mk_state (chain_globals g) (st_cwd s)
       (st_trace s ++ pipe_calls num_commands
        ++ flat_map (stage_calls os (st_forks s)) all
        ++ map EvClose fd
        ++ chain_waits g (map (stage_pid os (st_forks s)) all))
       (st_forks s + Z.to_nat num_commands)
       (st_children s
        ++ flat_map (stage_kids os commands fd g (st_cwd s) (st_forks s)
                                (stage_options num_commands)) all)).
Proof.
  intros HN. cbv zeta.
  remember (npos commands) as N eqn:HeqN.
  set (g := set_num_pipes N (st_globals s)).
  set (fd := pipe_fds N).
  set (cwd := st_cwd s). set (forks0 := st_forks s).
  assert (Hn : exists n, Z.to_nat N = S (S n) /\ N = Z.of_nat n + 2).
  { exists (Z.to_nat (N - 2)). lia. }
  destruct Hn as (n & HnatN & HN').
  unfold launch_process_chain. cbv zeta. rewrite <- HeqN.
  unfold bind at 1. unfold modify_globals at 1. cbv beta iota. fold g.
  unfold bind at 1. rewrite open_pipes_run. cbv beta iota. fold fd.
  (* the first stage *)
  rewrite HnatN. cbn [repeat].
  rewrite bind_bind. unfold bind at 1.
  rewrite (launch_stage_run os commands fd g cwd forks0 PIPE_OUT 0 [] (repeat 0 (S n)) 0);
    [ | lia | reflexivity | reflexivity | reflexivity | simpl; lia ].
  cbn [st_trace st_forks st_children st_globals st_cwd append_trace app].
  (* the middle stages *)
  unfold bind at 1. unfold for_range at 1.
  replace (Z.to_nat (N - 1 - 1)) with n by lia.
  replace (stage_pid os forks0 0 :: repeat 0 (S n))
    with ([stage_pid os forks0 0] ++ repeat 0 n ++ [0])
    by (simpl; now rewrite <- repeat_cons).
  rewrite (launch_stages_run os commands fd g cwd forks0);
    [ | lia | reflexivity | reflexivity | reflexivity | simpl; lia ].
  cbn [st_trace st_forks st_children st_globals st_cwd].
  (* the last stage *)
  replace (Z.max 1 (N - 1)) with (N - 1) by lia.
  rewrite bind_bind. unfold bind at 1.
  rewrite app_assoc.
  assert (Hdone : npos ([stage_pid os forks0 0] ++ map (stage_pid os forks0) (stages 1 n))
                  = N - 1).
  { unfold npos. rewrite length_app, length_map, stages_length. simpl. lia. }
  rewrite (launch_stage_run os commands fd g cwd forks0 PIPE_IN (N - 1) _ [] 0);
    [ | lia | exact Hdone | reflexivity | reflexivity | simpl; lia ].
  cbn [st_trace st_forks st_children st_globals st_cwd].
  (* the pipes are closed *)
  unfold bind at 1.
  rewrite close_fds_run by (unfold fd; rewrite pipe_fds_length; lia).
  cbv beta iota.
  unfold bind at 1. unfold get_globals at 1.
  cbn [st_trace st_forks st_children st_globals st_cwd append_trace].
  (* the stages, as one list *)
  assert (Hstages : stages 0 (S (S n)) = 0 :: stages 1 n ++ [N - 1]).
  { change (stages 0 (S (S n))) with (0 :: stages 1 (S n)).
    rewrite stages_snoc. do 3 f_equal. lia. }
  assert (Hpids : ([stage_pid os forks0 0] ++ map (stage_pid os forks0) (stages 1 n))
                  ++ [stage_pid os forks0 (N - 1)]
                  = map (stage_pid os forks0) (stages 0 (S (S n)))).
  { rewrite Hstages. simpl. now rewrite map_app. }
  assert (Hcalls : (stage_calls os forks0 0
                    ++ flat_map (stage_calls os forks0) (stages 1 n))
                   ++ stage_calls os forks0 (N - 1)
                   = flat_map (stage_calls os forks0) (stages 0 (S (S n)))).
  { rewrite Hstages. simpl. rewrite flat_map_app. simpl.
    now rewrite app_nil_r, <- app_assoc. }
  assert (Hkids : (stage_kids os commands fd g cwd forks0 (fun _ => PIPE_OUT) 0
                   ++ flat_map (stage_kids os commands fd g cwd forks0
                                           (fun _ => Z.lor PIPE_OUT PIPE_IN))
                               (stages 1 n))
                  ++ stage_kids os commands fd g cwd forks0 (fun _ => PIPE_IN) (N - 1)
                  = flat_map (stage_kids os commands fd g cwd forks0 (stage_options N))
                             (stages 0 (S (S n)))).
  { rewrite Hstages. simpl. rewrite flat_map_app. simpl. rewrite app_nil_r.
    rewrite <- app_assoc. f_equal. f_equal.
    - apply stage_kids_options. intros idx Hin. apply stages_in in Hin.
      symmetry. apply stage_options_middle. lia.
    - unfold stage_kids. now rewrite stage_options_last. }
  rewrite Hpids. rewrite <- Hcalls, <- Hkids.
  unfold chain_globals, chain_waits.
  destruct (global_bkg_proc g) eqn:Hbkg; cbn [negb].
  - unfold modify_globals.
    cbn [st_trace st_forks st_children st_globals st_cwd append_trace].
    rewrite app_nil_r, <- !app_assoc. do 2 f_equal. lia.
  - rewrite wait_pids_run
      by (unfold npos; rewrite length_map, stages_length; lia).
    rewrite stage_pid_nonzero.
    unfold append_trace. cbn [st_trace st_forks st_children st_globals st_cwd].
    rewrite <- !app_assoc. do 2 f_equal. lia.
Qed.

(* ================================================================== *)
(** * The children of a chain *)

Lemma skipn_length_app {A} (l k : list A) : skipn (length l) (l ++ k) = k.
Proof. induction l; simpl; auto. Qed.

(** Which stages get which pipe end. *)
Lemma stage_options_bits (num_commands idx : Z) :
  2 <= num_commands -> 0 <= idx < num_commands ->
  negb (Z.land (stage_options num_commands idx) PIPE_OUT =? 0) = (idx <? num_commands - 1)
  /\ negb (Z.land (stage_options num_commands idx) PIPE_IN =? 0) = negb (idx =? 0).
Proof.
  intros HN Hidx. unfold stage_options.
  destruct (Z.eqb_spec idx 0) as [->|Hne].
  - destruct (Z.ltb_spec 0 (num_commands - 1)); [|lia]. split; reflexivity.
  - destruct (Z.ltb_spec idx (num_commands - 1)); split; reflexivity.
Qed.

(** Every child of a chain of two or more commands is the child of one of its
    stages: it ran [launch_process_child] on that stage's command with that
    stage's options, the [fd] of the chain and [global_num_pipes] set. *)
Lemma chain_child_inv (os : os_env) (commands : list command_t) (s : proc_state)
    (c : child_proc) :
  2 <= npos commands ->
  In c (new_children s (snd (launch_process_chain os commands s))) ->
  let num_commands := npos commands in
  exists command pid,
    0 <= child_stage c < num_commands
    /\ vec_get commands (child_stage c) = Ok command
    /\ c = launched_child os pid (Ok command)
                          (stage_options num_commands (child_stage c))
                          (pipe_fds num_commands) (child_stage c)
                          (set_num_pipes num_commands (st_globals s)) (st_cwd s).
Proof.
  intros HN Hin. cbv zeta.
  rewrite launch_process_chain_run in Hin by assumption.
  unfold new_children in Hin. cbn [snd st_children] in Hin.
  rewrite skipn_length_app in Hin.
  apply in_flat_map in Hin. destruct Hin as (idx & Hidx & Hc).
  apply stages_in in Hidx.
  unfold stage_kids in Hc.
  destruct (stage_fork os (st_forks s) idx) as [p|]; [|destruct Hc].
  destruct Hc as [<-|[]]. cbn [child_stage launched_child].
  destruct (vec_get_in_range commands idx) as (command & Hget & _); [lia|].
  exists command, (Z.pos p). rewrite Hget. repeat split; lia.
Qed.

(** Every stage whose [fork] succeeds has its child in the table. *)
Lemma chain_child_exists (os : os_env) (commands : list command_t) (s : proc_state)
    (idx : Z) (p : positive) :
  2 <= npos commands -> 0 <= idx < npos commands ->
  os_fork os (st_forks s + Z.to_nat idx)%nat = Some p ->
  exists c,
    In c (new_children s (snd (launch_process_chain os commands s)))
    /\ child_pid c = Z.pos p /\ child_stage c = idx.
Proof.
  intros HN Hidx Hfork.
  rewrite launch_process_chain_run by assumption.
  unfold new_children. cbn [snd st_children]. rewrite skipn_length_app.
  eexists. split.
  - apply in_flat_map. exists idx. split; [apply stages_in; lia|].
    unfold stage_kids, stage_fork. rewrite Hfork. left. reflexivity.
  - split; reflexivity.
Qed.

(** The calls of a chain's child before its [execvp]. *)
Lemma chain_child_before_exec (os : os_env) (commands : list command_t)
    (s : proc_state) (c : child_proc) (pre : list event) :
  2 <= npos commands ->
  In c (new_children s (snd (launch_process_chain os commands s))) ->
  before_exec (child_trace c) = Some pre ->
  let num_commands := npos commands in
  exists command,
    0 <= child_stage c < num_commands
    /\ pre = child_head command (stage_options num_commands (child_stage c))
                        (PipeWrite (child_stage c)) (PipeRead (child_stage c - 1))
             ++ map EvClose (pipe_fds num_commands).
Proof.
  intros HN Hin Hpre. cbv zeta.
  destruct (chain_child_inv os commands s c HN Hin) as (command & pid & Hidx & _ & Hc).
  exists command. split; [exact Hidx|].
  rewrite Hc in Hpre at 1. cbn [child_trace launched_child] in Hpre.
  destruct (stage_options_bits (npos commands) (child_stage c) HN Hidx) as [Hout Hinp].
  eapply launch_process_child_before_exec; [| | |exact Hpre].
  - cbn [global_num_pipes set_num_pipes]. rewrite pipe_fds_length; lia.
  - intros _. apply pipe_fds_get. exact Hidx.
  - rewrite Hinp. intros Hbit.
    destruct (Z.eqb_spec (child_stage c) 0); [discriminate|].
    replace (child_stage c * 2 - 2) with ((child_stage c - 1) * 2) by lia.
    apply pipe_fds_get. lia.
Qed.

Lemma vec_get_In {A} (l : list A) (idx : Z) (a : A) : vec_get l idx = Ok a -> In a l.
Proof.
  unfold vec_get. destruct (idx <? 0); [discriminate|].
  destruct (nth_error l (Z.to_nat idx)) eqn:E; [|discriminate].
  intros [= <-]. eapply nth_error_In; eauto.
Qed.

(** The children of a chain reach [execvp] when the redirect files open and
    every command has an [argv[0]] slot (as every parsed command has). *)
Lemma chain_child_reaches_exec (os : os_env) (commands : list command_t)
    (s : proc_state) (c : child_proc) :
  2 <= npos commands ->
  In c (new_children s (snd (launch_process_chain os commands s))) ->
  (forall command, In command commands -> ~ child_cannot_exec os command) ->
  exists pre, before_exec (child_trace c) = Some pre.
Proof.
  intros HN Hin Hcan.
  destruct (chain_child_inv os commands s c HN Hin) as (command & pid & Hidx & Hget & Hc).
  destruct (stage_options_bits (npos commands) (child_stage c) HN Hidx) as [Hout Hinp].
  eexists. rewrite Hc at 1. cbn [child_trace launched_child].
  apply (launch_process_child_reaches_exec os command _ _ _ _ _
           (PipeWrite (child_stage c)) (PipeRead (child_stage c - 1))).
  - cbn [global_num_pipes set_num_pipes]. rewrite pipe_fds_length; lia.
  - intros _. apply pipe_fds_get. exact Hidx.
  - rewrite Hinp. intros Hbit.
    destruct (Z.eqb_spec (child_stage c) 0); [discriminate|].
    replace (child_stage c * 2 - 2) with ((child_stage c - 1) * 2) by lia.
    apply pipe_fds_get. lia.
  - apply Hcan. eapply vec_get_In. exact Hget.
Qed.

(** The children of a chain of two or more commands, in the order of the
    stages. *)
Lemma chain_children (os : os_env) (commands : list command_t) (s : proc_state) :
  2 <= npos commands ->
  let num_commands := npos commands in
  new_children s (snd (launch_process_chain os commands s))
  = flat_map (stage_kids os commands (pipe_fds num_commands)
                         (set_num_pipes num_commands (st_globals s)) (st_cwd s)
                         (st_forks s) (stage_options num_commands))
             (stages 0 (Z.to_nat num_commands)).
Proof.
  intros HN. cbv zeta. rewrite launch_process_chain_run by assumption.
  unfold new_children. cbn [snd st_children]. apply skipn_length_app.
Qed.


(** The pipe ends of a stage, as [launch_process_child] finds them in [fd]. *)
Lemma chain_stage_fds (num_commands idx : Z) :
  2 <= num_commands -> 0 <= idx < num_commands ->
  (negb (Z.land (stage_options num_commands idx) PIPE_OUT =? 0) = true ->
   vec_get (pipe_fds num_commands) (idx * 2 + 1) = Ok (PipeWrite idx))
  /\ (negb (Z.land (stage_options num_commands idx) PIPE_IN =? 0) = true ->
      vec_get (pipe_fds num_commands) (idx * 2 - 2) = Ok (PipeRead (idx - 1))).
Proof.
  intros HN Hidx.
  destruct (stage_options_bits num_commands idx HN Hidx) as [_ Hinp].
  split.
  - intros _. apply pipe_fds_get. exact Hidx.
  - rewrite Hinp. intros Hbit.
    destruct (Z.eqb_spec idx 0); [discriminate|].
    replace (idx * 2 - 2) with ((idx - 1) * 2) by lia.
    apply pipe_fds_get. lia.
Qed.



Lemma stage_calls_forks (os : os_env) (forks0 : nat) (l : list Z) :
  length (filter is_fork (flat_map (stage_calls os forks0) l)) = length l.
Proof.
  induction l as [|idx l IH]; simpl; [reflexivity|].
  rewrite filter_app, length_app, IH. unfold stage_calls.
  destruct (stage_fork os forks0 idx); reflexivity.
Qed.

Lemma closes_waits_no_fork (fd : list descriptor) (g : globals) (pids : list Z) :
  filter is_fork (map EvClose fd ++ chain_waits g pids) = [].
Proof.
  rewrite filter_app.
  replace (filter is_fork (map EvClose fd)) with (@nil event)
    by (induction fd; simpl; auto).
  unfold chain_waits. destruct (global_bkg_proc g); simpl; [reflexivity|].
  induction pids; simpl; auto.
Qed.

Lemma child_head_no_close (command : command_t) (options : Z) (wr rd d : descriptor) :
  ~ In (EvClose d) (child_head command options wr rd).
Proof.
  unfold child_head.
  destruct (dest command), (src command), (negb (Z.land options PIPE_OUT =? 0)),
    (negb (Z.land options PIPE_IN =? 0)); simpl;
    intros H; repeat (destruct H as [H|H]; try discriminate H); assumption.
Qed.

(** X30.  In a chain of [N >= 2] commands [fd] holds [2 * N] descriptors.
    Every stage whose [fork] succeeds has a child in the shell's table; when
    the redirect files of its command open, that child sets up its streams
    without closing a pipe descriptor, then closes each of the [2 * N]
    descriptors of [fd], in the order of [fd], and after that makes no call
    but [execvp] and the report of its failure.  Every child that reaches
    [execvp] has closed each of them before.  The parent, once it has made
    its [N] calls of [fork], closes each of them, in the order of [fd], and
    forks no more. *)
Theorem pipeline_closes_pipes (os : os_env) (commands : list command_t)
    (s : proc_state) :
  2 <= npos commands ->
  let num_commands := npos commands in
  let fd := pipe_fds num_commands in
  let run := launch_process_chain os commands s in
  npos fd = 2 * num_commands
  /\ (forall idx p,
        0 <= idx < num_commands ->
        os_fork os (st_forks s + Z.to_nat idx)%nat = Some p ->
        exists c command,
          In c (new_children s (snd run))
          /\ child_pid c = Z.pos p /\ child_stage c = idx
          /\ vec_get commands idx = Ok command
          /\ (redirects_open os command ->
              exists head rest,
                child_trace c = head ++ map EvClose fd ++ rest
                /\ head = child_head command (stage_options num_commands idx)
                                     (PipeWrite idx) (PipeRead (idx - 1))
                /\ (forall d, ~ In (EvClose d) head)
                /\ forallb (fun e => match e with
                                     | EvExecvp _ _ | EvPerror _ => true
                                     | _ => false
                                     end) rest = true))
  /\ (forall c pre d,
        In c (new_children s (snd run)) ->
        before_exec (child_trace c) = Some pre ->
        In d fd -> In (EvClose d) pre)
  /\ exists forks waits,
       fst run = Returned tt
       /\ st_trace (snd run)
          = st_trace s ++ pipe_calls num_commands ++ forks ++ map EvClose fd ++ waits
       /\ Z.of_nat (length (filter is_fork forks)) = num_commands
       /\ filter is_fork (map EvClose fd ++ waits) = [].
Proof.
  intros HN. cbv zeta. split; [|split; [|split]].
  - rewrite pipe_fds_length; lia.
  - intros idx p Hidx Hfork.
    set (N := npos commands) in *.
    set (g := set_num_pipes N (st_globals s)).
    destruct (vec_get_in_range commands idx) as (command & Hget & _); [exact Hidx|].
    destruct (chain_stage_fds N idx HN Hidx) as [Hwr Hrd].
    assert (Hnp : global_num_pipes g * 2 = npos (pipe_fds N)).
    { unfold g. cbn [global_num_pipes set_num_pipes]. rewrite pipe_fds_length; lia. }
    exists (launched_child os (Z.pos p) (Ok command) (stage_options N idx) (pipe_fds N)
                           idx g (st_cwd s)), command.
    split.
    { rewrite chain_children by assumption. apply in_flat_map.
      exists idx. split; [apply stages_in; fold N; lia|].
      unfold stage_kids, stage_fork. rewrite Hfork, Hget. left. reflexivity. }
    split; [reflexivity|]. split; [reflexivity|]. split; [exact Hget|].
    intros Hopen.
    destruct (launch_process_child_opens os command (stage_options N idx) (pipe_fds N) idx
                g (st_cwd s) (PipeWrite idx) (PipeRead (idx - 1)) Hnp Hwr Hrd Hopen)
      as (h & rest & Hrun & Hrest).
    eexists _, rest. split; [|split; [reflexivity|split; [|exact Hrest]]].
    + unfold launched_child. cbn [child_trace].
      unfold runs in Hrun. rewrite Hrun. reflexivity.
    + intros d. apply child_head_no_close.
  - intros c pre d Hin Hpre Hd.
    destruct (chain_child_before_exec os commands s c pre HN Hin Hpre)
      as (command & _ & ->).
    apply in_or_app. right. now apply in_map.
  - rewrite launch_process_chain_run by assumption. cbn [fst snd st_trace].
    do 2 eexists. split; [reflexivity|]. split; [reflexivity|]. split.
    + rewrite stage_calls_forks, stages_length. lia.
    + apply closes_waits_no_fork.
Qed.

Lemma pipeline_closes_pipes_witness :
  exists c forks waits,
    In c (new_children state_init
            (snd (launch_process_chain os_example commands_example state_init)))
    /\ child_pid c = 102 /\ child_stage c = 2
    /\ (exists head rest,
          child_trace c = head ++ map EvClose (pipe_fds 3) ++ rest
          /\ (forall d, ~ In (EvClose d) head))
    /\ st_trace (snd (launch_process_chain os_example commands_example state_init))
       = pipe_calls 3 ++ forks ++ map EvClose (pipe_fds 3) ++ waits
    /\ Z.of_nat (length (filter is_fork forks)) = 3.
Proof.
  assert (HN : 2 <= npos commands_example) by (vm_compute; discriminate).
  destruct (pipeline_closes_pipes os_example commands_example state_init HN)
    as (_ & Hkids & _ & forks & waits & _ & Htrace & Hforks & _).
  assert (Hidx : 0 <= 2 < npos commands_example) by (vm_compute; split; congruence).
  destruct (Hkids 2 102%positive Hidx eq_refl)
    as (c & command & Hc & Hpid & Hstage & Hget & Hopens).
  vm_compute in Hget. injection Hget as <-.
  destruct Hopens as (head & rest & Hcalls & _ & Hhead & _).
  { split; intros path _; reflexivity. }
  exists c, forks, waits.
  split; [exact Hc|]. split; [exact Hpid|]. split; [exact Hstage|].
  split; [|split; [exact Htrace | exact Hforks]].
  exists head, rest. split; [exact Hcalls | exact Hhead].
Defined.

(* ================================================================== *)
(** * A chain of one command *)

(** [launch_process_chain] on a vector of one command: one pipe is opened and
    the command forked; the statement after the loop then runs with
    [idx = 1]: it forks a child for [commands[1]], which the vector does not
    hold, and stores the result in [pids[1]], which [pids] does not have. *)
Lemma launch_process_chain_one (os : os_env) (command : command_t) (s : proc_state) :
  let g := set_num_pipes 1 (st_globals s) in
  let options := fun idx => if idx =? 0 then PIPE_OUT else PIPE_IN in
  launch_process_chain os [command] s
  = (Halted Crashed,
     mk_state g (st_cwd s)
       (st_trace s ++ pipe_calls 1
        ++ stage_calls os (st_forks s) 0 ++ stage_calls os (st_forks s) 1)
       (st_forks s + 2)
       (st_children s
        ++ stage_kids os [command] (pipe_fds 1) g (st_cwd s) (st_forks s) options 0
        ++ stage_kids os [command] (pipe_fds 1) g (st_cwd s) (st_forks s) options 1)).
Proof.
  cbv zeta.
  set (g := set_num_pipes 1 (st_globals s)).
  assert (Hset0 : forall a b : Z, vec_set [a] 0 b = Ok [b]) by reflexivity.
  assert (Hset1 : forall a b : Z, vec_set [a] 1 b = Oob) by reflexivity.
  unfold launch_process_chain. cbv zeta.
  change (npos [command]) with 1.
  unfold bind at 1. unfold modify_globals at 1. cbv beta iota. fold g.
  unfold bind at 1. rewrite open_pipes_run. cbv beta iota.
  change (Z.to_nat 1) with 1%nat. cbn [repeat].
  change (Z.max 1 (1 - 1)) with 1.
  change (for_range 1 (1 - 1)) with (@for_count (list Z) 0 1). cbn [for_count].
  unfold stage_calls, stage_kids, stage_fork.
  replace (st_forks s + Z.to_nat 0)%nat with (st_forks s) by (simpl; lia).
  replace (st_forks s + Z.to_nat 1)%nat with (S (st_forks s)) by (simpl; lia).
  replace (st_forks s + 2)%nat with (S (S (st_forks s))) by lia.
  change (vec_get [command] 0) with (Ok command).
  change (vec_get [command] 1) with (@Oob command_t).
  unfold bind at 1.
  destruct (os_fork os (st_forks s)) as [p|] eqn:Hfork0.
  - rewrite (launch_process_forked os _ _ _ _ _ p)
      by (cbn [append_trace st_forks]; exact Hfork0).
    cbn [append_trace st_globals st_cwd st_trace st_forks st_children].
    unfold bind at 1. rewrite Hset0. cbn [lift]. unfold ret at 1. cbv beta iota.
    unfold bind at 1. unfold ret at 1. cbv beta iota.
    unfold bind at 1.
    destruct (os_fork os (S (st_forks s))) as [q|] eqn:Hfork1.
    + rewrite (launch_process_forked os _ _ _ _ _ q)
        by (cbn [st_forks]; exact Hfork1).
      cbn [st_globals st_cwd st_trace st_forks st_children].
      unfold bind at 1. rewrite Hset1. cbn [lift]. unfold halt_with.
      rewrite <- !app_assoc. reflexivity.
    + rewrite (launch_process_fork_failed os)
        by (cbn [st_forks]; exact Hfork1).
      cbn [st_globals st_cwd st_trace st_forks st_children].
      unfold bind at 1. rewrite Hset1. cbn [lift]. unfold halt_with.
      rewrite <- !app_assoc, app_nil_r. reflexivity.
  - rewrite (launch_process_fork_failed os)
      by (cbn [append_trace st_forks]; exact Hfork0).
    cbn [append_trace st_globals st_cwd st_trace st_forks st_children].
    unfold bind at 1. rewrite Hset0. cbn [lift]. unfold ret at 1. cbv beta iota.
    unfold bind at 1. unfold ret at 1. cbv beta iota.
    unfold bind at 1.
    destruct (os_fork os (S (st_forks s))) as [q|] eqn:Hfork1.
    + rewrite (launch_process_forked os _ _ _ _ _ q)
        by (cbn [st_forks]; exact Hfork1).
      cbn [st_globals st_cwd st_trace st_forks st_children].
      unfold bind at 1. rewrite Hset1. cbn [lift]. unfold halt_with.
      rewrite <- !app_assoc. reflexivity.
    + rewrite (launch_process_fork_failed os)
        by (cbn [st_forks]; exact Hfork1).
      cbn [st_globals st_cwd st_trace st_forks st_children].
      unfold bind at 1. rewrite Hset1. cbn [lift]. unfold halt_with.
      rewrite <- !app_assoc, app_nil_r. reflexivity.
Qed.

Lemma stage_calls_no_close (os : os_env) (forks0 : nat) (idx : Z) (d : descriptor) :
  ~ In (EvClose d) (stage_calls os forks0 idx).
Proof.
  unfold stage_calls. destruct (stage_fork os forks0 idx); simpl;
    intros H; repeat (destruct H as [H|H]; try discriminate H); assumption.
Qed.

(* ================================================================== *)
(** * The parsers stay inside the token vector *)

Lemma tok_char_in_range (p_vec : list string) (idx : Z) :
  0 <= idx < npos p_vec -> exists c, tok_char p_vec idx = Ok c.
Proof.
  intros H. destruct (vec_get_in_range p_vec idx H) as (tok & Hget & _).
  exists (first_char tok). now apply tok_char_get.
Qed.

Lemma ensure_argv_in_range (p_vec : list string) (c : command_t) (end_pos : Z) :
  npos p_vec <= READ_BUFFER_SIZE -> -1 <= end_pos < npos p_vec ->
  exists c', ensure_argv p_vec c end_pos = Ok c' /\ argv c' <> None.
Proof.
  intros Hbuf H. unfold ensure_argv. destruct (argv c) eqn:E.
  - exists c. split; [reflexivity | congruence].
  - rewrite slice_argv_in_range by lia. simpl. eexists. split; [reflexivity|].
    discriminate.
Qed.

Lemma parse_single_loop_in_range (fuel : nat) :
  forall p_vec idx p_command seen_command g,
    npos p_vec <= READ_BUFFER_SIZE -> 0 <= idx <= npos p_vec ->
    npos p_vec - idx <= Z.of_nat fuel ->
    exists r, parse_single_loop fuel p_vec idx p_command seen_command g = Ok r.
Proof.
  induction fuel as [|fuel IH]; intros p_vec idx p_command seen_command g Hbuf Hidx Hfuel.
  - simpl. destruct (Z.ltb_spec idx (npos p_vec)); simpl; [lia | eauto].
  - cbn [parse_single_loop].
    destruct (Z.ltb_spec idx (npos p_vec)); simpl negb; cbv iota; [|eauto].
    destruct (tok_char_in_range p_vec idx) as (c & ->); [lia|]. simpl res_bind.
    destruct (c =? "<")%char; [|destruct (c =? ">")%char; [|destruct (c =? "&")%char]].
    + destruct (Z.eqb_spec (idx + 1) (npos p_vec)); [eauto|].
      destruct (tok_char_in_range p_vec (idx + 1)) as (next & ->); [lia|]. simpl res_bind.
      destruct (single_bad_next next); [eauto|].
      destruct (ensure_argv_in_range p_vec p_command (idx - 1)) as (c' & -> & _);
        [assumption | lia |]. simpl res_bind.
      destruct (vec_get_in_range p_vec (idx + 1)) as (file & -> & _); [lia|].
      simpl res_bind. apply IH; [assumption | lia | lia].
    + destruct (Z.eqb_spec (idx + 1) (npos p_vec)); [eauto|].
      destruct (tok_char_in_range p_vec (idx + 1)) as (next & ->); [lia|]. simpl res_bind.
      destruct (single_bad_next next); [eauto|].
      destruct (ensure_argv_in_range p_vec p_command (idx - 1)) as (c' & -> & _);
        [assumption | lia |]. simpl res_bind.
      destruct (vec_get_in_range p_vec (idx + 1)) as (file & -> & _); [lia|].
      simpl res_bind. apply IH; [assumption | lia | lia].
    + destruct (Z.eqb_spec (idx + 1) (npos p_vec)); simpl negb; cbv iota; [|eauto].
      destruct (ensure_argv_in_range p_vec p_command (idx - 1)) as (c' & -> & _);
        [assumption | lia |]. simpl res_bind.
      apply IH; [assumption | lia | lia].
    + destruct ((idx + 1 =? npos p_vec) && negb seen_command).
      * destruct (ensure_argv_in_range p_vec p_command idx) as (c' & -> & _);
          [assumption | lia |]. simpl res_bind.
        apply IH; [assumption | lia | lia].
      * apply IH; [assumption | lia | lia].
Qed.

Lemma parse_single_command_in_range (p_vec : list string) (p_command : command_t)
    (g : globals) :
  npos p_vec <= READ_BUFFER_SIZE ->
  exists r, parse_single_command p_vec p_command g = Ok r.
Proof.
  intros Hbuf. unfold parse_single_command.
  destruct (npos p_vec =? 0); [eauto|].
  apply parse_single_loop_in_range; [assumption | unfold npos; lia | unfold npos; lia].
Qed.

Lemma seek_first_command_end_in_range (fuel : nat) :
  forall p_vec idx tok,
    0 <= idx -> vec_get p_vec idx = Ok tok ->
    npos p_vec - idx <= Z.of_nat fuel ->
    existsb stops_seek (skipn (Z.to_nat idx) p_vec) = true ->
    seek_first_command_end fuel p_vec idx (first_char tok) = Ok None
    \/ exists i tok', idx <= i < npos p_vec /\ vec_get p_vec i = Ok tok'
                      /\ seek_first_command_end fuel p_vec idx (first_char tok)
                         = Ok (Some (i, first_char tok')).
Proof.
  induction fuel as [|fuel IH]; intros p_vec idx tok H0 Hget Hfuel Hstop.
  - assert (vec_get p_vec idx = Oob) by (apply vec_get_out_of_range; lia). congruence.
  - assert (Hlt : idx < npos p_vec).
    { destruct (Z.lt_ge_cases idx (npos p_vec)); [assumption|].
      rewrite vec_get_out_of_range in Hget by lia. discriminate. }
    cbn [seek_first_command_end].
    destruct (negb (first_char tok =? "|")%char && negb (first_char tok =? "<")%char
              && negb (first_char tok =? "&")%char) eqn:Hgo.
    2:{ right. exists idx, tok. repeat split; try lia; assumption. }
    destruct (first_char tok =? ">")%char eqn:Hgt; [now left|].
    (* the token is a word: the stop is further on *)
    assert (Hskip : skipn (Z.to_nat idx) p_vec
                    = tok :: skipn (Z.to_nat (idx + 1)) p_vec).
    { unfold vec_get in Hget. destruct (Z.ltb_spec idx 0); [lia|].
      destruct (nth_error p_vec (Z.to_nat idx)) eqn:E; [|discriminate].
      injection Hget as ->.
      replace (Z.to_nat (idx + 1)) with (S (Z.to_nat idx)) by lia.
      clear - E. revert E. generalize (Z.to_nat idx) as n.
      induction p_vec as [|x l IHl]; intros [|n] E; simpl in *; try discriminate.
      - now injection E as ->.
      - now apply IHl. }
    rewrite Hskip in Hstop. simpl in Hstop.
    assert (Hword : stops_seek tok = false).
    { unfold stops_seek. cbv zeta.
      destruct (first_char tok =? "|")%char, (first_char tok =? "<")%char,
        (first_char tok =? "&")%char; simpl in Hgo; try discriminate.
      now rewrite Hgt. }
    rewrite Hword in Hstop. simpl in Hstop.
    assert (Hnext : idx + 1 < npos p_vec).
    { destruct (Z.lt_ge_cases (idx + 1) (npos p_vec)); [assumption|].
      rewrite skipn_all2 in Hstop by (unfold npos in *; lia). discriminate. }
    destruct (vec_get_in_range p_vec (idx + 1)) as (tok1 & Hget1 & _); [lia|].
    rewrite (tok_char_get _ _ _ Hget1). simpl res_bind.
    destruct (IH p_vec (idx + 1) tok1) as [Hnone | (i & tok' & Hi & Hgeti & Hsome)];
      try lia; try assumption.
    + now left.
    + right. exists i, tok'. repeat split; try lia; assumption.
Qed.

Lemma parse_multiple_loop_in_range (fuel : nat) :
  forall p_vec idx command_start_idx current_command seen_command p_command_vec g,
    npos p_vec <= READ_BUFFER_SIZE ->
    0 <= command_start_idx <= idx -> idx <= npos p_vec ->
    npos p_vec - idx <= Z.of_nat fuel ->
    exists r, parse_multiple_loop fuel p_vec idx command_start_idx current_command
                                  seen_command p_command_vec g = Ok r.
Proof.
  induction fuel as [|fuel IH]; intros p_vec idx st cur seen cv g Hbuf Hst Hidx Hfuel.
  - simpl. destruct (Z.ltb_spec idx (npos p_vec)); simpl; [lia|].
    destruct seen; [|eauto]. rewrite slice_argv_in_range by lia. simpl. eauto.
  - cbn [parse_multiple_loop].
    destruct (Z.ltb_spec idx (npos p_vec)); simpl negb; cbv iota.
    2:{ destruct seen; [|eauto]. rewrite slice_argv_in_range by lia. simpl. eauto. }
    destruct (tok_char_in_range p_vec idx) as (c & ->); [lia|]. simpl res_bind.
    destruct (c =? "|")%char;
      [|destruct (c =? "<")%char; [eauto|];
        destruct (c =? ">")%char; [|destruct (c =? "&")%char]].
    + destruct seen; simpl negb; cbv iota; [|eauto].
      destruct (Z.eqb_spec (idx + 1) (npos p_vec)); [eauto|].
      destruct (tok_char_in_range p_vec (idx + 1)) as (next & ->); [lia|]. simpl res_bind.
      destruct (multi_bad_next next); [eauto|].
      rewrite slice_argv_in_range by lia. simpl res_bind.
      apply IH; [assumption | lia | lia | lia].
    + destruct seen; simpl negb; cbv iota; [|eauto].
      destruct (Z.eqb_spec (idx + 1) (npos p_vec)); [eauto|].
      destruct (pipe_before_last p_vec idx); [eauto|].
      destruct (tok_char_in_range p_vec (idx + 1)) as (next & ->); [lia|]. simpl res_bind.
      destruct (multi_bad_next next); [eauto|].
      rewrite slice_argv_in_range by lia. simpl res_bind.
      destruct (vec_get_in_range p_vec (idx + 1)) as (file & -> & _); [lia|].
      simpl res_bind. apply IH; [assumption | lia | lia | lia].
    + destruct (Z.eqb_spec (idx + 1) (npos p_vec)); simpl negb; cbv iota; [|eauto].
      destruct seen.
      * rewrite slice_argv_in_range by lia. simpl res_bind.
        apply IH; [assumption | lia | lia | lia].
      * apply IH; [assumption | lia | lia | lia].
    + destruct seen; simpl negb; cbv iota; apply IH; try assumption; lia.
Qed.

Lemma parse_multiple_commands_in_range (p_vec : list string)
    (p_command_vec : list command_t) (g : globals) :
  npos p_vec <= READ_BUFFER_SIZE ->
  existsb stops_seek p_vec = true ->
  exists r, parse_multiple_commands p_vec p_command_vec g = Ok r.
Proof.
  intros Hbuf Hstop. unfold parse_multiple_commands.
  assert (Hne : 0 < npos p_vec).
  { destruct p_vec; [discriminate|]. unfold npos. simpl. lia. }
  destruct (vec_get_in_range p_vec 0) as (tok & Hget & _); [lia|].
  rewrite (tok_char_get _ _ _ Hget). simpl res_bind.
  destruct (seek_first_command_end_in_range (length p_vec) p_vec 0 tok)
    as [-> | (i & tok' & Hi & Hgeti & ->)];
    try assumption; try (unfold npos; lia).
  - simpl. eauto.
  - simpl res_bind. cbv iota beta.
    rewrite slice_argv_in_range by lia. simpl res_bind.
    destruct ((first_char tok' =? "<")%char && (i + 3 <? npos p_vec)) eqn:Hskip.
    + apply andb_true_iff in Hskip. destruct Hskip as [_ Hlt].
      apply Z.ltb_lt in Hlt.
      destruct (vec_get_in_range p_vec (i + 1)) as (file & -> & _); [lia|].
      simpl res_bind.
      apply parse_multiple_loop_in_range; try assumption; try lia. unfold npos. lia.
    + simpl res_bind.
      apply parse_multiple_loop_in_range; try assumption; try lia. unfold npos. lia.
Qed.

(* ================================================================== *)
(** * The argv of a parsed command, and the scanner in closed form *)

Lemma slice_argv_shape (p_vec : list string) (start_pos end_pos : Z)
    (a : list (option string)) :
  slice_argv_from_vec p_vec start_pos end_pos = Ok a ->
  exists n, a = argv_of_tokens p_vec (Z.to_nat (size_wrap start_pos)) n.
Proof.
  unfold slice_argv_from_vec. cbv zeta.
  match goal with |- (if ?b then _ else _) = _ -> _ => destruct b end; [|discriminate].
  intros [= <-]. eexists. reflexivity.
Qed.

Lemma ensure_argv_prefix (p_vec : list string) (c c' : command_t) (end_pos : Z) :
  argv c = None \/ argv_is_prefix p_vec c ->
  ensure_argv p_vec c end_pos = Ok c' ->
  argv_is_prefix p_vec c' /\ dest c' = dest c /\ src c' = src c.
Proof.
  intros Hc. unfold ensure_argv. destruct (argv c) eqn:E.
  - intros [= <-]. destruct Hc as [Hc|Hc]; [discriminate|]. auto.
  - destruct (slice_argv_from_vec p_vec 0 end_pos) as [a| |] eqn:Es; simpl; try discriminate.
    intros [= <-]. apply slice_argv_shape in Es. destruct Es as (n & ->).
    split; [|split; reflexivity]. exists n. reflexivity.
Qed.

Lemma parse_single_loop_argv (fuel : nat) :
  forall p_vec idx p_command seen_command g c' g',
    parse_single_loop fuel p_vec idx p_command seen_command g
    = Ok (PARSE_SUCCESS, c', g') ->
    argv p_command = None \/ argv_is_prefix p_vec p_command ->
    idx < npos p_vec \/ argv_is_prefix p_vec p_command ->
    (seen_command = true -> argv_is_prefix p_vec p_command) ->
    argv_is_prefix p_vec c'.
Proof.
  induction fuel as [|fuel IH]; intros p_vec idx p_command seen g c' g' Hrun Hc Hend Hseen.
  - simpl in Hrun. destruct (Z.ltb_spec idx (npos p_vec)); simpl in Hrun; [discriminate|].
    injection Hrun as <- <-. destruct Hend; [lia | assumption].
  - cbn [parse_single_loop] in Hrun.
    destruct (Z.ltb_spec idx (npos p_vec)); simpl negb in Hrun; cbv iota in Hrun.
    2:{ injection Hrun as <- <-. destruct Hend; [lia | assumption]. }
    destruct (tok_char p_vec idx) as [c| |]; simpl res_bind in Hrun; try discriminate.
    destruct (c =? "<")%char; [|destruct (c =? ">")%char; [|destruct (c =? "&")%char]].
    + destruct (idx + 1 =? npos p_vec); [discriminate|].
      destruct (tok_char p_vec (idx + 1)) as [next| |]; simpl res_bind in Hrun;
        try discriminate.
      destruct (single_bad_next next); [discriminate|].
      destruct (ensure_argv p_vec p_command (idx - 1)) as [c1| |] eqn:Ee;
        simpl res_bind in Hrun; try discriminate.
      destruct (vec_get p_vec (idx + 1)) as [file| |]; simpl res_bind in Hrun;
        try discriminate.
      destruct (ensure_argv_prefix _ _ _ _ Hc Ee) as (Hp & _).
      assert (Hp' : argv_is_prefix p_vec (set_src c1 file)) by exact Hp.
      eapply IH; [exact Hrun | | |]; auto.
    + destruct (idx + 1 =? npos p_vec); [discriminate|].
      destruct (tok_char p_vec (idx + 1)) as [next| |]; simpl res_bind in Hrun;
        try discriminate.
      destruct (single_bad_next next); [discriminate|].
      destruct (ensure_argv p_vec p_command (idx - 1)) as [c1| |] eqn:Ee;
        simpl res_bind in Hrun; try discriminate.
      destruct (vec_get p_vec (idx + 1)) as [file| |]; simpl res_bind in Hrun;
        try discriminate.
      destruct (ensure_argv_prefix _ _ _ _ Hc Ee) as (Hp & _).
      assert (Hp' : argv_is_prefix p_vec (set_dest c1 file)) by exact Hp.
      eapply IH; [exact Hrun | | |]; auto.
    + destruct (idx + 1 =? npos p_vec); simpl negb in Hrun; cbv iota in Hrun;
        [|discriminate].
      destruct (ensure_argv p_vec p_command (idx - 1)) as [c1| |] eqn:Ee;
        simpl res_bind in Hrun; try discriminate.
      destruct (ensure_argv_prefix _ _ _ _ Hc Ee) as (Hp & _).
      eapply IH; [exact Hrun | | |]; auto.
    + destruct (Z.eqb_spec (idx + 1) (npos p_vec)) as [Hlast|Hmore]; simpl andb in Hrun.
      * destruct seen; simpl negb in Hrun; cbv iota in Hrun.
        -- eapply IH; [exact Hrun | | |]; auto.
        -- destruct (ensure_argv p_vec p_command idx) as [c1| |] eqn:Ee;
             simpl res_bind in Hrun; try discriminate.
           destruct (ensure_argv_prefix _ _ _ _ Hc Ee) as (Hp & _).
           eapply IH; [exact Hrun | | |]; auto.
      * eapply IH; [exact Hrun | | |]; auto. left. lia.
Qed.

Lemma parse_multiple_loop_argv (fuel : nat) :
  forall p_vec idx command_start_idx current_command seen_command p_command_vec g r cv' g',
    parse_multiple_loop fuel p_vec idx command_start_idx current_command seen_command
                        p_command_vec g = Ok (r, cv', g') ->
    Forall (argv_cut_from p_vec) p_command_vec ->
    Forall (argv_cut_from p_vec) cv' /\ (length p_command_vec <= length cv')%nat.
Proof.
  assert (Hpush : forall p_vec cv c a start_pos end_pos,
             Forall (argv_cut_from p_vec) cv ->
             slice_argv_from_vec p_vec start_pos end_pos = Ok a ->
             argv c = Some a ->
             Forall (argv_cut_from p_vec) (vec_push cv c)).
  { intros p_vec cv c a sp ep Hcv Hs Hc. unfold vec_push.
    apply Forall_app. split; [assumption|]. constructor; [|constructor].
    apply slice_argv_shape in Hs. destruct Hs as (n & ->).
    do 2 eexists. exact Hc. }
  assert (Hlen : forall (cv : list command_t) c,
             (length cv <= length (vec_push cv c))%nat).
  { intros. unfold vec_push. rewrite length_app. simpl. lia. }
  induction fuel as [|fuel IH]; intros p_vec idx st cur seen cv g r cv' g' Hrun Hcv.
  - simpl in Hrun. destruct (negb (idx <? npos p_vec)); [|discriminate].
    destruct seen.
    + destruct (slice_argv_from_vec p_vec st (idx - 1)) as [a| |] eqn:Es;
        simpl in Hrun; try discriminate.
      injection Hrun as <- <- <-. split; [|apply Hlen].
      eapply Hpush; eauto.
    + injection Hrun as <- <- <-. split; [assumption | lia].
  - cbn [parse_multiple_loop] in Hrun.
    destruct (negb (idx <? npos p_vec)).
    { destruct seen.
      + destruct (slice_argv_from_vec p_vec st (idx - 1)) as [a| |] eqn:Es;
          simpl in Hrun; try discriminate.
        injection Hrun as <- <- <-. split; [|apply Hlen].
        eapply Hpush; eauto.
      + injection Hrun as <- <- <-. split; [assumption | lia]. }
    destruct (tok_char p_vec idx) as [c| |]; simpl res_bind in Hrun; try discriminate.
    destruct (c =? "|")%char;
      [|destruct (c =? "<")%char;
        [|destruct (c =? ">")%char; [|destruct (c =? "&")%char]]].
    + destruct seen; simpl negb in Hrun; cbv iota in Hrun;
        [|injection Hrun as <- <- <-; split; [assumption | lia]].
      destruct (idx + 1 =? npos p_vec);
        [injection Hrun as <- <- <-; split; [assumption | lia]|].
      destruct (tok_char p_vec (idx + 1)) as [next| |]; simpl res_bind in Hrun;
        try discriminate.
      destruct (multi_bad_next next);
        [injection Hrun as <- <- <-; split; [assumption | lia]|].
      destruct (slice_argv_from_vec p_vec st (idx - 1)) as [a| |] eqn:Es;
        simpl res_bind in Hrun; try discriminate.
      apply IH in Hrun.
      * destruct Hrun as [Hall Hle]. split; [assumption|].
        pose proof (Hlen cv (set_argv cur a)). lia.
      * eapply Hpush; eauto.
    + injection Hrun as <- <- <-; split; [assumption | lia].
    + destruct seen; simpl negb in Hrun; cbv iota in Hrun;
        [|injection Hrun as <- <- <-; split; [assumption | lia]].
      destruct (idx + 1 =? npos p_vec);
        [injection Hrun as <- <- <-; split; [assumption | lia]|].
      destruct (pipe_before_last p_vec idx);
        [injection Hrun as <- <- <-; split; [assumption | lia]|].
      destruct (tok_char p_vec (idx + 1)) as [next| |]; simpl res_bind in Hrun;
        try discriminate.
      destruct (multi_bad_next next);
        [injection Hrun as <- <- <-; split; [assumption | lia]|].
      destruct (slice_argv_from_vec p_vec st (idx - 1)) as [a| |] eqn:Es;
        simpl res_bind in Hrun; try discriminate.
      destruct (vec_get p_vec (idx + 1)) as [file| |]; simpl res_bind in Hrun;
        try discriminate.
      apply IH in Hrun.
      * destruct Hrun as [Hall Hle]. split; [assumption|].
        pose proof (Hlen cv (set_dest (set_argv cur a) file)). lia.
      * eapply Hpush; eauto.
    + destruct (idx + 1 =? npos p_vec); simpl negb in Hrun; cbv iota in Hrun;
        [|injection Hrun as <- <- <-; split; [assumption | lia]].
      destruct seen.
      * destruct (slice_argv_from_vec p_vec st (idx - 1)) as [a| |] eqn:Es;
          simpl res_bind in Hrun; try discriminate.
        apply IH in Hrun.
        -- destruct Hrun as [Hall Hle]. split; [assumption|].
           pose proof (Hlen cv (set_argv cur a)). lia.
        -- eapply Hpush; eauto.
      * apply IH in Hrun; assumption.
    + destruct seen; simpl negb in Hrun; cbv iota in Hrun; apply IH in Hrun; assumption.
Qed.

Lemma parse_multiple_commands_argv (p_vec : list string) (g : globals)
    (r : _parse) (cv' : list command_t) (g' : globals) :
  parse_multiple_commands p_vec [] g = Ok (r, cv', g') ->
  r = PARSE_SUCCESS ->
  Forall (argv_cut_from p_vec) cv' /\ cv' <> [].
Proof.
  unfold parse_multiple_commands. intros Hrun ->.
  destruct (tok_char p_vec 0) as [c| |]; simpl res_bind in Hrun; try discriminate.
  destruct (seek_first_command_end (length p_vec) p_vec 0 c) as [[[i c']|]| |];
    simpl res_bind in Hrun; try discriminate.
  cbv iota beta in Hrun.
  destruct (slice_argv_from_vec p_vec 0 (i - 1)) as [a| |] eqn:Es;
    simpl res_bind in Hrun; try discriminate.
  apply slice_argv_shape in Es. destruct Es as (n & ->).
  destruct ((c' =? "<")%char && (i + 3 <? npos p_vec)).
  - destruct (vec_get p_vec (i + 1)) as [file| |]; simpl res_bind in Hrun;
      try discriminate.
    apply parse_multiple_loop_argv in Hrun.
    + destruct Hrun as [Hall Hle]. split; [assumption|].
      intros ->. simpl in Hle. lia.
    + constructor; [|constructor]. do 2 eexists. reflexivity.
  - simpl res_bind in Hrun.
    apply parse_multiple_loop_argv in Hrun.
    + destruct Hrun as [Hall Hle]. split; [assumption|].
      intros ->. simpl in Hle. lia.
    + constructor; [|constructor]. do 2 eexists. reflexivity.
Qed.

(** ** The scanner in closed form *)

Lemma yylex_action_tokens (lx : lexeme) (target : list string) (g : globals)
    (target' : list string) (g' : globals) :
  yylex_action lx (target, g) = Ok (target', g') ->
  target' = target ++ lexeme_tokens lx
  /\ global_num_commands g'
     = global_num_commands g + (if is_pipe_lexeme lx then 1 else 0)
  /\ global_num_builtins g'
     = global_num_builtins g + (if is_builtin_lexeme lx then 1 else 0)
  /\ same_rest g' g.
Proof.
  destruct lx as [rule yytext]. unfold lexeme_tokens, is_pipe_lexeme, is_builtin_lexeme.
  destruct rule; simpl.
  - destruct (vec_set (global_builtin_idxs g) CMD_CD (global_num_commands g - 1));
      simpl; try discriminate.
    intros [= <- <-]. simpl. unfold same_rest. simpl. repeat split; lia.
  - destruct (vec_set (global_builtin_idxs g) CMD_EXIT (global_num_commands g - 1));
      simpl; try discriminate.
    intros [= <- <-]. simpl. unfold same_rest. simpl. repeat split; lia.
  - intros [= <- <-]. simpl. unfold same_rest. simpl. repeat split; lia.
  - intros [= <- <-]. simpl. unfold same_rest. simpl. repeat split; lia.
  - destruct (0 <? size_wrap (Z.of_nat (strlen yytext) - 2));
      [destruct (_ <=? _); [|discriminate]|];
      intros [= <- <-]; unfold same_rest; rewrite ?app_nil_r; repeat split; lia.
  - intros [= <- <-]. simpl. unfold same_rest. simpl. repeat split; lia.
Qed.

Lemma count_cons {A} (p : A -> bool) (a : A) (l : list A) :
  count p (a :: l) = (if p a then 1 else 0) + count p l.
Proof. unfold count. simpl. destruct (p a); simpl length; lia. Qed.

Lemma count_nonneg {A} (p : A -> bool) (l : list A) : 0 <= count p l.
Proof. unfold count. lia. Qed.

Lemma lexer_parse_buffer_tokens (buffer : list lexeme) :
  forall target g target' g',
    lexer_parse_buffer buffer (target, g) = Ok (target', g') ->
    target' = target ++ flat_map lexeme_tokens buffer
    /\ global_num_commands g' = global_num_commands g + count is_pipe_lexeme buffer
    /\ global_num_builtins g' = global_num_builtins g + count is_builtin_lexeme buffer
    /\ same_rest g' g.
Proof.
  induction buffer as [|lx rest IH]; intros target g target' g' Hrun.
  - simpl in Hrun. injection Hrun as <- <-. rewrite app_nil_r.
    unfold count, same_rest. simpl. repeat split; lia.
  - simpl in Hrun.
    destruct (yylex_action lx (target, g)) as [[t1 g1]| |] eqn:E1; simpl in Hrun;
      try discriminate.
    apply yylex_action_tokens in E1. destruct E1 as (-> & Hc1 & Hb1 & Hr1).
    apply IH in Hrun. destruct Hrun as (-> & Hc & Hb & Hr).
    rewrite !count_cons. simpl flat_map. rewrite <- app_assoc.
    repeat split; try lia.
    + destruct Hr as (? & ? & ?), Hr1 as (? & ? & ?). congruence.
    + destruct Hr as (? & ? & ?), Hr1 as (? & ? & ?). congruence.
    + destruct Hr as (? & ? & ?), Hr1 as (? & ? & ?). congruence.
Qed.

Lemma lexeme_tokens_length (lx : lexeme) : (length (lexeme_tokens lx) <= 1)%nat.
Proof.
  unfold lexeme_tokens. destruct (fst lx); simpl; try lia.
  destruct (0 <? _); simpl; lia.
Qed.

Lemma flat_map_tokens_length (buffer : list lexeme) :
  (length (flat_map lexeme_tokens buffer) <= length buffer)%nat.
Proof.
  induction buffer as [|lx rest IH]; simpl; [lia|].
  rewrite length_app. pose proof (lexeme_tokens_length lx). lia.
Qed.

(** A pipe match leaves a token the seek loop stops at. *)
Lemma pipes_stop_seek (buffer : list lexeme) :
  forallb lexeme_matches buffer = true -> 0 < count is_pipe_lexeme buffer ->
  existsb stops_seek (flat_map lexeme_tokens buffer) = true.
Proof.
  induction buffer as [|lx rest IH]; intros Hm Hc.
  - unfold count in Hc. simpl in Hc. lia.
  - simpl in Hm. apply andb_true_iff in Hm. destruct Hm as [Hlx Hrest].
    simpl flat_map. rewrite existsb_app. rewrite count_cons in Hc.
    destruct (is_pipe_lexeme lx) eqn:Hp.
    + destruct lx as [rule yytext]. destruct rule; try discriminate.
      simpl in Hlx. apply String.eqb_eq in Hlx. subst. reflexivity.
    + rewrite IH by (assumption || lia). apply orb_true_r.
Qed.

Lemma scan_line_tokens (buffer : list lexeme) (g : globals) (p_vec : list string)
    (g' : globals) :
  scan_line buffer g = Ok (p_vec, g') ->
  p_vec = flat_map lexeme_tokens buffer
  /\ global_num_commands g' = 1 + count is_pipe_lexeme buffer
  /\ global_num_builtins g' = count is_builtin_lexeme buffer
  /\ same_rest g' g.
Proof.
  unfold scan_line. intros Hrun. apply lexer_parse_buffer_tokens in Hrun.
  destruct Hrun as (-> & Hc & Hb & Hr).
  unfold set_builtin_idxs, set_num_builtins, set_num_commands in *.
  cbn [global_num_commands global_num_builtins] in Hc, Hb.
  split; [reflexivity|]. split; [lia|]. split; [lia|].
  exact Hr.
Qed.

(** X1.  On a token vector of at most [READ_BUFFER_SIZE] tokens that holds a
    token beginning with ['|'], ['<'], ['&'] or ['>'] -- the scanner hands
    over such a vector whenever the line has a pipe -- [parse_multiple_commands]
    returns a result: it reads no token outside the vector.  When the result
    is [PARSE_SUCCESS] the command vector is not empty, and the argv of each
    of its commands is a run of consecutive tokens of the line followed by
    the NULL slot. *)
Theorem parse_multiple_commands_safe (p_vec : list string) (g : globals) :
  npos p_vec <= READ_BUFFER_SIZE ->
  existsb stops_seek p_vec = true ->
  exists r cv' g',
    parse_multiple_commands p_vec [] g = Ok (r, cv', g')
    /\ (r = PARSE_SUCCESS -> Forall (argv_cut_from p_vec) cv' /\ cv' <> []).
Proof.
  intros Hbuf Hstop.
  destruct (parse_multiple_commands_in_range p_vec [] g Hbuf Hstop) as ([[r cv'] g'] & Hrun).
  exists r, cv', g'. split; [exact Hrun|].
  intros Hr. exact (parse_multiple_commands_argv p_vec g r cv' g' Hrun Hr).
Qed.

Lemma parse_multiple_commands_safe_witness :
  exists r cv' g',
    parse_multiple_commands ["sort"; "|"; "uniq"] [] globals_init = Ok (r, cv', g')
    /\ (r = PARSE_SUCCESS ->
        Forall (argv_cut_from ["sort"; "|"; "uniq"]) cv' /\ cv' <> []).
Proof.
  apply parse_multiple_commands_safe; [vm_compute; discriminate | reflexivity].
Defined.

(** X2.  A line of at most [READ_BUFFER_SIZE] matches, each the text its rule
    matches and none a quoted string with a NUL right after its opening
    quote, is scanned and parsed to a result: the rule actions copy from
    inside the matches, and on the way through the builtin check to the two
    parsers no token outside the token vector is read. *)
Theorem parse_turn_in_range (buffer : list lexeme) (g : globals) :
  forallb lexeme_matches buffer = true -> forallb quoted_fits buffer = true ->
  npos buffer <= READ_BUFFER_SIZE ->
  exists parsed g', parse_turn buffer g = Ok (parsed, g').
Proof.
  intros Hm Hfits Hbuf. unfold parse_turn.
  destruct (scan_line_total buffer g Hfits) as (p_vec & g1 & Hscan). rewrite Hscan.
  simpl res_bind. unfold fst, snd.
  apply scan_line_tokens in Hscan. destruct Hscan as (Hvec & Hc & Hb & Hr).
  assert (Hn : npos p_vec <= READ_BUFFER_SIZE).
  { subst p_vec. pose proof (flat_map_tokens_length buffer). unfold npos in *. lia. }
  unfold line_parse.
  destruct (npos p_vec =? 0); [eauto|].
  destruct (negb (is_parse_error (parse_builtin_cmds p_vec g1))
            && negb (global_num_builtins g1 =? 0)); [eauto|].
  destruct (is_parse_error (parse_builtin_cmds p_vec g1)); [eauto|].
  destruct (Z.eqb_spec (global_num_commands g1) 1) as [H1|H1].
  - destruct (parse_single_command_in_range p_vec command_zero g1 Hn)
      as ([[r c] g2] & ->).
    simpl. destruct (is_parse_error r); eauto.
  - destruct (parse_multiple_commands_in_range p_vec [] g1 Hn) as ([[r cv] g2] & ->).
    + subst p_vec. apply pipes_stop_seek; [assumption|].
      pose proof (count_nonneg is_pipe_lexeme buffer). lia.
    + simpl. destruct (is_parse_error r); eauto.
Qed.

Lemma parse_turn_in_range_witness :
  exists parsed g',
    parse_turn [(RULE_PIPE, "|"); (RULE_OPERATOR, ">"); (RULE_OPERATOR, "&");
                (RULE_QUOTED, quoted "a b"); (RULE_PIPE, "|")] globals_init
    = Ok (parsed, g').
Proof.
  apply parse_turn_in_range; [reflexivity | reflexivity | vm_compute; discriminate].
Defined.

(* ================================================================== *)
(** * The redirects of a simple command *)

Lemma ensure_argv_set (p_vec : list string) (c : command_t) (end_pos : Z) :
  argv c <> None -> ensure_argv p_vec c end_pos = Ok c.
Proof. unfold ensure_argv. destruct (argv c); congruence. Qed.

Lemma vec_get_middle {A} (pre : list A) (a : A) (post : list A) :
  vec_get (pre ++ a :: post) (npos pre) = Ok a.
Proof.
  pose proof (npos_nonneg pre). rewrite vec_get_app_r by lia.
  now rewrite Z.sub_diag.
Qed.

Lemma vec_get_middle2 {A} (pre : list A) (a b : A) (post : list A) :
  vec_get (pre ++ a :: b :: post) (npos pre + 1) = Ok b.
Proof.
  pose proof (npos_nonneg pre). rewrite vec_get_app_r by lia.
  now replace (npos pre + 1 - npos pre) with 1 by lia.
Qed.

Lemma npos_cons {A} (a : A) (l : list A) : npos (a :: l) = 1 + npos l.
Proof. unfold npos. simpl length. lia. Qed.

Lemma is_redirect_token_chars (op : string) :
  is_redirect_token op = true ->
  ((first_char op =? "<")%char = true)
  \/ ((first_char op =? "<")%char = false /\ (first_char op =? ">")%char = true).
Proof.
  unfold is_redirect_token. destruct (first_char op =? "<")%char; simpl; auto.
Qed.

(** ** One iteration of the loop of [parse_single_command] *)

Lemma parse_single_loop_amp (fuel : nat) (p_vec : list string) (idx : Z) (a : string)
    (c c' : command_t) (seen : bool) (g : globals) :
  vec_get p_vec idx = Ok a -> is_background_token a = true -> idx + 1 = npos p_vec ->
  ensure_argv p_vec c (idx - 1) = Ok c' ->
  parse_single_loop (S fuel) p_vec idx c seen g
  = Ok (PARSE_SUCCESS, c', set_bkg_proc true g).
Proof.
  intros Hget Hamp Hlast Hc. cbn [parse_single_loop].
  destruct (Z.ltb_spec idx (npos p_vec)); [|lia]. simpl negb. cbv iota.
  rewrite (tok_char_get _ _ _ Hget). simpl res_bind.
  destruct (is_background_token_chars a Hamp) as (-> & -> & ->).
  destruct (Z.eqb_spec (idx + 1) (npos p_vec)); [|lia]. simpl negb. cbv iota.
  rewrite Hc. simpl res_bind.
  apply parse_single_loop_end. lia.
Qed.

Lemma parse_single_loop_redirect (fuel : nat) (p_vec : list string) (idx : Z)
    (op file : string) (c c' : command_t) (seen : bool) (g : globals) :
  vec_get p_vec idx = Ok op -> vec_get p_vec (idx + 1) = Ok file ->
  item_ok (Redirect op file) = true ->
  ensure_argv p_vec c (idx - 1) = Ok c' ->
  parse_single_loop (S fuel) p_vec idx c seen g
  = parse_single_loop fuel p_vec (idx + 1 + 1) (item_effect c' (Redirect op file)) seen g.
Proof.
  intros Hop Hfile Hok Hc.
  assert (Hlt : idx + 1 < npos p_vec).
  { destruct (Z.lt_ge_cases (idx + 1) (npos p_vec)); [assumption|].
    rewrite vec_get_out_of_range in Hfile by lia. discriminate. }
  assert (H0 : 0 <= idx).
  { unfold vec_get in Hop. destruct (Z.ltb_spec idx 0); [discriminate | lia]. }
  simpl in Hok. apply andb_true_iff in Hok. destruct Hok as [Hisop Hnext].
  apply negb_true_iff in Hnext.
  cbn [parse_single_loop].
  destruct (Z.ltb_spec idx (npos p_vec)); [|lia]. simpl negb. cbv iota.
  rewrite (tok_char_get _ _ _ Hop). simpl res_bind.
  destruct (Z.eqb_spec (idx + 1) (npos p_vec)); [lia|].
  rewrite (tok_char_get _ _ _ Hfile). simpl res_bind. rewrite Hnext.
  rewrite Hc. simpl res_bind. rewrite Hfile. simpl res_bind.
  unfold item_effect.
  destruct (is_redirect_token_chars op Hisop) as [-> | [-> ->]]; reflexivity.
Qed.

Lemma parse_single_loop_trailing (fuel : nat) (p_vec : list string) (idx : Z)
    (word : string) (c : command_t) (seen : bool) (g : globals) :
  vec_get p_vec idx = Ok word -> is_word_token word = true -> argv c <> None ->
  exists seen',
    parse_single_loop (S fuel) p_vec idx c seen g
    = parse_single_loop fuel p_vec (idx + 1) c seen' g.
Proof.
  intros Hget Hword Hc.
  assert (Hlt : idx < npos p_vec).
  { destruct (Z.lt_ge_cases idx (npos p_vec)); [assumption|].
    rewrite vec_get_out_of_range in Hget by lia. discriminate. }
  cbn [parse_single_loop].
  destruct (Z.ltb_spec idx (npos p_vec)); [|lia]. simpl negb. cbv iota.
  rewrite (tok_char_get _ _ _ Hget). simpl res_bind.
  destruct (is_word_token_chars word Hword) as (_ & -> & -> & ->).
  destruct ((idx + 1 =? npos p_vec) && negb seen).
  - rewrite ensure_argv_set by assumption. simpl res_bind. now exists true.
  - now exists seen.
Qed.

Lemma item_effect_argv (c : command_t) (it : tail_item) :
  argv (item_effect c it) = argv c.
Proof.
  destruct it as [op file|word]; simpl; [|reflexivity].
  destruct (first_char op =? "<")%char; reflexivity.
Qed.

(** The tail of a simple command, once its argv is set. *)
Lemma parse_single_loop_items (items : list tail_item) :
  forall fuel p_vec pre amp c seen g,
    p_vec = pre ++ flat_map item_tokens items ++ amp_tokens amp ->
    forallb item_ok items = true ->
    match amp with Some a => is_background_token a = true | None => True end ->
    argv c <> None ->
    npos p_vec - npos pre <= Z.of_nat fuel ->
    parse_single_loop fuel p_vec (npos pre) c seen g
    = Ok (PARSE_SUCCESS, fold_left item_effect items c, amp_effect amp g).
Proof.
  induction items as [|it rest IH]; intros fuel p_vec pre amp c seen g Hvec Hok Hamp Hc Hfuel;
    pose proof (npos_nonneg pre) as Hpre.
  - simpl flat_map in Hvec. simpl app in Hvec. destruct amp as [a|]; simpl amp_tokens in *.
    + assert (Hn : npos p_vec = npos pre + 1).
      { subst p_vec. rewrite npos_app, npos_cons. reflexivity. }
      destruct fuel as [|fuel]; [lia|].
      apply (parse_single_loop_amp _ _ _ a); try assumption; try lia.
      * subst p_vec. apply vec_get_middle.
      * now apply ensure_argv_set.
    + rewrite app_nil_r in Hvec. subst p_vec.
      rewrite parse_single_loop_end by lia. reflexivity.
  - simpl in Hok. apply andb_true_iff in Hok. destruct Hok as [Hit Hrest].
    cbn [flat_map fold_left] in *. rewrite <- app_assoc in Hvec.
    set (post := flat_map item_tokens rest ++ amp_tokens amp) in *.
    pose proof (npos_nonneg post) as Hpost.
    destruct it as [op file | word]; cbn [item_tokens app] in Hvec.
    + (* a redirect *)
      assert (Hn : npos p_vec = npos pre + 2 + npos post).
      { subst p_vec. rewrite npos_app, !npos_cons. lia. }
      destruct fuel as [|fuel]; [lia|].
      rewrite (parse_single_loop_redirect _ _ _ op file c c); try assumption.
      * assert (Hnext : npos (pre ++ [op; file]) = npos pre + 1 + 1).
        { rewrite npos_app, !npos_cons. change (npos (@nil string)) with 0. lia. }
        rewrite <- Hnext. apply IH; try assumption.
        -- subst p_vec. now rewrite <- app_assoc.
        -- now rewrite item_effect_argv.
        -- lia.
      * subst p_vec. apply vec_get_middle.
      * subst p_vec. apply vec_get_middle2.
      * now apply ensure_argv_set.
    + (* a further word *)
      assert (Hn : npos p_vec = npos pre + 1 + npos post).
      { subst p_vec. rewrite npos_app, !npos_cons. lia. }
      destruct fuel as [|fuel]; [lia|].
      destruct (parse_single_loop_trailing fuel p_vec (npos pre) word c seen g)
        as (seen' & ->); try assumption.
      * subst p_vec. apply vec_get_middle.
      * assert (Hnext : npos (pre ++ [word]) = npos pre + 1).
        { rewrite npos_app, npos_cons. change (npos (@nil string)) with 0. lia. }
        rewrite <- Hnext. apply IH; try assumption.
        -- subst p_vec. now rewrite <- app_assoc.
        -- lia.
Qed.

(** X3.  A simple command with redirects.  For a line of at most
    [READ_BUFFER_SIZE] tokens made of words, a redirect operator with its
    file, then further redirects (each with its file) and words in any order,
    and possibly a final ['&'], [parse_single_command] succeeds.  The argv is
    the words before the first redirect followed by the NULL slot: the words
    after it are dropped.  Of several ['<'] redirects the file of the last is
    the source, of several ['>'] redirects the file of the last is the
    destination.  The background flag is raised exactly when the line ends
    in ['&']. *)
Theorem parse_single_command_items (words : list string) (op file : string)
    (items : list tail_item) (amp : option string) (g : globals) :
  let p_vec := words ++ flat_map item_tokens (Redirect op file :: items) ++ amp_tokens amp in
  npos p_vec <= READ_BUFFER_SIZE ->
  forallb is_word_token words = true ->
  forallb item_ok (Redirect op file :: items) = true ->
  match amp with Some a => is_background_token a = true | None => True end ->
  parse_single_command p_vec command_zero g
  = Ok (PARSE_SUCCESS,
        fold_left item_effect (Redirect op file :: items) (plain_command words),
        amp_effect amp (set_num_pipes 0 g)).
Proof.
  cbv zeta. intros Hbuf Hwords Hok Hamp.
  set (post := flat_map item_tokens items ++ amp_tokens amp).
  assert (Hvec : words ++ flat_map item_tokens (Redirect op file :: items) ++ amp_tokens amp
                 = words ++ op :: file :: post).
  { cbn [flat_map item_tokens]. now rewrite <- app_assoc. }
  rewrite Hvec in *. clear Hvec.
  set (p_vec := words ++ op :: file :: post) in *.
  pose proof (npos_nonneg words) as Hw. pose proof (npos_nonneg post) as Hpost.
  assert (Hn : npos p_vec = npos words + 2 + npos post).
  { unfold p_vec. rewrite npos_app, !npos_cons. lia. }
  assert (Hlen : length p_vec = (length words + S (S (length post)))%nat).
  { unfold p_vec. rewrite length_app. reflexivity. }
  unfold parse_single_command.
  destruct (Z.eqb_spec (npos p_vec) 0); [lia|].
  rewrite Hlen.
  rewrite parse_single_loop_words;
    [ | lia | unfold npos in *; lia
      | intros j tok Hj Hget; unfold p_vec in Hget;
        rewrite vec_get_app_l in Hget by (unfold npos in *; lia);
        eapply forallb_vec_get; eauto ].
  change (0 + Z.of_nat (length words)) with (npos words).
  cbn [forallb] in Hok. apply andb_true_iff in Hok. destruct Hok as [Hfirst Hrest].
  rewrite (parse_single_loop_redirect _ _ _ op file command_zero (plain_command words)).
  - assert (Hnext : npos (words ++ [op; file]) = npos words + 1 + 1).
    { rewrite npos_app, !npos_cons. change (npos (@nil string)) with 0. lia. }
    rewrite <- Hnext. cbn [fold_left].
    apply parse_single_loop_items; try assumption.
    + unfold p_vec. now rewrite <- app_assoc.
    + rewrite item_effect_argv. discriminate.
    + unfold npos in *. lia.
  - apply vec_get_middle.
  - apply vec_get_middle2.
  - exact Hfirst.
  - unfold ensure_argv. simpl argv. cbv iota.
    rewrite slice_argv_in_range by lia.
    replace (npos words - 1 + 1 - 0) with (npos words) by lia.
    unfold npos at 1. rewrite Nat2Z.id. simpl skipn. unfold p_vec.
    rewrite firstn_app, firstn_all, Nat.sub_diag. simpl firstn. rewrite app_nil_r.
    reflexivity.
Qed.

Lemma parse_single_command_items_witness :
  parse_single_command ["sort"; "<"; "in"; ">"; "a"; "-r"; ">"; "b"; "&"]
                       command_zero globals_init
  = Ok (PARSE_SUCCESS,
        mk_command (Some [Some "sort"; None]) (Some "b") (Some "in") false,
        set_bkg_proc true (set_num_pipes 0 globals_init)).
Proof.
  apply (parse_single_command_items ["sort"] "<" "in"
           [Redirect ">" "a"; Trailing "-r"; Redirect ">" "b"] (Some "&") globals_init).
  - vm_compute. discriminate.
  - reflexivity.
  - reflexivity.
  - reflexivity.
Defined.

(* ================================================================== *)
(** * Lines parse_single_command rejects *)

Lemma is_redirect_bad_next (op : string) :
  is_redirect_token op = true -> single_bad_next (first_char op) = true.
Proof.
  unfold is_redirect_token, single_bad_next.
  destruct (first_char op =? "<")%char, (first_char op =? ">")%char; simpl; auto;
    discriminate.
Qed.

(** A redirect operator that is the last token is reached, or the parse has
    failed before. *)
Lemma parse_single_loop_redirect_at_end (fuel : nat) :
  forall p_vec idx op c seen g,
    npos p_vec <= READ_BUFFER_SIZE ->
    vec_get p_vec (npos p_vec - 1) = Ok op -> is_redirect_token op = true ->
    0 <= idx <= npos p_vec - 1 ->
    npos p_vec - idx <= Z.of_nat fuel ->
    exists c' g', parse_single_loop fuel p_vec idx c seen g = Ok (PARSE_ERROR, c', g').
Proof.
  induction fuel as [|fuel IH]; intros p_vec idx op c seen g Hbuf Hlast Hop Hidx Hfuel;
    [lia|].
  cbn [parse_single_loop].
  destruct (Z.ltb_spec idx (npos p_vec)); [|lia]. simpl negb. cbv iota.
  destruct (vec_get_in_range p_vec idx) as (tok & Hget & _); [lia|].
  rewrite (tok_char_get _ _ _ Hget). cbn [res_bind].
  assert (Hnext_bad : idx + 1 = npos p_vec - 1 ->
                      exists next, tok_char p_vec (idx + 1) = Ok next
                                   /\ single_bad_next next = true).
  { intros E. rewrite E. exists (first_char op).
    split; [now apply tok_char_get | now apply is_redirect_bad_next]. }
  destruct (first_char tok =? "<")%char eqn:Elt;
    [|destruct (first_char tok =? ">")%char eqn:Egt;
      [|destruct (first_char tok =? "&")%char eqn:Eamp]].
  - destruct (Z.eqb_spec (idx + 1) (npos p_vec)); [eauto|].
    destruct (tok_char_in_range p_vec (idx + 1)) as (next & Hnext); [lia|].
    rewrite Hnext. cbn [res_bind].
    destruct (single_bad_next next) eqn:Ebad; [eauto|].
    destruct (ensure_argv_in_range p_vec c (idx - 1)) as (c1 & -> & _);
      [assumption | lia |]. cbn [res_bind].
    destruct (vec_get_in_range p_vec (idx + 1)) as (file & -> & _); [lia|].
    cbn [res_bind].
    apply (IH _ _ op); try assumption; try lia.
    destruct (Z.eq_dec (idx + 1) (npos p_vec - 1)) as [E|E]; [|lia].
    destruct (Hnext_bad E) as (next' & Hn' & Hb'). congruence.
  - destruct (Z.eqb_spec (idx + 1) (npos p_vec)); [eauto|].
    destruct (tok_char_in_range p_vec (idx + 1)) as (next & Hnext); [lia|].
    rewrite Hnext. cbn [res_bind].
    destruct (single_bad_next next) eqn:Ebad; [eauto|].
    destruct (ensure_argv_in_range p_vec c (idx - 1)) as (c1 & -> & _);
      [assumption | lia |]. cbn [res_bind].
    destruct (vec_get_in_range p_vec (idx + 1)) as (file & -> & _); [lia|].
    cbn [res_bind].
    apply (IH _ _ op); try assumption; try lia.
    destruct (Z.eq_dec (idx + 1) (npos p_vec - 1)) as [E|E]; [|lia].
    destruct (Hnext_bad E) as (next' & Hn' & Hb'). congruence.
  - destruct (Z.eqb_spec (idx + 1) (npos p_vec)) as [E|E]; simpl negb; cbv iota; [|eauto].
    (* the last token is the redirect operator, not ['&'] *)
    replace idx with (npos p_vec - 1) in Hget by lia.
    rewrite Hlast in Hget. injection Hget as <-.
    unfold is_redirect_token in Hop. rewrite Elt, Egt in Hop. discriminate.
  - destruct (Z.eqb_spec (idx + 1) (npos p_vec)) as [E|E].
    + replace idx with (npos p_vec - 1) in Hget by lia.
      rewrite Hlast in Hget. injection Hget as <-.
      unfold is_redirect_token in Hop. rewrite Elt, Egt in Hop. discriminate.
    + simpl andb. cbv iota. apply (IH _ _ op); try assumption; lia.
Qed.

(** X4.  [parse_single_command] reports [PARSE_ERROR] for a line (of at most
    [READ_BUFFER_SIZE] tokens) that is empty, that ends in a redirect
    operator, in which the first operator after the leading words is a
    redirect operator followed by a token beginning with ['>'], ['<'] or
    ['|'], or in which it is a ['&'] that is not the last token. *)
Theorem parse_single_command_rejects (p_vec : list string) (g : globals) :
  npos p_vec <= READ_BUFFER_SIZE ->
  single_syntax_error p_vec ->
  exists c' g', parse_single_command p_vec command_zero g = Ok (PARSE_ERROR, c', g').
Proof.
  intros Hbuf Herr. unfold parse_single_command.
  destruct Herr as [ | front op Hop | words op next rest Hwords Hop Hbad
                     | words amp next rest Hwords Hamp ].
  - simpl. eauto.
  - pose proof (npos_nonneg front) as Hf.
    assert (Hn : npos (front ++ [op]) = npos front + 1).
    { rewrite npos_app, npos_cons. reflexivity. }
    destruct (Z.eqb_spec (npos (front ++ [op])) 0); [lia|].
    apply (parse_single_loop_redirect_at_end _ _ _ op); try assumption; try lia.
    + replace (npos (front ++ [op]) - 1) with (npos front) by lia.
      apply vec_get_middle.
    + unfold npos. lia.
  - pose proof (npos_nonneg words) as Hw. pose proof (npos_nonneg rest) as Hr.
    set (p_vec := words ++ op :: next :: rest) in *.
    assert (Hn : npos p_vec = npos words + 2 + npos rest).
    { unfold p_vec. rewrite npos_app, !npos_cons. lia. }
    assert (Hlen : length p_vec = (length words + S (S (length rest)))%nat).
    { unfold p_vec. rewrite length_app. reflexivity. }
    destruct (Z.eqb_spec (npos p_vec) 0); [lia|].
    rewrite Hlen.
    rewrite parse_single_loop_words;
      [ | lia | unfold npos in *; lia
        | intros j tok Hj Hget; unfold p_vec in Hget;
          rewrite vec_get_app_l in Hget by (unfold npos in *; lia);
          eapply forallb_vec_get; eauto ].
    change (0 + Z.of_nat (length words)) with (npos words).
    cbn [parse_single_loop].
    destruct (Z.ltb_spec (npos words) (npos p_vec)); [|lia]. simpl negb. cbv iota.
    assert (Hget0 : vec_get p_vec (npos words) = Ok op) by apply vec_get_middle.
    assert (Hget1 : vec_get p_vec (npos words + 1) = Ok next) by apply vec_get_middle2.
    rewrite (tok_char_get _ _ _ Hget0). cbn [res_bind].
    destruct (Z.eqb_spec (npos words + 1) (npos p_vec)); [lia|].
    rewrite (tok_char_get _ _ _ Hget1). cbn [res_bind]. rewrite Hbad.
    destruct (is_redirect_token_chars op Hop) as [-> | [-> ->]]; eauto.
  - pose proof (npos_nonneg words) as Hw. pose proof (npos_nonneg rest) as Hr.
    set (p_vec := words ++ amp :: next :: rest) in *.
    assert (Hn : npos p_vec = npos words + 2 + npos rest).
    { unfold p_vec. rewrite npos_app, !npos_cons. lia. }
    assert (Hlen : length p_vec = (length words + S (S (length rest)))%nat).
    { unfold p_vec. rewrite length_app. reflexivity. }
    destruct (Z.eqb_spec (npos p_vec) 0); [lia|].
    rewrite Hlen.
    rewrite parse_single_loop_words;
      [ | lia | unfold npos in *; lia
        | intros j tok Hj Hget; unfold p_vec in Hget;
          rewrite vec_get_app_l in Hget by (unfold npos in *; lia);
          eapply forallb_vec_get; eauto ].
    change (0 + Z.of_nat (length words)) with (npos words).
    cbn [parse_single_loop].
    destruct (Z.ltb_spec (npos words) (npos p_vec)); [|lia]. simpl negb. cbv iota.
    assert (Hget0 : vec_get p_vec (npos words) = Ok amp) by apply vec_get_middle.
    rewrite (tok_char_get _ _ _ Hget0). cbn [res_bind].
    destruct (is_background_token_chars amp Hamp) as (-> & -> & ->).
    destruct (Z.eqb_spec (npos words + 1) (npos p_vec)); [lia|].
    simpl negb. cbv iota. eauto.
Qed.

Lemma parse_single_command_rejects_witness :
  exists c' g',
    parse_single_command ["ls"; "&"; "-l"] command_zero globals_init
    = Ok (PARSE_ERROR, c', g').
Proof.
  apply parse_single_command_rejects.
  - vm_compute. discriminate.
  - apply (background_not_last ["ls"] "&" "-l" []); reflexivity.
Defined.

(* ================================================================== *)
(** * Pipelines parse_multiple_commands accepts *)

(** The tokens [stage], between [pre] and [post], as an argv. *)
Lemma slice_argv_segment (pre stage post : list string) :
  npos (pre ++ stage ++ post) <= READ_BUFFER_SIZE ->
  slice_argv_from_vec (pre ++ stage ++ post) (npos pre) (npos pre + npos stage - 1)
  = Ok (map Some stage ++ [None]).
Proof.
  intros Hbuf.
  pose proof (npos_nonneg pre). pose proof (npos_nonneg stage).
  pose proof (npos_nonneg post).
  assert (Hn : npos (pre ++ stage ++ post) = npos pre + npos stage + npos post).
  { rewrite !npos_app. lia. }
  rewrite slice_argv_in_range by lia.
  replace (npos pre + npos stage - 1 + 1 - npos pre) with (npos stage) by lia.
  unfold npos at 1 2. rewrite !Nat2Z.id.
  rewrite skipn_app, skipn_all, Nat.sub_diag. simpl skipn. simpl app.
  rewrite firstn_app, firstn_all, Nat.sub_diag. simpl firstn. rewrite app_nil_r.
  reflexivity.
Qed.

Lemma is_stage_words (stage : list string) :
  is_stage stage = true -> forallb is_word_token stage = true /\ 0 < npos stage.
Proof.
  unfold is_stage. intros H. apply andb_true_iff in H. destruct H as [Hne Hall].
  split; [assumption|]. destruct stage; [discriminate|]. unfold npos. simpl. lia.
Qed.

(** ** The seek loop over the first stage *)

Lemma seek_first_command_end_words (words : list string) :
  forall fuel pre stop post tok,
    forallb is_word_token words = true ->
    negb (is_word_token stop) && negb (first_char stop =? ">")%char = true ->
    vec_get (pre ++ words ++ stop :: post) (npos pre) = Ok tok ->
    npos words <= Z.of_nat fuel ->
    seek_first_command_end fuel (pre ++ words ++ stop :: post) (npos pre) (first_char tok)
    = Ok (Some (npos pre + npos words, first_char stop)).
Proof.
  induction words as [|w rest IH]; intros fuel pre stop post tok Hwords Hstop Hget Hfuel;
    pose proof (npos_nonneg pre) as Hpre.
  - simpl app in *. rewrite vec_get_middle in Hget. injection Hget as <-.
    change (npos (@nil string)) with 0. rewrite Z.add_0_r.
    apply andb_true_iff in Hstop. destruct Hstop as [Hnw Hngt].
    apply negb_true_iff in Hnw. apply negb_true_iff in Hngt.
    unfold is_word_token in Hnw. cbv zeta in Hnw. rewrite Hngt in Hnw.
    assert (Hgo : negb (first_char stop =? "|")%char
                  && negb (first_char stop =? "<")%char
                  && negb (first_char stop =? "&")%char = false).
    { destruct (first_char stop =? "|")%char, (first_char stop =? "<")%char,
        (first_char stop =? "&")%char; simpl in *; congruence. }
    destruct fuel; cbn [seek_first_command_end]; rewrite Hgo; reflexivity.
  - simpl in Hwords. apply andb_true_iff in Hwords. destruct Hwords as [Hw Hrest].
    simpl app in *. rewrite vec_get_middle in Hget. injection Hget as <-.
    rewrite npos_cons in *. pose proof (npos_nonneg rest).
    destruct fuel as [|fuel]; [lia|].
    cbn [seek_first_command_end].
    destruct (is_word_token_chars w Hw) as (-> & -> & -> & ->). simpl andb. cbv iota.
    assert (Hnext : npos (pre ++ [w]) = npos pre + 1).
    { rewrite npos_app, npos_cons. reflexivity. }
    replace (pre ++ w :: rest ++ stop :: post) with ((pre ++ [w]) ++ rest ++ stop :: post)
      by (now rewrite <- app_assoc).
    rewrite <- Hnext.
    destruct (vec_get_in_range ((pre ++ [w]) ++ rest ++ stop :: post) (npos (pre ++ [w])))
      as (tok1 & Hget1 & _).
    { rewrite !npos_app, !npos_cons. change (npos (@nil string)) with 0.
      pose proof (npos_nonneg post). lia. }
    rewrite (tok_char_get _ _ _ Hget1). cbn [res_bind].
    rewrite (IH fuel (pre ++ [w]) stop post tok1); try assumption; try lia.
    rewrite Hnext. do 3 f_equal. lia.
Qed.

(** ** One iteration of the main loop of [parse_multiple_commands] *)

Lemma parse_multiple_loop_end (fuel : nat) (p_vec : list string) (idx st : Z)
    (cur : command_t) (seen : bool) (cv : list command_t) (g : globals) :
  npos p_vec <= idx ->
  parse_multiple_loop fuel p_vec idx st cur seen cv g
  = if seen
    then let* a := slice_argv_from_vec p_vec st (idx - 1) in
         Ok (PARSE_SUCCESS, vec_push cv (set_argv cur a), g)
    else Ok (PARSE_SUCCESS, cv, g).
Proof.
  intros H. destruct fuel; cbn [parse_multiple_loop];
    destruct (Z.ltb_spec idx (npos p_vec)); try lia; reflexivity.
Qed.

Lemma parse_multiple_loop_word (fuel : nat) (p_vec : list string) (idx st : Z)
    (word : string) (cur : command_t) (seen : bool) (cv : list command_t) (g : globals) :
  vec_get p_vec idx = Ok word -> is_word_token word = true ->
  parse_multiple_loop (S fuel) p_vec idx st cur seen cv g
  = parse_multiple_loop fuel p_vec (idx + 1) (if seen then st else idx) cur true cv g.
Proof.
  intros Hget Hword.
  assert (Hlt : idx < npos p_vec).
  { destruct (Z.lt_ge_cases idx (npos p_vec)); [assumption|].
    rewrite vec_get_out_of_range in Hget by lia. discriminate. }
  cbn [parse_multiple_loop].
  destruct (Z.ltb_spec idx (npos p_vec)); [|lia]. simpl negb. cbv iota.
  rewrite (tok_char_get _ _ _ Hget). cbn [res_bind].
  destruct (is_word_token_chars word Hword) as (-> & -> & -> & ->).
  destruct seen; reflexivity.
Qed.

(** A run of words, once the command has begun. *)
Lemma parse_multiple_loop_more_words (words : list string) :
  forall fuel p_vec pre post st cur cv g,
    p_vec = pre ++ words ++ post ->
    forallb is_word_token words = true ->
    npos p_vec - npos pre <= Z.of_nat fuel ->
    exists fuel',
      npos p_vec - (npos pre + npos words) <= Z.of_nat fuel'
      /\ parse_multiple_loop fuel p_vec (npos pre) st cur true cv g
         = parse_multiple_loop fuel' p_vec (npos pre + npos words) st cur true cv g.
Proof.
  induction words as [|w rest IH]; intros fuel p_vec pre post st cur cv g Hvec Hwords Hfuel.
  - exists fuel. change (npos (@nil string)) with 0. rewrite Z.add_0_r. auto.
  - simpl in Hwords. apply andb_true_iff in Hwords. destruct Hwords as [Hw Hrest].
    pose proof (npos_nonneg pre). pose proof (npos_nonneg rest).
    pose proof (npos_nonneg post).
    assert (Hn : npos p_vec = npos pre + (1 + npos rest) + npos post).
    { subst p_vec. rewrite !npos_app, npos_cons. lia. }
    destruct fuel as [|fuel]; [lia|].
    rewrite (parse_multiple_loop_word _ _ _ _ w); try assumption.
    2:{ subst p_vec. simpl app. apply vec_get_middle. }
    assert (Hnext : npos (pre ++ [w]) = npos pre + 1).
    { rewrite npos_app, npos_cons. reflexivity. }
    destruct (IH fuel p_vec (pre ++ [w]) post st cur cv g) as (fuel' & Hf' & Heq);
      try assumption.
    + subst p_vec. now rewrite <- app_assoc.
    + lia.
    + exists fuel'. rewrite npos_cons. rewrite Hnext in *.
      replace (npos pre + (1 + npos rest)) with (npos pre + 1 + npos rest) by lia.
      split; [lia | exact Heq].
Qed.

(** The words of a stage: the first marks where the command starts. *)
Lemma parse_multiple_loop_stage (stage : list string) :
  forall fuel p_vec pre post st cur cv g,
    p_vec = pre ++ stage ++ post ->
    is_stage stage = true ->
    npos p_vec - npos pre <= Z.of_nat fuel ->
    exists fuel',
      npos p_vec - (npos pre + npos stage) <= Z.of_nat fuel'
      /\ parse_multiple_loop fuel p_vec (npos pre) st cur false cv g
         = parse_multiple_loop fuel' p_vec (npos pre + npos stage) (npos pre) cur true cv g.
Proof.
  intros fuel p_vec pre post st cur cv g Hvec Hstage Hfuel.
  apply is_stage_words in Hstage. destruct Hstage as [Hwords Hne].
  destruct stage as [|w rest]; [unfold npos in Hne; simpl in Hne; lia|].
  simpl in Hwords. apply andb_true_iff in Hwords. destruct Hwords as [Hw Hrest].
  pose proof (npos_nonneg pre). pose proof (npos_nonneg rest).
  pose proof (npos_nonneg post).
  assert (Hn : npos p_vec = npos pre + (1 + npos rest) + npos post).
  { subst p_vec. rewrite !npos_app, npos_cons. lia. }
  destruct fuel as [|fuel]; [lia|].
  rewrite (parse_multiple_loop_word _ _ _ _ w); try assumption.
  2:{ subst p_vec. simpl app. apply vec_get_middle. }
  assert (Hnext : npos (pre ++ [w]) = npos pre + 1).
  { rewrite npos_app, npos_cons. reflexivity. }
  destruct (parse_multiple_loop_more_words rest fuel p_vec (pre ++ [w]) post
              (npos pre) cur cv g) as (fuel' & Hf' & Heq); try assumption.
  - subst p_vec. now rewrite <- app_assoc.
  - lia.
  - exists fuel'. rewrite npos_cons. rewrite Hnext in *.
    replace (npos pre + (1 + npos rest)) with (npos pre + 1 + npos rest) by lia.
    split; [lia | exact Heq].
Qed.

(** A ['|'] after the words of a stage that a word follows. *)
Lemma parse_multiple_loop_pipe (fuel : nat) (p_vec : list string) (idx st : Z)
    (next : string) (cur : command_t) (cv : list command_t) (g : globals)
    (a : list (option string)) :
  vec_get p_vec idx = Ok "|" -> vec_get p_vec (idx + 1) = Ok next ->
  multi_bad_next (first_char next) = false ->
  slice_argv_from_vec p_vec st (idx - 1) = Ok a ->
  parse_multiple_loop (S fuel) p_vec idx st cur true cv g
  = parse_multiple_loop fuel p_vec (idx + 1) (idx + 1) command_zero false
                        (vec_push cv (set_argv cur a)) g.
Proof.
  intros Hget Hnext Hok Hslice.
  assert (Hlt : idx + 1 < npos p_vec).
  { destruct (Z.lt_ge_cases (idx + 1) (npos p_vec)); [assumption|].
    rewrite vec_get_out_of_range in Hnext by lia. discriminate. }
  assert (H0 : 0 <= idx).
  { unfold vec_get in Hget. destruct (Z.ltb_spec idx 0); [discriminate | lia]. }
  cbn [parse_multiple_loop].
  destruct (Z.ltb_spec idx (npos p_vec)); [|lia]. simpl negb. cbv iota.
  rewrite (tok_char_get _ _ _ Hget). cbn [res_bind].
  change ((first_char "|" =? "|")%char) with true. cbv iota.
  destruct (Z.eqb_spec (idx + 1) (npos p_vec)); [lia|].
  rewrite (tok_char_get _ _ _ Hnext). cbn [res_bind]. rewrite Hok.
  rewrite Hslice. reflexivity.
Qed.

Lemma is_word_not_bad_next (tok : string) :
  is_word_token tok = true -> multi_bad_next (first_char tok) = false.
Proof.
  intros H. destruct (is_word_token_chars tok H) as (_ & H1 & H2 & H3).
  unfold multi_bad_next. now rewrite H1, H2, H3.
Qed.

Lemma plain_command_argv (words : list string) :
  set_argv command_zero (map Some words ++ [None]) = plain_command words.
Proof. reflexivity. Qed.

Lemma pipe_before_last_app (pre post : list string) :
  pipe_before_last (pre ++ post) (npos pre)
  = existsb (fun tok => (first_char tok =? "|")%char)
            (firstn (length post - 1) post).
Proof.
  unfold pipe_before_last. rewrite npos_app.
  replace (Z.to_nat (npos pre + npos post - 1 - npos pre)) with (length post - 1)%nat
    by (unfold npos; lia).
  replace (Z.to_nat (npos pre)) with (length pre) by (unfold npos; lia).
  rewrite skipn_app, skipn_all, Nat.sub_diag. reflexivity.
Qed.

(** The end of the line: the words of the last stage are followed by the
    output redirect, if there is one, and by ['&'], if there is one. *)
Lemma parse_multiple_loop_last (last : list string) (output : option string)
    (background : bool) (fuel : nat) (pre : list string) (st : Z)
    (cv : list command_t) (g : globals) :
  let tail := match output with Some file => [">"; file] | None => [] end
              ++ (if background then ["&"] else []) in
  let p_vec := pre ++ last ++ tail in
  npos p_vec <= READ_BUFFER_SIZE ->
  is_stage last = true ->
  match output with Some file => is_word_token file = true | None => True end ->
  npos p_vec - npos pre <= Z.of_nat fuel ->
  parse_multiple_loop fuel p_vec (npos pre) st command_zero false cv g
  = Ok (PARSE_SUCCESS,
        vec_push cv match output with
                    | Some file => set_dest (plain_command last) file
                    | None => plain_command last
                    end,
        if background then set_bkg_proc true g else g).
Proof.
  cbv zeta. intros Hbuf Hstage Hout Hfuel.
  set (tail := match output with Some file => [">"; file] | None => [] end
               ++ (if background then ["&"] else [])) in *.
  set (p_vec := pre ++ last ++ tail) in *.
  pose proof (npos_nonneg pre) as Hpre. pose proof (npos_nonneg last) as Hlast.
  pose proof (npos_nonneg tail) as Htail.
  assert (Hn : npos p_vec = npos pre + npos last + npos tail).
  { unfold p_vec. rewrite !npos_app. lia. }
  destruct (parse_multiple_loop_stage last fuel p_vec pre tail st command_zero cv g)
    as (fuel1 & Hf1 & ->); try assumption; try reflexivity.
  assert (Hslice : slice_argv_from_vec p_vec (npos pre) (npos pre + npos last - 1)
                   = Ok (map Some last ++ [None])).
  { apply slice_argv_segment. exact Hbuf. }
  assert (Hp2 : p_vec = (pre ++ last) ++ tail) by (unfold p_vec; now rewrite app_assoc).
  assert (Hpl : npos (pre ++ last) = npos pre + npos last) by apply npos_app.
  rewrite <- Hpl in *.
  destruct output as [file|]; destruct background; unfold tail in *; simpl app in *.
  - (* > file & *)
    rewrite !npos_cons in *. change (npos (@nil string)) with 0 in *.
    destruct fuel1 as [|fuel1]; [lia|].
    cbn [parse_multiple_loop].
    destruct (Z.ltb_spec (npos (pre ++ last)) (npos p_vec)); [|lia]. simpl negb. cbv iota.
    assert (Hg0 : vec_get p_vec (npos (pre ++ last)) = Ok ">")
      by (rewrite Hp2; apply vec_get_middle).
    assert (Hg1 : vec_get p_vec (npos (pre ++ last) + 1) = Ok file)
      by (rewrite Hp2; apply vec_get_middle2).
    assert (Hg2 : vec_get p_vec (npos (pre ++ last) + 1 + 1) = Ok "&").
    { rewrite Hp2. rewrite vec_get_app_r by lia.
      now replace (npos (pre ++ last) + 1 + 1 - npos (pre ++ last)) with 2 by lia. }
    rewrite (tok_char_get _ _ _ Hg0). cbn [res_bind].
    change ((first_char ">" =? "|")%char) with false.
    change ((first_char ">" =? "<")%char) with false.
    change ((first_char ">" =? ">")%char) with true. cbv iota. simpl negb. cbv iota.
    destruct (Z.eqb_spec (npos (pre ++ last) + 1) (npos p_vec)); [lia|].
    assert (Hscan : pipe_before_last p_vec (npos (pre ++ last)) = false).
    { rewrite Hp2, pipe_before_last_app. simpl.
      destruct (is_word_token_chars file Hout) as (-> & _). reflexivity. }
    rewrite Hscan. rewrite (tok_char_get _ _ _ Hg1). cbn [res_bind].
    rewrite (is_word_not_bad_next file Hout).
    rewrite Hslice. cbn [res_bind]. rewrite Hg1. cbn [res_bind].
    rewrite plain_command_argv.
    destruct fuel1 as [|fuel1]; [lia|].
    cbn [parse_multiple_loop].
    destruct (Z.ltb_spec (npos (pre ++ last) + 1 + 1) (npos p_vec)); [|lia].
    simpl negb. cbv iota.
    rewrite (tok_char_get _ _ _ Hg2). cbn [res_bind].
    change ((first_char "&" =? "|")%char) with false.
    change ((first_char "&" =? "<")%char) with false.
    change ((first_char "&" =? ">")%char) with false.
    change ((first_char "&" =? "&")%char) with true. cbv iota.
    destruct (Z.eqb_spec (npos (pre ++ last) + 1 + 1 + 1) (npos p_vec)); [|lia].
    simpl negb. cbv iota.
    rewrite parse_multiple_loop_end by lia. reflexivity.
  - (* > file *)
    rewrite !npos_cons in *. change (npos (@nil string)) with 0 in *.
    destruct fuel1 as [|fuel1]; [lia|].
    cbn [parse_multiple_loop].
    destruct (Z.ltb_spec (npos (pre ++ last)) (npos p_vec)); [|lia]. simpl negb. cbv iota.
    assert (Hg0 : vec_get p_vec (npos (pre ++ last)) = Ok ">")
      by (rewrite Hp2; apply vec_get_middle).
    assert (Hg1 : vec_get p_vec (npos (pre ++ last) + 1) = Ok file)
      by (rewrite Hp2; apply vec_get_middle2).
    rewrite (tok_char_get _ _ _ Hg0). cbn [res_bind].
    change ((first_char ">" =? "|")%char) with false.
    change ((first_char ">" =? "<")%char) with false.
    change ((first_char ">" =? ">")%char) with true. cbv iota. simpl negb. cbv iota.
    destruct (Z.eqb_spec (npos (pre ++ last) + 1) (npos p_vec)); [lia|].
    assert (Hscan : pipe_before_last p_vec (npos (pre ++ last)) = false).
    { rewrite Hp2, pipe_before_last_app. reflexivity. }
    rewrite Hscan. rewrite (tok_char_get _ _ _ Hg1). cbn [res_bind].
    rewrite (is_word_not_bad_next file Hout).
    rewrite Hslice. cbn [res_bind]. rewrite Hg1. cbn [res_bind].
    rewrite plain_command_argv.
    rewrite parse_multiple_loop_end by lia. reflexivity.
  - (* & *)
    rewrite !npos_cons in *. change (npos (@nil string)) with 0 in *.
    destruct fuel1 as [|fuel1]; [lia|].
    cbn [parse_multiple_loop].
    destruct (Z.ltb_spec (npos (pre ++ last)) (npos p_vec)); [|lia]. simpl negb. cbv iota.
    assert (Hg0 : vec_get p_vec (npos (pre ++ last)) = Ok "&")
      by (rewrite Hp2; apply vec_get_middle).
    rewrite (tok_char_get _ _ _ Hg0). cbn [res_bind].
    change ((first_char "&" =? "|")%char) with false.
    change ((first_char "&" =? "<")%char) with false.
    change ((first_char "&" =? ">")%char) with false.
    change ((first_char "&" =? "&")%char) with true. cbv iota.
    destruct (Z.eqb_spec (npos (pre ++ last) + 1) (npos p_vec)); [|lia].
    simpl negb. cbv iota.
    rewrite Hslice. cbn [res_bind]. rewrite plain_command_argv.
    rewrite parse_multiple_loop_end by lia. reflexivity.
  - (* nothing *)
    change (npos (@nil string)) with 0 in *.
    rewrite parse_multiple_loop_end by lia.
    rewrite Hslice. cbn [res_bind]. rewrite plain_command_argv.
    reflexivity.
Qed.

(** What follows a ['|']: a word. *)
Lemma stages_begin_with_word (middle : list (list string)) (last tail : list string) :
  forallb is_stage middle = true -> is_stage last = true ->
  exists w more,
    flat_map (fun stage => stage ++ ["|"]) middle ++ last ++ tail = w :: more
    /\ is_word_token w = true.
Proof.
  intros Hmid Hlast.
  assert (Hs : forall stage rest, is_stage stage = true ->
                 exists w more, stage ++ rest = w :: more /\ is_word_token w = true).
  { intros stage rest Hst. apply is_stage_words in Hst. destruct Hst as [Hw Hne].
    destruct stage as [|w more]; [unfold npos in Hne; simpl in Hne; lia|].
    simpl in Hw. apply andb_true_iff in Hw. destruct Hw as [Hw _].
    exists w, (more ++ rest). auto. }
  destruct middle as [|stage middle'].
  - simpl. now apply Hs.
  - simpl in Hmid. apply andb_true_iff in Hmid. destruct Hmid as [Hst _].
    simpl flat_map. rewrite <- !app_assoc. now apply Hs.
Qed.

(** The stages after the first ['|']. *)
Lemma parse_multiple_loop_stages (last : list string) (output : option string)
    (background : bool) (middle : list (list string)) :
  forall fuel p_vec pre st cv g,
    let tail := match output with Some file => [">"; file] | None => [] end
                ++ (if background then ["&"] else []) in
    p_vec = pre ++ flat_map (fun stage => stage ++ ["|"]) middle ++ last ++ tail ->
    npos p_vec <= READ_BUFFER_SIZE ->
    forallb is_stage middle = true -> is_stage last = true ->
    match output with Some file => is_word_token file = true | None => True end ->
    npos p_vec - npos pre <= Z.of_nat fuel ->
    parse_multiple_loop fuel p_vec (npos pre) st command_zero false cv g
    = Ok (PARSE_SUCCESS,
          cv ++ map plain_command middle
          ++ [match output with
              | Some file => set_dest (plain_command last) file
              | None => plain_command last
              end],
          if background then set_bkg_proc true g else g).
Proof.
  induction middle as [|stage middle' IH];
    intros fuel p_vec pre st cv g tail Hvec Hbuf Hmid Hlast Hout Hfuel.
  - simpl flat_map in Hvec. simpl app in Hvec. subst p_vec.
    simpl map. simpl app. apply parse_multiple_loop_last; assumption.
  - simpl in Hmid. apply andb_true_iff in Hmid. destruct Hmid as [Hstage Hmid'].
    cbn [flat_map] in Hvec. rewrite <- !app_assoc in Hvec. simpl app in Hvec.
    set (rest := flat_map (fun stage => stage ++ ["|"]) middle' ++ last ++ tail) in *.
    destruct (stages_begin_with_word middle' last tail Hmid' Hlast)
      as (w & more & Hrest & Hw).
    fold rest in Hrest.
    pose proof (npos_nonneg pre). pose proof (npos_nonneg stage).
    pose proof (npos_nonneg rest).
    assert (Hn : npos p_vec = npos pre + npos stage + 1 + npos rest).
    { subst p_vec. rewrite !npos_app, npos_cons. lia. }
    destruct (parse_multiple_loop_stage stage fuel p_vec pre ("|" :: rest) st
                command_zero cv g) as (fuel1 & Hf1 & ->); try assumption.
    destruct fuel1 as [|fuel1]; [lia|].
    assert (Hp2 : p_vec = (pre ++ stage) ++ "|" :: rest)
      by (subst p_vec; now rewrite <- app_assoc).
    assert (Hpl : npos (pre ++ stage) = npos pre + npos stage) by apply npos_app.
    rewrite <- Hpl.
    rewrite (parse_multiple_loop_pipe _ _ _ _ w _ _ _ (map Some stage ++ [None])).
    + rewrite plain_command_argv.
      assert (Hnext : npos (pre ++ stage ++ ["|"]) = npos (pre ++ stage) + 1).
      { rewrite !npos_app, npos_cons. change (npos (@nil string)) with 0. lia. }
      rewrite <- Hnext.
      rewrite (IH fuel1 p_vec (pre ++ stage ++ ["|"])); try assumption.
      * unfold vec_push. simpl map. rewrite <- !app_assoc. reflexivity.
      * subst p_vec. rewrite <- !app_assoc. reflexivity.
      * lia.
    + rewrite Hp2. apply vec_get_middle.
    + rewrite Hp2, Hrest. apply vec_get_middle2.
    + now apply is_word_not_bad_next.
    + rewrite Hpl. subst p_vec. apply slice_argv_segment. exact Hbuf.
Qed.

Lemma seek_first_command_end_first_stage (words : list string) (fuel : nat)
    (stop : string) (post : list string) (tok : string) :
  forallb is_word_token words = true ->
  negb (is_word_token stop) && negb (first_char stop =? ">")%char = true ->
  vec_get (words ++ stop :: post) 0 = Ok tok ->
  npos words <= Z.of_nat fuel ->
  seek_first_command_end fuel (words ++ stop :: post) 0 (first_char tok)
  = Ok (Some (npos words, first_char stop)).
Proof.
  intros Hwords Hstop Hget Hfuel.
  exact (seek_first_command_end_words words fuel [] stop post tok Hwords Hstop Hget Hfuel).
Qed.

(** X5.  A well-formed pipeline is parsed into its stages.  For a line of at
    most [READ_BUFFER_SIZE] tokens made of the words of a first stage,
    possibly ['<'] and a file, then after each ['|'] a further stage of one
    word or more, possibly ['>'] and a file that is a word, and possibly a
    final ['&'], [parse_multiple_commands] succeeds with one command for each
    stage, in the order of the line: the argv of a command is the words of
    its stage followed by the NULL slot, the first command has the input file
    as its source, the last the output file as its destination, and there is
    no other redirect.  The background flag is raised exactly when the line
    ends in ['&']; the other globals are left alone. *)
Theorem parse_multiple_commands_pipeline (first : list string) (input : option string)
    (middle : list (list string)) (last : list string) (output : option string)
    (background : bool) (g : globals) :
  let p_vec := pipeline_tokens first input middle last output background in
  npos p_vec <= READ_BUFFER_SIZE ->
  forallb is_word_token first = true ->
  forallb is_stage middle = true -> is_stage last = true ->
  match output with Some file => is_word_token file = true | None => True end ->
  parse_multiple_commands p_vec [] g
  = Ok (PARSE_SUCCESS, pipeline_commands first input middle last output,
        if background then set_bkg_proc true g else g).
Proof.
  cbv zeta. intros Hbuf Hfirst Hmid Hlast Hout.
  unfold pipeline_tokens in *.
  set (tail := match output with Some file => [">"; file] | None => [] end
               ++ (if background then ["&"] else [])) in *.
  set (rest := flat_map (fun stage => stage ++ ["|"]) middle ++ last ++ tail).
  assert (Hshape : first ++ match input with Some file => ["<"; file] | None => [] end
                   ++ "|" :: flat_map (fun stage => stage ++ ["|"]) middle ++ last ++ tail
                   = first ++ match input with Some file => ["<"; file] | None => [] end
                     ++ "|" :: rest) by reflexivity.
  rewrite Hshape in *. clear Hshape.
  destruct (stages_begin_with_word middle last tail Hmid Hlast) as (w & more & Hrest & Hw).
  fold rest in Hrest.
  pose proof (npos_nonneg first) as Hf. pose proof (npos_nonneg rest) as Hr.
  assert (Hr1 : 1 <= npos rest) by (rewrite Hrest, npos_cons; pose proof (npos_nonneg more); lia).
  unfold parse_multiple_commands.
  destruct input as [file|]; simpl app in *.
  - (* words < file | ... *)
    set (p_vec := first ++ "<" :: file :: "|" :: rest) in *.
    assert (Hn : npos p_vec = npos first + 3 + npos rest).
    { unfold p_vec. rewrite npos_app, !npos_cons. lia. }
    destruct (vec_get_in_range p_vec 0) as (tok & Hget & _); [lia|].
    rewrite (tok_char_get _ _ _ Hget). cbn [res_bind].
    assert (Hseek : seek_first_command_end (length p_vec) p_vec 0 (first_char tok)
                    = Ok (Some (npos first, first_char "<"))).
    { apply seek_first_command_end_first_stage; try assumption; try reflexivity.
      unfold p_vec, npos. rewrite length_app. lia. }
    rewrite Hseek.
    cbn [res_bind]. cbv iota beta.
    assert (Hslice : slice_argv_from_vec p_vec 0 (npos first - 1)
                     = Ok (map Some first ++ [None])).
    { exact (slice_argv_segment [] first ("<" :: file :: "|" :: rest) Hbuf). }
    rewrite Hslice. cbn [res_bind]. rewrite plain_command_argv.
    change ((first_char "<" =? "<")%char) with true.
    destruct (Z.ltb_spec (npos first + 3) (npos p_vec)); [|lia]. simpl andb. cbv iota.
    assert (Hfile : vec_get p_vec (npos first + 1) = Ok file) by apply vec_get_middle2.
    rewrite Hfile. cbn [res_bind].
    assert (Hpre : npos (first ++ ["<"; file; "|"]) = npos first + 2 + 1).
    { rewrite npos_app, !npos_cons. change (npos (@nil string)) with 0. lia. }
    rewrite <- Hpre.
    rewrite (parse_multiple_loop_stages last output background middle _ p_vec
               (first ++ ["<"; file; "|"])); try assumption.
    + reflexivity.
    + unfold p_vec, rest. rewrite <- app_assoc. reflexivity.
    + unfold npos in *. lia.
  - (* words | ... *)
    set (p_vec := first ++ "|" :: rest) in *.
    assert (Hn : npos p_vec = npos first + 1 + npos rest).
    { unfold p_vec. rewrite npos_app, !npos_cons. lia. }
    destruct (vec_get_in_range p_vec 0) as (tok & Hget & _); [lia|].
    rewrite (tok_char_get _ _ _ Hget). cbn [res_bind].
    assert (Hseek : seek_first_command_end (length p_vec) p_vec 0 (first_char tok)
                    = Ok (Some (npos first, first_char "|"))).
    { apply seek_first_command_end_first_stage; try assumption; try reflexivity.
      unfold p_vec, npos. rewrite length_app. lia. }
    rewrite Hseek.
    cbn [res_bind]. cbv iota beta.
    assert (Hslice : slice_argv_from_vec p_vec 0 (npos first - 1)
                     = Ok (map Some first ++ [None])).
    { exact (slice_argv_segment [] first ("|" :: rest) Hbuf). }
    rewrite Hslice. cbn [res_bind]. rewrite plain_command_argv.
    change ((first_char "|" =? "<")%char) with false. simpl andb. cbv iota.
    cbn [res_bind].
    assert (Hpre : npos (first ++ ["|"]) = npos first + 1).
    { rewrite npos_app, !npos_cons. change (npos (@nil string)) with 0. lia. }
    rewrite <- Hpre.
    rewrite (parse_multiple_loop_stages last output background middle _ p_vec
               (first ++ ["|"])); try assumption.
    + reflexivity.
    + unfold p_vec, rest. rewrite <- app_assoc. reflexivity.
    + unfold npos in *. lia.
Qed.

Lemma parse_multiple_commands_pipeline_witness :
  parse_multiple_commands
    ["sort"; "<"; "in"; "|"; "uniq"; "-c"; "|"; "wc"; ">"; "out"; "&"] [] globals_init
  = Ok (PARSE_SUCCESS,
        [mk_command (Some [Some "sort"; None]) None (Some "in") false;
         mk_command (Some [Some "uniq"; Some "-c"; None]) None None false;
         mk_command (Some [Some "wc"; None]) (Some "out") None false],
        set_bkg_proc true globals_init).
Proof.
  apply (parse_multiple_commands_pipeline ["sort"] (Some "in") [["uniq"; "-c"]] ["wc"]
           (Some "out") true globals_init).
  - vm_compute. discriminate.
  - reflexivity.
  - reflexivity.
  - reflexivity.
  - reflexivity.
Defined.

(* ================================================================== *)
(** * Pipelines parse_multiple_commands rejects *)

Lemma pipe_before_last_found (p_vec : list string) (idx k : Z) (bar : string) :
  0 <= idx <= k -> k < npos p_vec - 1 ->
  vec_get p_vec k = Ok bar -> is_pipe_token bar = true ->
  pipe_before_last p_vec idx = true.
Proof.
  intros Hidx Hk Hget Hbar. unfold pipe_before_last.
  apply existsb_exists. exists bar. split; [|exact Hbar].
  unfold vec_get in Hget. destruct (Z.ltb_spec k 0); [lia|].
  destruct (nth_error p_vec (Z.to_nat k)) as [x|] eqn:E; [|discriminate].
  injection Hget as ->.
  apply (nth_error_In _ (Z.to_nat k - Z.to_nat idx)).
  rewrite nth_error_firstn.
  destruct (Nat.ltb_spec (Z.to_nat k - Z.to_nat idx) (Z.to_nat (npos p_vec - 1 - idx)));
    [|lia].
  rewrite nth_error_skipn.
  replace (Z.to_nat idx + (Z.to_nat k - Z.to_nat idx))%nat with (Z.to_nat k) by lia.
  exact E.
Qed.

(** The main loop reaches such a token, unless it has failed before. *)
Lemma parse_multiple_loop_reaches (fuel : nat) :
  forall p_vec idx st cur seen cv g j tok,
    npos p_vec <= READ_BUFFER_SIZE ->
    0 <= st <= idx -> idx <= j -> vec_get p_vec j = Ok tok -> stops_loop p_vec j tok ->
    npos p_vec - idx <= Z.of_nat fuel ->
    (forall fuel' st' cur' seen' cv' g',
        npos p_vec - j <= Z.of_nat fuel' -> 0 <= st' <= j ->
        (idx = j -> seen' = seen) ->
        exists cv'' g'',
          parse_multiple_loop fuel' p_vec j st' cur' seen' cv' g'
          = Ok (PARSE_ERROR, cv'', g'')) ->
    exists cv'' g'',
      parse_multiple_loop fuel p_vec idx st cur seen cv g = Ok (PARSE_ERROR, cv'', g'').
Proof.
  induction fuel as [|fuel IH];
    intros p_vec idx st cur seen cv g j tok Hbuf Hst Hj Hget Hstop Hfuel Hat.
  - destruct (Z.eq_dec idx j) as [->|Hne]; [apply Hat; auto; lia|].
    assert (j < npos p_vec).
    { destruct (Z.lt_ge_cases j (npos p_vec)); [assumption|].
      rewrite vec_get_out_of_range in Hget by lia. discriminate. }
    lia.
  - destruct (Z.eq_dec idx j) as [->|Hne]; [apply Hat; auto; lia|].
    assert (Hjn : j < npos p_vec).
    { destruct (Z.lt_ge_cases j (npos p_vec)); [assumption|].
      rewrite vec_get_out_of_range in Hget by lia. discriminate. }
    cbn [parse_multiple_loop].
    destruct (Z.ltb_spec idx (npos p_vec)); [|lia]. simpl negb. cbv iota.
    destruct (vec_get_in_range p_vec idx) as (here & Hhere & _); [lia|].
    rewrite (tok_char_get _ _ _ Hhere). cbn [res_bind].
    assert (Hgo : forall idx' st' cur' seen' cv' g',
               idx < idx' <= j -> 0 <= st' <= idx' ->
               exists cv'' g'',
                 parse_multiple_loop fuel p_vec idx' st' cur' seen' cv' g'
                 = Ok (PARSE_ERROR, cv'', g'')).
    { intros idx' st' cur' seen' cv' g' Hidx' Hst'.
      apply (IH _ _ _ _ _ _ _ j tok); try assumption; try lia.
      intros fuel' st'' cur'' seen'' cv'' g'' Hf' Hst'' _. apply Hat; try assumption.
      lia. }
    destruct (first_char here =? "|")%char;
      [|destruct (first_char here =? "<")%char; [eauto|];
        destruct (first_char here =? ">")%char eqn:Ehere;
        [|destruct (first_char here =? "&")%char]].
    + destruct seen; simpl negb; cbv iota; [|eauto].
      destruct (Z.eqb_spec (idx + 1) (npos p_vec)); [eauto|].
      destruct (tok_char_in_range p_vec (idx + 1)) as (next & ->); [lia|]. cbn [res_bind].
      destruct (multi_bad_next next); [eauto|].
      rewrite slice_argv_in_range by lia. cbn [res_bind].
      apply Hgo; lia.
    + destruct seen; simpl negb; cbv iota; [|eauto].
      destruct (Z.eqb_spec (idx + 1) (npos p_vec)); [eauto|].
      destruct (pipe_before_last p_vec idx) eqn:Hscan; [eauto|].
      destruct (tok_char_in_range p_vec (idx + 1)) as (next & Hnext); [lia|].
      rewrite Hnext. cbn [res_bind].
      destruct (multi_bad_next next) eqn:Hbad; [eauto|].
      (* the token after ['>'] is not the one the loop must stop at *)
      assert (Hskip : idx + 1 <> j).
      { intros E. subst j.
        rewrite (tok_char_get _ _ _ Hget) in Hnext. injection Hnext as <-.
        unfold multi_bad_next in Hbad.
        unfold stops_loop, is_input_token, is_output_token, is_background_token in Hstop.
        destruct Hstop as [Hlt | [Hgt | [Hamp | [Hbar [Hlast | (prev & Hprev & Hno)]]]]].
        - rewrite Hlt in Hbad. discriminate.
        - rewrite Hgt in Hbad. rewrite orb_true_r in Hbad. discriminate.
        - rewrite Hamp in Hbad. rewrite !orb_true_r in Hbad. discriminate.
        - assert (pipe_before_last p_vec idx = true)
            by (apply (pipe_before_last_found p_vec idx (idx + 1) tok);
                try assumption; lia).
          congruence.
        - replace (idx + 1 - 1) with idx in Hprev by lia.
          rewrite Hhere in Hprev. injection Hprev as <-. congruence. }
      rewrite slice_argv_in_range by lia. cbn [res_bind].
      destruct (vec_get_in_range p_vec (idx + 1)) as (file & -> & _); [lia|].
      cbn [res_bind].
      apply Hgo; lia.
    + destruct (Z.eqb_spec (idx + 1) (npos p_vec)); simpl negb; cbv iota; [lia | eauto].
    + destruct seen; simpl negb; cbv iota; apply Hgo; lia.
Qed.

Lemma is_word_token_false (tok : string) :
  is_word_token tok = false ->
  (first_char tok =? "|")%char = true \/ multi_bad_next (first_char tok) = true.
Proof.
  unfold is_word_token, multi_bad_next. cbv zeta.
  destruct (first_char tok =? "|")%char, (first_char tok =? "<")%char,
    (first_char tok =? ">")%char, (first_char tok =? "&")%char; simpl; auto;
    discriminate.
Qed.

(** One iteration at a token, by its first character. *)
Lemma parse_multiple_loop_at (fuel : nat) (p_vec : list string) (idx st : Z)
    (tok : string) (cur : command_t) (seen : bool) (cv : list command_t) (g : globals) :
  vec_get p_vec idx = Ok tok ->
  parse_multiple_loop (S fuel) p_vec idx st cur seen cv g
  = let c := first_char tok in
    if (c =? "|")%char then
      if negb seen then Ok (PARSE_ERROR, cv, g) else
      if idx + 1 =? npos p_vec then Ok (PARSE_ERROR, cv, g) else
      let* next := tok_char p_vec (idx + 1) in
      if multi_bad_next next then Ok (PARSE_ERROR, cv, g) else
      let* a := slice_argv_from_vec p_vec st (idx - 1) in
      parse_multiple_loop fuel p_vec (idx + 1) (idx + 1) command_zero false
                          (vec_push cv (set_argv cur a)) g
    else if (c =? "<")%char then Ok (PARSE_ERROR, cv, g)
    else if (c =? ">")%char then
      if negb seen then Ok (PARSE_ERROR, cv, g) else
      if idx + 1 =? npos p_vec then Ok (PARSE_ERROR, cv, g) else
      if pipe_before_last p_vec idx then Ok (PARSE_ERROR, cv, g) else
      let* next := tok_char p_vec (idx + 1) in
      if multi_bad_next next then Ok (PARSE_ERROR, cv, g) else
      let* a := slice_argv_from_vec p_vec st (idx - 1) in
      let* file := vec_get p_vec (idx + 1) in
      parse_multiple_loop fuel p_vec (idx + 1 + 1) st command_zero false
                          (vec_push cv (set_dest (set_argv cur a) file)) g
    else if (c =? "&")%char then
      if negb (idx + 1 =? npos p_vec) then Ok (PARSE_ERROR, cv, g) else
      if seen then
        let* a := slice_argv_from_vec p_vec st (idx - 1) in
        parse_multiple_loop fuel p_vec (idx + 1) st (set_argv cur a) false
                            (vec_push cv (set_argv cur a)) (set_bkg_proc true g)
      else
        parse_multiple_loop fuel p_vec (idx + 1) st cur seen cv (set_bkg_proc true g)
    else
      if negb seen then parse_multiple_loop fuel p_vec (idx + 1) idx cur true cv g
      else parse_multiple_loop fuel p_vec (idx + 1) st cur seen cv g.
Proof.
  intros Hget.
  assert (Hlt : idx < npos p_vec).
  { destruct (Z.lt_ge_cases idx (npos p_vec)); [assumption|].
    rewrite vec_get_out_of_range in Hget by lia. discriminate. }
  cbn [parse_multiple_loop].
  destruct (Z.ltb_spec idx (npos p_vec)); [|lia]. simpl negb. cbv iota.
  rewrite (tok_char_get _ _ _ Hget). reflexivity.
Qed.

(** The main loop on a line with one of the errors after [idx]. *)
Lemma parse_multiple_loop_rejects (p_vec pre rest : list string) (fuel : nat)
    (st : Z) (cur : command_t) (cv : list command_t) (g : globals) :
  p_vec = pre ++ rest -> npos p_vec <= READ_BUFFER_SIZE ->
  pipeline_syntax_error rest ->
  0 <= st <= npos pre -> npos p_vec - npos pre <= Z.of_nat fuel ->
  exists cv'' g'',
    parse_multiple_loop fuel p_vec (npos pre) st cur false cv g
    = Ok (PARSE_ERROR, cv'', g'').
Proof.
  intros Hvec Hbuf Herr Hst Hfuel. pose proof (npos_nonneg pre) as Hpre.
  destruct Herr as [ op back Hop
                   | front op back Hop
                   | front bar next back Hbar Hnext
                   | front prev bar Hprev Hbar
                   | front op between bar last back Hop Hbar
                   | front op Hop
                   | front op next back Hop Hnext
                   | front amp next back Hamp ];
    try pose proof (npos_nonneg front) as Hfront;
    try pose proof (npos_nonneg back) as Hback.
  - (* no word after the first pipe *)
    assert (Hn : npos p_vec = npos pre + 1 + npos back).
    { subst p_vec. rewrite !npos_app, npos_cons. lia. }
    assert (Hget : vec_get p_vec (npos pre) = Ok op)
      by (subst p_vec; apply vec_get_middle).
    destruct fuel as [|fuel]; [lia|].
    rewrite (parse_multiple_loop_at _ _ _ _ op) by assumption. cbv zeta.
    unfold is_pipe_token, is_input_token, is_output_token in Hop.
    destruct (first_char op =? "|")%char; [simpl; eauto|].
    destruct (first_char op =? "<")%char; [eauto|].
    destruct (first_char op =? ">")%char; [simpl; eauto | discriminate].
  - (* an input redirect *)
    assert (Hp : p_vec = (pre ++ front) ++ op :: back)
      by (subst p_vec; now rewrite <- app_assoc).
    assert (Hn : npos p_vec = npos pre + npos front + 1 + npos back).
    { subst p_vec. rewrite !npos_app, npos_cons. lia. }
    assert (Hj : npos (pre ++ front) = npos pre + npos front) by apply npos_app.
    assert (Hget : vec_get p_vec (npos (pre ++ front)) = Ok op)
      by (rewrite Hp; apply vec_get_middle).
    apply (parse_multiple_loop_reaches _ _ _ _ _ _ _ _ (npos (pre ++ front)) op);
      try assumption; try lia.
    + left. exact Hop.
    + intros fuel' st' cur' seen' cv' g' Hf' Hst' _.
      destruct fuel' as [|fuel']; [lia|].
      rewrite (parse_multiple_loop_at _ _ _ _ op) by assumption. cbv zeta.
      unfold is_input_token in Hop. apply Ascii.eqb_eq in Hop. rewrite Hop.
      change (("<" =? "|")%char) with false. change (("<" =? "<")%char) with true.
      cbv iota. eauto.
  - (* a pipe that an operator follows *)
    assert (Hp : p_vec = (pre ++ front) ++ bar :: next :: back)
      by (subst p_vec; now rewrite <- app_assoc).
    assert (Hn : npos p_vec = npos pre + npos front + 2 + npos back).
    { subst p_vec. rewrite !npos_app, !npos_cons. lia. }
    assert (Hj : npos (pre ++ front) = npos pre + npos front) by apply npos_app.
    assert (Hget0 : vec_get p_vec (npos (pre ++ front)) = Ok bar)
      by (rewrite Hp; apply vec_get_middle).
    assert (Hget1 : vec_get p_vec (npos (pre ++ front) + 1) = Ok next)
      by (rewrite Hp; apply vec_get_middle2).
    apply (parse_multiple_loop_reaches _ _ _ _ _ _ _ _ (npos (pre ++ front)) bar);
      try assumption; try lia.
    + right. right. right. split; [exact Hbar | left; lia].
    + intros fuel' st' cur' seen' cv' g' Hf' Hst' _.
      destruct fuel' as [|fuel']; [lia|].
      rewrite (parse_multiple_loop_at _ _ _ _ bar) by assumption. cbv zeta.
      unfold is_pipe_token in Hbar. rewrite Hbar.
      destruct seen'; simpl negb; cbv iota; [|eauto].
      destruct (Z.eqb_spec (npos (pre ++ front) + 1) (npos p_vec)); [eauto|].
      rewrite (tok_char_get _ _ _ Hget1). cbn [res_bind].
      destruct (is_word_token_false next Hnext) as [Hpipe | Hbad].
      2:{ rewrite Hbad. eauto. }
      destruct (multi_bad_next (first_char next)); [eauto|].
      rewrite slice_argv_in_range by lia. cbn [res_bind].
      destruct fuel' as [|fuel']; [lia|].
      rewrite (parse_multiple_loop_at _ _ _ _ next) by assumption. cbv zeta.
      rewrite Hpipe. simpl negb. cbv iota. eauto.
  - (* a pipe at the end *)
    assert (Hp : p_vec = (pre ++ front) ++ [prev; bar])
      by (subst p_vec; now rewrite <- app_assoc).
    assert (Hn : npos p_vec = npos pre + npos front + 2).
    { subst p_vec. rewrite !npos_app, !npos_cons.
      change (npos (@nil string)) with 0. lia. }
    assert (Hj : npos (pre ++ front) = npos pre + npos front) by apply npos_app.
    assert (Hget0 : vec_get p_vec (npos (pre ++ front)) = Ok prev)
      by (rewrite Hp; apply vec_get_middle).
    assert (Hget1 : vec_get p_vec (npos (pre ++ front) + 1) = Ok bar)
      by (rewrite Hp; apply vec_get_middle2).
    apply (parse_multiple_loop_reaches _ _ _ _ _ _ _ _ (npos (pre ++ front) + 1) bar);
      try assumption; try lia.
    + right. right. right. split; [exact Hbar|]. right. exists prev.
      replace (npos (pre ++ front) + 1 - 1) with (npos (pre ++ front)) by lia. auto.
    + intros fuel' st' cur' seen' cv' g' Hf' Hst' _.
      destruct fuel' as [|fuel']; [lia|].
      rewrite (parse_multiple_loop_at _ _ _ _ bar) by assumption. cbv zeta.
      unfold is_pipe_token in Hbar. rewrite Hbar.
      destruct seen'; simpl negb; cbv iota; [|eauto].
      destruct (Z.eqb_spec (npos (pre ++ front) + 1 + 1) (npos p_vec)); [eauto | lia].
  - (* an output redirect that a pipe follows *)
    pose proof (npos_nonneg between) as Hbetween.
    assert (Hp : p_vec = (pre ++ front) ++ op :: between ++ bar :: last :: back)
      by (subst p_vec; now rewrite <- app_assoc).
    assert (Hp2 : p_vec = (pre ++ front ++ op :: between) ++ bar :: last :: back).
    { subst p_vec. rewrite <- !app_assoc. reflexivity. }
    assert (Hn : npos p_vec = npos pre + npos front + 1 + npos between + 2 + npos back).
    { subst p_vec. rewrite !npos_app, !npos_cons, !npos_app, !npos_cons. lia. }
    assert (Hj : npos (pre ++ front) = npos pre + npos front) by apply npos_app.
    assert (Hk : npos (pre ++ front ++ op :: between)
                 = npos pre + npos front + 1 + npos between).
    { rewrite !npos_app, npos_cons. lia. }
    assert (Hget0 : vec_get p_vec (npos (pre ++ front)) = Ok op)
      by (rewrite Hp; apply vec_get_middle).
    assert (Hgetk : vec_get p_vec (npos (pre ++ front ++ op :: between)) = Ok bar)
      by (rewrite Hp2; apply vec_get_middle).
    apply (parse_multiple_loop_reaches _ _ _ _ _ _ _ _ (npos (pre ++ front)) op);
      try assumption; try lia.
    + right. left. exact Hop.
    + intros fuel' st' cur' seen' cv' g' Hf' Hst' _.
      destruct fuel' as [|fuel']; [lia|].
      rewrite (parse_multiple_loop_at _ _ _ _ op) by assumption. cbv zeta.
      unfold is_output_token in Hop. apply Ascii.eqb_eq in Hop. rewrite Hop.
      change ((">" =? "|")%char) with false. change ((">" =? "<")%char) with false.
      change ((">" =? ">")%char) with true. cbv iota.
      destruct seen'; simpl negb; cbv iota; [|eauto].
      destruct (Z.eqb_spec (npos (pre ++ front) + 1) (npos p_vec)); [eauto|].
      rewrite (pipe_before_last_found p_vec (npos (pre ++ front))
                 (npos (pre ++ front ++ op :: between)) bar);
        try assumption; try lia.
      eauto.
  - (* an output redirect at the end *)
    assert (Hp : p_vec = (pre ++ front) ++ [op])
      by (subst p_vec; now rewrite <- app_assoc).
    assert (Hn : npos p_vec = npos pre + npos front + 1).
    { subst p_vec. rewrite !npos_app, !npos_cons.
      change (npos (@nil string)) with 0. lia. }
    assert (Hj : npos (pre ++ front) = npos pre + npos front) by apply npos_app.
    assert (Hget0 : vec_get p_vec (npos (pre ++ front)) = Ok op)
      by (rewrite Hp; apply vec_get_middle).
    apply (parse_multiple_loop_reaches _ _ _ _ _ _ _ _ (npos (pre ++ front)) op);
      try assumption; try lia.
    + right. left. exact Hop.
    + intros fuel' st' cur' seen' cv' g' Hf' Hst' _.
      destruct fuel' as [|fuel']; [lia|].
      rewrite (parse_multiple_loop_at _ _ _ _ op) by assumption. cbv zeta.
      unfold is_output_token in Hop. apply Ascii.eqb_eq in Hop. rewrite Hop.
      change ((">" =? "|")%char) with false. change ((">" =? "<")%char) with false.
      change ((">" =? ">")%char) with true. cbv iota.
      destruct seen'; simpl negb; cbv iota; [|eauto].
      destruct (Z.eqb_spec (npos (pre ++ front) + 1) (npos p_vec)); [eauto | lia].
  - (* an output redirect without a file *)
    assert (Hp : p_vec = (pre ++ front) ++ op :: next :: back)
      by (subst p_vec; now rewrite <- app_assoc).
    assert (Hn : npos p_vec = npos pre + npos front + 2 + npos back).
    { subst p_vec. rewrite !npos_app, !npos_cons. lia. }
    assert (Hj : npos (pre ++ front) = npos pre + npos front) by apply npos_app.
    assert (Hget0 : vec_get p_vec (npos (pre ++ front)) = Ok op)
      by (rewrite Hp; apply vec_get_middle).
    assert (Hget1 : vec_get p_vec (npos (pre ++ front) + 1) = Ok next)
      by (rewrite Hp; apply vec_get_middle2).
    apply (parse_multiple_loop_reaches _ _ _ _ _ _ _ _ (npos (pre ++ front)) op);
      try assumption; try lia.
    + right. left. exact Hop.
    + intros fuel' st' cur' seen' cv' g' Hf' Hst' _.
      destruct fuel' as [|fuel']; [lia|].
      rewrite (parse_multiple_loop_at _ _ _ _ op) by assumption. cbv zeta.
      unfold is_output_token in Hop. apply Ascii.eqb_eq in Hop. rewrite Hop.
      change ((">" =? "|")%char) with false. change ((">" =? "<")%char) with false.
      change ((">" =? ">")%char) with true. cbv iota.
      destruct seen'; simpl negb; cbv iota; [|eauto].
      destruct (Z.eqb_spec (npos (pre ++ front) + 1) (npos p_vec)); [eauto|].
      destruct (pipe_before_last p_vec (npos (pre ++ front))); [eauto|].
      rewrite (tok_char_get _ _ _ Hget1). cbn [res_bind]. rewrite Hnext. eauto.
  - (* a background operator before the end *)
    assert (Hp : p_vec = (pre ++ front) ++ amp :: next :: back)
      by (subst p_vec; now rewrite <- app_assoc).
    assert (Hn : npos p_vec = npos pre + npos front + 2 + npos back).
    { subst p_vec. rewrite !npos_app, !npos_cons. lia. }
    assert (Hj : npos (pre ++ front) = npos pre + npos front) by apply npos_app.
    assert (Hget0 : vec_get p_vec (npos (pre ++ front)) = Ok amp)
      by (rewrite Hp; apply vec_get_middle).
    apply (parse_multiple_loop_reaches _ _ _ _ _ _ _ _ (npos (pre ++ front)) amp);
      try assumption; try lia.
    + right. right. left. exact Hamp.
    + intros fuel' st' cur' seen' cv' g' Hf' Hst' _.
      destruct fuel' as [|fuel']; [lia|].
      rewrite (parse_multiple_loop_at _ _ _ _ amp) by assumption. cbv zeta.
      unfold is_background_token in Hamp. apply Ascii.eqb_eq in Hamp. rewrite Hamp.
      change (("&" =? "|")%char) with false. change (("&" =? "<")%char) with false.
      change (("&" =? ">")%char) with false. change (("&" =? "&")%char) with true.
      cbv iota.
      destruct (Z.eqb_spec (npos (pre ++ front) + 1) (npos p_vec)); [lia|].
      simpl negb. cbv iota. eauto.
Qed.

(** X6.  After a first stage of words and its ['|'], [parse_multiple_commands]
    reports [PARSE_ERROR] when what follows (on a line of at most
    [READ_BUFFER_SIZE] tokens) begins with ['|'], ['<'] or ['>']; holds a
    ['<']; holds a ['|'] followed by a token that is no word; ends in a ['|']
    that does not follow a ['>']; holds a ['>'] and, after it, a ['|'] that
    is not the last token; ends in ['>']; holds a ['>'] followed by a token
    beginning with ['<'], ['>'] or ['&']; or holds a ['&'] that is not the
    last token. *)
Theorem parse_multiple_commands_rejects (first rest : list string) (g : globals) :
  let p_vec := first ++ "|" :: rest in
  npos p_vec <= READ_BUFFER_SIZE ->
  forallb is_word_token first = true ->
  pipeline_syntax_error rest ->
  exists cv' g', parse_multiple_commands p_vec [] g = Ok (PARSE_ERROR, cv', g').
Proof.
  cbv zeta. intros Hbuf Hfirst Herr.
  set (p_vec := first ++ "|" :: rest) in *.
  pose proof (npos_nonneg first) as Hf. pose proof (npos_nonneg rest) as Hr.
  assert (Hn : npos p_vec = npos first + 1 + npos rest).
  { unfold p_vec. rewrite npos_app, !npos_cons. lia. }
  unfold parse_multiple_commands.
  destruct (vec_get_in_range p_vec 0) as (tok & Hget & _); [lia|].
  rewrite (tok_char_get _ _ _ Hget). cbn [res_bind].
  assert (Hseek : seek_first_command_end (length p_vec) p_vec 0 (first_char tok)
                  = Ok (Some (npos first, first_char "|"))).
  { apply seek_first_command_end_first_stage; try assumption; try reflexivity.
    unfold p_vec, npos. rewrite length_app. lia. }
  rewrite Hseek. cbn [res_bind]. cbv iota beta.
  assert (Hslice : slice_argv_from_vec p_vec 0 (npos first - 1)
                   = Ok (map Some first ++ [None])).
  { exact (slice_argv_segment [] first ("|" :: rest) Hbuf). }
  rewrite Hslice. cbn [res_bind].
  change ((first_char "|" =? "<")%char) with false. simpl andb. cbv iota.
  cbn [res_bind].
  assert (Hpre : npos (first ++ ["|"]) = npos first + 1).
  { rewrite npos_app, !npos_cons. change (npos (@nil string)) with 0. lia. }
  rewrite <- Hpre.
  apply (parse_multiple_loop_rejects p_vec (first ++ ["|"]) rest); try assumption.
  - unfold p_vec. now rewrite <- app_assoc.
  - lia.
  - unfold npos in *. lia.
Qed.

Lemma parse_multiple_commands_rejects_witness :
  exists cv' g',
    parse_multiple_commands ["sort"; "|"; "uniq"; "<"; "in"] [] globals_init
    = Ok (PARSE_ERROR, cv', g').
Proof.
  apply (parse_multiple_commands_rejects ["sort"] ["uniq"; "<"; "in"] globals_init).
  - vm_compute. discriminate.
  - reflexivity.
  - apply (input_redirect_later ["uniq"] "<" ["in"]). reflexivity.
Defined.

(* ================================================================== *)
(** * Quoted strings *)

Lemma string_length_append (s t : string) :
  String.length (String.append s t) = (String.length s + String.length t)%nat.
Proof. induction s as [|c s IH]; simpl; [reflexivity | now rewrite IH]. Qed.

Lemma substring_append_prefix (s t : string) :
  substring 0 (String.length s) (String.append s t) = s.
Proof.
  induction s as [|c s IH]; simpl.
  - destruct t; reflexivity.
  - now rewrite IH.
Qed.

Lemma quoted_length (text : string) :
  String.length (quoted text) = (String.length text + 2)%nat.
Proof. unfold quoted. simpl. rewrite string_length_append. simpl. lia. Qed.

Lemma quoted_matches (text : string) : lexeme_matches (RULE_QUOTED, quoted text) = true.
Proof.
  unfold lexeme_matches. rewrite quoted_length.
  destruct (Z.leb_spec 2 (Z.of_nat (String.length text + 2))); [|lia]. simpl andb.
  replace (String.length text + 2 - 1)%nat with (S (String.length text)) by lia.
  unfold quoted. cbn [String.get].
  assert (Hget : forall s c, String.get (String.length s) (String.append s (String c EmptyString))
                          = Some c).
  { induction s as [|d s IH]; intros c; simpl; [reflexivity | apply IH]. }
  rewrite Hget. rewrite Ascii.eqb_refl. reflexivity.
Qed.

Lemma strlen_append (s t : string) :
  no_nul s = true -> strlen (String.append s t) = (String.length s + strlen t)%nat.
Proof.
  induction s as [|c s IH]; simpl; [reflexivity|].
  intros Hs. apply andb_true_iff in Hs. destruct Hs as [Hc Hs].
  apply negb_true_iff in Hc. rewrite Hc. now rewrite IH.
Qed.

(** In a quoted string without a NUL, [strlen] counts the text and both
    quotes. *)
Lemma strlen_quoted (text : string) :
  no_nul text = true -> strlen (quoted text) = (String.length text + 2)%nat.
Proof.
  intros Hnul. unfold quoted.
  change (strlen (String double_quote ?s)) with (S (strlen s)).
  rewrite strlen_append by assumption. simpl. lia.
Qed.

(** The action of the quoted-string rule on a text without a NUL: the text
    between the quotes is the token, and there is no token when nothing
    stands between them. *)
Lemma yylex_action_quoted (text : string) (st : list string * globals) :
  no_nul text = true ->
  Z.of_nat (String.length text) <= READ_BUFFER_SIZE ->
  yylex_action (RULE_QUOTED, quoted text) st
  = if String.eqb text "" then Ok st else Ok (vec_push (fst st) text, snd st).
Proof.
  unfold READ_BUFFER_SIZE. intros Hnul Hlen. destruct st as [target g].
  unfold yylex_action. rewrite strlen_quoted by assumption.
  replace (Z.of_nat (String.length text + 2) - 2) with (Z.of_nat (String.length text))
    by lia.
  unfold size_wrap. rewrite Z.mod_small by lia.
  destruct (Z.leb_spec (Z.of_nat (String.length text)) (Z.of_nat (String.length text + 2)));
    [|lia].
  destruct text as [|c text].
  - reflexivity.
  - change (String.length (String c text)) with (S (String.length text)).
    destruct (Z.ltb_spec 0 (Z.of_nat (S (String.length text)))); [|lia].
    rewrite Nat2Z.id. unfold quoted.
    change (substring 1 (S (String.length text))
              (String double_quote
                 (String.append (String c text) (String double_quote EmptyString))))
      with (substring 0 (String.length (String c text))
              (String.append (String c text) (String double_quote EmptyString))).
    rewrite substring_append_prefix. reflexivity.
Qed.

Lemma lexer_parse_buffer_app (l1 l2 : list lexeme) :
  forall st,
    lexer_parse_buffer (l1 ++ l2) st
    = let* st1 := lexer_parse_buffer l1 st in lexer_parse_buffer l2 st1.
Proof.
  induction l1 as [|lx l1 IH]; intros st; simpl; [reflexivity|].
  destruct (yylex_action lx st); simpl; auto.
Qed.

(** A line's parse depends on a match through its rule action only. *)
Lemma parse_turn_same_action (pre post : list lexeme) (lx1 lx2 : lexeme) (g : globals) :
  (forall st, yylex_action lx1 st = yylex_action lx2 st) ->
  parse_turn (pre ++ lx1 :: post) g = parse_turn (pre ++ lx2 :: post) g.
Proof.
  intros Hact. unfold parse_turn, scan_line.
  rewrite !lexer_parse_buffer_app. cbn [lexer_parse_buffer].
  destruct (lexer_parse_buffer pre _) as [st| |]; cbn [res_bind]; try reflexivity.
  now rewrite Hact.
Qed.

Lemma parse_turn_no_action (pre post : list lexeme) (lx : lexeme) (g : globals) :
  (forall st, yylex_action lx st = Ok st) ->
  parse_turn (pre ++ lx :: post) g = parse_turn (pre ++ post) g.
Proof.
  intros Hact. unfold parse_turn, scan_line.
  rewrite !lexer_parse_buffer_app. cbn [lexer_parse_buffer].
  destruct (lexer_parse_buffer pre _) as [st| |]; cbn [res_bind]; try reflexivity.
  now rewrite Hact.
Qed.

(** X7.  A quoted string whose text is not empty and holds no NUL (and fits
    the read buffer) leaves the text between its quotes as one token, and
    from there on the line is handled as if the word rule had matched that
    text, and as if the operator rule had: the quotes do not keep a ['<'],
    ['>'], ['&'] or ['|'] in the text from being read as an operator by the
    parsers, while [cd] and [exit] between quotes are not counted as
    builtins. *)
Theorem quoted_token_is_plain (text : string) (pre post : list lexeme) (g : globals) :
  text <> "" -> no_nul text = true ->
  Z.of_nat (String.length text) <= READ_BUFFER_SIZE ->
  parse_turn (pre ++ (RULE_QUOTED, quoted text) :: post) g
  = parse_turn (pre ++ (RULE_WORD, text) :: post) g
  /\ parse_turn (pre ++ (RULE_QUOTED, quoted text) :: post) g
     = parse_turn (pre ++ (RULE_OPERATOR, text) :: post) g.
Proof.
  intros Hne Hnul Hlen.
  assert (Hq : forall st, yylex_action (RULE_QUOTED, quoted text) st
                          = Ok (vec_push (fst st) text, snd st)).
  { intros st. rewrite yylex_action_quoted by assumption.
    destruct (String.eqb_spec text ""); [contradiction | reflexivity]. }
  split; apply parse_turn_same_action; intros [target g0]; rewrite Hq; reflexivity.
Qed.

Lemma quoted_token_is_plain_witness :
  parse_turn [(RULE_WORD, "cat"); (RULE_QUOTED, quoted ">"); (RULE_WORD, "out")] globals_init
  = parse_turn [(RULE_WORD, "cat"); (RULE_WORD, ">"); (RULE_WORD, "out")] globals_init
  /\ parse_turn [(RULE_WORD, "cat"); (RULE_QUOTED, quoted ">"); (RULE_WORD, "out")]
                globals_init
     = parse_turn [(RULE_WORD, "cat"); (RULE_OPERATOR, ">"); (RULE_WORD, "out")]
                  globals_init.
Proof.
  apply (quoted_token_is_plain ">" [(RULE_WORD, "cat")] [(RULE_WORD, "out")] globals_init).
  - discriminate.
  - reflexivity.
  - vm_compute. discriminate.
Defined.

(** X8.  The scanner matches a pair of double quotes with nothing between
    them as a quoted string, and its action leaves no token: the line is
    handled as if the pair were not there. *)
Theorem empty_quoted_string_is_dropped (pre post : list lexeme) (g : globals) :
  lexeme_matches (RULE_QUOTED, quoted "") = true
  /\ parse_turn (pre ++ (RULE_QUOTED, quoted "") :: post) g = parse_turn (pre ++ post) g.
Proof.
  split; [reflexivity|].
  apply parse_turn_no_action. intros st.
  rewrite yylex_action_quoted by (reflexivity || (vm_compute; discriminate)).
  reflexivity.
Qed.

(** The scan of a line stops at a quoted string whose copy overruns. *)
Lemma lexer_parse_buffer_overrun (buffer : list lexeme) :
  forall target g,
    length (global_builtin_idxs g) = 2%nat ->
    forallb quoted_fits buffer = false ->
    lexer_parse_buffer buffer (target, g) = Oob.
Proof.
  induction buffer as [|lx rest IH]; intros target g Hlen Hfits; [discriminate|].
  cbn [forallb lexer_parse_buffer] in *.
  destruct (quoted_fits lx) eqn:Hlx.
  - destruct (yylex_action_total lx target g Hlx Hlen) as (t' & g' & -> & Hlen').
    cbn [res_bind]. now apply IH.
  - destruct lx as [rule yytext]. unfold quoted_fits in Hlx. cbn [fst snd] in Hlx.
    destruct rule; try discriminate Hlx.
    apply Z.leb_gt in Hlx. now rewrite quoted_copy_overruns.
Qed.

(** A turn on a line whose scan overruns: the shell crashes in [shell_read],
    after the reset of the scanner's globals. *)
Lemma shell_turn_overrun (os : os_env) (buffer : list lexeme) (s : proc_state) :
  forallb quoted_fits buffer = false ->
  shell_turn os (Some buffer) s
  = (Halted Crashed,
     with_globals (set_builtin_idxs [-1; -1]
                     (set_num_builtins 0 (set_num_commands 1 (st_globals s)))) s).
Proof.
  intros Hfits. unfold shell_turn, shell_read, bind, modify_globals, get_globals.
  cbn [st_globals st_cwd st_trace st_forks st_children].
  rewrite lexer_parse_buffer_overrun by (reflexivity || assumption).
  reflexivity.
Qed.

(** X28.  A quoted string with a NUL right after its opening quote -- the
    pair of quotes with a NUL between them is one the scanner matches --
    makes the rule action compute [len = strlen(yytext) - 2] from a length of
    1: [len] wraps around to [2 ^ 64 - 1], passes the test [len > 0], and
    [memcpy] is asked to copy that many bytes.  The scan overruns there,
    whatever else the line holds, and the turn of the shell on the line ends
    in a crash: no call is made and no process is created. *)
Theorem quoted_nul_overruns (os : os_env) (pre post : list lexeme) (rest : string)
    (g : globals) (s : proc_state) :
  let buffer := pre ++ (RULE_QUOTED, String double_quote (String Ascii.zero rest)) :: post in
  lexeme_matches
    (RULE_QUOTED, String double_quote (String Ascii.zero (String double_quote EmptyString)))
  = true
  /\ parse_turn buffer g = Oob
  /\ fst (shell_turn os (Some buffer) s) = Halted Crashed
  /\ st_trace (snd (shell_turn os (Some buffer) s)) = st_trace s
  /\ st_children (snd (shell_turn os (Some buffer) s)) = st_children s.
Proof.
  cbv zeta. split; [reflexivity|].
  assert (Hfits : forallb quoted_fits
                    (pre ++ (RULE_QUOTED, String double_quote (String Ascii.zero rest))
                         :: post) = false).
  { rewrite forallb_app. cbn [forallb]. apply andb_false_iff. right. reflexivity. }
  split.
  - unfold parse_turn, scan_line.
    rewrite lexer_parse_buffer_overrun by (reflexivity || assumption). reflexivity.
  - rewrite shell_turn_overrun by assumption. auto.
Qed.

(** X29.  A NUL further inside a quoted string cuts the token short: when
    the text up to the byte before the NUL holds no NUL itself, the token is
    that text without its last byte -- the action takes the byte before the
    NUL for the closing quote -- and the line is handled as if the quoted
    string had ended there. *)
Theorem quoted_nul_cuts_token (text : string) (c : ascii) (rest : string)
    (pre post : list lexeme) (g : globals) :
  no_nul text = true -> c <> Ascii.zero ->
  Z.of_nat (String.length text) <= READ_BUFFER_SIZE ->
  parse_turn (pre ++ (RULE_QUOTED,
                      String double_quote
                        (String.append text (String c (String Ascii.zero rest)))) :: post) g
  = parse_turn (pre ++ (RULE_QUOTED, quoted text) :: post) g.
Proof.
  intros Hnul Hc Hlen. apply parse_turn_same_action. intros [target g0].
  rewrite yylex_action_quoted by assumption.
  unfold READ_BUFFER_SIZE in Hlen. cbn [yylex_action fst snd].
  assert (Hstr : strlen (String double_quote
                           (String.append text (String c (String Ascii.zero rest))))
                 = (String.length text + 2)%nat).
  { change (strlen (String double_quote ?x)) with (S (strlen x)).
    rewrite strlen_append by assumption. cbn [strlen].
    apply Ascii.eqb_neq in Hc. rewrite Hc. rewrite Ascii.eqb_refl. lia. }
  rewrite Hstr.
  replace (Z.of_nat (String.length text + 2) - 2) with (Z.of_nat (String.length text))
    by lia.
  unfold size_wrap. rewrite Z.mod_small by lia.
  destruct (Z.leb_spec (Z.of_nat (String.length text)) (Z.of_nat (String.length text + 2)));
    [|lia].
  destruct text as [|d text].
  - reflexivity.
  - change (String.length (String d text)) with (S (String.length text)).
    destruct (Z.ltb_spec 0 (Z.of_nat (S (String.length text)))); [|lia].
    rewrite Nat2Z.id.
    change (substring 1 (S (String.length text))
              (String double_quote
                 (String.append (String d text) (String c (String Ascii.zero rest)))))
      with (substring 0 (String.length (String d text))
              (String.append (String d text) (String c (String Ascii.zero rest)))).
    rewrite substring_append_prefix. reflexivity.
Qed.

Lemma quoted_nul_cuts_token_witness :
  parse_turn [(RULE_WORD, "echo");
              (RULE_QUOTED,
               String double_quote
                 (String.append "ab"
                    (String "c" (String Ascii.zero
                                   (String "d" (String double_quote EmptyString))))))]
             globals_init
  = parse_turn [(RULE_WORD, "echo"); (RULE_QUOTED, quoted "ab")] globals_init.
Proof.
  apply (quoted_nul_cuts_token "ab" "c" (String "d" (String double_quote EmptyString))
           [(RULE_WORD, "echo")] [] globals_init).
  - reflexivity.
  - discriminate.
  - vm_compute. discriminate.
Defined.

(* ================================================================== *)
(** * Builtins on a line *)

Lemma yylex_action_plain (lx : lexeme) (target : list string) (g : globals) :
  is_plain_lexeme lx = true -> quoted_fits lx = true ->
  yylex_action lx (target, g) = Ok (target ++ lexeme_tokens lx, g).
Proof.
  destruct lx as [rule yytext]. unfold is_plain_lexeme, lexeme_tokens, quoted_fits.
  destruct rule; simpl; try discriminate; intros _ Hfits; try reflexivity.
  apply Z.leb_le in Hfits. rewrite (quoted_copy_fits yytext Hfits).
  destruct (0 <? size_wrap (Z.of_nat (strlen yytext) - 2));
    [reflexivity | now rewrite app_nil_r].
Qed.

Lemma lexer_parse_buffer_plain (buffer : list lexeme) :
  forall target g,
    forallb is_plain_lexeme buffer = true -> forallb quoted_fits buffer = true ->
    lexer_parse_buffer buffer (target, g)
    = Ok (target ++ flat_map lexeme_tokens buffer, g).
Proof.
  induction buffer as [|lx rest IH]; intros target g Hplain Hfits; simpl.
  - now rewrite app_nil_r.
  - simpl in Hplain, Hfits.
    apply andb_true_iff in Hplain. destruct Hplain as [Hlx Hrest].
    apply andb_true_iff in Hfits. destruct Hfits as [Hflx Hfrest].
    rewrite yylex_action_plain by assumption. cbn [res_bind].
    rewrite IH by assumption. now rewrite <- app_assoc.
Qed.

Lemma quoted_fits_around (pre post : list lexeme) (lx : lexeme) :
  forallb quoted_fits (pre ++ lx :: post) = true ->
  forallb quoted_fits pre = true /\ forallb quoted_fits post = true.
Proof.
  rewrite forallb_app. cbn [forallb]. intros H.
  apply andb_true_iff in H. destruct H as [Hpre H].
  apply andb_true_iff in H. destruct H as [_ Hpost]. auto.
Qed.

(** A line with one builtin word and no pipe: the builtin is tagged, wherever
    it stands in the line. *)
Lemma scan_line_one_builtin (pre post : list lexeme) (rule : lex_rule) (text : string)
    (g : globals) :
  forallb is_plain_lexeme pre = true -> forallb is_plain_lexeme post = true ->
  forallb quoted_fits pre = true -> forallb quoted_fits post = true ->
  rule = RULE_CD \/ rule = RULE_EXIT ->
  scan_line (pre ++ (rule, text) :: post) g
  = Ok (flat_map lexeme_tokens pre ++ text :: flat_map lexeme_tokens post,
        mk_globals (global_num_pipes g) 1 (global_print_shell_context g)
                   (global_bkg_proc g)
                   match rule with RULE_EXIT => [0; -1] | _ => [-1; 0] end
                   1).
Proof.
  intros Hpre Hpost Hfpre Hfpost Hrule. unfold scan_line.
  rewrite lexer_parse_buffer_app.
  rewrite lexer_parse_buffer_plain by assumption. cbn [res_bind app].
  cbn [lexer_parse_buffer].
  destruct Hrule as [-> | ->]; cbn [yylex_action].
  - match goal with
    | |- context [vec_set ?l ?i ?v] =>
        replace (vec_set l i v) with (@Ok (list Z) [-1; 0]) by reflexivity
    end.
    cbn [res_bind].
    rewrite lexer_parse_buffer_plain by assumption.
    unfold vec_push. rewrite <- app_assoc. reflexivity.
  - match goal with
    | |- context [vec_set ?l ?i ?v] =>
        replace (vec_set l i v) with (@Ok (list Z) [0; -1]) by reflexivity
    end.
    cbn [res_bind].
    rewrite lexer_parse_buffer_plain by assumption.
    unfold vec_push. rewrite <- app_assoc. reflexivity.
Qed.

Lemma shell_turn_scan (os : os_env) (buffer : list lexeme) (s : proc_state)
    (p_vec : list string) (g : globals) :
  scan_line buffer (st_globals s) = Ok (p_vec, g) ->
  shell_turn os (Some buffer) s = shell_eval os p_vec (with_globals g s).
Proof.
  intros Hscan. unfold shell_turn, bind.
  now rewrite (shell_read_scan_line _ _ _ _ Hscan).
Qed.

(** X9.  The rule actions over the matches of a line, none of them a quoted
    string with a NUL right after its opening quote, on a token vector and on
    globals in which [global_builtin_idxs] has its two slots: the texts of
    the matches are pushed in the order of the line -- of a quoted string the
    bytes between the quotes, or when it holds a NUL the bytes between the
    opening quote and the byte before that NUL, and nothing when there is no
    such byte; [global_num_commands] grows by the number of ['|'] matches and
    [global_num_builtins] by the number of [cd] and [exit] matches; the pipe
    count, the background flag and the prompt switch are left alone. *)
Theorem lexer_parse_buffer_run (buffer : list lexeme) (target : list string)
    (g : globals) :
  forallb quoted_fits buffer = true ->
  length (global_builtin_idxs g) = 2%nat ->
  exists g',
    lexer_parse_buffer buffer (target, g)
    = Ok (target ++ flat_map lexeme_tokens buffer, g')
    /\ global_num_commands g' = global_num_commands g + count is_pipe_lexeme buffer
    /\ global_num_builtins g' = global_num_builtins g + count is_builtin_lexeme buffer
    /\ same_rest g' g.
Proof.
  intros Hfits Hlen.
  destruct (lexer_parse_buffer_total buffer target g Hfits Hlen) as (target' & g' & Hscan).
  exists g'. rewrite Hscan.
  apply lexer_parse_buffer_tokens in Hscan. destruct Hscan as (-> & Hc & Hb & Hr).
  auto.
Qed.

Lemma lexer_parse_buffer_run_witness :
  exists g',
    lexer_parse_buffer [(RULE_WORD, "echo"); (RULE_QUOTED, quoted "a b"); (RULE_PIPE, "|");
                        (RULE_QUOTED, quoted ""); (RULE_CD, "cd")] ([], globals_init)
    = Ok (["echo"; "a b"; "|"; "cd"], g')
    /\ global_num_commands g' = 2
    /\ global_num_builtins g' = 1
    /\ same_rest g' globals_init.
Proof.
  apply (lexer_parse_buffer_run
           [(RULE_WORD, "echo"); (RULE_QUOTED, quoted "a b"); (RULE_PIPE, "|");
            (RULE_QUOTED, quoted ""); (RULE_CD, "cd")] [] globals_init);
    reflexivity.
Defined.

(** X10.  The word [exit] ends the shell with [EXIT_SUCCESS] wherever it
    stands on a line that has no pipe and no other builtin word: before it and
    after it there may be words, operators and quoted strings (none with a
    NUL right after its opening quote).  No process is created, [fork] and
    [chdir] are not called and the working directory is left as it is, also
    for the rest of the line.  (Before it exits the shell frees the token
    vector and closes the scanner's stream; neither is part of the trace.) *)
Theorem exit_anywhere (os : os_env) (pre post : list lexeme) (s : proc_state) :
  let buffer := pre ++ (RULE_EXIT, "exit") :: post in
  forallb is_plain_lexeme pre = true -> forallb is_plain_lexeme post = true ->
  forallb quoted_fits buffer = true ->
  let run := shell_turn os (Some buffer) s in
  fst run = Halted (Exited EXIT_SUCCESS)
  /\ st_children (snd run) = st_children s
  /\ st_cwd (snd run) = st_cwd s
  /\ filter (fun e => is_fork e || is_chdir e) (new_calls s (snd run)) = [].
Proof.
  cbv zeta. intros Hpre Hpost Hfits.
  destruct (quoted_fits_around pre post _ Hfits) as [Hfpre Hfpost].
  rewrite (shell_turn_scan os _ s _ _
             (scan_line_one_builtin pre post RULE_EXIT "exit" (st_globals s)
                                    Hpre Hpost Hfpre Hfpost (or_intror eq_refl))).
  set (p_vec := flat_map lexeme_tokens pre ++ "exit" :: flat_map lexeme_tokens post).
  assert (Hne : (npos p_vec =? 0) = false).
  { apply Z.eqb_neq. unfold p_vec. rewrite npos_app, npos_cons.
    pose proof (npos_nonneg (flat_map lexeme_tokens pre)).
    pose proof (npos_nonneg (flat_map lexeme_tokens post)). lia. }
  unfold shell_eval. rewrite Hne.
  unfold new_calls. cbn. rewrite skipn_all. auto.
Qed.

Lemma exit_anywhere_witness :
  let run := shell_turn os_example
               (Some [(RULE_WORD, "ls"); (RULE_OPERATOR, ">"); (RULE_EXIT, "exit");
                      (RULE_WORD, "now")]) state_init in
  fst run = Halted (Exited EXIT_SUCCESS)
  /\ st_children (snd run) = st_children state_init
  /\ st_cwd (snd run) = st_cwd state_init
  /\ filter (fun e => is_fork e || is_chdir e) (new_calls state_init (snd run)) = [].
Proof.
  apply (exit_anywhere os_example [(RULE_WORD, "ls"); (RULE_OPERATOR, ">")]
           [(RULE_WORD, "now")] state_init); reflexivity.
Defined.

(** ** Builtins that share a line *)

Lemma builtin_leaves_token (buffer : list lexeme) :
  0 < count is_builtin_lexeme buffer -> flat_map lexeme_tokens buffer <> [].
Proof.
  induction buffer as [|lx rest IH]; intros Hc.
  - unfold count in Hc. simpl in Hc. lia.
  - rewrite count_cons in Hc. simpl flat_map.
    destruct (is_builtin_lexeme lx) eqn:Hb.
    + destruct lx as [rule yytext]. destruct rule; try discriminate Hb; discriminate.
    + intros Happ. apply app_eq_nil in Happ. destruct Happ as [_ Hrest].
      revert Hrest. apply IH. lia.
Qed.

(** X11.  A line with two or more builtin words ([cd], [exit]), or with a
    builtin word and a pipe, is parsed as an invalid line, whatever else it
    holds and wherever the builtin words stand -- provided the scan of the
    line comes to its end: no quoted string of the line has a NUL right
    after its opening quote (the scanner overruns on such a string). *)
Theorem builtin_misuse_is_invalid (buffer : list lexeme) (g : globals) :
  forallb quoted_fits buffer = true ->
  2 <= count is_builtin_lexeme buffer
  \/ (1 <= count is_builtin_lexeme buffer /\ 1 <= count is_pipe_lexeme buffer) ->
  exists g', parse_turn buffer g = Ok (LineInvalid, g').
Proof.
  intros Hfits Hmis. unfold parse_turn.
  destruct (scan_line_total buffer g Hfits) as (p_vec & g1 & Hscan). rewrite Hscan.
  cbn [res_bind fst snd].
  apply scan_line_tokens in Hscan. destruct Hscan as (Hvec & Hc & Hb & _).
  assert (Hne : (npos p_vec =? 0) = false).
  { apply Z.eqb_neq. intros Hz.
    apply (builtin_leaves_token buffer); [lia|].
    rewrite <- Hvec. destruct p_vec; [reflexivity|].
    unfold npos in Hz. simpl in Hz. lia. }
  assert (Herr : parse_builtin_cmds p_vec g1 = PARSE_ERROR).
  { unfold parse_builtin_cmds.
    destruct (Z.ltb_spec 1 (global_num_builtins g1)); [reflexivity|].
    destruct (Z.eqb_spec (global_num_builtins g1) 1); [|lia].
    destruct (Z.ltb_spec 1 (global_num_commands g1)); [reflexivity | lia]. }
  unfold line_parse. rewrite Hne, Herr. simpl. eauto.
Qed.

Lemma builtin_misuse_is_invalid_witness :
  exists g',
    parse_turn [(RULE_WORD, "ls"); (RULE_PIPE, "|"); (RULE_EXIT, "exit")] globals_init
    = Ok (LineInvalid, g').
Proof.
  apply builtin_misuse_is_invalid; [reflexivity|].
  right. split; vm_compute; discriminate.
Defined.

(** The condition on the quoted strings cannot be dropped: the line
    [cd exit] with a pair of quotes around a NUL in front has two builtin
    words, and its scan overruns before any of them is counted. *)
Lemma builtin_misuse_overrun_counterexample :
  let buffer := [(RULE_QUOTED,
                  String double_quote (String Ascii.zero (String double_quote EmptyString)));
                 (RULE_CD, "cd"); (RULE_EXIT, "exit")] in
  forallb lexeme_matches buffer = true
  /\ 2 <= count is_builtin_lexeme buffer
  /\ ~ (exists g', parse_turn buffer globals_init = Ok (LineInvalid, g')).
Proof.
  cbv zeta. split; [reflexivity|]. split; [vm_compute; discriminate|].
  intros (g' & Hparse).
  unfold parse_turn, scan_line in Hparse.
  rewrite lexer_parse_buffer_overrun in Hparse by reflexivity.
  discriminate Hparse.
Qed.

(** ** Lines that start no process *)

(** The calls of a run that only appends to the trace. *)
Lemma new_calls_app (s : proc_state) (g : globals) (cwd : string) (calls : list event)
    (forks : nat) (kids : list child_proc) :
  new_calls s (mk_state g cwd (st_trace s ++ calls) forks kids) = calls.
Proof. unfold new_calls. cbn [st_trace]. apply skipn_length_app. Qed.

Lemma shell_eval_dispatch (os : os_env) (p_vec : list string) (s : proc_state)
    (parsed : parsed_line) (g' : globals) :
  line_parse p_vec (st_globals s) = Ok (parsed, g') ->
  shell_eval os p_vec s = shell_dispatch os p_vec parsed (with_globals g' s).
Proof.
  intros Hparse. rewrite shell_eval_line_parse. unfold bind at 1.
  rewrite Hparse. cbn [lift]. unfold ret at 1. cbv iota.
  unfold bind at 1. unfold modify_globals at 1. cbn [snd fst]. reflexivity.
Qed.

Lemma shell_turn_dispatch (os : os_env) (buffer : list lexeme) (s : proc_state)
    (parsed : parsed_line) (g' : globals) :
  parse_turn buffer (st_globals s) = Ok (parsed, g') ->
  exists p_vec,
    shell_turn os (Some buffer) s = shell_dispatch os p_vec parsed (with_globals g' s).
Proof.
  unfold parse_turn. intros Hparse.
  destruct (scan_line buffer (st_globals s)) as [[p_vec g1]| |] eqn:Hscan;
    cbn [res_bind fst snd] in Hparse; try discriminate.
  exists p_vec. rewrite (shell_turn_scan _ _ _ _ _ Hscan).
  rewrite (shell_eval_dispatch os p_vec (with_globals g1 s) parsed g'); [reflexivity|].
  exact Hparse.
Qed.

(** X12.  For a line that is invalid (a misused builtin, or a parse error of
    one of the parsers) the shell prints [ERROR: invalid input] and does
    nothing else: no call of [fork] or [chdir], no new child, the working
    directory as it was.  For an empty line it does nothing at all.  In both
    cases the turn returns to the loop of [main]. *)
Theorem line_without_command (os : os_env) (buffer : list lexeme) (s : proc_state)
    (parsed : parsed_line) (g' : globals) :
  parse_turn buffer (st_globals s) = Ok (parsed, g') ->
  parsed = LineInvalid \/ parsed = LineEmpty ->
  shell_turn os (Some buffer) s
  = (Returned tt,
     mk_state g' (st_cwd s)
              (st_trace s ++ match parsed with
                             | LineInvalid => [EvPuts "ERROR: invalid input"]
                             | _ => []
                             end)
              (st_forks s) (st_children s)).
Proof.
  intros Hparse Hkind.
  destruct (shell_turn_dispatch os buffer s parsed g' Hparse) as (p_vec & ->).
  destruct Hkind as [-> | ->]; cbn [shell_dispatch].
  - reflexivity.
  - unfold ret, with_globals. now rewrite app_nil_r.
Qed.

Lemma line_without_command_witness :
  exists g',
    shell_turn os_example (Some [(RULE_WORD, "ls"); (RULE_OPERATOR, ">")]) state_init
    = (Returned tt, mk_state g' "/" [EvPuts "ERROR: invalid input"] 0 []).
Proof.
  eexists.
  apply (line_without_command os_example [(RULE_WORD, "ls"); (RULE_OPERATOR, ">")]
           state_init LineInvalid).
  - reflexivity.
  - left. reflexivity.
Defined.

(* ================================================================== *)
(** * cd, background commands and the waits of a chain *)

(** X13.  The word [cd] is run wherever it stands on a line that has no pipe
    and no other builtin word.  The directory is chosen by the number of
    tokens of the line alone: on a line of one token it is the value of
    [HOME], or the home directory of the password entry when [HOME] is not
    set; on a line of two tokens it is the second token of the line, whether
    or not [cd] is the first.  When [chdir] to it succeeds the shell is in the
    new directory, [chdir] is the only call made, no process is created and
    the turn returns to the loop.  All this provided the scan of the line
    comes to its end: no quoted string of the line has a NUL right after its
    opening quote (the scanner overruns on such a string, before [cd] is
    looked at). *)
Theorem cd_changes_directory (os : os_env) (pre post : list lexeme) (s : proc_state)
    (target new_dir : string) :
  let buffer := pre ++ (RULE_CD, "cd") :: post in
  let p_vec := flat_map lexeme_tokens buffer in
  forallb is_plain_lexeme pre = true -> forallb is_plain_lexeme post = true ->
  forallb quoted_fits buffer = true ->
  cd_target os p_vec = Some target ->
  os_chdir os (st_cwd s) target = Some new_dir ->
  fst (shell_turn os (Some buffer) s) = Returned tt
  /\ st_cwd (snd (shell_turn os (Some buffer) s)) = new_dir
  /\ new_calls s (snd (shell_turn os (Some buffer) s)) = [EvChdir target 0]
  /\ st_children (snd (shell_turn os (Some buffer) s)) = st_children s.
Proof.
  cbv zeta. intros Hpre Hpost Hfits Htarget Hchdir.
  destruct (quoted_fits_around pre post _ Hfits) as [Hfpre Hfpost].
  rewrite (shell_turn_scan os _ s _ _
             (scan_line_one_builtin pre post RULE_CD "cd" (st_globals s)
                                    Hpre Hpost Hfpre Hfpost (or_introl eq_refl))).
  rewrite flat_map_app in Htarget. cbn [flat_map] in Htarget.
  change (lexeme_tokens (RULE_CD, "cd")) with ["cd"] in Htarget.
  simpl app in Htarget.
  set (p_vec := flat_map lexeme_tokens pre ++ "cd" :: flat_map lexeme_tokens post) in *.
  assert (Hne : (npos p_vec =? 0) = false).
  { apply Z.eqb_neq. unfold p_vec. rewrite npos_app, npos_cons.
    pose proof (npos_nonneg (flat_map lexeme_tokens pre)).
    pose proof (npos_nonneg (flat_map lexeme_tokens post)). lia. }
  set (g1 := mk_globals _ _ _ _ _ _).
  assert (Heval : shell_eval os p_vec (with_globals g1 s)
                  = eval_builtin_cmds os p_vec (with_globals g1 s)).
  { unfold shell_eval. rewrite Hne. reflexivity. }
  rewrite Heval.
  rewrite (eval_builtin_cmds_cd os p_vec (with_globals g1 s) 0);
    [|reflexivity | discriminate].
  unfold cd_target in Htarget.
  assert (Hrun : cd_to os target (with_globals g1 s)
                 = (Returned tt,
                    mk_state g1 new_dir (st_trace s ++ [EvChdir target 0]) (st_forks s)
                             (st_children s))).
  { rewrite cd_to_run. cbn [with_globals st_cwd]. rewrite Hchdir. reflexivity. }
  destruct (npos p_vec =? 1).
  - destruct (os_getenv_HOME os) as [dir|].
    + injection Htarget as ->. rewrite Hrun. cbn [fst snd st_cwd st_children].
      rewrite new_calls_app. auto.
    + rewrite Htarget. rewrite Hrun. cbn [fst snd st_cwd st_children].
      rewrite new_calls_app. auto.
  - destruct (npos p_vec =? 2); [|discriminate].
    assert (Hget : vec_get p_vec 1 = Ok target) by (apply vec_get_nth; [lia | exact Htarget]).
    rewrite Hget. rewrite Hrun. cbn [fst snd st_cwd st_children].
    rewrite new_calls_app. auto.
Qed.

Lemma cd_changes_directory_witness :
  let turn := shell_turn os_example (Some [(RULE_CD, "cd"); (RULE_WORD, "/tmp")])
                         state_init in
  fst turn = Returned tt
  /\ st_cwd (snd turn) = "/tmp"
  /\ new_calls state_init (snd turn) = [EvChdir "/tmp" 0]
  /\ st_children (snd turn) = st_children state_init.
Proof.
  apply (cd_changes_directory os_example [] [(RULE_WORD, "/tmp")] state_init "/tmp" "/tmp");
    reflexivity.
Defined.

(** The condition on the quoted strings cannot be dropped: on a line of a
    pair of quotes around a NUL followed by [cd] the scan overruns, and the
    shell crashes instead of changing to the directory the two tokens would
    name. *)
Lemma cd_overrun_counterexample :
  let buffer := [(RULE_QUOTED,
                  String double_quote (String Ascii.zero (String double_quote EmptyString)));
                 (RULE_CD, "cd")] in
  forallb lexeme_matches buffer = true
  /\ forallb is_plain_lexeme (firstn 1 buffer) = true
  /\ cd_target os_example (flat_map lexeme_tokens buffer) = Some "cd"
  /\ os_chdir os_example (st_cwd state_init) "cd" = Some "cd"
  /\ fst (shell_turn os_example (Some buffer) state_init) <> Returned tt.
Proof.
  cbv zeta. split; [reflexivity|]. split; [reflexivity|]. split; [reflexivity|].
  split; [reflexivity|].
  rewrite shell_turn_overrun by reflexivity. discriminate.
Qed.

(** X14.  [cd] as the only token of a line, when [HOME] is not set and
    [getpwuid] finds no password entry: the shell reads [pw_dir] through the
    NULL pointer.  It crashes there, having made no call; [chdir] is not
    reached. *)
Theorem cd_without_home_crashes (os : os_env) (pre post : list lexeme) (s : proc_state) :
  let buffer := pre ++ (RULE_CD, "cd") :: post in
  forallb is_plain_lexeme pre = true -> forallb is_plain_lexeme post = true ->
  npos (flat_map lexeme_tokens buffer) = 1 ->
  os_getenv_HOME os = None -> os_pw_dir os = None ->
  fst (shell_turn os (Some buffer) s) = Halted Crashed
  /\ new_calls s (snd (shell_turn os (Some buffer) s)) = []
  /\ st_cwd (snd (shell_turn os (Some buffer) s)) = st_cwd s.
Proof.
  cbv zeta. intros Hpre Hpost Hone Hhome Hpw.
  destruct (forallb quoted_fits (pre ++ (RULE_CD, "cd") :: post)) eqn:Hfits.
  2:{ (* the scan overruns before [cd] is run *)
      rewrite shell_turn_overrun by assumption.
      cbn [fst snd]. unfold new_calls, with_globals. cbn [st_trace st_cwd].
      rewrite skipn_all. auto. }
  destruct (quoted_fits_around pre post _ Hfits) as [Hfpre Hfpost].
  rewrite (shell_turn_scan os _ s _ _
             (scan_line_one_builtin pre post RULE_CD "cd" (st_globals s)
                                    Hpre Hpost Hfpre Hfpost (or_introl eq_refl))).
  rewrite flat_map_app in Hone. cbn [flat_map] in Hone.
  change (lexeme_tokens (RULE_CD, "cd")) with ["cd"] in Hone.
  simpl app in Hone.
  set (p_vec := flat_map lexeme_tokens pre ++ "cd" :: flat_map lexeme_tokens post) in *.
  set (g1 := mk_globals _ _ _ _ _ _).
  assert (Heval : shell_eval os p_vec (with_globals g1 s)
                  = eval_builtin_cmds os p_vec (with_globals g1 s)).
  { unfold shell_eval. rewrite Hone. reflexivity. }
  rewrite Heval.
  rewrite (eval_builtin_cmds_cd os p_vec (with_globals g1 s) 0);
    [|reflexivity | discriminate].
  rewrite Hone, Hhome, Hpw. change (1 =? 1) with true. cbv iota.
  cbn [fst snd with_globals st_cwd]. repeat split.
  unfold new_calls. cbn [st_trace]. apply skipn_all.
Qed.

Lemma cd_without_home_crashes_witness :
  let os := mk_os None None (fun _ path => Some path) (fun n => Some (Pos.of_nat (100 + n)))
                  (fun _ => true) (fun _ => true) in
  fst (shell_turn os (Some [(RULE_CD, "cd")]) state_init) = Halted Crashed
  /\ new_calls state_init (snd (shell_turn os (Some [(RULE_CD, "cd")]) state_init)) = []
  /\ st_cwd (snd (shell_turn os (Some [(RULE_CD, "cd")]) state_init)) = st_cwd state_init.
Proof.
  apply (cd_without_home_crashes
           (mk_os None None (fun _ path => Some path) (fun n => Some (Pos.of_nat (100 + n)))
                  (fun _ => true) (fun _ => true))
           [] [] state_init); reflexivity.
Defined.

(** ** A single command in the background *)

(** X15.  A single command whose line ends in ['&'] is started and not waited
    for: the shell calls [fork] (and reports the error when it fails) and
    makes no other call, in particular no [waitpid]; it takes the background
    flag back and returns to the loop. *)
Theorem background_command_is_not_waited_for (os : os_env) (buffer : list lexeme)
    (s : proc_state) (command : command_t) (g' : globals) :
  parse_turn buffer (st_globals s) = Ok (LineCommand command, g') ->
  global_bkg_proc g' = true ->
  let run := shell_turn os (Some buffer) s in
  fst run = Returned tt
  /\ new_calls s (snd run)
     = match os_fork os (st_forks s) with
       | Some p => [EvFork (Z.pos p)]
       | None => [EvFork (-1); EvPerror "ERROR: fork"]
       end
  /\ st_globals (snd run) = set_bkg_proc false g'.
Proof.
  intros Hparse Hbkg. cbv zeta.
  destruct (shell_turn_dispatch os buffer s _ g' Hparse) as (p_vec & ->).
  cbn [shell_dispatch]. unfold bind.
  destruct (os_fork os (st_forks s)) as [p|] eqn:Hfork.
  - rewrite (launch_process_forked os _ _ _ _ (with_globals g' s) p) by exact Hfork.
    unfold get_globals. cbn [st_globals with_globals]. rewrite Hbkg.
    change (negb true) with false. cbv iota.
    unfold modify_globals. cbv beta.
    cbn [fst snd st_globals st_cwd st_trace st_forks st_children with_globals].
    rewrite new_calls_app. auto.
  - rewrite (launch_process_fork_failed os _ _ _ _ (with_globals g' s)) by exact Hfork.
    unfold get_globals. cbn [st_globals with_globals]. rewrite Hbkg.
    change (negb true) with false. cbv iota.
    unfold modify_globals. cbv beta.
    cbn [fst snd st_globals st_cwd st_trace st_forks st_children with_globals].
    rewrite new_calls_app. auto.
Qed.

Lemma background_command_is_not_waited_for_witness :
  let buffer := [(RULE_WORD, "sleep"); (RULE_WORD, "9"); (RULE_OPERATOR, "&")] in
  let run := shell_turn os_example (Some buffer) state_init in
  exists g',
    parse_turn buffer globals_init = Ok (LineCommand (plain_command ["sleep"; "9"]), g')
    /\ fst run = Returned tt
    /\ new_calls state_init (snd run) = [EvFork 100]
    /\ st_globals (snd run) = set_bkg_proc false g'.
Proof.
  cbv zeta. eexists. split; [reflexivity|].
  apply (background_command_is_not_waited_for os_example
           [(RULE_WORD, "sleep"); (RULE_WORD, "9"); (RULE_OPERATOR, "&")] state_init
           (plain_command ["sleep"; "9"])); reflexivity.
Defined.

(** ** The waits of a chain *)

Lemma filter_waitpid_pipe_calls (n : nat) :
  forall k, filter is_waitpid (pipe_calls_from n k) = [].
Proof. induction n; intros k; simpl; auto. Qed.

Lemma filter_waitpid_stage_calls (os : os_env) (forks0 : nat) (l : list Z) :
  filter is_waitpid (flat_map (stage_calls os forks0) l) = [].
Proof.
  induction l as [|idx l IH]; simpl; [reflexivity|].
  rewrite filter_app, IH, app_nil_r. unfold stage_calls.
  destruct (stage_fork os forks0 idx); reflexivity.
Qed.

Lemma filter_waitpid_closes (fd : list descriptor) :
  filter is_waitpid (map EvClose fd) = [].
Proof. induction fd; simpl; auto. Qed.

Lemma filter_waitpid_waits (pids : list Z) :
  filter is_waitpid (map EvWaitpid pids) = map EvWaitpid pids.
Proof. induction pids; simpl; [reflexivity | now f_equal]. Qed.

(** X16.  After a chain of [N >= 2] commands in the foreground the shell calls
    [waitpid] once for every stage, in the order of the stages, with the
    process id [launch_process] returned for the stage -- which is -1 for a
    stage whose [fork] failed, so that the shell then waits for any child.
    After a chain in the background it calls no [waitpid] and takes the
    background flag back.  In both cases the chain returns to the loop with
    the flag down and [global_num_pipes] at [N]. *)
Theorem chain_waits_for_every_stage (os : os_env) (commands : list command_t)
    (s : proc_state) :
  2 <= npos commands ->
  let run := launch_process_chain os commands s in
  let pids := map (stage_pid os (st_forks s)) (stages 0 (Z.to_nat (npos commands))) in
  fst run = Returned tt
  /\ filter is_waitpid (new_calls s (snd run))
     = (if global_bkg_proc (st_globals s) then [] else map EvWaitpid pids)
  /\ npos pids = npos commands
  /\ (forall pid, In pid pids -> pid = -1 \/ 0 < pid)
  /\ global_bkg_proc (st_globals (snd run)) = false
  /\ global_num_pipes (st_globals (snd run)) = npos commands.
Proof.
  intros HN. cbv zeta. rewrite launch_process_chain_run by assumption.
  cbn [fst snd st_globals]. rewrite new_calls_app.
  split; [reflexivity|]. split; [|split; [|split; [|split]]].
  - rewrite !filter_app. unfold pipe_calls.
    rewrite filter_waitpid_pipe_calls, filter_waitpid_stage_calls, filter_waitpid_closes.
    simpl app. unfold chain_waits. cbn [global_bkg_proc set_num_pipes].
    destruct (global_bkg_proc (st_globals s)); [reflexivity|].
    apply filter_waitpid_waits.
  - unfold npos at 1. rewrite length_map, stages_length. lia.
  - intros pid Hin. apply in_map_iff in Hin. destruct Hin as (idx & <- & _).
    unfold stage_pid. destruct (stage_fork os (st_forks s) idx); [right | left]; lia.
  - unfold chain_globals. cbn [global_bkg_proc set_num_pipes].
    destruct (global_bkg_proc (st_globals s)) eqn:E; [reflexivity | exact E].
  - unfold chain_globals. cbn [global_bkg_proc set_num_pipes].
    destruct (global_bkg_proc (st_globals s)); reflexivity.
Qed.

Lemma chain_waits_for_every_stage_witness :
  let run := launch_process_chain os_example commands_example state_init in
  fst run = Returned tt
  /\ filter is_waitpid (new_calls state_init (snd run))
     = [EvWaitpid 100; EvWaitpid 101; EvWaitpid 102].
Proof.
  cbv zeta.
  destruct (chain_waits_for_every_stage os_example commands_example state_init)
    as (Hret & Hwaits & _).
  - vm_compute. discriminate.
  - split; [exact Hret | exact Hwaits].
Defined.

(* ================================================================== *)
(** * The line with nothing after its pipe *)

(** C2 (defect in the code).  The line [a |] reaches [launch_process_chain]
    as a chain of one command, because the first pipe of a line is not
    checked (see C3).  One pipe is opened and the command forked; then the
    statement after the loop over the middle stages runs with [idx = 1]: a
    second child is forked for [commands[1]], which the vector does not
    hold, and the result is stored in [pids[1]], which [pids] does not have.
    The parent stops there: of the two descriptors of the pipe it closes
    none, and the second child, which has no command to read, makes no call
    at all.  So it is for every vector of one command. *)
Theorem one_command_chain_crashes (os : os_env) (s : proc_state) :
  let buffer : list lexeme := [(RULE_WORD, "a"); (RULE_PIPE, "|")] in
  let run := shell_turn os (Some buffer) s in
  forallb lexeme_matches buffer = true
  /\ (exists g', parse_turn buffer (st_globals s)
                 = Ok (LinePipeline [plain_command ["a"]], g'))
  /\ fst run = Halted Crashed
  /\ new_calls s (snd run)
     = EvPipe (PipeRead 0) (PipeWrite 0)
       :: stage_calls os (st_forks s) 0 ++ stage_calls os (st_forks s) 1
  /\ (forall d, ~ In (EvClose d) (new_calls s (snd run)))
  /\ (forall c, In c (new_children s (snd run)) ->
                child_stage c = 0
                \/ (child_stage c = 1 /\ child_trace c = []
                    /\ child_end c = Halted Crashed))
  /\ forall command s0,
       let chain := launch_process_chain os [command] s0 in
       fst chain = Halted Crashed
       /\ forall d, ~ In (EvClose d) (new_calls s0 (snd chain)).
Proof.
  intros buffer run. subst run.
  assert (Hparse : exists g', parse_turn buffer (st_globals s)
                              = Ok (LinePipeline [plain_command ["a"]], g'))
    by (eexists; reflexivity).
  assert (Hclose : forall forks0 d,
             ~ In (EvClose d)
                  (pipe_calls 1 ++ stage_calls os forks0 0 ++ stage_calls os forks0 1)).
  { intros forks0 d Hin. apply in_app_or in Hin. destruct Hin as [Hin|Hin].
    - destruct Hin as [Hin|[]]. discriminate.
    - apply in_app_or in Hin.
      destruct Hin as [Hin|Hin]; exact (stage_calls_no_close _ _ _ _ Hin). }
  split; [reflexivity|]. split; [exact Hparse|].
  destruct Hparse as (g' & Hparse).
  destruct (shell_turn_dispatch os _ s _ g' Hparse) as (p_vec & ->).
  cbv zeta. cbn [shell_dispatch]. rewrite launch_process_chain_one.
  cbn [fst snd st_globals st_cwd st_trace st_forks st_children with_globals].
  split; [reflexivity|].
  rewrite new_calls_app. split; [reflexivity|]. split; [apply Hclose|]. split.
  - unfold new_children. cbn [st_children]. rewrite skipn_length_app.
    intros c Hin. apply in_app_or in Hin. unfold stage_kids in Hin.
    destruct Hin as [Hin|Hin].
    + destruct (stage_fork os (st_forks s) 0); [|destruct Hin].
      destruct Hin as [<-|[]]. left. reflexivity.
    + destruct (stage_fork os (st_forks s) 1); [|destruct Hin].
      destruct Hin as [<-|[]]. right. repeat split.
  - intros command s0. rewrite launch_process_chain_one. cbn [fst snd].
    split; [reflexivity|]. rewrite new_calls_app. apply Hclose.
Qed.

(* ================================================================== *)
(** * Where the code can stop, and the children it leaves *)

(** ** Where a computation can stop *)

Lemma stops_only_ret {A} (ok : halt -> Prop) (a : A) : stops_only ok (ret a).
Proof. intros s h H. discriminate. Qed.

Lemma stops_only_emit (ok : halt -> Prop) (e : event) : stops_only ok (emit e).
Proof. intros s h H. discriminate. Qed.

Lemma stops_only_get_globals (ok : halt -> Prop) : stops_only ok get_globals.
Proof. intros s h H. discriminate. Qed.

Lemma stops_only_modify_globals (ok : halt -> Prop) (f : globals -> globals) :
  stops_only ok (modify_globals f).
Proof. intros s h H. discriminate. Qed.

Lemma stops_only_halt_with {A} (ok : halt -> Prop) (h : halt) :
  ok h -> stops_only ok (@halt_with A h).
Proof. intros Hok s h' H. now injection H as <-. Qed.

Lemma stops_only_lift {A} (ok : halt -> Prop) (r : res A) :
  ok Crashed -> stops_only ok (lift r).
Proof.
  intros Hok. destruct r; [apply stops_only_ret | |]; now apply stops_only_halt_with.
Qed.

Lemma stops_only_bind {A B} (ok : halt -> Prop) (m : M A) (k : A -> M B) :
  stops_only ok m -> (forall a, stops_only ok (k a)) -> stops_only ok (bind m k).
Proof.
  intros Hm Hk s h. unfold bind.
  destruct (m s) as [[a|h'] s'] eqn:E.
  - apply Hk.
  - intros [= <-]. apply (Hm s). now rewrite E.
Qed.

Lemma stops_bind {A B} (ok : halt -> Prop) (m : M A) (k : A -> M B) :
  stops_only ok m -> (forall a, stops ok (k a)) -> stops ok (bind m k).
Proof.
  intros Hm Hk s. unfold bind.
  destruct (m s) as [[a|h'] s'] eqn:E.
  - apply Hk.
  - exists h'. split; [reflexivity|]. apply (Hm s). now rewrite E.
Qed.

Lemma stops_halt_with {A} (ok : halt -> Prop) (h : halt) :
  ok h -> stops ok (@halt_with A h).
Proof. intros Hok s. exists h. auto. Qed.

Lemma stops_only_for_count {T} (ok : halt -> Prop) (body : Z -> T -> M T) (n : nat) :
  (forall i acc, stops_only ok (body i acc)) ->
  forall idx acc, stops_only ok (for_count n idx body acc).
Proof.
  intros Hbody. induction n as [|n IH]; intros idx acc; simpl.
  - apply stops_only_ret.
  - apply stops_only_bind; [apply Hbody | intros a; apply IH].
Qed.

Lemma child_halt_crashed : child_halt Crashed.
Proof. right. now right. Qed.

Lemma stops_only_redirect_std (os : os_env) (path mode : string) (fileno : Z) :
  stops_only child_halt (redirect_std os path mode fileno).
Proof.
  unfold redirect_std. cbv zeta.
  apply stops_only_bind; [apply stops_only_emit | intros _].
  apply stops_only_bind; [apply stops_only_emit | intros _].
  destruct (os_fopen os path);
    [|apply stops_only_halt_with, child_halt_crashed].
  apply stops_only_bind; [apply stops_only_emit | intros _; apply stops_only_emit].
Qed.

Lemma stops_only_close_fd (ok : halt -> Prop) (fd : list descriptor) (i : Z) :
  ok Crashed -> stops_only ok (close_fd fd i).
Proof.
  intros Hok. unfold close_fd.
  apply stops_only_bind; [now apply stops_only_lift | intros d].
  apply stops_only_emit.
Qed.

(** A child never returns from [launch_process]: it ends in [execvp], in
    [exit(EXIT_FAILURE)] or in a crash. *)
Lemma launch_process_child_stops (os : os_env) (p_command : res command_t)
    (options : Z) (fd : list descriptor) (idx : Z) :
  stops child_halt (launch_process_child os p_command options fd idx).
Proof.
  pose proof child_halt_crashed as Hc.
  unfold launch_process_child.
  apply stops_bind; [now apply stops_only_lift | intros command].
  apply stops_bind.
  { destruct (dest command); [apply stops_only_redirect_std | apply stops_only_ret]. }
  intros _. apply stops_bind.
  { destruct (negb (Z.land options PIPE_OUT =? 0)); [|apply stops_only_ret].
    apply stops_only_bind; [now apply stops_only_lift | intros d; apply stops_only_emit]. }
  intros _. apply stops_bind.
  { destruct (src command); [apply stops_only_redirect_std | apply stops_only_ret]. }
  intros _. apply stops_bind.
  { destruct (negb (Z.land options PIPE_IN =? 0)); [|apply stops_only_ret].
    apply stops_only_bind; [now apply stops_only_lift | intros d; apply stops_only_emit]. }
  intros _. apply stops_bind; [apply stops_only_get_globals | intros g].
  apply stops_bind.
  { apply stops_only_for_count. intros i acc. now apply stops_only_close_fd. }
  intros _. apply stops_bind.
  { destruct (argv command); [apply stops_only_ret | now apply stops_only_halt_with]. }
  intros args. apply stops_bind; [now apply stops_only_lift | intros file].
  apply stops_bind; [apply stops_only_emit | intros _].
  destruct file as [name|]; [|now apply stops_halt_with].
  destruct (os_execvp os (Some name)).
  - apply stops_halt_with. now left.
  - apply stops_bind; [apply stops_only_emit | intros _].
    apply stops_halt_with. right. now left.
Qed.

(** ** The shell's table of children *)

Lemma adds_gone_same {A} (m : M A) :
  (forall s, st_children (snd (m s)) = st_children s) -> adds_gone_children m.
Proof. intros H s. exists []. rewrite app_nil_r. split; [apply H | constructor]. Qed.

Lemma adds_gone_ret {A} (a : A) : adds_gone_children (ret a).
Proof. now apply adds_gone_same. Qed.

Lemma adds_gone_halt_with {A} (h : halt) : adds_gone_children (@halt_with A h).
Proof. now apply adds_gone_same. Qed.

Lemma adds_gone_emit (e : event) : adds_gone_children (emit e).
Proof. now apply adds_gone_same. Qed.

Lemma adds_gone_get_globals : adds_gone_children get_globals.
Proof. now apply adds_gone_same. Qed.

Lemma adds_gone_modify_globals (f : globals -> globals) :
  adds_gone_children (modify_globals f).
Proof. now apply adds_gone_same. Qed.

Lemma adds_gone_lift {A} (r : res A) : adds_gone_children (lift r).
Proof. destruct r; now apply adds_gone_same. Qed.

Lemma adds_gone_bind {A B} (m : M A) (k : A -> M B) :
  adds_gone_children m -> (forall a, adds_gone_children (k a)) ->
  adds_gone_children (bind m k).
Proof.
  intros Hm Hk s. unfold bind. destruct (Hm s) as (kids1 & H1 & Hg1).
  destruct (m s) as [[a|h] s'] eqn:E; cbn [snd] in H1.
  - destruct (Hk a s') as (kids2 & H2 & Hg2).
    exists (kids1 ++ kids2). rewrite H2, H1, <- app_assoc.
    split; [reflexivity | now apply Forall_app].
  - exists kids1. auto.
Qed.

Lemma adds_gone_for_count {T} (body : Z -> T -> M T) (n : nat) :
  (forall i acc, adds_gone_children (body i acc)) ->
  forall idx acc, adds_gone_children (for_count n idx body acc).
Proof.
  intros Hbody. induction n as [|n IH]; intros idx acc; simpl.
  - apply adds_gone_ret.
  - apply adds_gone_bind; [apply Hbody | intros a; apply IH].
Qed.

Lemma adds_gone_chdir (os : os_env) (path : string) : adds_gone_children (chdir os path).
Proof.
  apply adds_gone_same. intros s. unfold chdir.
  destruct (os_chdir os (st_cwd s) path); reflexivity.
Qed.

Lemma adds_gone_launch_process (os : os_env) (p_command : res command_t) (options : Z)
    (fd : list descriptor) (idx : Z) :
  adds_gone_children (launch_process os p_command options fd idx).
Proof.
  intros s. unfold launch_process, fork.
  destruct (os_fork os (st_forks s)) as [p|].
  - change (Z.pos p =? 0) with false. change (Z.pos p =? -1) with false.
    change (0 =? 0) with true. cbv iota.
    destruct (launch_process_child_stops os p_command options fd idx
                (mk_state (st_globals s) (st_cwd s) [] 0 [])) as (h & Hh & Hkind).
    destruct (launch_process_child os p_command options fd idx
                (mk_state (st_globals s) (st_cwd s) [] 0 [])) as [out cs].
    cbn [fst] in Hh. subst out. cbn [ret snd st_children].
    eexists. split; [reflexivity|]. constructor; [|constructor].
    exists h. auto.
  - change (-1 =? 0) with false. change (-1 =? -1) with true. cbv iota.
    exists []. rewrite app_nil_r. split; [reflexivity | constructor].
Qed.

Lemma adds_gone_launch_process_chain (os : os_env) (p_vec : list command_t) :
  adds_gone_children (launch_process_chain os p_vec).
Proof.
  unfold launch_process_chain. cbv zeta.
  apply adds_gone_bind; [apply adds_gone_modify_globals | intros _].
  apply adds_gone_bind.
  { apply adds_gone_for_count. intros i acc.
    apply adds_gone_bind; [apply adds_gone_emit | intros _; apply adds_gone_ret]. }
  intros fd.
  apply adds_gone_bind; [apply adds_gone_launch_process | intros pid].
  apply adds_gone_bind; [apply adds_gone_lift | intros pids].
  apply adds_gone_bind.
  { apply adds_gone_for_count. intros i acc.
    apply adds_gone_bind; [apply adds_gone_launch_process | intros pid'].
    apply adds_gone_lift. }
  intros pids'.
  apply adds_gone_bind; [apply adds_gone_launch_process | intros pid'].
  apply adds_gone_bind; [apply adds_gone_lift | intros pids''].
  apply adds_gone_bind.
  { apply adds_gone_for_count. intros i acc. unfold close_fd.
    apply adds_gone_bind; [apply adds_gone_lift | intros d; apply adds_gone_emit]. }
  intros _.
  apply adds_gone_bind; [apply adds_gone_get_globals | intros g].
  destruct (negb (global_bkg_proc g)); [|apply adds_gone_modify_globals].
  apply adds_gone_for_count. intros i acc.
  apply adds_gone_bind; [apply adds_gone_lift | intros pid''].
  destruct (negb (pid'' =? 0)); [apply adds_gone_emit | apply adds_gone_ret].
Qed.

Lemma adds_gone_eval_builtin_cmds (os : os_env) (p_vec : list string) :
  adds_gone_children (eval_builtin_cmds os p_vec).
Proof.
  assert (Hcd : forall dir, adds_gone_children (cd_to os dir)).
  { intros dir. unfold cd_to.
    apply adds_gone_bind; [apply adds_gone_chdir | intros r].
    destruct (r =? -1); [apply adds_gone_emit | apply adds_gone_ret]. }
  unfold eval_builtin_cmds. apply adds_gone_for_count. intros i acc.
  unfold eval_builtin.
  apply adds_gone_bind; [apply adds_gone_get_globals | intros g].
  apply adds_gone_bind; [apply adds_gone_lift | intros tagged_at].
  destruct (negb (tagged_at =? -1)); [|apply adds_gone_ret].
  destruct (i =? CMD_EXIT); [apply adds_gone_halt_with|].
  destruct (i =? CMD_CD); [|apply adds_gone_ret].
  destruct (npos p_vec =? 1).
  - apply adds_gone_bind; [|apply Hcd].
    destruct (os_getenv_HOME os); [apply adds_gone_ret|].
    destruct (os_pw_dir os); [apply adds_gone_ret | apply adds_gone_halt_with].
  - destruct (npos p_vec =? 2); [|apply adds_gone_emit].
    apply adds_gone_bind; [apply adds_gone_lift | apply Hcd].
Qed.

Lemma adds_gone_shell_eval (os : os_env) (p_vec : list string) :
  adds_gone_children (shell_eval os p_vec).
Proof.
  unfold shell_eval.
  destruct (npos p_vec =? 0); [apply adds_gone_ret|].
  apply adds_gone_bind; [apply adds_gone_get_globals | intros g]. cbv zeta.
  destruct (negb (is_parse_error (parse_builtin_cmds p_vec g))
            && negb (global_num_builtins g =? 0));
    [apply adds_gone_eval_builtin_cmds|].
  destruct (is_parse_error (parse_builtin_cmds p_vec g)); [apply adds_gone_emit|].
  destruct (global_num_commands g =? 1).
  - apply adds_gone_bind; [apply adds_gone_lift | intros [[r command] g1]].
    apply adds_gone_bind; [apply adds_gone_modify_globals | intros _].
    destruct (is_parse_error r); [apply adds_gone_emit|].
    apply adds_gone_bind; [apply adds_gone_launch_process | intros pid].
    apply adds_gone_bind; [apply adds_gone_get_globals | intros g2].
    destruct (negb (global_bkg_proc g2)); [|apply adds_gone_modify_globals].
    destruct (negb (pid =? 0)); [apply adds_gone_emit | apply adds_gone_ret].
  - apply adds_gone_bind; [apply adds_gone_lift | intros [[r command_vec] g1]].
    apply adds_gone_bind; [apply adds_gone_modify_globals | intros _].
    destruct (is_parse_error r); [apply adds_gone_emit|].
    apply adds_gone_launch_process_chain.
Qed.

(** X17.  Whatever the line and whatever the system answers, a turn of the
    shell only adds children to those it has, and none of the children it
    creates comes back from [launch_process] into the shell's code: each ends
    in [execvp] replacing its image, in [exit(EXIT_FAILURE)], or in a crash.
    No child runs a second copy of the shell's loop. *)
Theorem children_never_return (os : os_env) (line : option (list lexeme))
    (s : proc_state) :
  exists kids,
    st_children (snd (shell_turn os line s)) = st_children s ++ kids
    /\ Forall child_is_gone kids.
Proof.
  revert s. change (adds_gone_children (shell_turn os line)).
  unfold shell_turn.
  apply adds_gone_bind; [|intros p_vec; apply adds_gone_shell_eval].
  unfold shell_read.
  apply adds_gone_bind; [apply adds_gone_modify_globals | intros _].
  apply adds_gone_bind; [apply adds_gone_modify_globals | intros _].
  apply adds_gone_bind; [apply adds_gone_modify_globals | intros _].
  destruct line as [buffer|]; [|apply adds_gone_halt_with].
  apply adds_gone_bind; [apply adds_gone_get_globals | intros g].
  apply adds_gone_bind; [apply adds_gone_lift | intros st].
  apply adds_gone_bind; [apply adds_gone_modify_globals | intros _].
  apply adds_gone_ret.
Qed.

(* ================================================================== *)
(** * How a child ends *)

(** X18.  The whole run of a child whose redirect files open and whose argv
    has a first slot: it sets up its redirects and pipe ends, closes the
    [2 * global_num_pipes] descriptors of [fd] and calls [execvp] with
    [argv[0]] and [argv].  When [argv[0]] is a name and [execvp] succeeds the
    image is replaced; when it is a name and [execvp] fails the child reports
    [ERROR: exec] and ends with [exit(EXIT_FAILURE)], making no call after
    that.  When [argv[0]] is NULL (a command with no words) the child is
    killed inside [execvp]: it reports nothing and does not reach [exit]. *)
Theorem child_exec_failure_exits (os : os_env) (pid : Z) (command : command_t)
    (options : Z) (fd : list descriptor) (idx : Z) (g : globals) (cwd : string)
    (wr rd : descriptor) (file : option string) (args : list (option string)) :
  global_num_pipes g * 2 = npos fd ->
  (negb (Z.land options PIPE_OUT =? 0) = true -> vec_get fd (idx * 2 + 1) = Ok wr) ->
  (negb (Z.land options PIPE_IN =? 0) = true -> vec_get fd (idx * 2 - 2) = Ok rd) ->
  redirects_open os command ->
  argv command = Some (file :: args) ->
  let c := launched_child os pid (Ok command) options fd idx g cwd in
  child_end c
  = Halted match file with
           | None => Crashed
           | Some _ => if os_execvp os file then Execd else Exited EXIT_FAILURE
           end
  /\ child_trace c
     = child_head command options wr rd ++ map EvClose fd
       ++ EvExecvp file (file :: args)
       :: match file with
          | None => []
          | Some _ => if os_execvp os file then [] else [EvPerror "ERROR: exec"]
          end.
Proof.
  intros Hnp Hwr Hrd Hopen Hargv. cbv zeta.
  pose proof (launch_process_child_runs os command options fd idx g cwd wr rd file args
                Hnp Hwr Hrd Hopen Hargv) as Hrun.
  unfold runs in Hrun. unfold launched_child. cbn [child_end child_trace].
  rewrite Hrun. cbn [fst snd]. split; [reflexivity|].
  unfold append_trace, child_start. reflexivity.
Qed.

Lemma child_exec_failure_exits_witness :
  let os := mk_os None None (fun _ path => Some path) (fun n => Some (Pos.of_nat (100 + n)))
                  (fun _ => true) (fun _ => false) in
  let c := launched_child os 100 (Ok (set_dest (plain_command ["nope"; "-x"]) "out"))
                          0 [] 0 globals_init "/" in
  child_end c = Halted (Exited EXIT_FAILURE)
  /\ child_trace c
     = [EvFopen "out" "w" true; EvFcloseStd STDOUT_FILENO; EvDupFileno "out";
        EvFclose "out"; EvExecvp (Some "nope") [Some "nope"; Some "-x"; None];
        EvPerror "ERROR: exec"].
Proof.
  apply (child_exec_failure_exits
           (mk_os None None (fun _ path => Some path) (fun n => Some (Pos.of_nat (100 + n)))
                  (fun _ => true) (fun _ => false))
           100 (set_dest (plain_command ["nope"; "-x"]) "out") 0 [] 0 globals_init "/"
           (PipeWrite 0) (PipeRead 0) (Some "nope") [Some "-x"; None]).
  - reflexivity.
  - discriminate.
  - discriminate.
  - split; intros path _; reflexivity.
  - reflexivity.
Defined.

(** X19.  A child whose output file cannot be opened closes its standard
    output and then hands the NULL stream to [fileno]: it crashes there,
    having reported nothing and run no program.  So does a child whose input
    file cannot be opened, after its output redirect and pipe are set up and
    its standard input is closed. *)
Theorem child_redirect_failure_crashes (os : os_env) (pid : Z) (command : command_t)
    (options : Z) (fd : list descriptor) (idx : Z) (g : globals) (cwd : string)
    (wr : descriptor) :
  (negb (Z.land options PIPE_OUT =? 0) = true -> vec_get fd (idx * 2 + 1) = Ok wr) ->
  let c := launched_child os pid (Ok command) options fd idx g cwd in
  (forall path, dest command = Some path -> os_fopen os path = false ->
     child_end c = Halted Crashed
     /\ child_trace c = [EvFopen path "w" false; EvFcloseStd STDOUT_FILENO])
  /\ (forall path, src command = Some path -> os_fopen os path = false ->
        (forall out, dest command = Some out -> os_fopen os out = true) ->
        child_end c = Halted Crashed
        /\ child_trace c
           = match dest command with
             | Some out => redirect_calls out "w" STDOUT_FILENO
             | None => []
             end
             ++ (if negb (Z.land options PIPE_OUT =? 0) then [EvDup2 wr STDOUT_FILENO]
                 else [])
             ++ [EvFopen path "r" false; EvFcloseStd STDIN_FILENO]).
Proof.
  intros Hwr. cbv zeta. unfold launched_child. cbn [child_end child_trace].
  set (s0 := child_start g cwd). split.
  - intros path Hdest Hfail.
    assert (Hrun : runs (launch_process_child os (Ok command) options fd idx) s0
                        (Halted Crashed)
                        ([] ++ [EvFopen path "w" false; EvFcloseStd STDOUT_FILENO])).
    { unfold launch_process_child.
      eapply runs_bind; [apply runs_ret|]. rewrite append_trace_nil.
      apply runs_bind_halted. rewrite Hdest.
      pose proof (runs_redirect_std os path "w" STDOUT_FILENO s0) as Hr.
      now rewrite Hfail in Hr. }
    unfold runs in Hrun. rewrite Hrun. split; reflexivity.
  - intros path Hsrc Hfail Hdest.
    set (dcalls := match dest command with
                   | Some out => redirect_calls out "w" STDOUT_FILENO
                   | None => []
                   end).
    set (ocalls := if negb (Z.land options PIPE_OUT =? 0)
                   then [EvDup2 wr STDOUT_FILENO] else []).
    assert (Hrun : runs (launch_process_child os (Ok command) options fd idx) s0
                        (Halted Crashed)
                        ([] ++ dcalls ++ ocalls
                         ++ [EvFopen path "r" false; EvFcloseStd STDIN_FILENO])).
    { unfold launch_process_child.
      eapply runs_bind; [apply runs_ret|]. rewrite append_trace_nil.
      eapply runs_bind; [apply runs_redirect_opens; exact Hdest|]. fold dcalls.
      eapply runs_bind; [apply runs_optional_dup2; exact Hwr|]. fold ocalls.
      apply runs_bind_halted. rewrite Hsrc.
      pose proof (runs_redirect_std os path "r" STDIN_FILENO
                    (append_trace (append_trace s0 dcalls) ocalls)) as Hr.
      now rewrite Hfail in Hr. }
    unfold runs in Hrun. rewrite Hrun. split; reflexivity.
Qed.

Lemma child_redirect_failure_crashes_witness :
  let os := mk_os None None (fun _ path => Some path) (fun n => Some (Pos.of_nat (100 + n)))
                  (fun _ => false) (fun _ => true) in
  let c := launched_child os 100 (Ok (set_dest (plain_command ["ls"]) "/out"))
                          0 [] 0 globals_init "/" in
  child_end c = Halted Crashed
  /\ child_trace c = [EvFopen "/out" "w" false; EvFcloseStd STDOUT_FILENO].
Proof.
  cbv zeta.
  destruct (child_redirect_failure_crashes
              (mk_os None None (fun _ path => Some path)
                     (fun n => Some (Pos.of_nat (100 + n))) (fun _ => false) (fun _ => true))
              100 (set_dest (plain_command ["ls"]) "/out") 0 [] 0 globals_init "/"
              (PipeWrite 0)) as [Hdest _].
  - discriminate.
  - apply (Hdest "/out"); reflexivity.
Defined.

(* ================================================================== *)
(** * The child of a simple command *)

(** All the single-command parser does to the globals. *)
Lemma parse_single_loop_globals (fuel : nat) :
  forall p_vec idx p_command seen_command g r c' g',
    parse_single_loop fuel p_vec idx p_command seen_command g = Ok (r, c', g') ->
    g' = g \/ g' = set_bkg_proc true g.
Proof.
  induction fuel as [|fuel IH]; intros p_vec idx p_command seen g r c' g' Hrun.
  - simpl in Hrun. destruct (negb (idx <? npos p_vec)); [|discriminate].
    injection Hrun as <- <- <-. now left.
  - cbn [parse_single_loop] in Hrun.
    destruct (negb (idx <? npos p_vec)); [injection Hrun as <- <- <-; now left|].
    destruct (tok_char p_vec idx) as [c| |]; cbn [res_bind] in Hrun; try discriminate.
    destruct (c =? "<")%char; [|destruct (c =? ">")%char; [|destruct (c =? "&")%char]].
    + destruct (idx + 1 =? npos p_vec); [injection Hrun as <- <- <-; now left|].
      destruct (tok_char p_vec (idx + 1)) as [next| |]; cbn [res_bind] in Hrun;
        try discriminate.
      destruct (single_bad_next next); [injection Hrun as <- <- <-; now left|].
      destruct (ensure_argv p_vec p_command (idx - 1)) as [c1| |];
        cbn [res_bind] in Hrun; try discriminate.
      destruct (vec_get p_vec (idx + 1)) as [file| |]; cbn [res_bind] in Hrun;
        try discriminate.
      eapply IH; exact Hrun.
    + destruct (idx + 1 =? npos p_vec); [injection Hrun as <- <- <-; now left|].
      destruct (tok_char p_vec (idx + 1)) as [next| |]; cbn [res_bind] in Hrun;
        try discriminate.
      destruct (single_bad_next next); [injection Hrun as <- <- <-; now left|].
      destruct (ensure_argv p_vec p_command (idx - 1)) as [c1| |];
        cbn [res_bind] in Hrun; try discriminate.
      destruct (vec_get p_vec (idx + 1)) as [file| |]; cbn [res_bind] in Hrun;
        try discriminate.
      eapply IH; exact Hrun.
    + destruct (negb (idx + 1 =? npos p_vec));
        [injection Hrun as <- <- <-; now left|].
      destruct (ensure_argv p_vec p_command (idx - 1)) as [c1| |];
        cbn [res_bind] in Hrun; try discriminate.
      apply IH in Hrun. destruct Hrun as [-> | ->]; now right.
    + destruct ((idx + 1 =? npos p_vec) && negb seen).
      * destruct (ensure_argv p_vec p_command idx) as [c1| |];
          cbn [res_bind] in Hrun; try discriminate.
        eapply IH; exact Hrun.
      * eapply IH; exact Hrun.
Qed.

Lemma parse_single_command_globals (p_vec : list string) (p_command : command_t)
    (g : globals) (r : _parse) (c' : command_t) (g' : globals) :
  parse_single_command p_vec p_command g = Ok (r, c', g') ->
  g' = set_num_pipes 0 g \/ g' = set_bkg_proc true (set_num_pipes 0 g).
Proof.
  unfold parse_single_command.
  destruct (npos p_vec =? 0); [intros [= <- <- <-]; now left|].
  apply parse_single_loop_globals.
Qed.

Lemma parse_single_command_prefix (p_vec : list string) (g : globals)
    (c' : command_t) (g' : globals) :
  parse_single_command p_vec command_zero g = Ok (PARSE_SUCCESS, c', g') ->
  argv_is_prefix p_vec c'.
Proof.
  unfold parse_single_command.
  destruct (Z.eqb_spec (npos p_vec) 0); [discriminate|].
  intros Hrun. pose proof (npos_nonneg p_vec).
  eapply parse_single_loop_argv; [exact Hrun | now left | left; lia | discriminate].
Qed.

(** X20.  On a token vector of at most [READ_BUFFER_SIZE] tokens
    [parse_single_command] returns a result, whatever the tokens are: it reads
    no token outside the vector.  When the result is [PARSE_SUCCESS] the argv
    of the command is the tokens from the first one up to some position,
    followed by the NULL slot.  To the globals it does nothing but set
    [global_num_pipes] to 0 and, possibly, raise the background flag. *)
Theorem parse_single_command_safe (p_vec : list string) (g : globals) :
  npos p_vec <= READ_BUFFER_SIZE ->
  exists r c' g',
    parse_single_command p_vec command_zero g = Ok (r, c', g')
    /\ (r = PARSE_SUCCESS -> argv_is_prefix p_vec c')
    /\ (g' = set_num_pipes 0 g \/ g' = set_bkg_proc true (set_num_pipes 0 g)).
Proof.
  intros Hbuf.
  destruct (parse_single_command_in_range p_vec command_zero g Hbuf) as ([[r c'] g'] & Hrun).
  exists r, c', g'. split; [exact Hrun|]. split.
  - intros ->. exact (parse_single_command_prefix p_vec g c' g' Hrun).
  - exact (parse_single_command_globals p_vec command_zero g r c' g' Hrun).
Qed.

Lemma parse_single_command_safe_witness :
  exists r c' g',
    parse_single_command ["<"; "&"; ">"; "|"] command_zero globals_init = Ok (r, c', g')
    /\ (r = PARSE_SUCCESS -> argv_is_prefix ["<"; "&"; ">"; "|"] c')
    /\ (g' = set_num_pipes 0 globals_init
        \/ g' = set_bkg_proc true (set_num_pipes 0 globals_init)).
Proof.
  apply parse_single_command_safe. vm_compute. discriminate.
Defined.

Lemma line_parse_command (p_vec : list string) (g : globals) (command : command_t)
    (g' : globals) :
  line_parse p_vec g = Ok (LineCommand command, g') ->
  parse_single_command p_vec command_zero g = Ok (PARSE_SUCCESS, command, g').
Proof.
  unfold line_parse.
  destruct (npos p_vec =? 0); [discriminate|].
  destruct (negb (is_parse_error (parse_builtin_cmds p_vec g))
            && negb (global_num_builtins g =? 0)); [discriminate|].
  destruct (is_parse_error (parse_builtin_cmds p_vec g)); [discriminate|].
  destruct (global_num_commands g =? 1).
  - destruct (parse_single_command p_vec command_zero g) as [[[r c] g1]| |];
      cbn [res_bind]; try discriminate.
    destruct r; cbn [is_parse_error]; [|discriminate].
    now intros [= <- <-].
  - destruct (parse_multiple_commands p_vec [] g) as [[[r cv] g1]| |];
      cbn [res_bind]; try discriminate.
    destruct r; cbn [is_parse_error]; discriminate.
Qed.

Lemma argv_is_prefix_slot (p_vec : list string) (c : command_t) :
  argv_is_prefix p_vec c -> exists file args, argv c = Some (file :: args).
Proof.
  intros (n & Hargv). rewrite Hargv. unfold argv_of_tokens.
  destruct (firstn n (skipn 0 p_vec)) as [|w rest]; simpl; eauto.
Qed.

Lemma child_head_single (command : command_t) (wr rd : descriptor) :
  child_head command PIPE_NONE wr rd = single_redirect_calls command.
Proof.
  unfold child_head, single_redirect_calls. simpl. now rewrite app_nil_r.
Qed.

Lemma single_redirect_calls_stdio (command : command_t) :
  stdio_of (single_redirect_calls command)
  = mk_stdio (redirect_binding (src command)) (redirect_binding (dest command)) [].
Proof.
  unfold single_redirect_calls. destruct (dest command), (src command); reflexivity.
Qed.

Lemma new_children_app (s : proc_state) (g : globals) (cwd : string)
    (trace : list event) (forks : nat) (kids : list child_proc) :
  new_children s (mk_state g cwd trace forks (st_children s ++ kids)) = kids.
Proof. unfold new_children. cbn [st_children]. apply skipn_length_app. Qed.

(** X21.  The child of a single command.  When the line parses to one command,
    [fork] succeeds and the redirect files open, the turn adds one child to
    the shell's table, with the process id [fork] returned.  The child sets
    up the redirects, closes no descriptor, and calls [execvp] with [argv[0]]
    and [argv].  When [argv[0]] is a name and [execvp] fails, the child
    reports the error and exits with [EXIT_FAILURE]; when [argv[0]] is NULL
    (the line [&], a command with no words) the child is killed inside
    [execvp] and reports nothing.  At [execvp] its standard input is the
    source file if the command has one and its standard output the
    destination file if it has one; a stream without a redirect is the
    shell's own. *)
Theorem single_command_child (os : os_env) (buffer : list lexeme) (s : proc_state)
    (command : command_t) (g' : globals) (p : positive) :
  parse_turn buffer (st_globals s) = Ok (LineCommand command, g') ->
  os_fork os (st_forks s) = Some p ->
  redirects_open os command ->
  exists c file args,
    new_children s (snd (shell_turn os (Some buffer) s)) = [c]
    /\ child_pid c = Z.pos p
    /\ argv command = Some (file :: args)
    /\ child_trace c
       = single_redirect_calls command
         ++ EvExecvp file (file :: args)
         :: match file with
            | None => []
            | Some _ => if os_execvp os file then [] else [EvPerror "ERROR: exec"]
            end
    /\ child_end c
       = Halted match file with
                | None => Crashed
                | Some _ => if os_execvp os file then Execd else Exited EXIT_FAILURE
                end
    /\ before_exec (child_trace c) = Some (single_redirect_calls command)
    /\ stdio_of (single_redirect_calls command)
       = mk_stdio (redirect_binding (src command)) (redirect_binding (dest command)) [].
Proof.
  intros Hparse Hfork Hopen.
  destruct (shell_turn_dispatch os buffer s _ g' Hparse) as (p_vec & Hturn).
  (* the command as the parser leaves it *)
  assert (Hsingle : exists p_vec0 g1,
             parse_single_command p_vec0 command_zero g1
             = Ok (PARSE_SUCCESS, command, g')).
  { unfold parse_turn in Hparse.
    destruct (scan_line buffer (st_globals s)) as [[v g1]| |];
      cbn [res_bind fst snd] in Hparse; try discriminate.
    exists v, g1. now apply line_parse_command. }
  destruct Hsingle as (p_vec0 & g1 & Hsingle).
  assert (Hpipes : global_num_pipes g' = 0).
  { destruct (parse_single_command_globals _ _ _ _ _ _ Hsingle) as [-> | ->];
      reflexivity. }
  destruct (argv_is_prefix_slot p_vec0 command (parse_single_command_prefix _ _ _ _ Hsingle))
    as (file & args & Hargv).
  pose proof (launch_process_child_runs os command PIPE_NONE [] 0 g' (st_cwd s)
                (PipeWrite 0) (PipeRead 0) file args) as Hrun.
  rewrite child_head_single in Hrun. simpl map in Hrun. simpl app in Hrun.
  unfold runs in Hrun.
  assert (Hchild : launch_process_child os (Ok command) PIPE_NONE [] 0
                     (child_start g' (st_cwd s))
                   = (Halted (exec_end os file),
                      append_trace (child_start g' (st_cwd s))
                        (single_redirect_calls command
                         ++ exec_calls os file (file :: args)))).
  { apply Hrun; try assumption.
    - rewrite Hpipes. reflexivity.
    - discriminate.
    - discriminate. }
  set (c := launched_child os (Z.pos p) (Ok command) PIPE_NONE [] 0 g' (st_cwd s)).
  assert (Hkids : new_children s (snd (shell_turn os (Some buffer) s)) = [c]).
  { rewrite Hturn. cbn [shell_dispatch]. unfold bind.
    rewrite (launch_process_forked os _ _ _ _ (with_globals g' s) p) by exact Hfork.
    unfold get_globals. cbn [st_globals with_globals st_cwd st_trace st_forks
                                        st_children].
    fold c.
    destruct (negb (global_bkg_proc g')).
    - change (negb (Z.pos p =? 0)) with true. cbv iota.
      unfold waitpid, emit, append_trace. cbn [snd st_globals st_cwd st_trace st_forks
                                                   st_children].
      apply new_children_app.
    - unfold modify_globals. cbn [snd st_globals st_cwd st_trace st_forks st_children].
      apply new_children_app. }
  assert (Htrace : child_trace c
                   = single_redirect_calls command ++ exec_calls os file (file :: args)).
  { unfold c, launched_child. cbn [child_trace]. rewrite Hchild. reflexivity. }
  assert (Hend : child_end c = Halted (exec_end os file)).
  { unfold c, launched_child. cbn [child_end]. rewrite Hchild. reflexivity. }
  exists c, file, args.
  split; [exact Hkids|]. split; [reflexivity|]. split; [exact Hargv|].
  split; [exact Htrace|]. split; [exact Hend|].
  split; [|apply single_redirect_calls_stdio].
  rewrite Htrace. apply before_exec_app.
  rewrite <- (child_head_single command (PipeWrite 0) (PipeRead 0)).
  apply child_head_not_exec.
Qed.

Lemma single_command_child_witness :
  let buffer := [(RULE_WORD, "sort"); (RULE_OPERATOR, "<"); (RULE_WORD, "in")] in
  exists c file args,
    new_children state_init (snd (shell_turn os_example (Some buffer) state_init)) = [c]
    /\ child_pid c = 100
    /\ argv (set_src (plain_command ["sort"]) "in") = Some (file :: args)
    /\ child_end c
       = Halted match file with
                | None => Crashed
                | Some _ => if os_execvp os_example file then Execd
                            else Exited EXIT_FAILURE
                end
    /\ before_exec (child_trace c)
       = Some (single_redirect_calls (set_src (plain_command ["sort"]) "in"))
    /\ stdio_of (single_redirect_calls (set_src (plain_command ["sort"]) "in"))
       = mk_stdio (ToFile "in") Inherited [].
Proof.
  cbv zeta.
  destruct (single_command_child os_example
              [(RULE_WORD, "sort"); (RULE_OPERATOR, "<"); (RULE_WORD, "in")] state_init
              (set_src (plain_command ["sort"]) "in")
              (set_num_pipes 0 (mk_globals 0 1 true false [-1; -1] 0)) 100%positive)
    as (c & file & args & Hkids & Hpid & Hargv & _ & Hend & Hpre & Hio).
  - reflexivity.
  - reflexivity.
  - split; intros path _; reflexivity.
  - exists c, file, args. repeat split; assumption.
Defined.

(** ** The pipe a chain does not use *)

Lemma pipe_calls_from_in (n : nat) :
  forall k j, k <= j < k + Z.of_nat n ->
              In (EvPipe (PipeRead j) (PipeWrite j)) (pipe_calls_from n k).
Proof.
  induction n as [|n IH]; intros k j Hj; [lia|].
  simpl. destruct (Z.eq_dec j k) as [->|Hne]; [now left|].
  right. apply IH. lia.
Qed.

Lemma child_head_dup2 (command : command_t) (options : Z) (wr rd d : descriptor)
    (newfd : Z) (fd : list descriptor) :
  In (EvDup2 d newfd) (child_head command options wr rd ++ map EvClose fd) ->
  (negb (Z.land options PIPE_OUT =? 0) = true /\ d = wr /\ newfd = STDOUT_FILENO)
  \/ (negb (Z.land options PIPE_IN =? 0) = true /\ d = rd /\ newfd = STDIN_FILENO).
Proof.
  intros Hin. apply in_app_or in Hin. destruct Hin as [Hin|Hin].
  2:{ exfalso. clear - Hin. induction fd as [|x fd IH]; simpl in Hin; [assumption|].
      destruct Hin as [Hin|Hin]; [discriminate | auto]. }
  unfold child_head in Hin.
  destruct (negb (Z.land options PIPE_OUT =? 0)), (negb (Z.land options PIPE_IN =? 0)),
    (dest command), (src command); simpl in Hin;
    repeat (destruct Hin as [Hin|Hin]; try discriminate Hin);
    try contradiction;
    injection Hin as <- <-; auto.
Qed.

(** X22.  A chain of [N >= 2] commands creates [N] pipes, one for each
    command, and the last of them serves no stage: no child that reaches
    [execvp] has duplicated its read end or its write end onto any
    descriptor. *)
Theorem chain_last_pipe_unused (os : os_env) (commands : list command_t) (s : proc_state) :
  2 <= npos commands ->
  let num_commands := npos commands in
  let run := launch_process_chain os commands s in
  In (EvPipe (PipeRead (num_commands - 1)) (PipeWrite (num_commands - 1)))
     (new_calls s (snd run))
  /\ forall c pre newfd,
       In c (new_children s (snd run)) ->
       before_exec (child_trace c) = Some pre ->
       ~ In (EvDup2 (PipeRead (num_commands - 1)) newfd) pre
       /\ ~ In (EvDup2 (PipeWrite (num_commands - 1)) newfd) pre.
Proof.
  intros HN. cbv zeta. split.
  - rewrite launch_process_chain_run by assumption. cbn [snd].
    rewrite new_calls_app. apply in_or_app. left.
    unfold pipe_calls. apply pipe_calls_from_in. lia.
  - intros c pre newfd Hin Hpre.
    destruct (chain_child_before_exec os commands s c pre HN Hin Hpre)
      as (command & Hidx & ->).
    destruct (stage_options_bits (npos commands) (child_stage c) HN Hidx) as [Hout Hinp].
    split; intros Hdup; apply child_head_dup2 in Hdup;
      destruct Hdup as [(Hbit & Hd & _) | (Hbit & Hd & _)]; try discriminate Hd.
    + injection Hd as Hd. rewrite Hinp in Hbit. lia.
    + injection Hd as Hd. rewrite Hout in Hbit.
      apply Z.ltb_lt in Hbit. lia.
Qed.

Lemma chain_last_pipe_unused_witness :
  let run := launch_process_chain os_example commands_example state_init in
  In (EvPipe (PipeRead 2) (PipeWrite 2)) (new_calls state_init (snd run))
  /\ forall c pre newfd,
       In c (new_children state_init (snd run)) ->
       before_exec (child_trace c) = Some pre ->
       ~ In (EvDup2 (PipeRead 2) newfd) pre /\ ~ In (EvDup2 (PipeWrite 2) newfd) pre.
Proof.
  apply (chain_last_pipe_unused os_example commands_example state_init).
  vm_compute. discriminate.
Defined.

(* ================================================================== *)
(** * Pushing onto the vector and clearing it *)

Lemma list_set_end {A} (front : list A) (old v : A) (back : list A) :
  list_set (front ++ old :: back) (length front) v = Ok (front ++ v :: back).
Proof.
  induction front as [|a front IH]; simpl; [reflexivity|]. now rewrite IH.
Qed.

Lemma firstn_split_at {A} (l : list A) (n : nat) :
  (n < length l)%nat ->
  exists old back, l = firstn n l ++ old :: back /\ length (firstn n l) = n.
Proof.
  intros Hn. destruct (skipn n l) as [|old back] eqn:E.
  - apply (f_equal (@List.length A)) in E. rewrite length_skipn in E. simpl in E. lia.
  - exists old, back. split; [|rewrite length_firstn; lia].
    rewrite <- E. symmetry. apply firstn_skipn.
Qed.

(** Storing at the end of the elements in use. *)
Lemma store_at_npos {A} (block : list (Vec.slot A)) (l : list A) (es : Z) (x : A) :
  0 < es -> (length l < length block)%nat ->
  firstn (length l) block = map Vec.Stored l ->
  exists block',
    Vec.store block (Z.of_nat (length l) * es) es x = Ok block'
    /\ length block' = length block
    /\ firstn (length (l ++ [x])) block' = map Vec.Stored (l ++ [x]).
Proof.
  intros Hes Hlt Hfirst. unfold Vec.store.
  destruct (Z.leb_spec 0 (Z.of_nat (length l) * es)); [|nia]. simpl andb.
  destruct (Z.leb_spec (Z.of_nat (length l) * es + es) (Z.of_nat (length block) * es));
    [|nia].
  rewrite Z.div_mul by lia. rewrite Nat2Z.id.
  destruct (firstn_split_at block (length l) Hlt) as (old & back & Hsplit & Hlen).
  rewrite Hfirst in Hsplit.
  exists (map Vec.Stored l ++ Vec.Stored x :: back).
  assert (Hml : length (map (@Vec.Stored A) l) = length l) by apply length_map.
  split; [|split].
  - rewrite Hsplit at 1. rewrite <- Hml. apply list_set_end.
  - rewrite Hsplit. rewrite !length_app. reflexivity.
  - rewrite length_app. simpl length.
    replace (map Vec.Stored l ++ Vec.Stored x :: back)
      with ((map Vec.Stored l ++ [Vec.Stored x]) ++ back)
      by (now rewrite <- app_assoc).
    rewrite firstn_app.
    replace (length l + 1 - length (map Vec.Stored l ++ [Vec.Stored x]))%nat with 0%nat
      by (rewrite length_app, Hml; simpl; lia).
    rewrite firstn_all2 by (rewrite length_app, Hml; simpl; lia).
    simpl firstn. rewrite app_nil_r, map_app. reflexivity.
Qed.

(** One push, when every allocation succeeds: the vector stays well formed
    and holds the old elements followed by the new one; the block is kept
    when the element fits and has twice the size otherwise. *)
Lemma vec_push_represents {A} (v : Vec.vec_t A) (l : list A) (x : A) :
  Vec.well_formed v -> Vec.represents v l -> Vec.len v * 2 < 2 ^ 64 ->
  exists v',
    Vec.vec_push true v x = Ok (1, v')
    /\ Vec.well_formed v' /\ Vec.represents v' (l ++ [x])
    /\ Vec.elem_size v' = Vec.elem_size v
    /\ Vec.len v'
       = if (Vec.npos v + 1) * Vec.elem_size v <=? Vec.len v
         then Vec.len v else Vec.len v * 2.
Proof.
  intros (Hes & Hlen & Hcap & Hn0 & Hfit) [Hnpos Hfirst] Hbound.
  destruct v as [block len np es]. cbn [Vec.data Vec.len Vec.npos Vec.elem_size] in *.
  subst np. unfold Vec.vec_push. cbn [Vec.data Vec.len Vec.npos Vec.elem_size].
  unfold size_wrap.
  assert (Hpos : 0 <= Z.of_nat (length l) * es) by nia.
  rewrite (Z.mod_small (Z.of_nat (length l) * es)) by lia.
  destruct (Z.leb_spec ((Z.of_nat (length l) + 1) * es) len) as [Hroom|Hfull].
  - (* room in the block *)
    rewrite (Z.mod_small ((Z.of_nat (length l) + 1) * es)) by nia.
    destruct (Z.leb_spec ((Z.of_nat (length l) + 1) * es) len); [|lia].
    destruct (store_at_npos block l es x Hes) as (block' & -> & Hl' & Hf');
      [nia | assumption |].
    cbn [res_bind]. eexists. split; [reflexivity|].
    split; [|split; [|split; reflexivity]].
    + unfold Vec.well_formed. cbn [Vec.data Vec.len Vec.npos Vec.elem_size].
      rewrite Hl'. repeat split; lia.
    + unfold Vec.represents. cbn [Vec.data Vec.npos].
      split; [rewrite length_app; simpl; lia | exact Hf'].
  - (* the block is full *)
    assert (Hc1 : Z.of_nat (length block) < Z.of_nat (length l) + 1).
    { apply (Z.mul_lt_mono_pos_r es); lia. }
    assert (Hc2 : Z.of_nat (length l) <= Z.of_nat (length block)).
    { apply (Z.mul_le_mono_pos_r _ _ es); lia. }
    assert (Hcells : length block = length l) by lia.
    assert (Hexact : len = Z.of_nat (length l) * es) by (rewrite <- Hcells; exact Hlen).
    assert (Hl1 : (1 <= length l)%nat).
    { destruct (length l); [|lia]. simpl in Hexact. lia. }
    destruct (Z.leb_spec (((Z.of_nat (length l) + 1) * es) mod 2 ^ 64) len) as [Hw|_].
    { rewrite Z.mod_small in Hw by nia. lia. }
    unfold VEC_GROWTH_RATE. rewrite (Z.mod_small (len * 2)) by lia.
    cbn [negb]. cbv iota.
    unfold Vec.memcpy_block, Vec.malloc.
    rewrite repeat_length.
    assert (Hdiv2 : len * 2 / es = Z.of_nat (2 * length l)).
    { rewrite Hexact. replace (Z.of_nat (length l) * es * 2)
        with (Z.of_nat (2 * length l) * es) by lia. apply Z.div_mul. lia. }
    assert (Hdiv1 : len / es = Z.of_nat (length l)).
    { rewrite Hexact. apply Z.div_mul. lia. }
    rewrite Hdiv2, Hdiv1, !Nat2Z.id.
    destruct (Z.leb_spec len (Z.of_nat (length block) * es)); [|lia].
    destruct (Z.leb_spec len (Z.of_nat (2 * length l) * es)); [|nia].
    cbn [andb res_bind].
    set (grown := firstn (length l) block
                  ++ skipn (length l) (repeat Vec.Indeterminate (2 * length l))).
    assert (Hgl : length grown = (2 * length l)%nat).
    { unfold grown. rewrite length_app, length_firstn, length_skipn, repeat_length. lia. }
    assert (Hgf : firstn (length l) grown = map Vec.Stored l).
    { unfold grown. rewrite firstn_app, length_firstn.
      replace (length l - Nat.min (length l) (length block))%nat with 0%nat by lia.
      simpl firstn. rewrite app_nil_r, firstn_firstn.
      replace (Nat.min (length l) (length l)) with (length l) by lia. exact Hfirst. }
    destruct (store_at_npos grown l es x Hes) as (block' & -> & Hl' & Hf');
      [lia | assumption |].
    cbn [res_bind]. eexists. split; [reflexivity|].
    split; [|split; [|split; reflexivity]].
    + unfold Vec.well_formed. cbn [Vec.data Vec.len Vec.npos Vec.elem_size].
      rewrite Hl', Hgl. repeat split; nia.
    + unfold Vec.represents. cbn [Vec.data Vec.npos].
      split; [rewrite length_app; simpl; lia | exact Hf'].
Qed.

(** A push when [malloc] fails: it is not called while there is room, and
    the vector is left as it was when the block is full. *)
Lemma vec_push_malloc_fails {A} (v : Vec.vec_t A) (l : list A) (x : A) :
  Vec.well_formed v -> Vec.represents v l -> Vec.len v * 2 < 2 ^ 64 ->
  Vec.vec_push false v x
  = if (Vec.npos v + 1) * Vec.elem_size v <=? Vec.len v
    then Vec.vec_push true v x
    else Ok (0, v).
Proof.
  intros (Hes & Hlen & Hcap & Hn0 & Hfit) [Hnpos Hfirst] Hbound.
  unfold Vec.vec_push.
  assert (Hsmall : size_wrap ((Vec.npos v + 1) * Vec.elem_size v)
                   = (Vec.npos v + 1) * Vec.elem_size v).
  { apply Z.mod_small. nia. }
  cbv zeta. rewrite !Hsmall.
  destruct ((Vec.npos v + 1) * Vec.elem_size v <=? Vec.len v); reflexivity.
Qed.

(** X23.  One [vec_push] onto a well-formed vector that holds the elements
    [l], with a block of less than [2 ^ 63] bytes.  While the block has room
    for one more element, the element is stored behind the others and the
    block is kept; [malloc] is not called.  When the block is full and
    [malloc] succeeds, the elements move to a block of twice the size and the
    new one is stored behind them.  In both cases the call returns 1 and the
    vector is well formed and holds [l] followed by the new element.  When
    the block is full and [malloc] fails, the call returns 0 and the vector
    is as it was. *)
Theorem vec_push_keeps_elements {A} (malloc_ok : bool) (v : Vec.vec_t A) (l : list A)
    (x : A) :
  Vec.well_formed v -> Vec.represents v l -> Vec.len v * 2 < 2 ^ 64 ->
  let room := (Vec.npos v + 1) * Vec.elem_size v <=? Vec.len v in
  if room || malloc_ok then
    exists v',
      Vec.vec_push malloc_ok v x = Ok (1, v')
      /\ Vec.well_formed v' /\ Vec.represents v' (l ++ [x])
      /\ Vec.elem_size v' = Vec.elem_size v
      /\ Vec.len v' = (if room then Vec.len v else Vec.len v * 2)
  else Vec.vec_push malloc_ok v x = Ok (0, v).
Proof.
  intros Hwf Hrep Hbound. cbv zeta.
  destruct malloc_ok.
  - rewrite orb_true_r. exact (vec_push_represents v l x Hwf Hrep Hbound).
  - rewrite orb_false_r. rewrite (vec_push_malloc_fails v l x Hwf Hrep Hbound).
    destruct ((Vec.npos v + 1) * Vec.elem_size v <=? Vec.len v) eqn:Hroom.
    + pose proof (vec_push_represents v l x Hwf Hrep Hbound) as Hpush.
      rewrite Hroom in Hpush. exact Hpush.
    + reflexivity.
Qed.

Lemma vec_push_keeps_elements_witness :
  let v := Vec.mk_vec [Vec.Stored "a"; Vec.Stored "b"] 16 2 8 in
  (exists v',
     Vec.vec_push true v "c" = Ok (1, v')
     /\ Vec.well_formed v' /\ Vec.represents v' (["a"; "b"] ++ ["c"])
     /\ Vec.elem_size v' = 8
     /\ Vec.len v' = 32)
  /\ Vec.vec_push false v "c" = Ok (0, v).
Proof.
  cbv zeta. split.
  - apply (vec_push_keeps_elements true
             (Vec.mk_vec [Vec.Stored "a"; Vec.Stored "b"] 16 2 8) ["a"; "b"] "c").
    + unfold Vec.well_formed. simpl. lia.
    + split; reflexivity.
    + reflexivity.
  - apply (vec_push_keeps_elements false
             (Vec.mk_vec [Vec.Stored "a"; Vec.Stored "b"] 16 2 8) ["a"; "b"] "c").
    + unfold Vec.well_formed. simpl. lia.
    + split; reflexivity.
    + reflexivity.
Defined.

Lemma push_all_represents {A} (xs : list A) :
  forall (v : Vec.vec_t A) (l : list A),
    Vec.well_formed v -> Vec.represents v l -> block_fits v (length l) ->
    4 * Vec.elem_size v * (Z.of_nat (length l + length xs) + 1) < 2 ^ 64 ->
    exists v',
      Vec.push_all v xs = Ok v'
      /\ Vec.well_formed v' /\ Vec.represents v' (l ++ xs)
      /\ block_fits v' (length (l ++ xs))
      /\ Vec.elem_size v' = Vec.elem_size v.
Proof.
  induction xs as [|x xs IH]; intros v l Hwf Hrep Hfits Hbound.
  - exists v. rewrite app_nil_r. simpl. auto.
  - assert (Hes : 0 < Vec.elem_size v) by apply Hwf.
    assert (Hn : Vec.npos v = Z.of_nat (length l)) by apply Hrep.
    assert (Hlen2 : Vec.len v * 2 < 2 ^ 64).
    { destruct Hfits as [[H0 Hl] | [H1 Hl]]; simpl length in Hbound; nia. }
    destruct (vec_push_represents v l x Hwf Hrep Hlen2)
      as (v1 & Hpush & Hwf1 & Hrep1 & Hes1 & Hlen1).
    cbn [Vec.push_all]. rewrite Hpush. cbn [res_bind snd].
    assert (Hfits1 : block_fits v1 (length (l ++ [x]))).
    { unfold block_fits. rewrite Hes1, Hlen1, Hn, length_app. simpl length. right.
      assert (Hmult : exists k, Vec.len v = Z.of_nat k * Vec.elem_size v).
      { exists (length (Vec.data v)). apply Hwf. }
      destruct Hmult as (k & Hk).
      destruct (Z.leb_spec ((Z.of_nat (length l) + 1) * Vec.elem_size v) (Vec.len v))
        as [Hroom | Hfull].
      - destruct Hfits as [[H0 Hl] | [H1 Hl]]; split; try lia; nia.
      - assert (Hfit : Z.of_nat (length l) * Vec.elem_size v <= Vec.len v).
        { rewrite <- Hn. apply Hwf. }
        assert (Hk1 : Z.of_nat k < Z.of_nat (length l) + 1).
        { apply (Z.mul_lt_mono_pos_r (Vec.elem_size v)); lia. }
        assert (Hk2 : Z.of_nat (length l) <= Z.of_nat k).
        { apply (Z.mul_le_mono_pos_r _ _ (Vec.elem_size v)); lia. }
        assert (Hkl : k = length l) by lia. subst k.
        destruct Hfits as [[H0 Hl] | [H1 Hl]].
        + rewrite H0 in Hk. simpl in Hk. lia.
        + split; [lia | nia]. }
    destruct (IH v1 (l ++ [x]) Hwf1 Hrep1 Hfits1) as (v' & Hall & Hwf' & Hrep' & Hfits' & Hes').
    { rewrite Hes1, length_app. simpl length in *.
      replace (Z.of_nat (length l + 1 + length xs))
        with (Z.of_nat (length l + S (length xs))) by lia.
      exact Hbound. }
    exists v'. rewrite <- app_assoc in Hrep', Hfits'. simpl app in Hrep', Hfits'.
    split; [exact Hall|]. split; [exact Hwf'|]. split; [exact Hrep'|].
    split; [exact Hfits' | congruence].
Qed.

(** X24.  [vec_init] followed by any number of pushes, every allocation
    succeeding and the sizes staying below [2 ^ 64]: every push returns 1, no
    byte is written or copied outside a block, and the vector in the end is
    well formed and holds exactly the pushed elements, in the order of the
    pushes.  Its block is one element long when nothing was pushed, and
    otherwise large enough for the elements and less than twice as large. *)
Theorem vec_init_push_all {A} (elem_size : Z) (xs : list A) :
  0 < elem_size ->
  4 * elem_size * (Z.of_nat (length xs) + 1) < 2 ^ 64 ->
  exists v0 v',
    Vec.vec_init true elem_size = Some v0
    /\ Vec.push_all v0 xs = Ok v'
    /\ Vec.well_formed v' /\ Vec.represents v' xs
    /\ block_fits v' (length xs)
    /\ Vec.elem_size v' = elem_size.
Proof.
  intros Hes Hbound.
  exists (Vec.mk_vec [Vec.Zeroed] elem_size 0 elem_size).
  destruct (push_all_represents xs (Vec.mk_vec [Vec.Zeroed] elem_size 0 elem_size) [])
    as (v' & Hpush & Hwf & Hrep & Hfits & Hsize).
  - unfold Vec.well_formed. cbn [Vec.data Vec.len Vec.npos Vec.elem_size length]. lia.
  - split; reflexivity.
  - left. split; reflexivity.
  - cbn [Vec.elem_size length Nat.add]. exact Hbound.
  - exists v'. split; [reflexivity|]. auto.
Qed.

Lemma vec_init_push_all_witness :
  exists v0 v',
    Vec.vec_init true cp_size = Some v0
    /\ Vec.push_all v0 [Some "ls"; Some "-l"; Some "/tmp"] = Ok v'
    /\ Vec.well_formed v'
    /\ Vec.represents v' [Some "ls"; Some "-l"; Some "/tmp"]
    /\ block_fits v' 3
    /\ Vec.elem_size v' = cp_size.
Proof.
  apply (vec_init_push_all cp_size [Some "ls"; Some "-l"; Some "/tmp"]).
  - reflexivity.
  - reflexivity.
Defined.

(** ** Clearing the token vector *)

Lemma clear_tokens_run (l : list (option string)) :
  forall (done back : list (Vec.slot (option string))),
    Vec.clear_tokens (length l) (Z.of_nat (length done))
                     (done ++ map Vec.Stored l ++ back)
    = Ok (pointers l, done ++ map (fun _ => Vec.Stored None) l ++ back).
Proof.
  induction l as [|p l IH]; intros done back; [reflexivity|].
  cbn [length Vec.clear_tokens map app].
  change (Z.of_nat (length done)) with (npos done).
  rewrite vec_get_middle. cbn [res_bind Vec.slot_pointer].
  unfold vec_set.
  destruct (Z.ltb_spec (npos done) 0) as [Hneg|_].
  { pose proof (npos_nonneg done). lia. }
  unfold npos at 1. rewrite Nat2Z.id, list_set_end. cbn [res_bind].
  replace (done ++ Vec.Stored None :: map Vec.Stored l ++ back)
    with ((done ++ [Vec.Stored None]) ++ map Vec.Stored l ++ back)
    by (now rewrite <- app_assoc).
  replace (npos done + 1) with (Z.of_nat (length (done ++ [Vec.Stored None])))
    by (unfold npos; rewrite length_app; simpl; lia).
  rewrite IH. cbn [res_bind fst snd]. rewrite <- app_assoc.
  destruct p; reflexivity.
Qed.

(** X25.  [vec_clear] with [token_vec_clear_policy], on a well-formed vector
    of pointers: it reads no slot that was never written, frees each pointer
    that is not NULL once, in the order of the vector, and leaves NULL in
    each slot that was in use.  Afterwards the vector is empty and well formed, with the
    block and its size as they were. *)
Theorem vec_clear_tokens_run (v : Vec.vec_t (option string)) (l : list (option string)) :
  Vec.well_formed v -> Vec.represents v l ->
  exists v',
    Vec.vec_clear_tokens v = Ok (pointers l, v')
    /\ Vec.npos v' = 0 /\ Vec.len v' = Vec.len v /\ Vec.elem_size v' = Vec.elem_size v
    /\ firstn (length l) (Vec.data v') = repeat (Vec.Stored None) (length l)
    /\ Vec.well_formed v' /\ Vec.represents v' [].
Proof.
  intros (Hes & Hlen & Hcap & Hn0 & Hfit) [Hnpos Hfirst].
  assert (Hdata : Vec.data v = map Vec.Stored l ++ skipn (length l) (Vec.data v)).
  { rewrite <- Hfirst. symmetry. apply firstn_skipn. }
  assert (Hrun : Vec.clear_tokens (Z.to_nat (Vec.npos v)) 0 (Vec.data v)
                 = Ok (pointers l,
                       map (fun _ => Vec.Stored None) l ++ skipn (length l) (Vec.data v))).
  { rewrite Hnpos, Nat2Z.id. rewrite Hdata at 1.
    exact (clear_tokens_run l [] (skipn (length l) (Vec.data v))). }
  unfold Vec.vec_clear_tokens, Vec.token_vec_clear_policy.
  rewrite Hrun. cbn [res_bind fst snd Vec.data Vec.len Vec.elem_size].
  eexists. split; [reflexivity|].
  cbn [Vec.npos Vec.len Vec.elem_size Vec.data].
  assert (Hcells : length (map (fun _ : option string => @Vec.Stored (option string) None) l
                           ++ skipn (length l) (Vec.data v))
                   = length (Vec.data v)).
  { rewrite length_app, length_map, length_skipn.
    assert (length l <= length (Vec.data v))%nat; [|lia].
    apply (f_equal (@List.length _)) in Hfirst.
    rewrite length_firstn, length_map in Hfirst. lia. }
  split; [reflexivity|]. split; [reflexivity|]. split; [reflexivity|].
  split; [|split].
  - rewrite firstn_app, length_map, Nat.sub_diag. simpl firstn. rewrite app_nil_r.
    rewrite firstn_all2 by (rewrite length_map; lia).
    clear. induction l; simpl; [reflexivity | now f_equal].
  - unfold Vec.well_formed. cbn [Vec.data Vec.len Vec.npos Vec.elem_size].
    rewrite Hcells. repeat split; lia.
  - split; reflexivity.
Qed.

Lemma vec_clear_tokens_run_witness :
  let v := Vec.mk_vec [Vec.Stored (Some "ls"); Vec.Stored None; Vec.Stored (Some "-l");
                       Vec.Indeterminate] 32 3 8 in
  exists v',
    Vec.vec_clear_tokens v = Ok (["ls"; "-l"], v')
    /\ Vec.npos v' = 0 /\ Vec.len v' = 32 /\ Vec.elem_size v' = 8
    /\ firstn 3 (Vec.data v') = [Vec.Stored None; Vec.Stored None; Vec.Stored None]
    /\ Vec.well_formed v' /\ Vec.represents v' [].
Proof.
  apply (vec_clear_tokens_run
           (Vec.mk_vec [Vec.Stored (Some "ls"); Vec.Stored None; Vec.Stored (Some "-l");
                        Vec.Indeterminate] 32 3 8)
           [Some "ls"; None; Some "-l"]).
  - unfold Vec.well_formed. simpl. lia.
  - split; reflexivity.
Defined.

(* ================================================================== *)
(** * The run of main *)

Lemma shell_halt_crashed : shell_halt Crashed.
Proof. now right. Qed.

Lemma shell_halt_exit : shell_halt (Exited EXIT_SUCCESS).
Proof. now left. Qed.

Lemma stops_only_chdir (ok : halt -> Prop) (os : os_env) (path : string) :
  stops_only ok (chdir os path).
Proof.
  intros s h. unfold chdir. destruct (os_chdir os (st_cwd s) path); discriminate.
Qed.

Lemma stops_only_launch_process (ok : halt -> Prop) (os : os_env)
    (p_command : res command_t) (options : Z) (fd : list descriptor) (idx : Z) :
  stops_only ok (launch_process os p_command options fd idx).
Proof.
  intros s h. unfold launch_process, fork.
  destruct (os_fork os (st_forks s)) as [p|].
  - change (Z.pos p =? 0) with false. change (Z.pos p =? -1) with false. cbv iota.
    destruct (if 0 =? 0 then _ else _) as [out cs]. discriminate.
  - change (-1 =? 0) with false. change (-1 =? -1) with true. cbv iota. discriminate.
Qed.

Lemma stops_only_launch_process_chain (os : os_env) (p_vec : list command_t) :
  stops_only shell_halt (launch_process_chain os p_vec).
Proof.
  pose proof shell_halt_crashed as Hc.
  unfold launch_process_chain. cbv zeta.
  apply stops_only_bind; [apply stops_only_modify_globals | intros _].
  apply stops_only_bind.
  { apply stops_only_for_count. intros i acc.
    apply stops_only_bind; [apply stops_only_emit | intros _; apply stops_only_ret]. }
  intros fd.
  apply stops_only_bind; [apply stops_only_launch_process | intros pid].
  apply stops_only_bind; [now apply stops_only_lift | intros pids].
  apply stops_only_bind.
  { apply stops_only_for_count. intros i acc.
    apply stops_only_bind; [apply stops_only_launch_process | intros pid'].
    now apply stops_only_lift. }
  intros pids'.
  apply stops_only_bind; [apply stops_only_launch_process | intros pid'].
  apply stops_only_bind; [now apply stops_only_lift | intros pids''].
  apply stops_only_bind.
  { apply stops_only_for_count. intros i acc. now apply stops_only_close_fd. }
  intros _.
  apply stops_only_bind; [apply stops_only_get_globals | intros g].
  destruct (negb (global_bkg_proc g)); [|apply stops_only_modify_globals].
  apply stops_only_for_count. intros i acc.
  apply stops_only_bind; [now apply stops_only_lift | intros pid''].
  destruct (negb (pid'' =? 0)); [apply stops_only_emit | apply stops_only_ret].
Qed.

Lemma stops_only_eval_builtin_cmds (os : os_env) (p_vec : list string) :
  stops_only shell_halt (eval_builtin_cmds os p_vec).
Proof.
  pose proof shell_halt_crashed as Hc.
  assert (Hcd : forall dir, stops_only shell_halt (cd_to os dir)).
  { intros dir. unfold cd_to.
    apply stops_only_bind; [apply stops_only_chdir | intros r].
    destruct (r =? -1); [apply stops_only_emit | apply stops_only_ret]. }
  unfold eval_builtin_cmds. apply stops_only_for_count. intros i acc.
  unfold eval_builtin.
  apply stops_only_bind; [apply stops_only_get_globals | intros g].
  apply stops_only_bind; [now apply stops_only_lift | intros tagged_at].
  destruct (negb (tagged_at =? -1)); [|apply stops_only_ret].
  destruct (i =? CMD_EXIT); [apply stops_only_halt_with, shell_halt_exit|].
  destruct (i =? CMD_CD); [|apply stops_only_ret].
  destruct (npos p_vec =? 1).
  - apply stops_only_bind; [|apply Hcd].
    destruct (os_getenv_HOME os); [apply stops_only_ret|].
    destruct (os_pw_dir os); [apply stops_only_ret | now apply stops_only_halt_with].
  - destruct (npos p_vec =? 2); [|apply stops_only_emit].
    apply stops_only_bind; [now apply stops_only_lift | apply Hcd].
Qed.

Lemma stops_only_shell_eval (os : os_env) (p_vec : list string) :
  stops_only shell_halt (shell_eval os p_vec).
Proof.
  pose proof shell_halt_crashed as Hc.
  unfold shell_eval.
  destruct (npos p_vec =? 0); [apply stops_only_ret|].
  apply stops_only_bind; [apply stops_only_get_globals | intros g]. cbv zeta.
  destruct (negb (is_parse_error (parse_builtin_cmds p_vec g))
            && negb (global_num_builtins g =? 0));
    [apply stops_only_eval_builtin_cmds|].
  destruct (is_parse_error (parse_builtin_cmds p_vec g)); [apply stops_only_emit|].
  destruct (global_num_commands g =? 1).
  - apply stops_only_bind; [now apply stops_only_lift | intros [[r command] g1]].
    apply stops_only_bind; [apply stops_only_modify_globals | intros _].
    destruct (is_parse_error r); [apply stops_only_emit|].
    apply stops_only_bind; [apply stops_only_launch_process | intros pid].
    apply stops_only_bind; [apply stops_only_get_globals | intros g2].
    destruct (negb (global_bkg_proc g2)); [|apply stops_only_modify_globals].
    destruct (negb (pid =? 0)); [apply stops_only_emit | apply stops_only_ret].
  - apply stops_only_bind; [now apply stops_only_lift | intros [[r command_vec] g1]].
    apply stops_only_bind; [apply stops_only_modify_globals | intros _].
    destruct (is_parse_error r); [apply stops_only_emit|].
    apply stops_only_launch_process_chain.
Qed.

Lemma stops_only_shell_read (os : os_env) (line : option (list lexeme))
    (p_vec : list string) :
  stops_only shell_halt (shell_read line p_vec).
Proof.
  unfold shell_read.
  apply stops_only_bind; [apply stops_only_modify_globals | intros _].
  apply stops_only_bind; [apply stops_only_modify_globals | intros _].
  apply stops_only_bind; [apply stops_only_modify_globals | intros _].
  destruct line as [buffer|]; [|apply stops_only_halt_with, shell_halt_exit].
  apply stops_only_bind; [apply stops_only_get_globals | intros g].
  apply stops_only_bind; [apply stops_only_lift, shell_halt_crashed | intros st].
  apply stops_only_bind; [apply stops_only_modify_globals | intros _].
  apply stops_only_ret.
Qed.

Lemma stops_only_shell_turn (os : os_env) (line : option (list lexeme)) :
  stops_only shell_halt (shell_turn os line).
Proof.
  unfold shell_turn.
  apply stops_only_bind; [apply (stops_only_shell_read os) | intros p_vec].
  apply stops_only_shell_eval.
Qed.

(** At the end of the input the shell exits. *)
Lemma shell_turn_end_of_input (os : os_env) :
  stops (fun h => h = Exited EXIT_SUCCESS) (shell_turn os None).
Proof. intros s. eexists. split; reflexivity. Qed.

Lemma stops_only_returns {A} (ok : halt -> Prop) (m : M A) :
  returns m -> stops_only ok m.
Proof. intros Hm s h H. destruct (Hm s) as (a & Ha). congruence. Qed.

Lemma stops_weaken {A} (ok ok' : halt -> Prop) (m : M A) :
  (forall h, ok h -> ok' h) -> stops ok m -> stops ok' m.
Proof. intros Himp Hm s. destruct (Hm s) as (h & Hh & Hok). eauto. Qed.

Lemma stops_bind_first {A B} (ok : halt -> Prop) (m : M A) (k : A -> M B) :
  stops ok m -> stops ok (bind m k).
Proof.
  intros Hm s. unfold bind. destruct (Hm s) as (h & Hh & Hok).
  destruct (m s) as [[a|h'] s']; cbn [fst] in Hh; [discriminate|].
  injection Hh as ->. exists h. auto.
Qed.

Lemma main_options_run (argv : list string) (s : proc_state) :
  main_options argv s
  = (Returned tt,
     if (2 <=? npos argv) && match nth_error argv 1 with
                             | Some arg => String.eqb "-n" arg
                             | None => false
                             end
     then with_globals (set_print_shell_context false (st_globals s)) s
     else s).
Proof.
  unfold main_options.
  destruct (Z.leb_spec 2 (npos argv)) as [Hargc|Hargc]; [|reflexivity].
  destruct (vec_get_in_range argv 1) as (arg & Hget & _); [lia|].
  unfold bind. rewrite Hget. cbn [lift]. unfold ret at 1.
  assert (Hnth : nth_error argv 1 = Some arg).
  { unfold vec_get in Hget. change (1 <? 0) with false in Hget.
    change (Z.to_nat 1) with 1%nat in Hget. cbv iota in Hget.
    destruct (nth_error argv 1) as [a|]; [|discriminate].
    injection Hget as ->. reflexivity. }
  rewrite Hnth. cbn [andb].
  destruct (String.eqb "-n" arg); reflexivity.
Qed.

(** [main] up to [vec_init]: the handler is installed and the options read. *)
Lemma main_start_run (argv : list string) (s : proc_state) {A} (k : M A) :
  (signal "SIGCHLD" "sigchld_handler" ;; main_options argv ;; k) s
  = k (append_trace
         (if (2 <=? npos argv) && match nth_error argv 1 with
                                  | Some arg => String.eqb "-n" arg
                                  | None => false
                                  end
          then with_globals (set_print_shell_context false (st_globals s)) s
          else s)
         [EvSignal "SIGCHLD" "sigchld_handler"]).
Proof.
  unfold bind at 1. unfold signal, emit. cbv beta iota.
  unfold bind at 1. rewrite main_options_run.
  destruct ((2 <=? npos argv) && _); reflexivity.
Qed.

Lemma bind_returned {A B} (m : M A) (k : A -> M B) (s : proc_state) (b : B) :
  fst (bind m k s) = Returned b ->
  exists a s', m s = (Returned a, s') /\ fst (k a s') = Returned b.
Proof.
  unfold bind. destruct (m s) as [[a|h] s']; [eauto | discriminate].
Qed.

(** The loop of [main] comes back only when its fuel is used up. *)
Lemma main_loop_returns (os : os_env) (disp_prompt : M unit) (fuel : nat) :
  forall input s r,
    fst (main_loop os disp_prompt fuel input s) = Returned r -> r = OutOfFuel.
Proof.
  induction fuel as [|fuel IH]; intros input s r; cbn [main_loop].
  - unfold ret. cbn [fst]. now intros [= <-].
  - intros Hrun.
    apply bind_returned in Hrun. destruct Hrun as (g & s1 & _ & Hrun).
    apply bind_returned in Hrun. destruct Hrun as (? & s2 & _ & Hrun).
    apply bind_returned in Hrun. destruct Hrun as (? & s3 & _ & Hrun).
    exact (IH _ _ _ Hrun).
Qed.

Lemma main_loop_stops_only (os : os_env) (disp_prompt : M unit) (fuel : nat) :
  returns disp_prompt ->
  forall input, stops_only shell_halt (main_loop os disp_prompt fuel input).
Proof.
  intros Hprompt. induction fuel as [|fuel IH]; intros input; cbn [main_loop].
  - apply stops_only_ret.
  - apply stops_only_bind; [apply stops_only_get_globals | intros g].
    apply stops_only_bind.
    { destruct (global_print_shell_context g);
        [now apply stops_only_returns | apply stops_only_ret]. }
    intros _. apply stops_only_bind; [apply stops_only_shell_turn | intros _].
    apply IH.
Qed.

(** X26.  [main] first installs [sigchld_handler] for [SIGCHLD].  When
    [vec_init] fails, it then prints [ERROR: failed to initialize vector] and
    returns [EXIT_FAILURE], having done nothing else.  Otherwise [main] never
    returns, whatever the lines hold and however long the loop runs: the only
    ways the shell itself ends are [exit(EXIT_SUCCESS)] and a crash; and when
    [fgets] finds the input at its end in the first turn, the shell does end,
    with [exit(EXIT_SUCCESS)].  Whether a turn that waits for a child comes
    to its end is the child's matter, and not stated.  (The allocations made
    while a line is handled are taken to succeed.) *)
Theorem main_ends (os : os_env) (print_intro_msg disp_prompt : M unit)
    (argv : list string) (calloc_ok : bool) (fuel : nat) (input : list (list lexeme))
    (s : proc_state) :
  returns print_intro_msg -> returns disp_prompt ->
  let run := main os print_intro_msg disp_prompt argv calloc_ok fuel input s in
  if calloc_ok
  then (forall status, fst run <> Returned (Ok status))
       /\ (forall h, fst run = Halted h -> shell_halt h)
       /\ (input = [] -> (1 <= fuel)%nat -> fst run = Halted (Exited EXIT_SUCCESS))
  else fst run = Returned (Ok EXIT_FAILURE)
       /\ new_calls s (snd run)
          = [EvSignal "SIGCHLD" "sigchld_handler";
             EvPuts "ERROR: failed to initialize vector"].
Proof.
  intros Hintro Hprompt. cbv zeta.
  assert (Hsignal : returns (signal "SIGCHLD" "sigchld_handler")).
  { intros s'. exists tt. reflexivity. }
  assert (Hoptions : returns (main_options argv)).
  { intros s'. rewrite main_options_run. eexists. reflexivity. }
  assert (Hi : forall g : globals,
             returns (if global_print_shell_context g then print_intro_msg else ret tt)).
  { intros g. destruct (global_print_shell_context g); [exact Hintro|].
    intros s'. exists tt. reflexivity. }
  assert (Hp : forall g : globals,
             returns (if global_print_shell_context g then disp_prompt else ret tt)).
  { intros g. destruct (global_print_shell_context g); [exact Hprompt|].
    intros s'. exists tt. reflexivity. }
  destruct calloc_ok.
  - unfold main. cbn [Vec.vec_init negb]. split; [|split].
    + intros status Hrun.
      apply bind_returned in Hrun. destruct Hrun as (? & s1 & _ & Hrun).
      apply bind_returned in Hrun. destruct Hrun as (? & s2 & _ & Hrun).
      apply bind_returned in Hrun. destruct Hrun as (g & s3 & _ & Hrun).
      apply bind_returned in Hrun. destruct Hrun as (? & s4 & _ & Hrun).
      apply main_loop_returns in Hrun. discriminate.
    + revert s. change (stops_only shell_halt
                          (main os print_intro_msg disp_prompt argv true fuel input)).
      unfold main. cbn [Vec.vec_init negb].
      apply stops_only_bind; [now apply stops_only_returns | intros _].
      apply stops_only_bind; [now apply stops_only_returns | intros _].
      apply stops_only_bind; [apply stops_only_get_globals | intros g].
      apply stops_only_bind; [now apply stops_only_returns | intros _].
      now apply main_loop_stops_only.
    + intros -> Hfuel. destruct fuel as [|fuel]; [lia|].
      assert (Hstops : stops (fun h => h = Exited EXIT_SUCCESS)
                             (main os print_intro_msg disp_prompt argv true (S fuel) [])).
      { unfold main. cbn [Vec.vec_init negb main_loop next_line fst snd].
        apply stops_bind; [now apply stops_only_returns | intros _].
        apply stops_bind; [now apply stops_only_returns | intros _].
        apply stops_bind; [apply stops_only_get_globals | intros g].
        apply stops_bind; [now apply stops_only_returns | intros _].
        apply stops_bind; [apply stops_only_get_globals | intros g'].
        apply stops_bind; [now apply stops_only_returns | intros _].
        apply stops_bind_first. apply shell_turn_end_of_input. }
      destruct (Hstops s) as (h & Hh & ->). exact Hh.
  - unfold main. rewrite main_start_run. cbn [Vec.vec_init negb].
    unfold bind, puts, emit, ret. cbn [fst snd]. split; [reflexivity|].
    destruct ((2 <=? npos argv) && _);
      unfold append_trace, with_globals, new_calls;
      cbn [st_trace st_globals st_cwd st_forks st_children];
      rewrite <- app_assoc; apply skipn_length_app.
Qed.

Lemma main_ends_witness :
  let run := main os_example (ret tt) (ret tt) ["myshell"] true 3
                  [[(RULE_WORD, "ls")]; [(RULE_CD, "cd"); (RULE_WORD, "/nope")]]
                  state_init in
  (forall status, fst run <> Returned (Ok status))
  /\ (forall h, fst run = Halted h -> shell_halt h).
Proof.
  cbv zeta.
  destruct (main_ends os_example (ret tt) (ret tt) ["myshell"] true 3
              [[(RULE_WORD, "ls")]; [(RULE_CD, "cd"); (RULE_WORD, "/nope")]] state_init)
    as (Hnever & Hhalt & _).
  - intros s. exists tt. reflexivity.
  - intros s. exists tt. reflexivity.
  - split; assumption.
Defined.

(** ** The option [-n] *)

Lemma keeps_context_same {A} (b : bool) (m : M A) :
  (forall s, st_globals (snd (m s)) = st_globals s) -> keeps_context b m.
Proof. intros H s Hs. now rewrite H. Qed.

Lemma keeps_context_ret {A} (b : bool) (a : A) : keeps_context b (ret a).
Proof. now apply keeps_context_same. Qed.

Lemma keeps_context_halt_with {A} (b : bool) (h : halt) :
  keeps_context b (@halt_with A h).
Proof. now apply keeps_context_same. Qed.

Lemma keeps_context_emit (b : bool) (e : event) : keeps_context b (emit e).
Proof. now apply keeps_context_same. Qed.

Lemma keeps_context_lift {A} (b : bool) (r : res A) : keeps_context b (lift r).
Proof. destruct r; now apply keeps_context_same. Qed.

Lemma keeps_context_modify (b : bool) (f : globals -> globals) :
  (forall g, global_print_shell_context g = b -> global_print_shell_context (f g) = b) ->
  keeps_context b (modify_globals f).
Proof. intros Hf s Hs. cbn. now apply Hf. Qed.

Lemma keeps_context_bind {A B} (b : bool) (m : M A) (k : A -> M B) :
  keeps_context b m -> (forall a, keeps_context b (k a)) -> keeps_context b (bind m k).
Proof.
  intros Hm Hk s Hs. unfold bind. specialize (Hm s Hs).
  destruct (m s) as [[a|h] s']; cbn [snd] in *; [now apply Hk | assumption].
Qed.

Lemma keeps_context_get_globals {B} (b : bool) (k : globals -> M B) :
  (forall g, global_print_shell_context g = b -> keeps_context b (k g)) ->
  keeps_context b (bind get_globals k).
Proof. intros Hk s Hs. unfold bind, get_globals. now apply Hk. Qed.

Lemma keeps_context_lift_bind {A B} (b : bool) (r : res A) (k : A -> M B) :
  (forall a, r = Ok a -> keeps_context b (k a)) -> keeps_context b (bind (lift r) k).
Proof.
  intros Hk s Hs. unfold bind. destruct r as [a| |]; cbn [lift ret halt_with];
    [now apply (Hk a) | exact Hs | exact Hs].
Qed.

Lemma keeps_context_for_count {T} (b : bool) (body : Z -> T -> M T) (n : nat) :
  (forall i acc, keeps_context b (body i acc)) ->
  forall idx acc, keeps_context b (for_count n idx body acc).
Proof.
  intros Hbody. induction n as [|n IH]; intros idx acc; simpl.
  - apply keeps_context_ret.
  - apply keeps_context_bind; [apply Hbody | intros a; apply IH].
Qed.

Lemma keeps_context_chdir (b : bool) (os : os_env) (path : string) :
  keeps_context b (chdir os path).
Proof.
  apply keeps_context_same. intros s. unfold chdir.
  destruct (os_chdir os (st_cwd s) path); reflexivity.
Qed.

Lemma keeps_context_launch_process (b : bool) (os : os_env) (p_command : res command_t)
    (options : Z) (fd : list descriptor) (idx : Z) :
  keeps_context b (launch_process os p_command options fd idx).
Proof.
  apply keeps_context_same. intros s. unfold launch_process, fork.
  destruct (os_fork os (st_forks s)) as [p|].
  - change (Z.pos p =? 0) with false. change (Z.pos p =? -1) with false. cbv iota.
    destruct (if 0 =? 0 then _ else _) as [out cs]. reflexivity.
  - reflexivity.
Qed.

Lemma keeps_context_launch_process_chain (b : bool) (os : os_env)
    (p_vec : list command_t) :
  keeps_context b (launch_process_chain os p_vec).
Proof.
  unfold launch_process_chain. cbv zeta.
  apply keeps_context_bind; [now apply keeps_context_modify | intros _].
  apply keeps_context_bind.
  { apply keeps_context_for_count. intros i acc.
    apply keeps_context_bind; [apply keeps_context_emit | intros _; apply keeps_context_ret]. }
  intros fd.
  apply keeps_context_bind; [apply keeps_context_launch_process | intros pid].
  apply keeps_context_bind; [apply keeps_context_lift | intros pids].
  apply keeps_context_bind.
  { apply keeps_context_for_count. intros i acc.
    apply keeps_context_bind; [apply keeps_context_launch_process | intros pid'].
    apply keeps_context_lift. }
  intros pids'.
  apply keeps_context_bind; [apply keeps_context_launch_process | intros pid'].
  apply keeps_context_bind; [apply keeps_context_lift | intros pids''].
  apply keeps_context_bind.
  { apply keeps_context_for_count. intros i acc. unfold close_fd.
    apply keeps_context_bind; [apply keeps_context_lift | intros d].
    apply keeps_context_emit. }
  intros _.
  apply keeps_context_bind; [now apply keeps_context_same | intros g].
  destruct (negb (global_bkg_proc g)); [|now apply keeps_context_modify].
  apply keeps_context_for_count. intros i acc.
  apply keeps_context_bind; [apply keeps_context_lift | intros pid''].
  destruct (negb (pid'' =? 0)); [apply keeps_context_emit | apply keeps_context_ret].
Qed.

Lemma keeps_context_eval_builtin_cmds (b : bool) (os : os_env) (p_vec : list string) :
  keeps_context b (eval_builtin_cmds os p_vec).
Proof.
  assert (Hcd : forall dir, keeps_context b (cd_to os dir)).
  { intros dir. unfold cd_to.
    apply keeps_context_bind; [apply keeps_context_chdir | intros r].
    destruct (r =? -1); [apply keeps_context_emit | apply keeps_context_ret]. }
  unfold eval_builtin_cmds. apply keeps_context_for_count. intros i acc.
  unfold eval_builtin.
  apply keeps_context_bind; [now apply keeps_context_same | intros g].
  apply keeps_context_bind; [apply keeps_context_lift | intros tagged_at].
  destruct (negb (tagged_at =? -1)); [|apply keeps_context_ret].
  destruct (i =? CMD_EXIT); [apply keeps_context_halt_with|].
  destruct (i =? CMD_CD); [|apply keeps_context_ret].
  destruct (npos p_vec =? 1).
  - apply keeps_context_bind; [|apply Hcd].
    destruct (os_getenv_HOME os); [apply keeps_context_ret|].
    destruct (os_pw_dir os); [apply keeps_context_ret | apply keeps_context_halt_with].
  - destruct (npos p_vec =? 2); [|apply keeps_context_emit].
    apply keeps_context_bind; [apply keeps_context_lift | apply Hcd].
Qed.

Lemma keeps_context_shell_eval (b : bool) (os : os_env) (p_vec : list string) :
  keeps_context b (shell_eval os p_vec).
Proof.
  unfold shell_eval.
  destruct (npos p_vec =? 0); [apply keeps_context_ret|].
  apply keeps_context_get_globals. intros g Hg. cbv zeta.
  destruct (negb (is_parse_error (parse_builtin_cmds p_vec g))
            && negb (global_num_builtins g =? 0));
    [apply keeps_context_eval_builtin_cmds|].
  destruct (is_parse_error (parse_builtin_cmds p_vec g)); [apply keeps_context_emit|].
  destruct (global_num_commands g =? 1).
  - apply keeps_context_lift_bind. intros [[r command] g1] Hparse.
    assert (Hg1 : global_print_shell_context g1 = b).
    { destruct (parse_single_command_globals _ _ _ _ _ _ Hparse) as [-> | ->];
        exact Hg. }
    apply keeps_context_bind; [now apply keeps_context_modify | intros _].
    destruct (is_parse_error r); [apply keeps_context_emit|].
    apply keeps_context_bind; [apply keeps_context_launch_process | intros pid].
    apply keeps_context_bind; [now apply keeps_context_same | intros g2].
    destruct (negb (global_bkg_proc g2)); [|now apply keeps_context_modify].
    destruct (negb (pid =? 0)); [apply keeps_context_emit | apply keeps_context_ret].
  - apply keeps_context_lift_bind. intros [[r command_vec] g1] Hparse.
    assert (Hg1 : global_print_shell_context g1 = b).
    { pose proof (parse_multiple_commands_rel p_vec [] g g) as Hrel.
      rewrite Hparse in Hrel. cbn [parse_rel] in Hrel.
      destruct Hrel as (_ & np & raised & -> & _). exact Hg. }
    apply keeps_context_bind; [now apply keeps_context_modify | intros _].
    destruct (is_parse_error r); [apply keeps_context_emit|].
    apply keeps_context_launch_process_chain.
Qed.

Lemma keeps_context_shell_turn (b : bool) (os : os_env) (line : option (list lexeme)) :
  keeps_context b (shell_turn os line).
Proof.
  unfold shell_turn.
  apply keeps_context_bind; [|intros p_vec; apply keeps_context_shell_eval].
  unfold shell_read.
  apply keeps_context_bind; [now apply keeps_context_modify | intros _].
  apply keeps_context_bind; [now apply keeps_context_modify | intros _].
  apply keeps_context_bind; [now apply keeps_context_modify | intros _].
  destruct line as [buffer|]; [|apply keeps_context_halt_with].
  apply keeps_context_get_globals. intros g Hg.
  apply keeps_context_lift_bind. intros [target g1] Hscan.
  apply lexer_parse_buffer_tokens in Hscan. destruct Hscan as (_ & _ & _ & Hrest).
  apply keeps_context_bind; [|intros _; apply keeps_context_ret].
  apply keeps_context_modify. intros _ _. cbn [snd].
  destruct Hrest as (_ & Hctx & _). congruence.
Qed.

(** Without the shell context the loop does not call [disp_prompt]. *)
Lemma main_loop_quiet (os : os_env) (disp_prompt : M unit) (fuel : nat) :
  forall input s,
    global_print_shell_context (st_globals s) = false ->
    main_loop os disp_prompt fuel input s = main_loop os (ret tt) fuel input s.
Proof.
  induction fuel as [|fuel IH]; intros input s Hs; [reflexivity|].
  cbn [main_loop]. unfold bind, get_globals. rewrite Hs.
  change (@ret unit tt s) with (@Returned unit tt, s). cbv iota beta.
  pose proof (keeps_context_shell_turn false os (fst (next_line input)) s Hs) as Hkeep.
  destruct (shell_turn os (fst (next_line input)) s) as [[[]|h] s']; [|reflexivity].
  apply IH. exact Hkeep.
Qed.

(** X27.  With [-n] as its first argument the shell calls neither
    [print_intro_msg] nor [disp_prompt], on any input: no line the shell
    reads turns [global_print_shell_context] on again, so that the run of
    [main] is the one with both functions doing nothing. *)
Theorem main_option_n (os : os_env) (print_intro_msg disp_prompt : M unit)
    (program : string) (more : list string) (calloc_ok : bool) (fuel : nat)
    (input : list (list lexeme)) (s : proc_state) :
  main os print_intro_msg disp_prompt (program :: "-n" :: more) calloc_ok fuel input s
  = main os (ret tt) (ret tt) (program :: "-n" :: more) calloc_ok fuel input s.
Proof.
  unfold main. destruct calloc_ok; cbn [Vec.vec_init]; [|reflexivity].
  assert (Hargc : (2 <=? npos (program :: "-n" :: more)) = true).
  { apply Z.leb_le. rewrite !npos_cons. pose proof (npos_nonneg more). lia. }
  rewrite !main_start_run, Hargc.
  cbn [nth_error andb]. change (String.eqb "-n" "-n") with true. cbv iota.
  unfold bind, get_globals.
  cbn [st_globals with_globals append_trace global_print_shell_context
                  set_print_shell_context].
  change (@ret unit tt ?x) with (@Returned unit tt, x). cbv iota beta.
  apply main_loop_quiet. reflexivity.
Qed.
